(** * Shallow embedding of selected AndroidFrameworkSource components

    Each module below embeds one source file (or one group of functions of a
    source file) as executable Rocq definitions and then states and proves
    the properties of that code.

    Conventions used throughout:
    - machine integers are [Z] values, with wrap-around written out where the
      source can wrap;
    - byte buffers are [list Z] (one element per [uint8_t]);
    - C and C++ character strings are [list ascii];
    - calls into the platform (system calls, properties, codecs, the ICU
      break engine, the Wi-Fi HAL) are inputs of the model: their results are
      supplied by an environment record or a section variable, and the calls
      the code makes are recorded in a trace. *)

From Stdlib Require Import ZArith Lia Bool Arith Ascii String List.
Import ListNotations.

Local Open Scope Z_scope.

(* ====================================================================== *)
(** * frameworks/opt/net/wifi/libwifi_system/supplicant_manager.cpp *)
(* ====================================================================== *)

Module Supplicant.

Local Open Scope string_scope.
Local Open Scope Z_scope.

(** The [errno] values the code distinguishes after [access]. *)
Inductive errno_t := EACCES | ENOENT | EOTHER.

(** Outcome of the system calls made by one run of
    [ensure_config_file_exists] on one file.  Return values are those of the
    C calls: 0 or -1 for [access] and [chmod], a descriptor or a negative
    value for [open], a byte count, 0 or a negative value for [read]. *)
Record file_syscalls := {
  access_ret : Z;
  access_errno : errno_t;
  chmod_existing_ret : Z;       (* chmod of a file that exists but is EACCES *)
  open_template_ret : Z;        (* open(kSupplicantConfigTemplatePath) *)
  open_dest_ret : Z;            (* open(config_file, O_CREAT|O_RDWR) *)
  read_rets : list Z;           (* successive results of read(srcfd, ...) *)
  chmod_created_ret : Z         (* chmod after the copy *)
}.

(** C converts [true]/[false] to the [int] return type. *)
Definition c_true : Z := 1.
Definition c_false : Z := 0.

(** The copy loop: [while ((nread = read(...)) != 0)].  Once the list of
    recorded [read] results is used up the template is at end of file. *)
Fixpoint copy_loop (reads : list Z) : bool :=
  match reads with
  | [] => true
  | nread :: rest =>
      if nread =? 0 then true
      else if nread <? 0 then false
      else copy_loop rest
  end.

Definition ensure_config_file_exists (sc : file_syscalls) : Z :=
  let ret := access_ret sc in
  if (ret =? 0) || (match access_errno sc with EACCES => true | _ => false end) then
    if negb (ret =? 0) && negb (chmod_existing_ret sc =? 0) then c_false
    else c_true
  else if (match access_errno sc with ENOENT => false | _ => true end) then c_false
  else if open_template_ret sc <? 0 then c_false
  else if open_dest_ret sc <? 0 then c_false
  else if negb (copy_loop (read_rets sc)) then c_false
  else if chmod_created_ret sc <? 0 then c_false
  else c_true.

(** What one iteration of the polling loop observes of the init property. *)
Record poll_obs := {
  pi_found : bool;       (* __system_property_find succeeds *)
  pi_serial : Z;         (* __system_property_serial *)
  pi_value : string      (* __system_property_read *)
}.

Record world := {
  supp_status : string;          (* property_get(kSupplicantInitProperty); "" if unset *)
  primary_conf : file_syscalls;  (* kSupplicantConfigFile *)
  p2p_conf : file_syscalls;      (* kP2pConfigFile *)
  entropy_ret : Z;               (* ensure_entropy_file_exists() *)
  initial_obs : poll_obs;        (* the property just before ctl.start *)
  polls : nat -> poll_obs        (* the property at the i-th poll (0-based) *)
}.

(** Externally visible actions of [StartSupplicant]. *)
Inductive action :=
| WpaCtrlCleanup
| PropertySet (key value : string).

Definition kSupplicantServiceName : string := "wpa_supplicant".

(** [property_get] returns the length of the value. *)
Definition property_get (w : world) : Z := Z.of_nat (String.length (supp_status w)).

(** The loop [while (count-- > 0)], iteration [i] of at most [count] more. *)
Fixpoint poll_loop (count : nat) (i : nat) (have_pi : bool) (serial : Z)
         (polls : nat -> poll_obs) : bool :=
  match count with
  | O => false
  | S count' =>
      let o := polls i in
      let have_pi' := have_pi || pi_found o in
      if have_pi' then
        if negb (pi_serial o =? serial) then
          if String.eqb (pi_value o) "running" then true
          else if String.eqb (pi_value o) "stopped" then false
          else poll_loop count' (S i) have_pi' serial polls
        else poll_loop count' (S i) have_pi' serial polls
      else poll_loop count' (S i) have_pi' serial polls
  end.

Definition StartSupplicant (w : world) : bool * list action :=
  if negb (property_get w =? 0) && String.eqb (supp_status w) "running" then
    (true, [])
  else if ensure_config_file_exists (primary_conf w) <? 0 then
    (false, [])
  else
    let _ := ensure_config_file_exists (p2p_conf w) in
    let have_pi := pi_found (initial_obs w) in
    let serial := if have_pi then pi_serial (initial_obs w) else 0 in
    (poll_loop 200 0 have_pi serial (polls w),
     [WpaCtrlCleanup; PropertySet "ctl.start" kSupplicantServiceName]).

Definition requests_start (tr : list action) : Prop :=
  In (PropertySet "ctl.start" kSupplicantServiceName) tr.

(** A run in which the configuration file is missing and the template cannot
    be opened, while init later reports the service as running. *)
Definition no_template : file_syscalls :=
  {| access_ret := -1; access_errno := ENOENT; chmod_existing_ret := 0;
     open_template_ret := -1; open_dest_ret := 3; read_rets := [];
     chmod_created_ret := 0 |}.

Definition world_no_template : world :=
  {| supp_status := "stopped";
     primary_conf := no_template;
     p2p_conf := no_template;
     entropy_ret := 0;
     initial_obs := {| pi_found := true; pi_serial := 4; pi_value := "stopped" |};
     polls := fun _ => {| pi_found := true; pi_serial := 6; pi_value := "running" |} |}.

(** ** Properties *)

Lemma ensure_config_file_exists_range sc :
  ensure_config_file_exists sc = 0 \/ ensure_config_file_exists sc = 1.
Proof.
  unfold ensure_config_file_exists, c_true, c_false.
  repeat match goal with
         | |- context [if ?b then _ else _] => destruct b
         end; auto.
Qed.

(** The failure branch of [StartSupplicant] tests [< 0], a value the helper
    never returns: whenever the service is not already running the start
    request is issued, whatever happened to the configuration file. *)
Lemma StartSupplicant_ignores_config_failure w :
  supp_status w <> "running" ->
  requests_start (snd (StartSupplicant w)).
Proof.
  intros Hst. unfold StartSupplicant.
  destruct (String.eqb_spec (supp_status w) "running") as [E|_]; [contradiction|].
  rewrite andb_false_r.
  destruct (ensure_config_file_exists_range (primary_conf w)) as [E|E];
    rewrite E; simpl; unfold requests_start; simpl; auto.
Qed.

(** C1 (the code departs from the claim).  With the supplicant reported as
    stopped and the template impossible to open,
    [ensure_config_file_exists] fails (returns [false], i.e. 0), yet
    [StartSupplicant] still asks init to start the service and, init
    reporting it running, returns success; the claim requires a failure
    return and no start request. *)
Theorem C1_start_requested_despite_config_failure :
  supp_status world_no_template <> "running" /\
  ensure_config_file_exists (primary_conf world_no_template) = c_false /\
  StartSupplicant world_no_template =
    (true, [WpaCtrlCleanup; PropertySet "ctl.start" "wpa_supplicant"]).
Proof.
  split; [discriminate|]. split; reflexivity.
Qed.

End Supplicant.

(* ====================================================================== *)
(** * frameworks/av/media/libstagefright/SimpleDecodingSource.cpp *)
(* ====================================================================== *)

Module DecodingSource.

Definition status_t := Z.
Definition OK : status_t := 0.
Definition EINVAL : Z := 22.

(** [enum State] of the header. *)
Inductive State := INIT | STARTED | STOPPING | STOPPED | ERROR.

Definition State_eqb (a b : State) : bool :=
  match a, b with
  | INIT, INIT | STARTED, STARTED | STOPPING, STOPPING
  | STOPPED, STOPPED | ERROR, ERROR => true
  | _, _ => false
  end.

Section WithFormat.

(** The cached output format ([sp<AMessage>]) is opaque here. *)
Variable AMessage : Type.

(** [struct ProtectedState], the data guarded by the mutex. *)
Record ProtectedState := {
  mReading : bool;
  mFormat : AMessage;
  mState : State;
  mQueuedInputEOS : bool;
  mGotOutputEOS : bool
}.

(** The constructor [ProtectedState::ProtectedState(format)]. *)
Definition ProtectedState_new (format : AMessage) : ProtectedState :=
  {| mReading := false; mFormat := format; mState := INIT;
     mQueuedInputEOS := false; mGotOutputEOS := false |}.

(** Results of the two collaborators for one call of [start]. *)
Record start_env := {
  codec_start : status_t;     (* mCodec->start() *)
  source_start : status_t     (* mSource->start() *)
}.

Inductive call := CodecStart | SourceStart.

(** [SimpleDecodingSource::start]: the returned status, the protected state
    afterwards and the collaborator calls made, in order. *)
Definition start (env : start_env) (me : ProtectedState)
  : status_t * ProtectedState * list call :=
  if negb (State_eqb (mState me) INIT) then (- EINVAL, me, [])
  else
    let res := codec_start env in
    let '(res, calls) :=
      if res =? OK then (source_start env, [CodecStart; SourceStart])
      else (res, [CodecStart]) in
    if res =? OK then
      (res,
       {| mReading := mReading me; mFormat := mFormat me; mState := STARTED;
          mQueuedInputEOS := false; mGotOutputEOS := false |},
       calls)
    else
      (res,
       {| mReading := mReading me; mFormat := mFormat me; mState := ERROR;
          mQueuedInputEOS := mQueuedInputEOS me;
          mGotOutputEOS := mGotOutputEOS me |},
       calls).

Definition both_ok : start_env := {| codec_start := OK; source_start := OK |}.

(** ** Properties *)

Lemma State_eqb_eq a b : State_eqb a b = true <-> a = b.
Proof. destruct a, b; simpl; split; intros H; try reflexivity; discriminate. Qed.

Lemma start_outside_INIT env me :
  mState me <> INIT -> start env me = (- EINVAL, me, []).
Proof.
  intros H. unfold start.
  destruct (State_eqb (mState me) INIT) eqn:E; [|reflexivity].
  apply State_eqb_eq in E. contradiction.
Qed.

Lemma start_leaves_INIT env me :
  mState me = INIT -> mState (snd (fst (start env me))) <> INIT.
Proof.
  intros H. unfold start. rewrite H.
  change (negb (State_eqb INIT INIT)) with false. cbv iota.
  destruct (codec_start env =? OK) eqn:E1.
  - destruct (source_start env =? OK); simpl; discriminate.
  - rewrite E1. simpl. discriminate.
Qed.

(** C3.  From [INIT], with codec and source both starting successfully,
    [start] returns OK, the state becomes [STARTED] and both end-of-stream
    flags are cleared (the codec being started before the source); from any
    other state [start] returns [-EINVAL], calls nothing and leaves the whole
    protected state as it was; in particular a second [start] directly after
    a first one is refused in this way. *)
Theorem C3_start_lifecycle :
  (forall me,
      mState me = INIT ->
      start both_ok me =
        (OK,
         {| mReading := mReading me; mFormat := mFormat me; mState := STARTED;
            mQueuedInputEOS := false; mGotOutputEOS := false |},
         [CodecStart; SourceStart])) /\
  (forall env me,
      mState me <> INIT -> start env me = (- EINVAL, me, [])) /\
  (forall env1 env2 format,
      let me1 := snd (fst (start env1 (ProtectedState_new format))) in
      start env2 me1 = (- EINVAL, me1, [])).
Proof.
  split; [|split].
  - intros me H. unfold start. rewrite H. reflexivity.
  - apply start_outside_INIT.
  - intros env1 env2 format me1. apply start_outside_INIT.
    apply start_leaves_INIT. reflexivity.
Qed.

End WithFormat.

Arguments ProtectedState_new {AMessage} format.
Arguments start {AMessage} env me.
Arguments mState {AMessage} p.

(** The lifecycle theorem at a concrete adapter: a fresh one is started, and
    the adapter so obtained refuses a second [start]. *)
Lemma C3_start_lifecycle_witness :
  let fresh := ProtectedState_new tt in
  let started := snd (fst (start both_ok fresh)) in
  mState fresh = INIT /\ mState started <> INIT /\
  fst (fst (start both_ok fresh)) = OK /\
  mState started = STARTED /\
  start both_ok started = (- EINVAL, started, []).
Proof.
  intros fresh started.
  destruct (C3_start_lifecycle unit) as [H1 [H2 _]].
  assert (Hi : mState fresh = INIT) by reflexivity.
  assert (Hs : mState started <> INIT) by (vm_compute; discriminate).
  split; [exact Hi|]. split; [exact Hs|].
  split; [rewrite (H1 fresh Hi); reflexivity|].
  split; [unfold started; rewrite (H1 fresh Hi); reflexivity|].
  exact (H2 both_ok started Hs).
Defined.

End DecodingSource.

(* ====================================================================== *)
(** * frameworks/opt/net/wifi/service/jni/com_android_server_wifi_aware_WifiAwareNative.cpp *)
(* ====================================================================== *)

Module WifiAware.

(** The managed [PublishConfig] object, as far as [publishNative] reads it by
    reflection. *)
Record PublishConfig := {
  mPublishType : Z;
  mServiceName : list Z;
  mServiceSpecificInfo : list Z;
  mMatchFilter : list Z;
  mPublishCount : Z;
  mTtlSec : Z;
  mEnableTerminateNotification : bool
}.

(** The fields of the HAL's [NanPublishRequest] that the bridge assigns. *)
Record NanPublishRequest := {
  period : Z;
  publish_match_indicator : Z;
  rssi_threshold_flag : Z;
  connmap : Z;
  publish_id : Z;
  publish_type : Z;
  service_name : list Z;
  service_name_len : Z;
  service_specific_info : list Z;
  service_specific_info_len : Z;
  tx_match_filter : list Z;
  tx_match_filter_len : Z;
  rx_match_filter : list Z;
  rx_match_filter_len : Z;
  publish_count : Z;
  ttl : Z;
  tx_type : Z;
  recv_indication_cfg : Z
}.

(** One call of [hal_fn.wifi_nan_publish_request]. *)
Record hal_publish_call := {
  call_transaction_id : Z;
  call_iface : Z;
  call_msg : NanPublishRequest
}.

Section Bridge.

(** Constants of the HAL header [wifi_nan.h], which is not part of the
    sources at hand. *)
Variable NAN_MAX_SERVICE_NAME_LEN : Z.
Variable NAN_MAX_SERVICE_SPECIFIC_INFO_LEN : Z.
Variable NAN_MAX_MATCH_FILTER_LEN : Z.
Variable NAN_MATCH_ALG_MATCH_ONCE : Z.
Variable NAN_PUBLISH_TYPE_UNSOLICITED : Z.
Variable NAN_TX_TYPE_BROADCAST : Z.
Variable NAN_TX_TYPE_UNICAST : Z.

(** The status the hardware entry point returns for a request. *)
Variable wifi_nan_publish_request : Z -> Z -> NanPublishRequest -> Z.

(** Modelled from the spec: [JNIHelper::getByteArrayField] of jni_helper.cpp
    is missing from the sources.  Following the specification ("byte arrays
    are each bounds-checked against fixed maximum lengths before copying"),
    it reports the length of the managed array through [size] and copies the
    bytes into the zero-initialised destination only when they fit in
    [max_size].  The result is the destination buffer and the reported
    length. *)
Definition getByteArrayField (field : list Z) (max_size : Z) : list Z * Z :=
  let len := Z.of_nat (length field) in
  if len <=? max_size
  then (field ++ repeat 0 (Z.to_nat (max_size - len)), len)
  else (repeat 0 (Z.to_nat max_size), len).

(** [android_net_wifi_nan_publish]: the [jint] returned to the managed
    caller and the hardware calls made. *)
Definition android_net_wifi_nan_publish
    (transaction_id publish_id_arg iface : Z) (publish_config : PublishConfig)
  : Z * list hal_publish_call :=
  let ptype := mPublishType publish_config in
  let '(name_buf, array_length) :=
    getByteArrayField (mServiceName publish_config) NAN_MAX_SERVICE_NAME_LEN in
  let name_len := array_length in
  if array_length >? NAN_MAX_SERVICE_NAME_LEN then (0, [])
  else
  let '(ssi_buf, array_length) :=
    getByteArrayField (mServiceSpecificInfo publish_config)
                      NAN_MAX_SERVICE_SPECIFIC_INFO_LEN in
  let ssi_len := array_length in
  if array_length >? NAN_MAX_SERVICE_SPECIFIC_INFO_LEN then (0, [])
  else
  let '(mf_buf, array_length) :=
    getByteArrayField (mMatchFilter publish_config) NAN_MAX_MATCH_FILTER_LEN in
  if array_length >? NAN_MAX_MATCH_FILTER_LEN then (0, [])
  else
  let unsolicited := ptype =? NAN_PUBLISH_TYPE_UNSOLICITED in
  let zeros := repeat 0 (Z.to_nat NAN_MAX_MATCH_FILTER_LEN) in
  let msg :=
    {| period := 500;
       publish_match_indicator := NAN_MATCH_ALG_MATCH_ONCE;
       rssi_threshold_flag := 0;
       connmap := 0;
       publish_id := publish_id_arg;
       publish_type := ptype;
       service_name := name_buf;
       service_name_len := name_len;
       service_specific_info := ssi_buf;
       service_specific_info_len := ssi_len;
       tx_match_filter := if unsolicited then mf_buf else zeros;
       tx_match_filter_len := if unsolicited then array_length else 0;
       rx_match_filter := if unsolicited then zeros else mf_buf;
       rx_match_filter_len := if unsolicited then 0 else array_length;
       publish_count := mPublishCount publish_config;
       ttl := mTtlSec publish_config;
       tx_type := if unsolicited then NAN_TX_TYPE_BROADCAST
                  else NAN_TX_TYPE_UNICAST;
       recv_indication_cfg :=
         if mEnableTerminateNotification publish_config then 0
         else Z.lor 0 1 |} in
  (wifi_nan_publish_request transaction_id iface msg,
   [{| call_transaction_id := transaction_id; call_iface := iface;
       call_msg := msg |}]).

(** ** Properties *)

Lemma getByteArrayField_size field max_size :
  snd (getByteArrayField field max_size) = Z.of_nat (length field).
Proof. unfold getByteArrayField. destruct (_ <=? _); reflexivity. Qed.

(** C8.  A publish request whose service-name array is longer than
    [NAN_MAX_SERVICE_NAME_LEN] returns 0 and makes no hardware call. *)
Theorem C8_publish_oversize_service_name :
  forall transaction_id publish_id_arg iface publish_config,
    Z.of_nat (length (mServiceName publish_config)) > NAN_MAX_SERVICE_NAME_LEN ->
    android_net_wifi_nan_publish transaction_id publish_id_arg iface publish_config
    = (0, []).
Proof.
  intros t p i c Hlen. unfold android_net_wifi_nan_publish.
  pose proof (getByteArrayField_size (mServiceName c) NAN_MAX_SERVICE_NAME_LEN) as Hs.
  destruct (getByteArrayField (mServiceName c) NAN_MAX_SERVICE_NAME_LEN)
    as [name_buf array_length].
  simpl in Hs. subst array_length.
  destruct (Z.gtb_spec (Z.of_nat (length (mServiceName c))) NAN_MAX_SERVICE_NAME_LEN);
    [reflexivity | lia].
Qed.

End Bridge.

(** A 256-byte service name against a maximum of 255, with a hardware entry
    point that would answer 7 if it were reached. *)
Definition long_name_config : PublishConfig :=
  {| mPublishType := 0; mServiceName := repeat 65 256;
     mServiceSpecificInfo := []; mMatchFilter := [];
     mPublishCount := 0; mTtlSec := 0; mEnableTerminateNotification := true |}.

Lemma C8_publish_oversize_service_name_witness :
  Z.of_nat (length (mServiceName long_name_config)) > 255 /\
  android_net_wifi_nan_publish 255 1024 255 0 0 0 1 (fun _ _ _ => 7)
    1 2 0 long_name_config = (0, []).
Proof.
  assert (H : Z.of_nat (length (mServiceName long_name_config)) > 255)
    by (vm_compute; reflexivity).
  split; [exact H|].
  exact (C8_publish_oversize_service_name 255 1024 255 0 0 0 1 (fun _ _ _ => 7)
           1 2 0 long_name_config H).
Defined.

End WifiAware.

(* ====================================================================== *)
(** * Outcomes of code that can abort or touch memory out of bounds *)
(* ====================================================================== *)

(** A run of the C++ code either returns a value, stops in a failed [CHECK]
    or [TRESPASS] (the process aborts), or makes an access outside the
    object it was given (undefined behaviour). *)
Inductive outcome (A : Type) : Type :=
| Done (a : A)
| CheckFailed
| OutOfBounds.

Arguments Done {A} a.
Arguments CheckFailed {A}.
Arguments OutOfBounds {A}.

Definition bind {A B} (c : outcome A) (k : A -> outcome B) : outcome B :=
  match c with
  | Done a => k a
  | CheckFailed => CheckFailed
  | OutOfBounds => OutOfBounds
  end.

Declare Scope outcome_scope.
Delimit Scope outcome_scope with outcome.
Notation "x <- c ;; k" := (bind c (fun x => k))
  (at level 61, c at next level, right associativity) : outcome_scope.

Definition Zlength' {A} (l : list A) : Z := Z.of_nat (length l).

(** [buf[i]] for an array given as a list: reading outside it is out of
    bounds. *)
Definition load (buf : list Z) (i : Z) : outcome Z :=
  if i <? 0 then OutOfBounds
  else match nth_error buf (Z.to_nat i) with
       | Some b => Done b
       | None => OutOfBounds
       end.

Lemma bind_Done {A B} (a : A) (k : A -> outcome B) : bind (Done a) k = k a.
Proof. reflexivity. Qed.

(** ** Lists as arrays: facts used by several modules *)

Lemma Zlength'_app {A} (l1 l2 : list A) :
  Zlength' (l1 ++ l2) = Zlength' l1 + Zlength' l2.
Proof. unfold Zlength'. rewrite length_app. lia. Qed.

Lemma Zlength'_cons {A} (x : A) l : Zlength' (x :: l) = 1 + Zlength' l.
Proof. unfold Zlength'. cbn [length]. lia. Qed.

Lemma Zlength'_nonneg {A} (l : list A) : 0 <= Zlength' l.
Proof. unfold Zlength'. lia. Qed.

Lemma Zlength'_map {A B} (f : A -> B) l : Zlength' (map f l) = Zlength' l.
Proof. unfold Zlength'. rewrite length_map. reflexivity. Qed.

Lemma skipn_exact {A} (pre l : list A) : skipn (length pre) (pre ++ l) = l.
Proof. induction pre as [|y pre IH]; [reflexivity | exact IH]. Qed.

Lemma firstn_exact {A} (pre l : list A) : firstn (length pre) (pre ++ l) = pre.
Proof. induction pre as [|y pre IH]; [reflexivity | simpl; f_equal; exact IH]. Qed.

Lemma nth_error_exact {A} (pre : list A) x l :
  nth_error (pre ++ x :: l) (length pre) = Some x.
Proof. induction pre as [|y pre IH]; [reflexivity | exact IH]. Qed.

Lemma load_at (pre : list Z) x post :
  load (pre ++ x :: post) (Zlength' pre) = Done x.
Proof.
  unfold load.
  replace (Zlength' pre <? 0) with false
    by (symmetry; apply Z.ltb_ge; apply Zlength'_nonneg).
  unfold Zlength'. rewrite Nat2Z.id, nth_error_exact. reflexivity.
Qed.

(* ====================================================================== *)
(** * frameworks/av/media/libstagefright/matroska/MatroskaExtractor.cpp:
      elementary-stream descriptor synthesis *)
(* ====================================================================== *)

Module ESDS.

Local Open Scope outcome_scope.

(** A heap array of [uint8_t] obtained from [new]: a cell is [None] until it
    is written. *)
Definition buffer := list (option Z).

(** [data[i] = v], refused outside the array. *)
Definition store (buf : buffer) (i : Z) (v : Z) : outcome buffer :=
  if (0 <=? i) && (i <? Zlength' buf)
  then Done (firstn (Z.to_nat i) buf ++ Some v :: skipn (S (Z.to_nat i)) buf)
  else OutOfBounds.

Definition bytesForSize (size : Z) : outcome Z :=
  if negb (size <=? 0xfffffff) then CheckFailed
  else if size >? 0x1fffff then Done 4
  else if size >? 0x3fff then Done 3
  else if size >? 0x7f then Done 2
  else Done 1.

(** The loop [while (numBytes--) { *--data = (size & 0x7f) | next; ... }],
    with [p] the index [data] points at. *)
Fixpoint storeSize_loop (numBytes : nat) (buf : buffer) (p size next : Z)
  : outcome buffer :=
  match numBytes with
  | O => Done buf
  | S n =>
      buf' <- store buf (p - 1) (Z.lor (Z.land size 0x7f) next) ;;
      storeSize_loop n buf' (p - 1) (Z.shiftr size 7) 0x80
  end.

(** [storeSize(data, idx, size)]; the state is the array and [idx]. *)
Definition storeSize (st : buffer * Z) (size : Z) : outcome (buffer * Z) :=
  numBytes <- bytesForSize size ;;
  let idx := snd st + numBytes in
  buf' <- storeSize_loop (Z.to_nat numBytes) (fst st) idx size 0 ;;
  Done (buf', idx).

(** [esds[idx++] = v]. *)
Definition put (st : buffer * Z) (v : Z) : outcome (buffer * Z) :=
  buf' <- store (fst st) (snd st) v ;;
  Done (buf', snd st + 1).

(** [for (int i = 0; i < 12; i++) esds[idx++] = 0x00;] with the bound as a
    parameter. *)
Fixpoint put_zeros (n : nat) (st : buffer * Z) : outcome (buffer * Z) :=
  match n with
  | O => Done st
  | S n' => st' <- put st 0 ;; put_zeros n' st'
  end.

(** [memcpy(dst + idx, src, n)] as a sequence of byte stores. *)
Fixpoint memcpy (buf : buffer) (idx : Z) (src : list Z) : outcome buffer :=
  match src with
  | [] => Done buf
  | b :: src' => buf' <- store buf idx b ;; memcpy buf' (idx + 1) src'
  end.

(** What [addESDSFromCodecPrivate] hands to [meta->setData(kKeyESDS, ...)],
    together with the value of [idx] when the payload is copied. *)
Record esds_result := {
  esds : buffer;
  esdsSize : Z;
  payload_idx : Z
}.

(** [addESDSFromCodecPrivate]; [priv] is the [privSize] bytes at the pointer.
    The [int] intermediates of the source hold at most 0xfffffff + 26 and so
    never wrap. *)
Definition addESDSFromCodecPrivate (isAudio : bool) (priv : list Z)
  : outcome esds_result :=
  let privSize := Zlength' priv in
  privSizeBytesRequired <- bytesForSize privSize ;;
  let esdsSize2 := 14 + privSizeBytesRequired + privSize in
  esdsSize2BytesRequired <- bytesForSize esdsSize2 ;;
  let esdsSize1 := 4 + esdsSize2BytesRequired + esdsSize2 in
  esdsSize1BytesRequired <- bytesForSize esdsSize1 ;;
  let esdsSize := 1 + esdsSize1BytesRequired + esdsSize1 in
  let esds0 : buffer := repeat None (Z.to_nat esdsSize) in
  st <- put (esds0, 0) 0x03 ;;
  st <- storeSize st esdsSize1 ;;
  st <- put st 0x00 ;;
  st <- put st 0x00 ;;
  st <- put st 0x00 ;;
  st <- put st 0x04 ;;
  st <- storeSize st esdsSize2 ;;
  st <- put st (if isAudio then 0x40 else 0x20) ;;
  st <- put_zeros 12 st ;;
  st <- put st 0x05 ;;
  st <- storeSize st privSize ;;
  buf <- memcpy (fst st) (snd st) priv ;;
  Done {| esds := buf; esdsSize := esdsSize; payload_idx := snd st |}.

(** The bytes of a size field, in the order the loop produces them (last
    byte of the field first). *)
Fixpoint size_digits (n : nat) (size next : Z) : list Z :=
  match n with
  | O => []
  | S n' => Z.lor (Z.land size 0x7f) next :: size_digits n' (Z.shiftr size 7) 0x80
  end.

(** The size field as it lies in memory. *)
Definition size_field (numBytes size : Z) : list Z :=
  rev (size_digits (Z.to_nat numBytes) size 0).

(** The descriptor as the format describes it: tag 0x03 and its size, three
    header bytes, tag 0x04 and its size, the object type, twelve zero bytes,
    tag 0x05 and its size, the payload. *)
Definition esds_layout (isAudio : bool) (b1 b2 b0 : Z) (priv : list Z) : list Z :=
  let privSize := Zlength' priv in
  let esdsSize2 := 14 + b0 + privSize in
  let esdsSize1 := 4 + b2 + esdsSize2 in
  [0x03] ++ size_field b1 esdsSize1 ++ [0x00; 0x00; 0x00; 0x04]
  ++ size_field b2 esdsSize2 ++ [if isAudio then 0x40 else 0x20]
  ++ repeat 0 12 ++ [0x05] ++ size_field b0 privSize ++ priv.

(** The largest payload the synthesis completes for. *)
Definition max_priv_size : Z := 0xfffffff - 26.

(** ** Properties *)

Lemma store_mid (pre : buffer) x post v :
  store (pre ++ x :: post) (Zlength' pre) v = Done (pre ++ Some v :: post).
Proof.
  unfold store, Zlength'.
  replace ((0 <=? Z.of_nat (length pre)) &&
           (Z.of_nat (length pre) <? Z.of_nat (length (pre ++ x :: post))))
    with true.
  - rewrite Nat2Z.id.
    rewrite firstn_app, firstn_all, Nat.sub_diag, firstn_O, app_nil_r.
    f_equal. f_equal. f_equal.
    clear. induction pre as [|y pre IH]; [reflexivity | exact IH].
  - symmetry. apply andb_true_iff. split.
    + apply Z.leb_le. lia.
    + apply Z.ltb_lt. rewrite length_app. simpl. lia.
Qed.

Lemma storeSize_loop_spec n :
  forall (pre mid post : buffer) size next,
    length mid = n ->
    storeSize_loop n (pre ++ mid ++ post) (Zlength' pre + Z.of_nat n) size next
    = Done (pre ++ map Some (rev (size_digits n size next)) ++ post).
Proof.
  induction n as [|n IH]; intros pre mid post size next Hlen.
  - destruct mid; [reflexivity | discriminate].
  - destruct (exists_last (l := mid)) as [mid' [x Hmid]].
    { intros ->. discriminate. }
    subst mid. rewrite length_app in Hlen. simpl in Hlen.
    assert (Hlen' : length mid' = n) by lia.
    cbn [storeSize_loop size_digits].
    replace (Zlength' pre + Z.of_nat (S n) - 1) with (Zlength' (pre ++ mid'))
      by (rewrite Zlength'_app; unfold Zlength'; lia).
    replace (pre ++ (mid' ++ [x]) ++ post) with ((pre ++ mid') ++ x :: post)
      by (rewrite <- !app_assoc; reflexivity).
    rewrite store_mid, bind_Done.
    rewrite <- app_assoc.
    replace (Zlength' (pre ++ mid')) with (Zlength' pre + Z.of_nat n)
      by (rewrite Zlength'_app; unfold Zlength'; lia).
    rewrite (IH pre mid' _ _ _ Hlen').
    cbn [rev]. rewrite map_app. rewrite <- app_assoc. reflexivity.
Qed.

(** The state in which the bytes [w] have been written at the front of the
    array and [rest] lies behind them. *)
Definition st_of (w : list Z) (rest : buffer) : buffer * Z :=
  (map Some w ++ rest, Zlength' w).

Lemma st_of_snoc w l rest :
  (map Some w ++ map Some l ++ rest, Zlength' w + Zlength' l) = st_of (w ++ l) rest.
Proof.
  unfold st_of. rewrite map_app, <- app_assoc, Zlength'_app. reflexivity.
Qed.

Lemma put_st w x rest v :
  put (st_of w (x :: rest)) v = Done (st_of (w ++ [v]) rest).
Proof.
  unfold put, st_of. cbn [fst snd].
  rewrite <- (Zlength'_map Some w) at 1.
  rewrite store_mid, bind_Done.
  rewrite map_app, <- app_assoc, Zlength'_app. reflexivity.
Qed.

Lemma bytesForSize_range size n :
  bytesForSize size = Done n -> 1 <= n <= 4.
Proof.
  unfold bytesForSize.
  repeat match goal with
         | |- context [if ?b then _ else _] => destruct b
         end; intros H; inversion H; lia.
Qed.

Lemma size_digits_length n : forall size next, length (size_digits n size next) = n.
Proof.
  induction n as [|n IH]; intros size next; [reflexivity|].
  cbn [size_digits length]. rewrite IH. reflexivity.
Qed.

Lemma storeSize_st w mid rest size n :
  bytesForSize size = Done n ->
  length mid = Z.to_nat n ->
  storeSize (st_of w (mid ++ rest)) size
  = Done (st_of (w ++ size_field n size) rest).
Proof.
  intros Hn Hlen. pose proof (bytesForSize_range _ _ Hn) as Hr.
  unfold storeSize. rewrite Hn, bind_Done.
  unfold st_of at 1 2. cbn [fst snd].
  replace (Zlength' w + n) with (Zlength' (map Some w) + Z.of_nat (Z.to_nat n))
    by (rewrite Zlength'_map; lia).
  rewrite (storeSize_loop_spec _ _ mid rest size 0 Hlen), bind_Done.
  fold (size_field n size). cbn [st_of snd].
  replace n with (Zlength' (size_field n size)) at 2.
  - rewrite st_of_snoc. reflexivity.
  - unfold size_field, Zlength'. rewrite length_rev, size_digits_length. lia.
Qed.

Lemma put_zeros_st k :
  forall w mid rest,
    length mid = k ->
    put_zeros k (st_of w (mid ++ rest)) = Done (st_of (w ++ repeat 0 k) rest).
Proof.
  induction k as [|k IH]; intros w mid rest Hlen.
  - destruct mid; [|discriminate]. cbn [put_zeros repeat].
    rewrite app_nil_r. reflexivity.
  - destruct mid as [|x mid]; [discriminate|].
    cbn [put_zeros repeat]. rewrite <- app_comm_cons, put_st, bind_Done.
    rewrite IH by (simpl in Hlen; lia).
    rewrite <- app_assoc. reflexivity.
Qed.

Lemma memcpy_st src :
  forall w mid rest,
    length mid = length src ->
    memcpy (map Some w ++ mid ++ rest) (Zlength' w) src
    = Done (map Some (w ++ src) ++ rest).
Proof.
  induction src as [|b src IH]; intros w mid rest Hlen.
  - destruct mid; [|discriminate]. cbn [memcpy]. rewrite app_nil_r. reflexivity.
  - destruct mid as [|x mid]; [discriminate|].
    cbn [memcpy].
    rewrite <- (Zlength'_map Some w) at 1.
    rewrite <- app_comm_cons, store_mid, bind_Done.
    replace (map Some w ++ Some b :: mid ++ rest)
      with (map Some (w ++ [b]) ++ mid ++ rest)
      by (rewrite map_app, <- app_assoc; reflexivity).
    replace (Zlength' w + 1) with (Zlength' (w ++ [b]))
      by (rewrite Zlength'_app; reflexivity).
    rewrite IH by (simpl in Hlen; lia).
    rewrite <- app_assoc. reflexivity.
Qed.

(** The number of bytes [bytesForSize] grants a size it accepts. *)
Definition field_width (size : Z) : Z :=
  match bytesForSize size with
  | Done n => n
  | _ => 0
  end.

Lemma bytesForSize_accepts size :
  size <= 0xfffffff -> bytesForSize size = Done (field_width size).
Proof.
  intros H. unfold field_width, bytesForSize.
  destruct (Z.leb_spec size 0xfffffff); [|lia]. cbn [negb].
  repeat match goal with
         | |- context [if ?b then _ else _] => destruct b
         end; reflexivity.
Qed.

Lemma bytesForSize_rejects size :
  0xfffffff < size -> bytesForSize size = CheckFailed.
Proof.
  intros H. unfold bytesForSize.
  destruct (Z.leb_spec size 0xfffffff); [lia|]. reflexivity.
Qed.

Lemma field_width_range size :
  size <= 0xfffffff -> 1 <= field_width size <= 4.
Proof.
  intros H. apply (bytesForSize_range size). apply bytesForSize_accepts, H.
Qed.

Lemma field_width_large size :
  0x1fffff < size <= 0xfffffff -> field_width size = 4.
Proof.
  intros H. unfold field_width, bytesForSize.
  destruct (Z.leb_spec size 0xfffffff); [|lia]. cbn [negb].
  destruct (Z.gtb_spec size 0x1fffff); [reflexivity | lia].
Qed.

Lemma size_field_length n size :
  0 <= n -> Zlength' (size_field n size) = n.
Proof.
  intros H. unfold size_field, Zlength'.
  rewrite length_rev, size_digits_length. lia.
Qed.

(** [storeSize] touches exactly the [bytesForSize size] cells starting at
    [idx]: what lies before and behind them stays as it is. *)
Lemma storeSize_frame (pre mid post : buffer) size n :
  bytesForSize size = Done n ->
  length mid = Z.to_nat n ->
  storeSize (pre ++ mid ++ post, Zlength' pre) size
  = Done (pre ++ map Some (size_field n size) ++ post, Zlength' pre + n).
Proof.
  intros Hn Hlen. pose proof (bytesForSize_range _ _ Hn) as Hr.
  unfold storeSize. rewrite Hn, bind_Done. cbn [fst snd].
  replace (Zlength' pre + n) with (Zlength' pre + Z.of_nat (Z.to_nat n)) at 1 by lia.
  rewrite (storeSize_loop_spec _ _ mid post size 0 Hlen), bind_Done.
  reflexivity.
Qed.

Lemma fresh_buffer_split (b1 b2 b0 : Z) (k : nat) :
  0 <= b1 -> 0 <= b2 -> 0 <= b0 ->
  repeat (@None Z)
         (Z.to_nat (1 + b1 + (4 + b2 + (14 + b0 + Z.of_nat k))))
  = None :: (repeat None (Z.to_nat b1) ++
    None :: None :: None :: None :: (repeat None (Z.to_nat b2) ++
    None :: (repeat None 12 ++
    None :: (repeat None (Z.to_nat b0) ++ (repeat None k ++ []))))).
Proof.
  intros H1 H2 H0.
  replace (Z.to_nat (1 + b1 + (4 + b2 + (14 + b0 + Z.of_nat k))))
    with (1 + (Z.to_nat b1 + (4 + (Z.to_nat b2 + (1 + (12 + (1 +
            (Z.to_nat b0 + (k + 0)))))))))%nat by lia.
  repeat (rewrite ?repeat_app; cbn [repeat Nat.add app]).
  reflexivity.
Qed.

Lemma esds_layout_length isAudio b1 b2 b0 priv :
  0 <= b1 -> 0 <= b2 -> 0 <= b0 ->
  Zlength' (esds_layout isAudio b1 b2 b0 priv)
  = 1 + b1 + (4 + b2 + (14 + b0 + Zlength' priv)).
Proof.
  intros H1 H2 H0. unfold esds_layout.
  rewrite !Zlength'_app, !size_field_length by assumption.
  unfold Zlength' at 1 2 3 4 5. cbn [length repeat]. lia.
Qed.

(** Functional correctness of the synthesis for every payload it accepts. *)
Lemma addESDSFromCodecPrivate_completes isAudio priv :
  Zlength' priv <= max_priv_size ->
  let privSize := Zlength' priv in
  let b0 := field_width privSize in
  let esdsSize2 := 14 + b0 + privSize in
  let b2 := field_width esdsSize2 in
  let esdsSize1 := 4 + b2 + esdsSize2 in
  let b1 := field_width esdsSize1 in
  addESDSFromCodecPrivate isAudio priv
  = Done {| esds := map Some (esds_layout isAudio b1 b2 b0 priv);
            esdsSize := 1 + b1 + esdsSize1;
            payload_idx := 1 + b1 + esdsSize1 - privSize |}.
Proof.
  intros Hmax privSize b0 esdsSize2 b2 esdsSize1 b1.
  unfold max_priv_size in Hmax.
  assert (Hp0 : 0 <= privSize) by (unfold privSize, Zlength'; lia).
  assert (Hb0 : 1 <= b0 <= 4) by (apply field_width_range; lia).
  assert (Hb2 : 1 <= b2 <= 4) by (apply field_width_range; unfold esdsSize2; lia).
  assert (Hb1 : 1 <= b1 <= 4)
    by (apply field_width_range; unfold esdsSize1, esdsSize2; lia).
  assert (E0 : bytesForSize privSize = Done b0)
    by (apply bytesForSize_accepts; lia).
  assert (E2 : bytesForSize esdsSize2 = Done b2)
    by (apply bytesForSize_accepts; unfold esdsSize2; lia).
  assert (E1 : bytesForSize esdsSize1 = Done b1)
    by (apply bytesForSize_accepts; unfold esdsSize1, esdsSize2; lia).
  unfold addESDSFromCodecPrivate. fold privSize.
  rewrite E0, bind_Done. fold esdsSize2.
  rewrite E2, bind_Done. fold esdsSize1.
  rewrite E1, bind_Done.
  unfold esdsSize1 at 1, esdsSize2 at 1, privSize at 1, Zlength' at 1.
  rewrite fresh_buffer_split by lia.
  change (?x :: ?l, 0) with (st_of [] (x :: l)).
  rewrite put_st, bind_Done.
  rewrite (storeSize_st _ _ _ _ _ E1) by apply repeat_length.
  rewrite bind_Done.
  do 4 rewrite put_st, bind_Done.
  rewrite (storeSize_st _ _ _ _ _ E2) by apply repeat_length.
  rewrite bind_Done.
  rewrite put_st, bind_Done.
  rewrite put_zeros_st by apply repeat_length.
  rewrite bind_Done.
  rewrite put_st, bind_Done.
  rewrite (storeSize_st _ _ _ _ _ E0) by apply repeat_length.
  rewrite bind_Done.
  unfold st_of. cbn [fst snd].
  rewrite memcpy_st by apply repeat_length.
  rewrite bind_Done, app_nil_r.
  f_equal. f_equal.
  - unfold esds_layout. fold privSize. fold esdsSize2. fold esdsSize1.
    cbn [app]. rewrite <- !app_assoc. reflexivity.
  - rewrite !Zlength'_app, !size_field_length by lia.
    unfold Zlength' at 1 2 3 4 5 6 7 8 9. cbn [length repeat app].
    unfold esdsSize1, esdsSize2. lia.
Qed.

(** Beyond [max_priv_size] one of the three [CHECK]s of [bytesForSize]
    fails while the sizes are being computed, before the array exists. *)
Lemma addESDSFromCodecPrivate_aborts isAudio priv :
  max_priv_size < Zlength' priv ->
  addESDSFromCodecPrivate isAudio priv = CheckFailed.
Proof.
  unfold max_priv_size. intros Hbig.
  unfold addESDSFromCodecPrivate.
  set (privSize := Zlength' priv) in *.
  destruct (Z.le_gt_cases privSize 0xfffffff) as [Hle|Hgt].
  - rewrite (bytesForSize_accepts _ Hle), bind_Done.
    rewrite (field_width_large privSize) by lia.
    destruct (Z.le_gt_cases (14 + 4 + privSize) 0xfffffff) as [Hle2|Hgt2].
    + rewrite (bytesForSize_accepts _ Hle2), bind_Done.
      rewrite (field_width_large (14 + 4 + privSize)) by lia.
      rewrite (bytesForSize_rejects (4 + 4 + (14 + 4 + privSize))) by lia.
      reflexivity.
    + rewrite (bytesForSize_rejects _ Hgt2). reflexivity.
  - rewrite (bytesForSize_rejects _ Hgt). reflexivity.
Qed.

(** C10.  [storeSize] writes exactly the [bytesForSize size] cells from
    [idx] on and advances [idx] by that number.  For every payload of at most
    0xfffffff bytes the synthesis never writes outside the array it
    allocates: either it completes, and then every cell of the allocated
    array has been written and the index reached after the last size field
    plus the payload length equals the allocated size (no write past the end
    and no unwritten tail); or, for the payloads above 0xfffffff - 26 only, a
    [CHECK] of [bytesForSize] aborts while the sizes are computed, before
    anything is allocated or written. *)
Theorem C10_esds_fills_allocation :
  (forall (pre mid post : buffer) size n,
      bytesForSize size = Done n ->
      length mid = Z.to_nat n ->
      storeSize (pre ++ mid ++ post, Zlength' pre) size
      = Done (pre ++ map Some (size_field n size) ++ post, Zlength' pre + n)
      /\ Zlength' (size_field n size) = n) /\
  (forall isAudio priv,
      Zlength' priv <= 0xfffffff ->
      (exists r bytes,
          addESDSFromCodecPrivate isAudio priv = Done r /\
          esds r = map Some bytes /\
          Zlength' (esds r) = esdsSize r /\
          payload_idx r + Zlength' priv = esdsSize r)
      \/ (max_priv_size < Zlength' priv /\
          addESDSFromCodecPrivate isAudio priv = CheckFailed)).
Proof.
  split.
  - intros pre mid post size n Hn Hlen. split.
    + apply storeSize_frame; assumption.
    + apply size_field_length. pose proof (bytesForSize_range _ _ Hn). lia.
  - intros isAudio priv _.
    destruct (Z.le_gt_cases (Zlength' priv) max_priv_size) as [Hmax|Hbig].
    + left.
      pose proof (addESDSFromCodecPrivate_completes isAudio priv Hmax) as H.
      cbv zeta in H. unfold max_priv_size in Hmax.
      eexists. eexists. split; [exact H|]. cbn [esds esdsSize payload_idx].
      split; [reflexivity|]. split; [|lia].
      assert (Hp0 : 0 <= Zlength' priv) by (unfold Zlength'; lia).
      pose proof (field_width_range (Zlength' priv)) as R0.
      pose proof (field_width_range
                    (14 + field_width (Zlength' priv) + Zlength' priv)) as R2.
      pose proof (field_width_range
                    (4 + field_width (14 + field_width (Zlength' priv)
                                      + Zlength' priv)
                     + (14 + field_width (Zlength' priv) + Zlength' priv)))
        as R1.
      rewrite Zlength'_map, esds_layout_length by lia. lia.
    + right. split; [lia|].
      apply addESDSFromCodecPrivate_aborts. lia.
Qed.

(** The theorem at an AAC configuration of two bytes and at a 5-byte size
    field region. *)
Lemma C10_esds_fills_allocation_witness :
  (exists r bytes,
      addESDSFromCodecPrivate true [0x12; 0x10] = Done r /\
      esds r = map Some bytes /\
      Zlength' (esds r) = esdsSize r /\
      payload_idx r + Zlength' [0x12; 0x10] = esdsSize r) /\
  storeSize ([Some 3] ++ [None; None] ++ [None; None], Zlength' [Some 3]) 300
  = Done ([Some 3] ++ map Some (size_field 2 300) ++ [None; None],
          Zlength' [Some 3] + 2).
Proof.
  destruct C10_esds_fills_allocation as [H1 H2].
  split.
  - destruct (H2 true [0x12; 0x10]) as [H|[_ H]].
    + vm_compute. discriminate.
    + exact H.
    + vm_compute in H. discriminate.
  - apply (H1 [Some 3] [None; None] [None; None] 300 2); reflexivity.
Defined.

End ESDS.

(* ====================================================================== *)
(** * frameworks/opt/net/wifi/libwifi_system/wifi.cpp: monitor events *)
(* ====================================================================== *)

Module WifiEvent.

Local Open Scope outcome_scope.
Local Open Scope nat_scope.

Definition cstring := list ascii.

Definition NUL : ascii := Ascii.zero.

Definition chars (s : string) : cstring := list_ascii_of_string s.

Definition IFNAME : cstring := chars "IFNAME=".
Definition IFNAMELEN : nat := 7.
Definition WPA_EVENT_IGNORE : cstring := chars "CTRL-EVENT-IGNORE ".
Definition WPA_EVENT_TERMINATING : cstring := chars "CTRL-EVENT-TERMINATING ".

(** The string a [char] array holds: the characters before the first NUL. *)
Fixpoint c_str (buf : list ascii) : cstring :=
  match buf with
  | [] => []
  | c :: buf' => if Ascii.eqb c NUL then [] else c :: c_str buf'
  end.

(** [strchr(buf + from, c)]: the index of the first [c] at or after [from]
    and not after the terminating NUL; leaving the array is out of bounds. *)
Fixpoint strchr_from (l : list ascii) (i : nat) (c : ascii) : outcome (option nat) :=
  match l with
  | [] => OutOfBounds
  | x :: l' =>
      if Ascii.eqb x c then Done (Some i)
      else if Ascii.eqb x NUL then Done None
      else strchr_from l' (S i) c
  end.

Definition strchr (buf : list ascii) (from : nat) (c : ascii) : outcome (option nat) :=
  strchr_from (skipn from buf) from c.

(** [strncmp(s1, s2, n) == 0]. *)
Fixpoint strncmp_eq (s1 s2 : list ascii) (n : nat) {struct n} : bool :=
  match n with
  | O => true
  | S n' =>
      match s1, s2 with
      | x :: s1', y :: s2' =>
          if Ascii.eqb x y
          then (if Ascii.eqb x NUL then true else strncmp_eq s1' s2' n')
          else false
      | _, _ => false
      end
  end.

(** [buf[i]]. *)
Definition load (buf : list ascii) (i : nat) : outcome ascii :=
  match nth_error buf i with
  | Some c => Done c
  | None => OutOfBounds
  end.

(** [buf[i] = c]. *)
Definition store (buf : list ascii) (i : nat) (c : ascii) : outcome (list ascii) :=
  if i <? length buf
  then Done (firstn i buf ++ c :: skipn (S i) buf)
  else OutOfBounds.

(** [memmove(buf + dst, buf + src, n)]. *)
Definition memmove (buf : list ascii) (dst src n : nat) : outcome (list ascii) :=
  if (src + n <=? length buf) && (dst + n <=? length buf)
  then Done (firstn dst buf ++ firstn n (skipn src buf) ++ skipn (dst + n) buf)
  else OutOfBounds.

(** [snprintf(buf, buflen, "%s", s)]: at most [buflen - 1] characters are
    stored, followed by NUL; the length of [s] is returned. *)
Definition snprintf (buf : list ascii) (s : cstring) : list ascii * Z :=
  let buflen := length buf in
  let buf' :=
    match buflen with
    | O => buf
    | S k => let w := firstn k s in w ++ NUL :: skipn (S (length w)) buf
    end in
  (buf', Z.of_nat (length s)).

(** What [wifi_ctrl_recv] does for one call: its return value and, when it
    received a message, the bytes [wpa_ctrl_recv] stored (their number is the
    new [nread]). *)
Record recv_result := {
  rx_result : Z;
  rx_data : list ascii
}.

Definition terminating (primary_iface suffix : cstring) : cstring :=
  IFNAME ++ primary_iface ++ chars " " ++ WPA_EVENT_TERMINATING ++ suffix.

(** [wifi_wait_on_socket(buf, buflen)] (and so [wifi_wait_for_event]);
    [monitor_open] is [monitor_conn != NULL]. The result is the array
    afterwards and the returned count. *)
Definition wifi_wait_on_socket (monitor_open : bool) (primary_iface : cstring)
    (rx : recv_result) (buf : list ascii) : outcome (list ascii * Z) :=
  let buflen := length buf in
  if negb monitor_open then
    Done (snprintf buf (terminating primary_iface (chars " - connection closed")))
  else
    let result := rx_result rx in
    if (result =? -2)%Z then
      Done (snprintf buf (terminating primary_iface (chars " - connection closed")))
    else if (result <? 0)%Z then
      Done (snprintf buf (terminating primary_iface (chars " - recv error")))
    else
      let nread := length (rx_data rx) in
      if buflen - 1 <? nread then OutOfBounds
      else
        let buf := rx_data rx ++ skipn nread buf in
        buf <- store buf nread NUL ;;
        if (result =? 0)%Z && (nread =? 0) then
          Done (snprintf buf (terminating primary_iface (chars " - signal 0 received")))
        else if strncmp_eq buf IFNAME IFNAMELEN then
          m <- strchr buf 0 " " ;;
          match m with
          | Some match_ =>
              c <- load buf (match_ + 1) ;;
              if Ascii.eqb c "<" then
                m2 <- strchr buf (match_ + 2) ">" ;;
                match m2 with
                | Some match2 =>
                    let nread := nread - (match2 - match_) in
                    buf <- memmove buf (match_ + 1) (match2 + 1)
                                   (nread - match_ + 1) ;;
                    Done (buf, Z.of_nat nread)
                | None => Done (buf, Z.of_nat nread)
                end
              else Done (buf, Z.of_nat nread)
          | None => Done (snprintf buf WPA_EVENT_IGNORE)
          end
        else
          c <- load buf 0 ;;
          if Ascii.eqb c "<" then
            m <- strchr buf 0 ">" ;;
            match m with
            | Some match_ =>
                let nread := nread - (match_ + 1 - 0) in
                buf <- memmove buf 0 (match_ + 1) (nread + 1) ;;
                Done (buf, Z.of_nat nread)
            | None => Done (buf, Z.of_nat nread)
            end
          else Done (buf, Z.of_nat nread).

Definition wifi_wait_for_event := wifi_wait_on_socket.

(** The event handed to the caller: the string in the array, and the
    count. *)
Definition delivered (r : outcome (list ascii * Z)) : outcome (cstring * Z) :=
  r' <- r ;; Done (c_str (fst r'), snd r').

Definition received (s : cstring) : recv_result :=
  {| rx_result := 0%Z; rx_data := s |}.

Definition no_NUL (s : cstring) : Prop := ~ In NUL s.

(** ** Properties *)

Lemma store_at_end (pre : list ascii) x post c :
  store (pre ++ x :: post) (length pre) c = Done (pre ++ c :: post).
Proof.
  unfold store.
  replace (length pre <? length (pre ++ x :: post)) with true
    by (symmetry; apply Nat.ltb_lt; rewrite length_app; simpl; lia).
  rewrite firstn_app, firstn_all, Nat.sub_diag, firstn_O, app_nil_r.
  f_equal. f_equal. f_equal.
  induction pre as [|y pre IH]; [reflexivity | exact IH].
Qed.

Lemma skipn_two_more {A} (l : list A) n :
  n + 2 <= length l -> exists a b tl, skipn n l = a :: b :: tl.
Proof.
  intros H. pose proof (length_skipn n l) as Hl.
  destruct (skipn n l) as [|a [|b tl]]; simpl in Hl; try lia.
  eauto.
Qed.

Lemma strchr_from_skip c pre :
  forall l i,
    Forall (fun x => x <> c /\ x <> NUL) pre ->
    strchr_from (pre ++ l) i c = strchr_from l (i + length pre) c.
Proof.
  induction pre as [|y pre IH]; intros l i HF.
  - simpl. rewrite Nat.add_0_r. reflexivity.
  - inversion HF as [|? ? [Hc Hn] HF']; subst. cbn [app strchr_from].
    destruct (Ascii.eqb_spec y c) as [E|_]; [contradiction|].
    destruct (Ascii.eqb_spec y NUL) as [E|_]; [contradiction|].
    rewrite IH by assumption. simpl. f_equal. lia.
Qed.

Lemma strchr_from_hit c l i : strchr_from (c :: l) i c = Done (Some i).
Proof. simpl. rewrite Ascii.eqb_refl. reflexivity. Qed.

Lemma c_str_terminated s t : no_NUL s -> c_str (s ++ NUL :: t) = s.
Proof.
  unfold no_NUL. induction s as [|x s IH]; intros H.
  - reflexivity.
  - cbn [app c_str].
    destruct (Ascii.eqb_spec x NUL) as [E|_].
    + exfalso. apply H. left. exact E.
    + f_equal. apply IH. intros Hin. apply H. right. exact Hin.
Qed.

Lemma no_NUL_app s t : no_NUL s -> no_NUL t -> no_NUL (s ++ t).
Proof. unfold no_NUL. intros Hs Ht Hin. apply in_app_or in Hin. tauto. Qed.

Lemma Forall_avoid c (s : cstring) :
  ~ In c s -> no_NUL s -> Forall (fun x => x <> c /\ x <> NUL) s.
Proof.
  intros Hc Hn. apply Forall_forall. intros x Hx. split; intros ->; auto.
Qed.

(** C2 (as the code has it).  For every received event
    [IFNAME=<iface> <tag>rest] that leaves at least one byte of the caller's
    array unused, the event delivered by [wifi_wait_for_event] is
    [IFNAME=<iface> rest]: the bracketed level tag is removed and the
    [IFNAME=<iface> ] prefix is kept; the returned count is the length of
    that string. *)
Theorem C2_ifname_event_loses_only_tag primary_iface iface tag rest buf :
  no_NUL iface -> ~ In " "%char iface ->
  no_NUL tag -> ~ In ">"%char tag ->
  no_NUL rest ->
  length (IFNAME ++ iface ++ chars " <" ++ tag ++ chars ">" ++ rest) + 2
    <= length buf ->
  delivered (wifi_wait_for_event true primary_iface
               (received (IFNAME ++ iface ++ chars " <" ++ tag ++ chars ">" ++ rest))
               buf)
  = Done (IFNAME ++ iface ++ chars " " ++ rest,
          Z.of_nat (length (IFNAME ++ iface ++ chars " " ++ rest))).
Proof.
  intros Hi Hisp Ht Htgt Hr Hlen.
  set (ev := IFNAME ++ iface ++ chars " <" ++ tag ++ chars ">" ++ rest) in *.
  set (P1 := IFNAME ++ iface).
  assert (Hev : ev = P1 ++ " "%char :: "<"%char :: tag ++ ">"%char :: rest).
  { unfold ev, P1. rewrite <- !app_assoc. reflexivity. }
  clearbody ev.
  unfold wifi_wait_for_event, wifi_wait_on_socket, received.
  cbn [negb rx_result rx_data].
  change ((0 =? -2)%Z) with false. change ((0 <? 0)%Z) with false. cbv iota.
  replace (length buf - 1 <? length ev) with false
    by (symmetry; apply Nat.ltb_ge; lia).
  destruct (skipn_two_more buf (length ev) Hlen) as [a [b [tl Hsk]]].
  assert (Hbuflen : length buf = length ev + S (S (length tl))).
  { pose proof (length_skipn (length ev) buf) as E. rewrite Hsk in E.
    simpl in E. lia. }
  rewrite Hsk, store_at_end, bind_Done.
  replace ((0 =? 0)%Z && (length ev =? 0)) with false.
  2:{ symmetry. apply andb_false_iff. right. apply Nat.eqb_neq.
      rewrite Hev, length_app. simpl. lia. }
  (* the array now holds the event followed by NUL *)
  set (buf1 := ev ++ NUL :: b :: tl).
  assert (Hb1 : buf1 =
                P1 ++ " "%char :: "<"%char :: tag ++ ">"%char :: rest ++ NUL :: b :: tl).
  { unfold buf1. rewrite Hev. rewrite <- !app_assoc. cbn [app].
    rewrite <- !app_assoc. reflexivity. }
  assert (Hpre : strncmp_eq buf1 IFNAME IFNAMELEN = true)
    by (rewrite Hb1; unfold P1; rewrite <- app_assoc; reflexivity).
  rewrite Hpre.
  (* strchr(buf, ' ') *)
  assert (HP1 : Forall (fun x => x <> " "%char /\ x <> NUL) P1).
  { unfold P1. apply Forall_app. split.
    - repeat constructor; discriminate.
    - apply Forall_avoid; assumption. }
  assert (Hm : strchr buf1 0 " " = Done (Some (length P1))).
  { unfold strchr. cbn [skipn]. rewrite Hb1.
    rewrite (strchr_from_skip _ _ _ _ HP1), strchr_from_hit. reflexivity. }
  rewrite Hm, bind_Done.
  (* match[1] *)
  assert (Hc : load buf1 (length P1 + 1) = Done "<"%char).
  { unfold load. rewrite Hb1.
    replace (P1 ++ " "%char :: "<"%char :: tag ++ ">"%char :: rest ++ NUL :: b :: tl)
      with ((P1 ++ [" "%char]) ++ "<"%char :: tag ++ ">"%char :: rest ++ NUL :: b :: tl)
      by (rewrite <- app_assoc; reflexivity).
    replace (length P1 + 1) with (length (P1 ++ [" "%char]))
      by (rewrite length_app; reflexivity).
    rewrite nth_error_exact. reflexivity. }
  rewrite Hc, bind_Done. change (Ascii.eqb "<" "<") with true. cbv iota.
  (* strchr(match + 2, '>') *)
  set (P2 := P1 ++ [" "%char; "<"%char]).
  assert (Hb2 : buf1 = P2 ++ tag ++ ">"%char :: rest ++ NUL :: b :: tl).
  { rewrite Hb1. unfold P2. rewrite <- app_assoc. reflexivity. }
  assert (HP2 : length P2 = length P1 + 2)
    by (unfold P2; rewrite length_app; reflexivity).
  assert (Hm2 : strchr buf1 (length P1 + 2) ">" = Done (Some (length P1 + 2 + length tag))).
  { unfold strchr. rewrite <- HP2, Hb2, skipn_exact.
    rewrite (strchr_from_skip _ _ _ _ (Forall_avoid _ _ Htgt Ht)), strchr_from_hit.
    reflexivity. }
  rewrite Hm2, bind_Done.
  (* the new count and the move *)
  assert (Hevlen : length ev = length P1 + 2 + length tag + 1 + length rest).
  { rewrite Hev. rewrite length_app. cbn [length]. rewrite length_app.
    cbn [length]. lia. }
  replace (length ev - (length P1 + 2 + length tag - length P1))
    with (length P1 + 1 + length rest) by lia.
  replace (length P1 + 1 + length rest - length P1 + 1) with (length rest + 2) by lia.
  set (P3 := P2 ++ tag ++ [">"%char]).
  assert (Hb3 : buf1 = P3 ++ rest ++ NUL :: b :: tl).
  { rewrite Hb2. unfold P3. rewrite <- !app_assoc. reflexivity. }
  assert (HP3 : length P3 = length P1 + 2 + length tag + 1).
  { unfold P3. rewrite !length_app, HP2. simpl. lia. }
  assert (Hmv : exists junk,
             memmove buf1 (length P1 + 1) (length P1 + 2 + length tag + 1)
                     (length rest + 2)
             = Done ((P1 ++ [" "%char]) ++ (rest ++ [NUL; b]) ++ junk)).
  { unfold memmove.
    assert (Hl1 : length buf1 = length ev + S (S (length tl))).
    { unfold buf1. rewrite length_app. reflexivity. }
    replace ((length P1 + 2 + length tag + 1 + (length rest + 2) <=? length buf1) &&
             (length P1 + 1 + (length rest + 2) <=? length buf1)) with true.
    2:{ symmetry. apply andb_true_iff. split; apply Nat.leb_le; lia. }
    eexists. f_equal. f_equal.
    - rewrite Hb1.
      replace (P1 ++ " "%char :: "<"%char :: tag ++ ">"%char :: rest ++ NUL :: b :: tl)
        with ((P1 ++ [" "%char]) ++ "<"%char :: tag ++ ">"%char :: rest ++ NUL :: b :: tl)
        by (rewrite <- app_assoc; reflexivity).
      replace (length P1 + 1) with (length (P1 ++ [" "%char]))
        by (rewrite length_app; reflexivity).
      apply firstn_exact.
    - f_equal. rewrite <- HP3, Hb3, skipn_exact.
      replace (rest ++ NUL :: b :: tl) with ((rest ++ [NUL; b]) ++ tl)
        by (rewrite <- app_assoc; reflexivity).
      replace (length rest + 2) with (length (rest ++ [NUL; b]))
        by (rewrite length_app; reflexivity).
      apply firstn_exact. }
  destruct Hmv as [junk Hmv]. rewrite Hmv, bind_Done.
  unfold delivered. rewrite bind_Done. cbn [fst snd].
  f_equal.
  replace ((P1 ++ [" "%char]) ++ (rest ++ [NUL; b]) ++ junk)
    with ((IFNAME ++ iface ++ chars " " ++ rest) ++ NUL :: b :: junk).
  2:{ unfold P1. rewrite <- !app_assoc. reflexivity. }
  rewrite c_str_terminated.
  - f_equal. f_equal. unfold P1. rewrite !length_app. simpl. lia.
  - repeat apply no_NUL_app; try assumption;
      intros Hin; simpl in Hin; repeat destruct Hin as [Hin|Hin];
        try discriminate; try contradiction.
Qed.

Definition raw_connected : cstring :=
  chars "IFNAME=wlan0 <3>CTRL-EVENT-CONNECTED - foo".

(** The theorem at the payload of the specification, received into an array
    of 2048 bytes. *)
Lemma C2_ifname_event_loses_only_tag_witness :
  delivered (wifi_wait_for_event true (chars "wlan0") (received raw_connected)
               (repeat NUL 2048))
  = Done (chars "IFNAME=wlan0 CTRL-EVENT-CONNECTED - foo", 39%Z).
Proof.
  apply (C2_ifname_event_loses_only_tag (chars "wlan0") (chars "wlan0")
           (chars "3") (chars "CTRL-EVENT-CONNECTED - foo") (repeat NUL 2048)).
  - unfold no_NUL. simpl. intuition discriminate.
  - simpl. intuition discriminate.
  - unfold no_NUL. simpl. intuition discriminate.
  - simpl. intuition discriminate.
  - unfold no_NUL. simpl. intuition discriminate.
  - rewrite repeat_length. apply Nat.leb_le. vm_compute. reflexivity.
Defined.

(** C2 as stated fails: the payload of the specification is not delivered
    as ["CTRL-EVENT-CONNECTED - foo"]; the interface prefix stays. *)
Lemma C2_prefix_kept_counterexample :
  delivered (wifi_wait_for_event true (chars "wlan0") (received raw_connected)
               (repeat NUL 2048))
  <> Done (chars "CTRL-EVENT-CONNECTED - foo", 26%Z)
  /\ (forall n,
         delivered (wifi_wait_for_event true (chars "wlan0") (received raw_connected)
                      (repeat NUL 2048))
         <> Done (chars "CTRL-EVENT-CONNECTED - foo", n)).
Proof.
  assert (E : delivered (wifi_wait_for_event true (chars "wlan0")
                           (received raw_connected) (repeat NUL 2048))
              = Done (chars "IFNAME=wlan0 CTRL-EVENT-CONNECTED - foo", 39%Z))
    by (vm_compute; reflexivity).
  rewrite E. split; [|intros n]; intros H; inversion H.
Qed.

End WifiEvent.

(* ====================================================================== *)
(** * frameworks/av/media/libstagefright/matroska/MatroskaExtractor.cpp:
      Vorbis codec-private data *)
(* ====================================================================== *)

Module Vorbis.

Local Open Scope outcome_scope.

(** The two [status_t] values [addVorbisCodecInfo] returns. *)
Inductive status_t := OK | ERROR_MALFORMED.

(** The two blobs the function stores in the track's [MetaData]. *)
Record MetaData := {
  kKeyVorbisInfo : option (list Z);
  kKeyVorbisBooks : option (list Z)
}.

Definition no_meta : MetaData :=
  {| kKeyVorbisInfo := None; kKeyVorbisBooks := None |}.

(** The [len] bytes at [&codecPrivate[offset]]. *)
Definition slice (codecPrivate : list Z) (offset len : Z) : list Z :=
  firstn (Z.to_nat len) (skipn (Z.to_nat offset) codecPrivate).

Section WithSizeMax.

(** [SIZE_MAX] of the target: [2^32 - 1] or [2^64 - 1]. *)
Variable SIZE_MAX : Z.

(** Where one of the two lacing loops ends. *)
Inductive lacing :=
| Overflow                       (* return ERROR_MALFORMED inside the loop *)
| Stopped (offset len : Z).      (* the loop condition became false *)

(** [while (offset < codecPrivateSize && codecPrivate[offset] == 0xff)];
    [rest] is the part of the array from [offset] on. *)
Fixpoint lacing_loop (rest : list Z) (offset len : Z) : lacing :=
  match rest with
  | [] => Stopped offset len
  | b :: rest' =>
      if b =? 0xff then
        if len >? SIZE_MAX - 0xff then Overflow
        else lacing_loop rest' (offset + 1) (len + 0xff)
      else Stopped offset len
  end.

(** One Xiph-laced length: the loop and the terminating byte.  [None] stands
    for [return ERROR_MALFORMED]. *)
Definition read_lacing (codecPrivate : list Z) (offset : Z)
  : outcome (option (Z * Z)) :=
  let codecPrivateSize := Zlength' codecPrivate in
  match lacing_loop (skipn (Z.to_nat offset) codecPrivate) offset 0 with
  | Overflow => Done None
  | Stopped offset len =>
      if offset >=? codecPrivateSize then Done None
      else
        b <- load codecPrivate offset ;;
        if len >? SIZE_MAX - b then Done None
        else Done (Some (offset + 1, len + b))
  end.

(** [addVorbisCodecInfo]: the status returned and the metadata afterwards,
    starting from [meta]. *)
Definition addVorbisCodecInfo (meta : MetaData) (codecPrivate : list Z)
  : outcome (status_t * MetaData) :=
  let codecPrivateSize := Zlength' codecPrivate in
  if codecPrivateSize <? 1 then Done (ERROR_MALFORMED, meta)
  else
    b <- load codecPrivate 0 ;;
    if negb (b =? 0x02) then Done (ERROR_MALFORMED, meta)
    else
      r1 <- read_lacing codecPrivate 1 ;;
      match r1 with
      | None => Done (ERROR_MALFORMED, meta)
      | Some (offset, len1) =>
          r2 <- read_lacing codecPrivate offset ;;
          match r2 with
          | None => Done (ERROR_MALFORMED, meta)
          | Some (offset, len2) =>
              if (len1 >? SIZE_MAX - len2)
                 || (offset >? SIZE_MAX - (len1 + len2))
                 || (codecPrivateSize <? offset + len1 + len2)
              then Done (ERROR_MALFORMED, meta)
              else
                b <- load codecPrivate offset ;;
                if negb (b =? 0x01) then Done (ERROR_MALFORMED, meta)
                else
                  let meta :=
                    {| kKeyVorbisInfo := Some (slice codecPrivate offset len1);
                       kKeyVorbisBooks := kKeyVorbisBooks meta |} in
                  let offset := offset + len1 in
                  b <- load codecPrivate offset ;;
                  if negb (b =? 0x03) then Done (ERROR_MALFORMED, meta)
                  else
                    let offset := offset + len2 in
                    b <- load codecPrivate offset ;;
                    if negb (b =? 0x05) then Done (ERROR_MALFORMED, meta)
                    else
                      Done (OK,
                            {| kKeyVorbisInfo := kKeyVorbisInfo meta;
                               kKeyVorbisBooks :=
                                 Some (slice codecPrivate offset
                                             (codecPrivateSize - offset)) |})
          end
      end.

End WithSizeMax.

(** Xiph lacing of a length: [n / 255] bytes [0xff] and then [n mod 255]. *)
Definition xiph_lacing (n : nat) : list Z :=
  repeat 0xff (n / 255) ++ [Z.of_nat (n mod 255)].

(** The codec-private layout of the claim. *)
Definition vorbis_private (ident comment setup : list Z) : list Z :=
  [0x02] ++ xiph_lacing (length ident) ++ xiph_lacing (length comment)
  ++ ident ++ comment ++ setup.

(** ** Properties *)

Lemma skipn_at {A} (pre l : list A) :
  skipn (Z.to_nat (Zlength' pre)) (pre ++ l) = l.
Proof.
  unfold Zlength'. rewrite Nat2Z.id.
  induction pre as [|y pre IH]; [reflexivity | exact IH].
Qed.

Lemma slice_at (pre mid post : list Z) :
  slice (pre ++ mid ++ post) (Zlength' pre) (Zlength' mid) = mid.
Proof.
  unfold slice. rewrite skipn_at. unfold Zlength'. rewrite Nat2Z.id.
  induction mid as [|y mid IH]; [reflexivity | simpl; f_equal; exact IH].
Qed.

Section WithSizeMax.

Variable SIZE_MAX : Z.

Lemma lacing_loop_run k :
  forall l offset len,
    len + 0xff * Z.of_nat k <= SIZE_MAX ->
    lacing_loop SIZE_MAX (repeat 0xff k ++ l) offset len
    = lacing_loop SIZE_MAX l (offset + Z.of_nat k) (len + 0xff * Z.of_nat k).
Proof.
  induction k as [|k IH]; intros l offset len Hle.
  - cbn [repeat app]. f_equal; lia.
  - cbn [repeat app lacing_loop]. change (255 =? 255) with true. cbv iota.
    destruct (Z.gtb_spec len (SIZE_MAX - 255)); [lia|].
    rewrite IH by lia. f_equal; lia.
Qed.

Lemma xiph_lacing_length n :
  Zlength' (xiph_lacing n) = Z.of_nat (n / 255) + 1.
Proof.
  unfold xiph_lacing. rewrite Zlength'_app. unfold Zlength'.
  rewrite repeat_length. reflexivity.
Qed.

(** Decoding a laced length gives the length back and moves [offset] just
    behind the lacing. *)
Lemma read_lacing_spec pre n post :
  Zlength' (pre ++ xiph_lacing n ++ post) <= SIZE_MAX ->
  Z.of_nat n <= SIZE_MAX ->
  read_lacing SIZE_MAX (pre ++ xiph_lacing n ++ post) (Zlength' pre)
  = Done (Some (Zlength' pre + Zlength' (xiph_lacing n), Z.of_nat n)).
Proof.
  intros Hsz Hn. unfold read_lacing. rewrite skipn_at.
  pose proof (Nat.div_mod_eq n 255) as Hdm.
  assert (Hr : (n mod 255 < 255)%nat) by (apply Nat.mod_upper_bound; lia).
  unfold xiph_lacing at 1. rewrite <- app_assoc.
  rewrite lacing_loop_run by lia.
  cbn [app lacing_loop].
  destruct (Z.eqb_spec (Z.of_nat (n mod 255)) 255) as [E|_]; [lia|].
  rewrite xiph_lacing_length in *.
  rewrite !Zlength'_app, xiph_lacing_length in *.
  pose proof (Zlength'_nonneg pre). pose proof (Zlength'_nonneg post).
  destruct (Z.geb_spec (Zlength' pre + Z.of_nat (n / 255))
                       (Zlength' pre + (Z.of_nat (n / 255) + 1 + Zlength' post)));
    [lia|].
  replace (pre ++ xiph_lacing n ++ post)
    with ((pre ++ repeat 255 (n / 255)) ++ Z.of_nat (n mod 255) :: post)
    by (unfold xiph_lacing; rewrite <- !app_assoc; reflexivity).
  replace (Zlength' pre + Z.of_nat (n / 255))
    with (Zlength' (pre ++ repeat 255 (n / 255)))
    by (rewrite Zlength'_app; unfold Zlength' at 2; rewrite repeat_length; reflexivity).
  rewrite load_at, bind_Done.
  destruct (Z.gtb_spec (0 + 255 * Z.of_nat (n / 255)) (SIZE_MAX - Z.of_nat (n mod 255)));
    [lia|].
  rewrite Zlength'_app. unfold Zlength' at 2. rewrite repeat_length.
  f_equal. f_equal. f_equal; lia.
Qed.

(** Every codec-private sequence of the layout is accepted, and the two
    blobs stored are the identification and the setup segment. *)
Lemma addVorbisCodecInfo_accepts_layout meta ident comment setup :
  Zlength' (vorbis_private (0x01 :: ident) (0x03 :: comment) (0x05 :: setup))
    <= SIZE_MAX ->
  addVorbisCodecInfo SIZE_MAX meta
    (vorbis_private (0x01 :: ident) (0x03 :: comment) (0x05 :: setup))
  = Done (OK, {| kKeyVorbisInfo := Some (0x01 :: ident);
                 kKeyVorbisBooks := Some (0x05 :: setup) |}).
Proof.
  intros Hsz.
  set (I := 0x01 :: ident) in *. set (C := 0x03 :: comment) in *.
  set (S5 := 0x05 :: setup) in *.
  set (L1 := xiph_lacing (length I)) in *.
  set (L2 := xiph_lacing (length C)) in *.
  set (cp := vorbis_private I C S5) in *.
  assert (Hcp1 : cp = [2] ++ L1 ++ (L2 ++ I ++ C ++ S5)) by reflexivity.
  assert (Hcp2 : cp = ([2] ++ L1) ++ L2 ++ (I ++ C ++ S5))
    by (rewrite Hcp1, <- app_assoc; reflexivity).
  set (P := ([2] ++ L1) ++ L2).
  assert (HcpI : cp = P ++ I ++ (C ++ S5))
    by (rewrite Hcp2; unfold P; rewrite <- !app_assoc; reflexivity).
  assert (HcpC : cp = (P ++ I) ++ C ++ S5)
    by (rewrite HcpI, <- !app_assoc; reflexivity).
  assert (HcpS : cp = ((P ++ I) ++ C) ++ S5 ++ [])
    by (rewrite HcpC, app_nil_r, <- !app_assoc; reflexivity).
  assert (HP : Zlength' P = 1 + Zlength' L1 + Zlength' L2).
  { unfold P. rewrite !Zlength'_app. unfold Zlength' at 1. cbn [length]. lia. }
  assert (Hlen : Zlength' cp
                 = Zlength' P + Zlength' I + Zlength' C + Zlength' S5)
    by (rewrite HcpI, !Zlength'_app; lia).
  pose proof (Zlength'_nonneg L1). pose proof (Zlength'_nonneg L2).
  pose proof (Zlength'_nonneg ident). pose proof (Zlength'_nonneg comment).
  pose proof (Zlength'_nonneg setup).
  assert (HI : Zlength' I = 1 + Zlength' ident) by apply Zlength'_cons.
  assert (HC : Zlength' C = 1 + Zlength' comment) by apply Zlength'_cons.
  assert (HS5 : Zlength' S5 = 1 + Zlength' setup) by apply Zlength'_cons.
  (* the facts about the array that the function consults *)
  assert (E0 : load cp 0 = Done 2) by reflexivity.
  assert (R1 : read_lacing SIZE_MAX cp 1 = Done (Some (1 + Zlength' L1, Zlength' I))).
  { rewrite Hcp1. apply (read_lacing_spec [2] (length I)).
    - exact Hsz.
    - fold (Zlength' I). lia. }
  assert (R2 : read_lacing SIZE_MAX cp (1 + Zlength' L1)
               = Done (Some (Zlength' P, Zlength' C))).
  { rewrite Hcp2, HP.
    replace (1 + Zlength' L1) with (Zlength' ([2] ++ L1))
      by (rewrite Zlength'_app; reflexivity).
    replace (Zlength' ([2] ++ L1) + Zlength' L2)
      with (Zlength' ([2] ++ L1) + Zlength' (xiph_lacing (length C)))
      by reflexivity.
    apply (read_lacing_spec ([2] ++ L1) (length C)).
    - fold L2. rewrite <- Hcp2. exact Hsz.
    - fold (Zlength' C). lia. }
  assert (E1 : load cp (Zlength' P) = Done 1)
    by (rewrite HcpI; unfold I; apply load_at).
  assert (E3 : load cp (Zlength' P + Zlength' I) = Done 3).
  { rewrite HcpC. rewrite <- Zlength'_app. unfold C. apply load_at. }
  assert (E5 : load cp (Zlength' P + Zlength' I + Zlength' C) = Done 5).
  { rewrite HcpS. rewrite <- !Zlength'_app. unfold S5. apply load_at. }
  assert (B1 : slice cp (Zlength' P) (Zlength' I) = I)
    by (rewrite HcpI; apply slice_at).
  assert (B2 : slice cp (Zlength' P + Zlength' I + Zlength' C)
                     (Zlength' cp - (Zlength' P + Zlength' I + Zlength' C)) = S5).
  { replace (Zlength' cp - (Zlength' P + Zlength' I + Zlength' C))
      with (Zlength' S5) by lia.
    rewrite HcpS. rewrite <- !Zlength'_app. apply slice_at. }
  (* the run of the function *)
  unfold addVorbisCodecInfo.
  destruct (Z.ltb_spec (Zlength' cp) 1); [lia|].
  rewrite E0, bind_Done. change (negb (2 =? 2)) with false. cbv iota.
  rewrite R1, bind_Done, R2, bind_Done.
  replace ((Zlength' I >? SIZE_MAX - Zlength' C)
           || (Zlength' P >? SIZE_MAX - (Zlength' I + Zlength' C))
           || (Zlength' cp <? Zlength' P + Zlength' I + Zlength' C))
    with false.
  2:{ symmetry. rewrite !orb_false_iff. repeat split.
      - rewrite Z.gtb_ltb. apply Z.ltb_ge. lia.
      - rewrite Z.gtb_ltb. apply Z.ltb_ge. lia.
      - apply Z.ltb_ge. lia. }
  rewrite E1, bind_Done. change (negb (1 =? 1)) with false. cbv iota.
  rewrite E3, bind_Done. change (negb (3 =? 3)) with false. cbv iota.
  rewrite E5, bind_Done. change (negb (5 =? 5)) with false. cbv iota.
  cbn [kKeyVorbisInfo]. rewrite B1, B2. reflexivity.
Qed.

End WithSizeMax.
Section Rejections.

Variable SIZE_MAX : Z.

(** An empty input and an input whose first byte is not 0x02 are rejected
    without touching the metadata. *)
Lemma addVorbisCodecInfo_rejects_first_byte meta codecPrivate :
  hd 0 codecPrivate <> 0x02 ->
  addVorbisCodecInfo SIZE_MAX meta codecPrivate = Done (ERROR_MALFORMED, meta).
Proof.
  intros Hhd. unfold addVorbisCodecInfo.
  destruct codecPrivate as [|b rest]; [reflexivity|].
  rewrite Zlength'_cons. pose proof (Zlength'_nonneg rest).
  destruct (Z.ltb_spec (1 + Zlength' rest) 1); [lia|].
  change (load (b :: rest) 0) with (Done b). rewrite bind_Done.
  simpl in Hhd. destruct (Z.eqb_spec b 2); [contradiction | reflexivity].
Qed.

End Rejections.

Definition SIZE_MAX_32 : Z := 2 ^ 32 - 1.
Definition SIZE_MAX_64 : Z := 2 ^ 64 - 1.

(** The bytes [02 01 01 | 01 | 03]: both lengths are 1, the identification
    and comment segments are present, the setup segment is missing. *)
Definition no_setup_segment : list Z := [0x02; 0x01; 0x01; 0x01; 0x03].

(** C5 (the code departs from the claim).  On [no_setup_segment] the size
    test [codecPrivateSize < offset + len1 + len2] is [5 < 5], so the input
    is not rejected and the function reads [codecPrivate[5]], one element
    past the five it was given, instead of returning the malformed-input
    error; and this on a 32-bit as on a 64-bit target. *)
Theorem C5_missing_setup_is_read_past_the_end :
  addVorbisCodecInfo SIZE_MAX_64 no_meta no_setup_segment = OutOfBounds /\
  addVorbisCodecInfo SIZE_MAX_32 no_meta no_setup_segment = OutOfBounds /\
  addVorbisCodecInfo SIZE_MAX_64 no_meta no_setup_segment
    <> Done (ERROR_MALFORMED, no_meta).
Proof.
  split; [reflexivity|]. split; [reflexivity|].
  vm_compute. discriminate.
Qed.

End Vorbis.

(* ====================================================================== *)
(** * frameworks/av/media/libstagefright/matroska/MatroskaExtractor.cpp:
      AVC frames in [MatroskaSource::read] *)
(* ====================================================================== *)

Module AvcRead.

Local Open Scope outcome_scope.

Inductive status_t := OK | ERROR_MALFORMED.

(** [enum Type] of [MatroskaSource]. *)
Inductive Type_ := AVC | AAC | OTHER.

(** A [MediaBuffer]: its storage and the visible range.  Metadata (time
    stamp, sync flag, target time) is carried over unchanged by the code and
    is left out. *)
Record MediaBuffer := {
  data : list Z;
  range_offset : Z;
  range_length : Z
}.

(** [new MediaBuffer(size)]; the fresh storage is shown as zeros. *)
Definition MediaBuffer_new (size : Z) : MediaBuffer :=
  {| data := repeat 0 (Z.to_nat size); range_offset := 0; range_length := size |}.

(** The bytes a consumer sees: [data() + range_offset()], [range_length()]
    of them. *)
Definition visible (b : MediaBuffer) : list Z :=
  firstn (Z.to_nat (range_length b)) (skipn (Z.to_nat (range_offset b)) (data b)).

(** The buffer [readBlock] queues for a sub-frame whose bytes are [bytes]
    (on a track without WebM block encryption). *)
Definition frame_of (bytes : list Z) : MediaBuffer :=
  {| data := bytes; range_offset := 0; range_length := Zlength' bytes |}.

Definition store (mem : list Z) (i : Z) (v : Z) : outcome (list Z) :=
  if (0 <=? i) && (i <? Zlength' mem)
  then Done (firstn (Z.to_nat i) mem ++ v :: skipn (S (Z.to_nat i)) mem)
  else OutOfBounds.

(** [memcpy(&mem[i], bytes, length bytes)]. *)
Fixpoint store_bytes (mem : list Z) (i : Z) (bytes : list Z) : outcome (list Z) :=
  match bytes with
  | [] => Done mem
  | b :: bytes' => mem' <- store mem i b ;; store_bytes mem' (i + 1) bytes'
  end.

(** The [n] bytes at [&mem[i]], read one by one. *)
Fixpoint load_bytes (mem : list Z) (i : Z) (n : nat) : outcome (list Z) :=
  match n with
  | O => Done []
  | S n' => b <- load mem i ;; bs <- load_bytes mem (i + 1) n' ;; Done (b :: bs)
  end.

(** Big-endian readers of [Utils.h]. *)
Definition U16_AT (mem : list Z) (i : Z) : outcome Z :=
  b0 <- load mem i ;; b1 <- load mem (i + 1) ;;
  Done (Z.lor (Z.shiftl b0 8) b1).

Definition U24_AT (mem : list Z) (i : Z) : outcome Z :=
  b0 <- load mem i ;; b1 <- load mem (i + 1) ;; b2 <- load mem (i + 2) ;;
  Done (Z.lor (Z.lor (Z.shiftl b0 16) (Z.shiftl b1 8)) b2).

Definition U32_AT (mem : list Z) (i : Z) : outcome Z :=
  b0 <- load mem i ;; b1 <- load mem (i + 1) ;; b2 <- load mem (i + 2) ;;
  b3 <- load mem (i + 3) ;;
  Done (Z.lor (Z.lor (Z.lor (Z.shiftl b0 24) (Z.shiftl b1 16)) (Z.shiftl b2 8)) b3).

Definition start_code : list Z := [0x00; 0x00; 0x00; 0x01].

Section WithSizeT.

(** Width of [size_t] on the target (32 or 64). *)
Variable size_bits : Z.

(** Addition in [size_t]. *)
Definition size_add (a b : Z) : Z := (a + b) mod 2 ^ size_bits.

(** The memory the two passes work on: the storage of [frame], the storage
    of a separately allocated [buffer], and whether [buffer] is [frame]
    itself (then [dstPtr] points into the frame's own storage). *)
Record memory := {
  frame_data : list Z;
  buffer_data : list Z;
  frame_is_buffer : bool
}.

Inductive pass_end :=
| Malformed                               (* return ERROR_MALFORMED *)
| LoopLeft (srcOffset dstOffset : Z) (m : memory).

(** The inner [while] loop of one pass.  [ro] is the frame's
    [range_offset()], so [srcPtr[i]] is [frame_data[ro + i]], while
    [dstPtr[j]] is element [j] of the destination storage.  Each iteration
    that continues moves [srcOffset] forward, so [fuel] larger than the
    frame size is never used up. *)
Fixpoint nal_loop (fuel : nat) (pass : Z) (ro srcSize mNALSizeLen : Z)
         (srcOffset dstOffset : Z) (m : memory) : outcome pass_end :=
  match fuel with
  | O => Done (LoopLeft srcOffset dstOffset m)
  | S fuel' =>
      if negb (size_add srcOffset mNALSizeLen <=? srcSize)
      then Done (LoopLeft srcOffset dstOffset m)
      else
        NALsize <-
          (if mNALSizeLen =? 1 then load (frame_data m) (ro + srcOffset)
           else if mNALSizeLen =? 2 then U16_AT (frame_data m) (ro + srcOffset)
           else if mNALSizeLen =? 3 then U24_AT (frame_data m) (ro + srcOffset)
           else if mNALSizeLen =? 4 then U32_AT (frame_data m) (ro + srcOffset)
           else CheckFailed) ;;
        let fragEnd := size_add (size_add srcOffset mNALSizeLen) NALsize in
        if fragEnd <=? size_add srcOffset mNALSizeLen then Done Malformed
        else if fragEnd >? srcSize then Done (LoopLeft srcOffset dstOffset m)
        else
          m' <-
            (if pass =? 1 then
               if frame_is_buffer m then
                 fd <- store_bytes (frame_data m) dstOffset start_code ;;
                 Done {| frame_data := fd; buffer_data := buffer_data m;
                         frame_is_buffer := true |}
               else
                 bd <- store_bytes (buffer_data m) dstOffset start_code ;;
                 nal <- load_bytes (frame_data m)
                                   (ro + size_add srcOffset mNALSizeLen)
                                   (Z.to_nat NALsize) ;;
                 bd <- store_bytes bd (size_add dstOffset 4) nal ;;
                 Done {| frame_data := frame_data m; buffer_data := bd;
                         frame_is_buffer := false |}
             else Done m) ;;
          nal_loop fuel' pass ro srcSize mNALSizeLen fragEnd
                   (size_add (size_add dstOffset 4) NALsize) m'
  end.

(** [MatroskaSource::read] from the point where [frame] has been taken off
    the pending list: the status and the buffer stored in [*out]. *)
Definition read (mType : Type_) (mNALSizeLen : Z) (frame : MediaBuffer)
  : outcome (status_t * option MediaBuffer) :=
  if (match mType with AVC => false | _ => true end) || (mNALSizeLen =? 0)
  then Done (OK, Some frame)
  else
    let ro := range_offset frame in
    let srcSize := range_length frame in
    let fuel := S (length (data frame)) in
    let m0 := {| frame_data := data frame; buffer_data := [];
                 frame_is_buffer := false |} in
    (* pass 0 *)
    e0 <- nal_loop fuel 0 ro srcSize mNALSizeLen 0 0 m0 ;;
    match e0 with
    | Malformed => Done (ERROR_MALFORMED, None)
    | LoopLeft srcOffset dstOffset _ =>
        if srcOffset <? srcSize then Done (ERROR_MALFORMED, None)
        else
          let dstSize := dstOffset in
          let reuse := (dstSize =? srcSize) && (mNALSizeLen =? 4) in
          let m1 :=
            {| frame_data := data frame;
               buffer_data := if reuse then [] else data (MediaBuffer_new dstSize);
               frame_is_buffer := reuse |} in
          (* pass 1 *)
          e1 <- nal_loop fuel 1 ro srcSize mNALSizeLen 0 0 m1 ;;
          match e1 with
          | Malformed => Done (ERROR_MALFORMED, None)
          | LoopLeft srcOffset _ m =>
              if srcOffset <? srcSize then Done (ERROR_MALFORMED, None)
              else if reuse then
                Done (OK, Some {| data := frame_data m;
                                  range_offset := ro;
                                  range_length := srcSize |})
              else
                Done (OK, Some {| data := buffer_data m;
                                  range_offset := 0;
                                  range_length := dstSize |})
          end
    end.

End WithSizeT.

(** A NAL fragment with its 4-byte length field. *)
Record fragment := {
  length_field : list Z;
  nal : list Z
}.

(** The length field has four bytes and, read big-endian, gives the length
    of the fragment. *)
Definition wf_fragment (f : fragment) : Prop :=
  length (length_field f) = 4%nat /\
  U32_AT (length_field f) 0 = Done (Zlength' (nal f)).

Definition length_prefixed (f : fragment) : list Z := length_field f ++ nal f.
Definition start_coded (f : fragment) : list Z := start_code ++ nal f.

(** ** Properties *)

Lemma store_at (pre : list Z) x post v :
  store (pre ++ x :: post) (Zlength' pre) v = Done (pre ++ v :: post).
Proof.
  unfold store.
  replace ((0 <=? Zlength' pre) && (Zlength' pre <? Zlength' (pre ++ x :: post)))
    with true.
  - unfold Zlength'. rewrite Nat2Z.id, firstn_exact.
    change (S (length pre)) with (1 + length pre)%nat.
    rewrite <- skipn_skipn, skipn_exact. reflexivity.
  - symmetry. apply andb_true_iff. split.
    + apply Z.leb_le, Zlength'_nonneg.
    + apply Z.ltb_lt. rewrite Zlength'_app, Zlength'_cons.
      pose proof (Zlength'_nonneg post). lia.
Qed.

Lemma store_bytes_at bytes :
  forall pre old post,
    length old = length bytes ->
    store_bytes (pre ++ old ++ post) (Zlength' pre) bytes
    = Done (pre ++ bytes ++ post).
Proof.
  induction bytes as [|b bytes IH]; intros pre old post Hlen.
  - destruct old; [reflexivity | discriminate].
  - destruct old as [|x old]; [discriminate|].
    cbn [store_bytes app]. rewrite store_at, bind_Done.
    replace (pre ++ b :: old ++ post) with ((pre ++ [b]) ++ old ++ post)
      by (rewrite <- app_assoc; reflexivity).
    replace (Zlength' pre + 1) with (Zlength' (pre ++ [b]))
      by (rewrite Zlength'_app; reflexivity).
    rewrite IH by (simpl in Hlen; lia).
    rewrite <- app_assoc. reflexivity.
Qed.

(** A length field is read the same wherever it lies in memory. *)
Lemma U32_AT_at pre lf post :
  length lf = 4%nat ->
  U32_AT (pre ++ lf ++ post) (Zlength' pre) = U32_AT lf 0.
Proof.
  intros Hlen.
  destruct lf as [|a [|b [|c [|d [|e lf]]]]]; try discriminate.
  unfold U32_AT. cbn [app].
  rewrite load_at, bind_Done.
  replace (pre ++ a :: b :: c :: d :: post) with ((pre ++ [a]) ++ b :: c :: d :: post)
    by (rewrite <- app_assoc; reflexivity).
  replace (Zlength' pre + 1) with (Zlength' (pre ++ [a]))
    by (rewrite Zlength'_app; reflexivity).
  rewrite load_at, bind_Done.
  replace ((pre ++ [a]) ++ b :: c :: d :: post) with ((pre ++ [a; b]) ++ c :: d :: post)
    by (rewrite <- !app_assoc; reflexivity).
  replace (Zlength' pre + 2) with (Zlength' (pre ++ [a; b]))
    by (rewrite Zlength'_app; reflexivity).
  rewrite load_at, bind_Done.
  replace ((pre ++ [a; b]) ++ c :: d :: post) with ((pre ++ [a; b; c]) ++ d :: post)
    by (rewrite <- !app_assoc; reflexivity).
  replace (Zlength' pre + 3) with (Zlength' (pre ++ [a; b; c]))
    by (rewrite Zlength'_app; reflexivity).
  rewrite load_at, bind_Done.
  reflexivity.
Qed.

Lemma length_prefixed_length f :
  wf_fragment f -> Zlength' (length_prefixed f) = 4 + Zlength' (nal f).
Proof.
  intros [H4 _]. unfold length_prefixed. rewrite Zlength'_app.
  unfold Zlength' at 1. rewrite H4. reflexivity.
Qed.

Lemma start_coded_length f : Zlength' (start_coded f) = 4 + Zlength' (nal f).
Proof. unfold start_coded. rewrite Zlength'_app. reflexivity. Qed.

Lemma fragments_fit_fuel frags :
  Forall wf_fragment frags ->
  (length frags <= length (concat (map length_prefixed frags)))%nat.
Proof.
  induction 1 as [|f frags [H4 _] _ IH]; [apply Nat.le_refl|].
  cbn [map concat length]. unfold length_prefixed at 1.
  rewrite !length_app, H4. lia.
Qed.

Lemma wrap_once M x : 0 < M -> M <= x < 2 * M -> x mod M = x - M.
Proof.
  intros HM Hx. replace x with ((x - M) + 1 * M) at 1 by lia.
  rewrite Z_mod_plus_full. apply Z.mod_small. lia.
Qed.

Section WithSizeT.

Variable size_bits : Z.

Lemma size_add_small a b :
  0 <= a + b < 2 ^ size_bits -> size_add size_bits a b = a + b.
Proof. intros H. unfold size_add. apply Z.mod_small. exact H. Qed.

(** Pass 0 over well-formed, non-empty fragments walks to the end of the
    frame, source and destination offsets side by side. *)
Lemma pass0_walks_fragments todo :
  forall fuel done m,
    Forall wf_fragment todo ->
    Forall (fun f => nal f <> []) todo ->
    frame_data m = done ++ concat (map length_prefixed todo) ->
    Zlength' (frame_data m) + 4 < 2 ^ size_bits ->
    (length todo < fuel)%nat ->
    nal_loop size_bits fuel 0 0 (Zlength' (frame_data m)) 4
             (Zlength' done) (Zlength' done) m
    = Done (LoopLeft (Zlength' (frame_data m)) (Zlength' (frame_data m)) m).
Proof.
  induction todo as [|f todo IH]; intros fuel done m Hwf Hne Hm Hsz Hfuel.
  - cbn [map concat] in Hm. rewrite app_nil_r in Hm. rewrite Hm in *.
    destruct fuel as [|fuel]; [inversion Hfuel|]. cbn [nal_loop].
    pose proof (Zlength'_nonneg done).
    rewrite size_add_small by lia.
    destruct (Z.leb_spec (Zlength' done + 4) (Zlength' done)); [lia|].
    reflexivity.
  - destruct fuel as [|fuel]; [inversion Hfuel|].
    inversion Hwf as [|? ? Hf Hwf']; subst.
    inversion Hne as [|? ? Hfne Hne']; subst.
    destruct Hf as [H4 HU].
    assert (Hnal : 0 < Zlength' (nal f)).
    { destruct (nal f); [contradiction|]. rewrite Zlength'_cons.
      pose proof (Zlength'_nonneg l). lia. }
    cbn [map concat] in Hm. unfold length_prefixed at 1 in Hm.
    rewrite <- app_assoc in Hm.
    assert (Hlen : Zlength' (frame_data m)
                   = Zlength' done + 4 + Zlength' (nal f)
                     + Zlength' (concat (map length_prefixed todo))).
    { rewrite Hm, !Zlength'_app. unfold Zlength' at 2. rewrite H4. lia. }
    pose proof (Zlength'_nonneg done).
    pose proof (Zlength'_nonneg (concat (map length_prefixed todo))).
    cbn [nal_loop].
    rewrite (size_add_small (Zlength' done) 4) by lia.
    destruct (Z.leb_spec (Zlength' done + 4) (Zlength' (frame_data m))); [|lia].
    cbn [negb]. change (4 =? 1) with false. change (4 =? 2) with false.
    change (4 =? 3) with false. change (4 =? 4) with true. cbv iota.
    rewrite Z.add_0_l. rewrite Hm at 1. rewrite U32_AT_at by exact H4.
    rewrite HU, bind_Done.
    rewrite (size_add_small (Zlength' done + 4)) by lia.
    destruct (Z.leb_spec (Zlength' done + 4 + Zlength' (nal f)) (Zlength' done + 4));
      [lia|].
    destruct (Z.gtb_spec (Zlength' done + 4 + Zlength' (nal f)) (Zlength' (frame_data m)));
      [lia|].
    change (0 =? 1) with false. cbv iota. rewrite bind_Done.
    replace (Zlength' done + 4 + Zlength' (nal f))
      with (Zlength' (done ++ length_field f ++ nal f)).
    2:{ rewrite !Zlength'_app. unfold Zlength' at 2. rewrite H4. lia. }
    apply IH; try assumption.
    + rewrite Hm, <- !app_assoc. reflexivity.
    + simpl in Hfuel. lia.
Qed.

(** Pass 1 with the input buffer reused puts a start code over every length
    field. *)
Lemma pass1_in_place todo :
  forall fuel done rest_mem,
    Forall wf_fragment todo ->
    Forall (fun f => nal f <> []) todo ->
    Zlength' (done ++ concat (map length_prefixed todo)) + 4 < 2 ^ size_bits ->
    (length todo < fuel)%nat ->
    nal_loop size_bits fuel 1 0
             (Zlength' (done ++ concat (map length_prefixed todo))) 4
             (Zlength' done) (Zlength' done)
             {| frame_data := done ++ concat (map length_prefixed todo);
                buffer_data := rest_mem; frame_is_buffer := true |}
    = Done (LoopLeft (Zlength' (done ++ concat (map length_prefixed todo)))
                     (Zlength' (done ++ concat (map length_prefixed todo)))
                     {| frame_data := done ++ concat (map start_coded todo);
                        buffer_data := rest_mem; frame_is_buffer := true |}).
Proof.
  induction todo as [|f todo IH]; intros fuel done rest_mem Hwf Hne Hsz Hfuel.
  - cbn [map concat] in *. rewrite app_nil_r in *.
    destruct fuel as [|fuel]; [inversion Hfuel|]. cbn [nal_loop].
    pose proof (Zlength'_nonneg done).
    rewrite size_add_small by lia.
    destruct (Z.leb_spec (Zlength' done + 4) (Zlength' done)); [lia|].
    reflexivity.
  - destruct fuel as [|fuel]; [inversion Hfuel|].
    inversion Hwf as [|? ? Hf Hwf']; subst.
    inversion Hne as [|? ? Hfne Hne']; subst.
    destruct Hf as [H4 HU].
    assert (Hnal : 0 < Zlength' (nal f)).
    { destruct (nal f); [contradiction|]. rewrite Zlength'_cons.
      pose proof (Zlength'_nonneg l). lia. }
    set (tail := concat (map length_prefixed todo)) in *.
    assert (Hm : done ++ concat (map length_prefixed (f :: todo))
                 = done ++ length_field f ++ nal f ++ tail).
    { cbn [map concat]. unfold length_prefixed at 1.
      rewrite <- app_assoc. reflexivity. }
    rewrite Hm in *.
    set (srcSize := Zlength' (done ++ length_field f ++ nal f ++ tail)) in *.
    assert (Hlen : srcSize = Zlength' done + 4 + Zlength' (nal f) + Zlength' tail).
    { unfold srcSize. rewrite !Zlength'_app. unfold Zlength' at 2.
      rewrite H4. lia. }
    pose proof (Zlength'_nonneg done). pose proof (Zlength'_nonneg tail).
    cbn [nal_loop frame_data frame_is_buffer buffer_data].
    rewrite (size_add_small (Zlength' done) 4) by lia.
    destruct (Z.leb_spec (Zlength' done + 4) srcSize); [|lia].
    cbn [negb]. change (4 =? 1) with false. change (4 =? 2) with false.
    change (4 =? 3) with false. change (4 =? 4) with true. cbv iota.
    rewrite Z.add_0_l. rewrite U32_AT_at by exact H4.
    rewrite HU, bind_Done.
    rewrite (size_add_small (Zlength' done + 4)) by lia.
    destruct (Z.leb_spec (Zlength' done + 4 + Zlength' (nal f)) (Zlength' done + 4));
      [lia|].
    destruct (Z.gtb_spec (Zlength' done + 4 + Zlength' (nal f)) srcSize); [lia|].
    change (1 =? 1) with true. cbv iota.
    rewrite store_bytes_at by (rewrite H4; reflexivity).
    rewrite !bind_Done.
    assert (Hdone' : Zlength' done + 4 + Zlength' (nal f)
                     = Zlength' (done ++ start_coded f)).
    { rewrite Zlength'_app, start_coded_length. lia. }
    assert (Hsame : srcSize = Zlength' ((done ++ start_coded f) ++ tail)).
    { rewrite !Zlength'_app, start_coded_length. lia. }
    rewrite Hdone', Hsame.
    replace (done ++ start_code ++ nal f ++ tail)
      with ((done ++ start_coded f) ++ concat (map length_prefixed todo))
      by (unfold start_coded, tail; rewrite <- !app_assoc; reflexivity).
    rewrite IH; try assumption.
    + cbn [map concat]. rewrite <- !app_assoc. reflexivity.
    + fold tail. rewrite <- Hsame. exact Hsz.
    + simpl in Hfuel. lia.
Qed.

End WithSizeT.

(** How a pass ends when [read] answers [ERROR_MALFORMED] after it. *)
Definition rejected (srcSize : Z) (e : pass_end) : Prop :=
  match e with
  | Malformed => True
  | LoopLeft srcOffset _ _ => srcOffset < srcSize
  end.

Section Truncated.

Variable size_bits : Z.

(** Pass 0 over a frame whose last length field claims more bytes than
    remain ends in rejection, whatever fragments come before. *)
Lemma pass0_rejects_truncated frags lf n rest :
  forall fuel done dstOffset m,
    Forall wf_fragment frags ->
    length lf = 4%nat ->
    U32_AT lf 0 = Done n ->
    Zlength' rest < n < 2 ^ size_bits ->
    frame_data m = done ++ concat (map length_prefixed frags) ++ lf ++ rest ->
    Zlength' (frame_data m) + 4 < 2 ^ size_bits ->
    (length frags < fuel)%nat ->
    exists e,
      nal_loop size_bits fuel 0 0 (Zlength' (frame_data m)) 4
               (Zlength' done) dstOffset m = Done e
      /\ rejected (Zlength' (frame_data m)) e.
Proof.
  induction frags as [|f frags IH];
    intros fuel done dstOffset m Hwf H4l HUl Hn Hm Hsz Hfuel;
    (destruct fuel as [|fuel]; [inversion Hfuel|]);
    pose proof (Zlength'_nonneg done) as Hd0;
    pose proof (Zlength'_nonneg rest) as Hr0.
  - cbn [map concat app] in Hm.
    assert (Hlen : Zlength' (frame_data m) = Zlength' done + 4 + Zlength' rest).
    { rewrite Hm, !Zlength'_app. unfold Zlength' at 2. rewrite H4l. lia. }
    cbn [nal_loop].
    rewrite (size_add_small size_bits (Zlength' done) 4) by lia.
    destruct (Z.leb_spec (Zlength' done + 4) (Zlength' (frame_data m))); [|lia].
    cbn [negb]. change (4 =? 1) with false. change (4 =? 2) with false.
    change (4 =? 3) with false. change (4 =? 4) with true. cbv iota.
    assert (HU' : U32_AT (frame_data m) (Zlength' done) = Done n)
      by (rewrite Hm, U32_AT_at by exact H4l; exact HUl).
    rewrite Z.add_0_l, HU', bind_Done.
    destruct (Z.lt_ge_cases (Zlength' done + 4 + n) (2 ^ size_bits)) as [Hs|Hw].
    + rewrite (size_add_small size_bits (Zlength' done + 4) n) by lia.
      destruct (Z.leb_spec (Zlength' done + 4 + n) (Zlength' done + 4)); [lia|].
      destruct (Z.gtb_spec (Zlength' done + 4 + n) (Zlength' (frame_data m))); [|lia].
      eexists. split; [reflexivity|]. simpl. lia.
    + unfold size_add at 1. rewrite wrap_once by lia.
      destruct (Z.leb_spec (Zlength' done + 4 + n - 2 ^ size_bits) (Zlength' done + 4));
        [|lia].
      eexists. split; [reflexivity | exact I].
  - inversion Hwf as [|? ? [H4 HU] Hwf']; subst.
    set (tail := concat (map length_prefixed frags) ++ lf ++ rest) in *.
    assert (Hm' : frame_data m = done ++ length_field f ++ nal f ++ tail).
    { rewrite Hm. cbn [map concat]. unfold length_prefixed at 1, tail.
      rewrite <- !app_assoc. reflexivity. }
    assert (Hlen : Zlength' (frame_data m)
                   = Zlength' done + 4 + Zlength' (nal f) + Zlength' tail).
    { rewrite Hm', !Zlength'_app. unfold Zlength' at 2. rewrite H4. lia. }
    pose proof (Zlength'_nonneg tail). pose proof (Zlength'_nonneg (nal f)).
    cbn [nal_loop].
    rewrite (size_add_small size_bits (Zlength' done) 4) by lia.
    destruct (Z.leb_spec (Zlength' done + 4) (Zlength' (frame_data m))); [|lia].
    cbn [negb]. change (4 =? 1) with false. change (4 =? 2) with false.
    change (4 =? 3) with false. change (4 =? 4) with true. cbv iota.
    assert (HU' : U32_AT (frame_data m) (Zlength' done) = Done (Zlength' (nal f)))
      by (rewrite Hm', U32_AT_at by exact H4; exact HU).
    rewrite Z.add_0_l, HU', bind_Done.
    rewrite (size_add_small size_bits (Zlength' done + 4)) by lia.
    destruct (Z.leb_spec (Zlength' done + 4 + Zlength' (nal f)) (Zlength' done + 4)).
    + eexists. split; [reflexivity | exact I].
    + destruct (Z.gtb_spec (Zlength' done + 4 + Zlength' (nal f))
                           (Zlength' (frame_data m))); [lia|].
      change (0 =? 1) with false. cbv iota. rewrite bind_Done.
      replace (Zlength' done + 4 + Zlength' (nal f))
        with (Zlength' (done ++ length_field f ++ nal f)).
      2:{ rewrite !Zlength'_app. unfold Zlength' at 2. rewrite H4. lia. }
      apply IH; try assumption.
      * rewrite Hm'. unfold tail. rewrite <- !app_assoc. reflexivity.
      * simpl in Hfuel. lia.
Qed.

End Truncated.

(** C4 (as the code has it).  On a frame as [readBlock] queues it, made of
    NAL fragments each preceded by a 4-byte big-endian length field:
    - if no fragment is empty, [read] returns OK and the buffer it hands out
      shows the same fragments, each preceded by the start code 00 00 00 01
      in place of its length field;
    - if the fragments are followed by a length field that claims more
      bytes than remain, [read] returns [ERROR_MALFORMED] and no buffer.
    The frame size is a [size_t] value with room for one more length
    field. *)
Theorem C4_avc_start_codes_replace_lengths :
  forall size_bits,
    (forall frags,
        Forall wf_fragment frags ->
        Forall (fun f => nal f <> []) frags ->
        Zlength' (concat (map length_prefixed frags)) + 4 < 2 ^ size_bits ->
        exists out,
          read size_bits AVC 4 (frame_of (concat (map length_prefixed frags)))
          = Done (OK, Some out)
          /\ visible out = concat (map start_coded frags)) /\
    (forall frags lf n rest,
        Forall wf_fragment frags ->
        length lf = 4%nat ->
        U32_AT lf 0 = Done n ->
        Zlength' rest < n < 2 ^ size_bits ->
        Zlength' (concat (map length_prefixed frags) ++ lf ++ rest) + 4
          < 2 ^ size_bits ->
        read size_bits AVC 4
             (frame_of (concat (map length_prefixed frags) ++ lf ++ rest))
        = Done (ERROR_MALFORMED, None)).
Proof.
  intros size_bits. split.
  - intros frags Hwf Hne Hsz.
    set (bytes := concat (map length_prefixed frags)) in *.
    pose proof (fragments_fit_fuel frags Hwf) as Hfuel. fold bytes in Hfuel.
    unfold read, frame_of. cbn [data range_offset range_length orb].
    change (4 =? 0) with false. cbv iota.
    pose proof (pass0_walks_fragments size_bits frags (S (length bytes)) []
                  {| frame_data := bytes; buffer_data := [];
                     frame_is_buffer := false |} Hwf Hne eq_refl Hsz) as P0.
    cbn [frame_data app] in P0. change (Zlength' []) with 0 in P0.
    rewrite P0 by lia. rewrite bind_Done.
    rewrite Z.ltb_irrefl, Z.eqb_refl. change (4 =? 4) with true. cbn [andb].
    pose proof (pass1_in_place size_bits frags (S (length bytes)) [] []
                  Hwf Hne Hsz) as P1.
    cbn [app] in P1. change (Zlength' []) with 0 in P1. fold bytes in P1.
    rewrite P1 by lia. rewrite bind_Done, Z.ltb_irrefl.
    eexists. split; [reflexivity|].
    unfold visible. cbn [data range_offset range_length skipn Z.to_nat].
    assert (Hsame : length (concat (map start_coded frags)) = length bytes).
    { unfold bytes. clear - Hwf. induction Hwf as [|f frags [H4 _] _ IH];
        [reflexivity|].
      cbn [map concat]. unfold start_coded at 1, length_prefixed at 1.
      rewrite !length_app, IH, H4. reflexivity. }
    unfold Zlength'. rewrite Nat2Z.id, <- Hsame. apply firstn_all.
  - intros frags lf n rest Hwf H4 HU Hn Hsz.
    set (bytes := concat (map length_prefixed frags) ++ lf ++ rest) in *.
    assert (Hfuel : (length frags < S (length bytes))%nat).
    { pose proof (fragments_fit_fuel frags Hwf). unfold bytes.
      rewrite length_app. lia. }
    unfold read, frame_of. cbn [data range_offset range_length orb].
    change (4 =? 0) with false. cbv iota.
    destruct (pass0_rejects_truncated size_bits frags lf n rest
                (S (length bytes)) [] 0
                {| frame_data := bytes; buffer_data := [];
                   frame_is_buffer := false |} Hwf H4 HU Hn eq_refl Hsz Hfuel)
      as [e [He Hrej]].
    cbn [frame_data] in He, Hrej. change (Zlength' []) with 0 in He.
    rewrite He, bind_Done.
    destruct e as [|so d m]; [reflexivity|].
    simpl in Hrej. destruct (Z.ltb_spec so (Zlength' bytes)); [reflexivity | lia].
Qed.

(** The frame of the specification, [00000003 AABBCC 00000002 DDEE]. *)
Definition two_fragments : list fragment :=
  [ {| length_field := [0; 0; 0; 3]; nal := [0xAA; 0xBB; 0xCC] |};
    {| length_field := [0; 0; 0; 2]; nal := [0xDD; 0xEE] |} ].

Lemma C4_avc_start_codes_replace_lengths_witness :
  (exists out,
      read 64 AVC 4 (frame_of [0; 0; 0; 3; 0xAA; 0xBB; 0xCC; 0; 0; 0; 2; 0xDD; 0xEE])
      = Done (OK, Some out)
      /\ visible out = [0; 0; 0; 1; 0xAA; 0xBB; 0xCC; 0; 0; 0; 1; 0xDD; 0xEE]) /\
  read 64 AVC 4 (frame_of [0; 0; 0; 3; 0xAA; 0xBB; 0xCC; 0; 0; 0; 2; 0xDD])
  = Done (ERROR_MALFORMED, None).
Proof.
  destruct (C4_avc_start_codes_replace_lengths 64) as [HA HB].
  split.
  - apply (HA two_fragments).
    + repeat constructor.
    + repeat constructor; discriminate.
    + vm_compute. reflexivity.
  - apply (HB [ {| length_field := [0; 0; 0; 3]; nal := [0xAA; 0xBB; 0xCC] |} ]
              [0; 0; 0; 2] 2 [0xDD]).
    + repeat constructor.
    + reflexivity.
    + reflexivity.
    + vm_compute. split; reflexivity.
    + vm_compute. reflexivity.
Defined.

(** C4 as stated fails: a frame made of one length-prefixed fragment of
    length zero is a frame of length-prefixed fragments, and [read] rejects
    it instead of emitting the start code. *)
Lemma C4_empty_fragment_counterexample :
  let f := {| length_field := [0; 0; 0; 0]; nal := [] |} in
  wf_fragment f /\
  read 64 AVC 4 (frame_of (concat (map length_prefixed [f])))
  = Done (ERROR_MALFORMED, None) /\
  read 32 AVC 4 (frame_of (concat (map length_prefixed [f])))
  = Done (ERROR_MALFORMED, None).
Proof.
  split; [split; reflexivity|]. split; reflexivity.
Qed.

End AvcRead.

(* ====================================================================== *)
(** * frameworks/minikin/libs/minikin/WordBreaker.cpp *)
(* ====================================================================== *)

Module WordBreaker.

Local Open Scope outcome_scope.

Definition CHAR_SOFT_HYPHEN : Z := 0x00AD.
Definition CHAR_ZWJ : Z := 0x200D.

(** [icu::BreakIterator::DONE]. *)
Definition DONE : Z := -1.

Inductive ScanState :=
| START | SAW_AT | SAW_COLON | SAW_COLON_SLASH | SAW_COLON_SLASH_SLASH.

(** The macros of ICU's [utf16.h]. *)
Definition U16_IS_LEAD (c : Z) : bool := Z.land c 0xfffffc00 =? 0xd800.
Definition U16_IS_TRAIL (c : Z) : bool := Z.land c 0xfffffc00 =? 0xdc00.
Definition U16_GET_SUPPLEMENTARY (lead trail : Z) : Z :=
  Z.shiftl lead 10 + trail - (Z.shiftl 0xd800 10 + 0xdc00 - 0x10000).

(** [U16_PREV(s, start, i, c)]: the new [i] and [c]. *)
Definition U16_PREV (s : list Z) (start i : Z) : outcome (Z * Z) :=
  let i := i - 1 in
  c <- load s i ;;
  if U16_IS_TRAIL c then
    if i >? start then
      c2 <- load s (i - 1) ;;
      if U16_IS_LEAD c2 then Done (i - 1, U16_GET_SUPPLEMENTARY c2 c)
      else Done (i, c)
    else Done (i, c)
  else Done (i, c).

(** [U16_NEXT(s, i, length, c)]: the new [i] and [c]. *)
Definition U16_NEXT (s : list Z) (i length : Z) : outcome (Z * Z) :=
  c <- load s i ;;
  let i := i + 1 in
  if U16_IS_LEAD c then
    if negb (i =? length) then
      c2 <- load s i ;;
      if U16_IS_TRAIL c2 then Done (i + 1, U16_GET_SUPPLEMENTARY c c2)
      else Done (i, c)
    else Done (i, c)
  else Done (i, c).

Definition breakAfter (c : Z) : bool :=
  (c =? 58) || (c =? 61) || (c =? 38).          (* ':' '=' '&' *)

Definition breakBefore (c : Z) : bool :=
  (c =? 126) || (c =? 46) || (c =? 44) || (c =? 45) || (c =? 95)
  || (c =? 63) || (c =? 35) || (c =? 37) || (c =? 61) || (c =? 38).
                                   (* '~' '.' ',' '-' '_' '?' '#' '%' '=' '&' *)

Section Breaker.

(** Unicode data and emoji tables, supplied by ICU and by Minikin's emoji
    helpers. *)
Variable u_getIntPropertyValue_LINE_BREAK : Z -> Z.
Variable U_LB_ALPHABETIC U_LB_HEBREW_LETTER : Z.
Variable U_LB_PREFIX_NUMERIC U_LB_POSTFIX_NUMERIC : Z.
Variable isEmoji isEmojiModifier isEmojiBase : Z -> bool.

(** The text handed to [setText]. *)
Variable mText : list Z.

(** The boundaries the ICU line-break instance finds in [mText], in
    increasing order. *)
Variable bounds : list Z.

Definition mTextSize : Z := Zlength' mText.

Definition isBreakValid (buf : list Z) (bufEnd i : Z) : outcome bool :=
  p <- U16_PREV buf 0 i ;;
  let '(prev_offset, codePoint) := p in
  if codePoint =? CHAR_SOFT_HYPHEN then Done false
  else if codePoint =? 0x1039 then Done false
  else
    n <- U16_NEXT buf i bufEnd ;;
    let '(_, next_codepoint) := n in
    let lineBreak := u_getIntPropertyValue_LINE_BREAK codePoint in
    if ((lineBreak =? U_LB_ALPHABETIC) || (lineBreak =? U_LB_HEBREW_LETTER))
       && (let lineBreak := u_getIntPropertyValue_LINE_BREAK next_codepoint in
           (lineBreak =? U_LB_PREFIX_NUMERIC) || (lineBreak =? U_LB_POSTFIX_NUMERIC))
    then Done false
    else if (codePoint =? CHAR_ZWJ) && isEmoji next_codepoint then Done false
    else if isEmojiModifier next_codepoint then
      q <- (if (codePoint =? 0xFE0F) && (prev_offset >? 0)
            then U16_PREV buf 0 prev_offset
            else Done (prev_offset, codePoint)) ;;
      if isEmojiBase (snd q) then Done false else Done true
    else Done true.

(** The iterator state of the break engine is the list of boundaries that
    lie after its current position. *)
Definition after (offset : Z) : list Z :=
  filter (fun b => offset <? b) bounds.

(** [following(offset)] and [next()]: the boundary returned (or [DONE]) and
    the boundaries left after it. *)
Definition engine_next (ahead : list Z) : Z * list Z :=
  match ahead with
  | [] => (DONE, [])
  | b :: rest => (b, rest)
  end.

Definition following (offset : Z) : Z * list Z := engine_next (after offset).

(** [isBoundary(offset)]; the iterator moves to the first boundary at or
    after [offset]. *)
Definition isBoundary (offset : Z) : bool * list Z :=
  (existsb (fun b => b =? offset) bounds,
   match filter (fun b => offset <=? b) bounds with
   | [] => []
   | b :: _ => after b
   end).

Record state := {
  mLast : Z;
  mCurrent : Z;
  mIteratorWasReset : bool;
  mScanOffset : Z;
  mInEmailOrUrl : bool;
  ahead : list Z      (* the engine's iterator *)
}.

(** The state [setText] leaves. *)
Definition setText_state : state :=
  {| mLast := 0; mCurrent := 0; mIteratorWasReset := false; mScanOffset := 0;
     mInEmailOrUrl := false; ahead := after 0 |}.

(** The scanning loop [for (i = mLast; i < mTextSize; i++)] over the text
    from [i] on. *)
Fixpoint scan (rest : list Z) (i : Z) (st : ScanState) : Z * ScanState :=
  match rest with
  | [] => (i, st)
  | c :: rest' =>
      if negb ((32 <? c) && (c <=? 0x007E)) then (i, st)
      else
        let st' :=
          match st with
          | START => if c =? 64 then SAW_AT            (* '@' *)
                     else if c =? 58 then SAW_COLON    (* ':' *)
                     else START
          | SAW_COLON => if c =? 47 then SAW_COLON_SLASH else START
          | SAW_COLON_SLASH => if c =? 47 then SAW_COLON_SLASH_SLASH else START
          | SAW_AT => SAW_AT
          | SAW_COLON_SLASH_SLASH => SAW_COLON_SLASH_SLASH
          end in
        scan rest' (i + 1) st'
  end.

(** The first part of [next()]: [mLast = mCurrent] and the look-ahead for an
    e-mail address or URL. *)
Definition scan_step (w : state) : state :=
  let last := mCurrent w in
  if last >=? mScanOffset w then
    let '(i, st) :=
      (* [(size_t)mLast < mTextSize] fails for a negative [mLast] *)
      if last <? 0 then (last, START)
      else scan (skipn (Z.to_nat last) mText) last START in
    match st with
    | SAW_AT | SAW_COLON_SLASH_SLASH =>
        let '(isB, it) := isBoundary i in
        let '(i, it) := if isB then (i, it) else following i in
        {| mLast := last; mCurrent := mCurrent w; mIteratorWasReset := true;
           mScanOffset := i; mInEmailOrUrl := true; ahead := it |}
    | _ =>
        {| mLast := last; mCurrent := mCurrent w;
           mIteratorWasReset := mIteratorWasReset w;
           mScanOffset := i; mInEmailOrUrl := false; ahead := ahead w |}
    end
  else
    {| mLast := last; mCurrent := mCurrent w;
       mIteratorWasReset := mIteratorWasReset w;
       mScanOffset := mScanOffset w; mInEmailOrUrl := mInEmailOrUrl w;
       ahead := ahead w |}.

(** The loop over an e-mail address or URL,
    [for (i = mLast + 1; i < mScanOffset; i++)], with at most [n] positions
    left before [mScanOffset]; the result is the final [i]. *)
Fixpoint url_loop (n : nat) (w : state) (i lastChar : Z) : outcome Z :=
  match n with
  | O => Done i
  | S n' =>
      if breakAfter lastChar then Done i
      else
        slash2 <- (if (lastChar =? 47) && (i >=? mLast w + 2)
                   then c <- load mText (i - 2) ;; Done (c =? 47)
                   else Done false) ;;
        if slash2 then Done i
        else
          thisChar <- load mText i ;;
          stop <-
            (if negb (lastChar =? 45) then
               if breakBefore thisChar then Done true
               else if (thisChar =? 47) && negb (lastChar =? 47) then
                 nextSlash <- (if i + 1 <? mScanOffset w
                               then c <- load mText (i + 1) ;; Done (c =? 47)
                               else Done false) ;;
                 Done (negb nextSlash)
               else Done false
             else Done false) ;;
          if stop then Done i
          else url_loop n' w (i + 1) thisChar
  end.

(** The [do ... while] loop: the engine is asked for boundaries until it
    answers [DONE] or the end of the text, or [isBreakValid] accepts the
    answer.  [proposals] are the boundaries the engine will answer with, in
    order; the result is the boundary returned and the iterator state. *)
Fixpoint skip_invalid (proposals : list Z) : outcome (Z * list Z) :=
  match proposals with
  | [] => Done (DONE, [])
  | result :: rest =>
      if negb (result =? DONE) && negb (result =? mTextSize) then
        valid <- isBreakValid mText mTextSize result ;;
        if valid then Done (result, rest) else skip_invalid rest
      else Done (result, rest)
  end.

(** What the engine will propose from the state [w] on: the first call is
    [following(mCurrent)] after a reset and [next()] otherwise, the later
    ones are [next()]. *)
Definition proposals (w : state) : list Z :=
  if mIteratorWasReset w then after (mCurrent w) else ahead w.

(** [WordBreaker::next()]: the value returned and the state afterwards. *)
Definition next (w : state) : outcome (Z * state) :=
  let w := scan_step w in
  if mInEmailOrUrl w then
    lastChar <- load mText (mLast w) ;;
    i <- url_loop (Z.to_nat (mScanOffset w - (mLast w + 1))) w (mLast w + 1) lastChar ;;
    Done (i, {| mLast := mLast w; mCurrent := i;
                mIteratorWasReset := mIteratorWasReset w;
                mScanOffset := mScanOffset w; mInEmailOrUrl := true;
                ahead := ahead w |})
  else
    r <- skip_invalid (proposals w) ;;
    let '(result, it) := r in
    Done (result, {| mLast := mLast w; mCurrent := result;
                     mIteratorWasReset := false;
                     mScanOffset := mScanOffset w; mInEmailOrUrl := false;
                     ahead := it |}).

End Breaker.

(** ** Properties *)

Lemma load_in_range (buf : list Z) i :
  0 <= i < Zlength' buf -> exists c, load buf i = Done c.
Proof.
  intros [H0 H1]. unfold load.
  destruct (Z.ltb_spec i 0); [lia|].
  destruct (nth_error buf (Z.to_nat i)) eqn:E; [eauto|].
  apply nth_error_None in E. unfold Zlength' in H1. lia.
Qed.

Lemma U16_PREV_total s start i :
  0 <= start -> start < i <= Zlength' s -> exists p, U16_PREV s start i = Done p.
Proof.
  intros Hs Hi. unfold U16_PREV.
  destruct (load_in_range s (i - 1)) as [c ->]; [lia|]. rewrite bind_Done.
  destruct (U16_IS_TRAIL c); [|eauto].
  destruct (Z.gtb_spec (i - 1) start); [|eauto].
  destruct (load_in_range s (i - 1 - 1)) as [c2 ->]; [lia|]. rewrite bind_Done.
  destruct (U16_IS_LEAD c2); eauto.
Qed.

Lemma U16_PREV_offset s start i p :
  0 <= start -> start < i -> U16_PREV s start i = Done p -> start <= fst p < i.
Proof.
  intros Hs Hi. unfold U16_PREV.
  destruct (load s (i - 1)) as [c| |]; try discriminate. rewrite bind_Done.
  destruct (U16_IS_TRAIL c).
  - destruct (Z.gtb_spec (i - 1) start).
    + destruct (load s (i - 1 - 1)) as [c2| |]; try discriminate.
      rewrite bind_Done.
      destruct (U16_IS_LEAD c2); intros H'; inversion H'; simpl; lia.
    + intros H'; inversion H'; simpl; lia.
  - intros H'; inversion H'; simpl; lia.
Qed.

Lemma U16_NEXT_total s i :
  0 <= i < Zlength' s -> exists p, U16_NEXT s i (Zlength' s) = Done p.
Proof.
  intros Hi. unfold U16_NEXT.
  destruct (load_in_range s i) as [c ->]; [lia|]. rewrite bind_Done. cbv zeta.
  destruct (U16_IS_LEAD c); [|eauto].
  destruct (Z.eqb_spec (i + 1) (Zlength' s)); cbn [negb]; [eauto|].
  destruct (load_in_range s (i + 1)) as [c2 ->]; [lia|]. rewrite bind_Done.
  destruct (U16_IS_TRAIL c2); eauto.
Qed.

Section Breaker.

Variable u_getIntPropertyValue_LINE_BREAK : Z -> Z.
Variable U_LB_ALPHABETIC U_LB_HEBREW_LETTER : Z.
Variable U_LB_PREFIX_NUMERIC U_LB_POSTFIX_NUMERIC : Z.
Variable isEmoji isEmojiModifier isEmojiBase : Z -> bool.
Variable mText : list Z.
Variable bounds : list Z.

Local Abbreviation isBreakValid' :=
  (isBreakValid u_getIntPropertyValue_LINE_BREAK U_LB_ALPHABETIC
                U_LB_HEBREW_LETTER U_LB_PREFIX_NUMERIC U_LB_POSTFIX_NUMERIC
                isEmoji isEmojiModifier isEmojiBase).
Local Abbreviation skip_invalid' :=
  (skip_invalid u_getIntPropertyValue_LINE_BREAK U_LB_ALPHABETIC
                U_LB_HEBREW_LETTER U_LB_PREFIX_NUMERIC U_LB_POSTFIX_NUMERIC
                isEmoji isEmojiModifier isEmojiBase mText).
Local Abbreviation next' :=
  (next u_getIntPropertyValue_LINE_BREAK U_LB_ALPHABETIC
        U_LB_HEBREW_LETTER U_LB_PREFIX_NUMERIC U_LB_POSTFIX_NUMERIC
        isEmoji isEmojiModifier isEmojiBase mText bounds).
Local Abbreviation size := (mTextSize mText).

(** Inside the text the validity check always answers. *)
Lemma isBreakValid_total i :
  0 < i < size -> exists v, isBreakValid' mText size i = Done v.
Proof.
  intros Hi. unfold isBreakValid, mTextSize in *.
  destruct (U16_PREV_total mText 0 i) as [[po cp] Hp]; [lia | lia |].
  pose proof (U16_PREV_offset mText 0 i _ ltac:(lia) ltac:(lia) Hp) as Hpo.
  simpl in Hpo. rewrite Hp, bind_Done.
  destruct (cp =? CHAR_SOFT_HYPHEN); [eauto|].
  destruct (cp =? 4153); [eauto|].
  destruct (U16_NEXT_total mText i) as [[no ncp] Hn]; [lia|].
  rewrite Hn, bind_Done.
  match goal with |- context [if ?b then _ else _] => destruct b end; [eauto|].
  destruct ((cp =? CHAR_ZWJ) && isEmoji ncp); [eauto|].
  destruct (isEmojiModifier ncp); [|eauto].
  destruct ((cp =? 65039) && (po >? 0)) eqn:E.
  - apply andb_true_iff in E. destruct E as [_ E].
    apply Z.gtb_lt in E.
    destruct (U16_PREV_total mText 0 po) as [q Hq]; [lia | lia |].
    rewrite Hq, bind_Done. destruct (isEmojiBase (snd q)); eauto.
  - rewrite bind_Done. cbn [snd]. destruct (isEmojiBase cp); eauto.
Qed.

(** A position directly behind a soft hyphen is refused. *)
Lemma isBreakValid_soft_hyphen i :
  load mText (i - 1) = Done CHAR_SOFT_HYPHEN ->
  isBreakValid' mText size i = Done false.
Proof.
  intros H. unfold isBreakValid, U16_PREV. rewrite H, bind_Done.
  change (U16_IS_TRAIL CHAR_SOFT_HYPHEN) with false. cbv iota.
  rewrite bind_Done. reflexivity.
Qed.

(** A boundary the engine proposed and [next()] passed over. *)
Definition refused (b : Z) : Prop :=
  b <> DONE /\ b <> size /\ isBreakValid' mText size b = Done false.

(** A boundary at which the loop stops. *)
Definition accepted (b : Z) : Prop :=
  b = size \/ isBreakValid' mText size b = Done true.

Lemma skip_invalid_total props :
  Forall (fun b => 0 < b <= size) props ->
  exists r it, skip_invalid' props = Done (r, it).
Proof.
  induction 1 as [|b props Hb _ IH]; [simpl; eauto|].
  cbn [skip_invalid].
  destruct (Z.eqb_spec b DONE); [simpl; eauto|].
  destruct (Z.eqb_spec b size); [simpl; eauto|]. cbn [negb andb].
  destruct (isBreakValid_total b) as [v ->]; [lia|]. rewrite bind_Done.
  destruct v; eauto.
Qed.

Lemma skip_invalid_spec props :
  forall r it,
    Forall (fun b => 0 < b <= size) props ->
    skip_invalid' props = Done (r, it) ->
    (r = DONE /\ Forall refused props) \/
    (exists skipped,
        props = skipped ++ r :: it /\ Forall refused skipped /\ accepted r).
Proof.
  induction props as [|b props IH]; intros r it Hin H.
  - inversion H; subst. left. split; [reflexivity | constructor].
  - inversion Hin as [|? ? Hb Hin']; subst. cbn [skip_invalid] in H.
    destruct (Z.eqb_spec b DONE) as [E|Hd]; [unfold DONE in E; lia|].
    destruct (Z.eqb_spec b size) as [E|Hs]; cbn [negb andb] in H.
    + inversion H; subst. right. exists []. split; [reflexivity|].
      split; [constructor | left; reflexivity].
    + destruct (isBreakValid' mText size b) as [v| |] eqn:Ev; try discriminate.
      rewrite bind_Done in H. destruct v.
      * inversion H; subst. right. exists []. split; [reflexivity|].
        split; [constructor | right; exact Ev].
      * destruct (IH r it Hin' H) as [[Hr Hall]|[skipped [Hp [Hall Hacc]]]].
        -- left. split; [exact Hr|]. constructor; [|exact Hall].
           repeat split; assumption.
        -- right. exists (b :: skipped). split; [rewrite Hp; reflexivity|].
           split; [|exact Hacc]. constructor; [|exact Hall].
           repeat split; assumption.
Qed.

(** C7 (as the code has it).  Outside an e-mail address or URL run, with
    the engine proposing boundaries inside the text, [next()] returns a
    position [r] which is the first proposal that is the end of the text or
    passes [isBreakValid], every earlier proposal having been refused, or
    [DONE] when every proposal was refused.  A proposal other than the end
    of the text whose preceding character is a soft hyphen is therefore
    never returned: it is among those refused. *)
Theorem C7_next_skips_soft_hyphen_before_end :
  forall w,
    mInEmailOrUrl (scan_step mText bounds w) = false ->
    Forall (fun b => 0 < b <= size) (proposals bounds (scan_step mText bounds w)) ->
    exists r w',
      next' w = Done (r, w') /\ mCurrent w' = r /\
      ((r = DONE /\ Forall refused (proposals bounds (scan_step mText bounds w))) \/
       (exists skipped rest,
           proposals bounds (scan_step mText bounds w) = skipped ++ r :: rest /\
           Forall refused skipped /\ accepted r)) /\
      (r <> size -> load mText (r - 1) <> Done CHAR_SOFT_HYPHEN) /\
      (forall b,
          In b (proposals bounds (scan_step mText bounds w)) ->
          b <> size -> load mText (b - 1) = Done CHAR_SOFT_HYPHEN -> r <> b).
Proof.
  intros w Hmode Hin.
  destruct (skip_invalid_total _ Hin) as [r [it Hrun]].
  pose proof (skip_invalid_spec _ r it Hin Hrun) as Hspec.
  exists r. eexists. unfold next. rewrite Hmode, Hrun, bind_Done.
  split; [reflexivity|]. split; [reflexivity|].
  assert (Hsh : r <> size -> load mText (r - 1) <> Done CHAR_SOFT_HYPHEN).
  { intros Hne Hl.
    destruct Hspec as [[Hr _]|[skipped [_ [_ [Hacc|Hacc]]]]].
    - subst r. unfold load, DONE in Hl. simpl in Hl. discriminate.
    - contradiction.
    - rewrite (isBreakValid_soft_hyphen r Hl) in Hacc. discriminate. }
  split; [|split].
  - destruct Hspec as [Hd|[skipped [Hp Hr]]]; [left; exact Hd|].
    right. exists skipped, it. split; [exact Hp | exact Hr].
  - exact Hsh.
  - intros b Hb Hne Hl Heq. subst b. exact (Hsh Hne Hl).
Qed.

End Breaker.

(** A concrete breaker: no character is alphabetic, Hebrew or emoji. *)
Definition plain_next (mText bounds : list Z) : state -> outcome (Z * state) :=
  next (fun _ => 0) 2 38 25 24 (fun _ => false) (fun _ => false)
       (fun _ => false) mText bounds.

(** The text [ab<SHY>cd ef] with the boundaries 0, 3, 6 and 8. *)
Definition text_soft_hyphen : list Z := [97; 98; 0xAD; 99; 100; 32; 101; 102].
Definition bounds_soft_hyphen : list Z := [0; 3; 6; 8].

(** The theorem at that text: position 3, behind the soft hyphen, is passed
    over and 6 is returned. *)
Lemma C7_next_skips_soft_hyphen_before_end_witness :
  exists r w',
    plain_next text_soft_hyphen bounds_soft_hyphen
               (setText_state bounds_soft_hyphen) = Done (r, w')
    /\ r = 6
    /\ load text_soft_hyphen (3 - 1) = Done CHAR_SOFT_HYPHEN
    /\ In 3 (proposals bounds_soft_hyphen
               (scan_step text_soft_hyphen bounds_soft_hyphen
                          (setText_state bounds_soft_hyphen))).
Proof.
  destruct (C7_next_skips_soft_hyphen_before_end
              (fun _ => 0) 2 38 25 24 (fun _ => false) (fun _ => false)
              (fun _ => false) text_soft_hyphen bounds_soft_hyphen
              (setText_state bounds_soft_hyphen))
    as [r [w' [Hn _]]].
  - reflexivity.
  - vm_compute. repeat constructor; discriminate.
  - exists r, w'. split; [exact Hn|].
    split.
    + vm_compute in Hn. inversion Hn. reflexivity.
    + split; [reflexivity|]. vm_compute. left. reflexivity.
Defined.

(** C7 as stated fails: in the text [a<SHY>] the engine proposes the end of
    the text, position 2, whose preceding character is a soft hyphen, and
    [next()] returns it. *)
Lemma C7_end_of_text_counterexample :
  exists w',
    plain_next [97; 0xAD] [0; 2] (setText_state [0; 2]) = Done (2, w')
    /\ In 2 (proposals [0; 2] (scan_step [97; 0xAD] [0; 2] (setText_state [0; 2])))
    /\ load [97; 0xAD] (2 - 1) = Done CHAR_SOFT_HYPHEN.
Proof.
  eexists. split; [vm_compute; reflexivity|].
  split; [vm_compute; left; reflexivity | reflexivity].
Qed.

End WordBreaker.

(* ====================================================================== *)
(** * frameworks/rs/rsov/compiler/LinkerModule.{h,cpp}: lines of SPIR-V text *)
(* ====================================================================== *)

Module SpirvLine.

Local Open Scope nat_scope.

(** The [std::string] held by a [SPIRVLine]. *)
Definition str := list ascii.

Definition lit (s : string) : str := list_ascii_of_string s.

(** C's [isspace] in the "C" locale, which is also the default character set
    of [StringRef::trim]: blank, \t, \n, \v, \f, \r. *)
Definition isspace (c : ascii) : bool :=
  let n := nat_of_ascii c in
  (n =? 32) || ((9 <=? n) && (n <=? 13)).

Fixpoint ltrim (s : str) : str :=
  match s with
  | [] => []
  | c :: s' => if isspace c then ltrim s' else s
  end.

Definition rtrim (s : str) : str := rev (ltrim (rev s)).

(** [StringRef::trim()]. *)
Definition trim (s : str) : str := rtrim (ltrim s).

(** [s] begins with [p]. *)
Fixpoint prefixb (p s : str) : bool :=
  match p, s with
  | [], _ => true
  | _ :: _, [] => false
  | c :: p', d :: s' => Ascii.eqb c d && prefixb p' s'
  end.

(** Index of the first occurrence of [pat] in [s]. *)
Fixpoint find0 (pat s : str) : option nat :=
  match s with
  | [] => if prefixb pat [] then Some 0 else None
  | _ :: s' => if prefixb pat s then Some 0 else option_map S (find0 pat s')
  end.

(** [StringRef::find(pat, from)] and [std::string::find]; [None] is
    [npos]. *)
Definition find (pat s : str) (from : nat) : option nat :=
  if length s <? from then None
  else option_map (fun n => from + n) (find0 pat (skipn from s)).

(** [SPIRVLine::contains]. *)
Definition contains (s pat : str) : bool :=
  match find pat s 0 with
  | Some _ => true
  | None => false
  end.

(** [std::string::replace(pos, len, new)]. *)
Definition replace_at (s : str) (pos len : nat) (new : str) : str :=
  firstn pos s ++ new ++ skipn (pos + len) s.

(** [SPIRVLine::replaceStr]: the line afterwards and the value returned. *)
Definition replaceStr (s original new : str) : str * bool :=
  match find original s 0 with
  | None => (s, false)
  | Some pos => (replace_at s pos (length original) new, true)
  end.

(** [SPIRVLine::replaceId]. *)
Definition replaceId (s original new : str) : str * bool :=
  match find original s 0 with
  | None => (s, false)
  | Some pos =>
      let oneAfter := pos + length original in
      let retry :=
        (oneAfter <? length s)
        && negb (isspace (nth oneAfter s Ascii.zero)) in
      if retry then
        match find original s oneAfter with
        | None => (s, false)
        | Some pos' => (replace_at s pos' (length original) new, true)
        end
      else (replace_at s pos (length original) new, true)
  end.

(** [SPIRVLine::hasCode]. *)
Definition hasCode (s : str) : bool :=
  match trim s with
  | [] => false
  | c :: _ => negb (Ascii.eqb c ";"%char)
  end.

(** [SPIRVLine::markAsEmpty]. *)
Definition empty_marker : str := lit "; <<empty>>".

(** [pat] occurs in [s]. *)
Definition occurs (pat s : str) : Prop := exists a b, s = a ++ pat ++ b.

(** [t] has neither leading nor trailing white space. *)
Definition trimmed (t : str) : Prop :=
  (forall y t', t = y :: t' -> isspace y = false) /\
  (forall t' x, t = t' ++ [x] -> isspace x = false).

(** ** Facts about searching and trimming *)

Lemma prefixb_app p t : prefixb p (p ++ t) = true.
Proof.
  induction p as [|c p IH]; [reflexivity|].
  simpl. rewrite Ascii.eqb_refl. exact IH.
Qed.

Lemma prefixb_true p : forall s, prefixb p s = true -> exists t, s = p ++ t.
Proof.
  induction p as [|c p IH]; intros s H.
  - exists s. reflexivity.
  - destruct s as [|d s]; [discriminate|]. simpl in H.
    apply andb_true_iff in H. destruct H as [Hc Hp].
    apply Ascii.eqb_eq in Hc. subst d.
    destruct (IH s Hp) as [t ->]. exists t. reflexivity.
Qed.

Lemma find0_Some pat : forall s n,
  find0 pat s = Some n -> exists a b, s = a ++ pat ++ b /\ length a = n.
Proof.
  induction s as [|c s IH]; intros n H.
  - simpl in H. destruct (prefixb pat []) eqn:E; [|discriminate].
    inversion H; subst. destruct (prefixb_true _ _ E) as [t Ht].
    exists [], t. split; [exact Ht | reflexivity].
  - cbn [find0] in H. destruct (prefixb pat (c :: s)) eqn:E.
    + inversion H; subst. destruct (prefixb_true _ _ E) as [t Ht].
      exists [], t. split; [exact Ht | reflexivity].
    + destruct (find0 pat s) as [m|] eqn:Em; [|discriminate].
      inversion H; subst. destruct (IH m eq_refl) as [a [b [Hs Hl]]].
      exists (c :: a), b. split; [rewrite Hs; reflexivity | simpl; lia].
Qed.

Lemma find0_None pat : forall s, find0 pat s = None -> ~ occurs pat s.
Proof.
  induction s as [|c s IH]; intros H [a [b Hs]].
  - simpl in H. destruct a; [|discriminate]. simpl in Hs.
    rewrite Hs, prefixb_app in H. discriminate.
  - cbn [find0] in H. destruct (prefixb pat (c :: s)) eqn:E; [discriminate|].
    destruct (find0 pat s) eqn:Em; [discriminate|].
    destruct a as [|x a].
    + simpl in Hs. rewrite Hs, prefixb_app in E. discriminate.
    + inversion Hs; subst. apply IH; [reflexivity|]. exists a, b. reflexivity.
Qed.

Lemma find_from_0 pat s : find pat s 0 = find0 pat s.
Proof.
  unfold find. simpl. destruct (find0 pat s); reflexivity.
Qed.

Lemma contains_occurs s pat : contains s pat = true <-> occurs pat s.
Proof.
  unfold contains. rewrite find_from_0. split.
  - destruct (find0 pat s) as [n|] eqn:E; [|discriminate]. intros _.
    destruct (find0_Some _ _ _ E) as [a [b [Hs _]]]. exists a, b. exact Hs.
  - intros Hocc. destruct (find0 pat s) eqn:E; [reflexivity|].
    exfalso. exact (find0_None _ _ E Hocc).
Qed.

Lemma contains_not_occurs s pat : contains s pat = false <-> ~ occurs pat s.
Proof.
  rewrite <- contains_occurs. destruct (contains s pat); split; intros H.
  - discriminate.
  - exfalso. apply H. reflexivity.
  - intros H'. discriminate.
  - reflexivity.
Qed.

(** [replaceStr] on a line that contains the pattern replaces one
    occurrence. *)
Lemma replaceStr_occurs s original new :
  occurs original s ->
  exists a b, s = a ++ original ++ b /\
              replaceStr s original new = (a ++ new ++ b, true).
Proof.
  intros Hocc. unfold replaceStr. rewrite find_from_0.
  destruct (find0 original s) as [n|] eqn:E.
  - destruct (find0_Some _ _ _ E) as [a [b [Hs Hl]]].
    exists a, b. split; [exact Hs|]. unfold replace_at. subst n.
    rewrite Hs at 1 2. rewrite firstn_exact.
    replace (a ++ original ++ b) with ((a ++ original) ++ b)
      by (rewrite <- app_assoc; reflexivity).
    rewrite <- length_app, skipn_exact. reflexivity.
  - exfalso. exact (find0_None _ _ E Hocc).
Qed.

Lemma ltrim_spaces l u : Forall (fun c => isspace c = true) l -> ltrim (l ++ u) = ltrim u.
Proof.
  induction 1 as [|c l Hc _ IH]; [reflexivity|].
  simpl. rewrite Hc. exact IH.
Qed.

Lemma ltrim_stop y s : isspace y = false -> ltrim (y :: s) = y :: s.
Proof. intros H. simpl. rewrite H. reflexivity. Qed.

Lemma ltrim_split s :
  exists lead, s = lead ++ ltrim s /\ Forall (fun c => isspace c = true) lead.
Proof.
  induction s as [|c s [lead [Hs Hl]]].
  - exists []. split; [reflexivity | constructor].
  - simpl. destruct (isspace c) eqn:E.
    + exists (c :: lead). split; [simpl; f_equal; exact Hs|].
      constructor; assumption.
    + exists []. split; [reflexivity | constructor].
Qed.

Lemma ltrim_head s y t : ltrim s = y :: t -> isspace y = false.
Proof.
  induction s as [|c s IH]; [discriminate|]. simpl.
  destruct (isspace c) eqn:E; [exact IH|].
  intros H. inversion H; subst. exact E.
Qed.

Lemma rtrim_split s :
  exists trail, s = rtrim s ++ trail /\ Forall (fun c => isspace c = true) trail.
Proof.
  unfold rtrim. destruct (ltrim_split (rev s)) as [lead [Hs Hl]].
  exists (rev lead). split.
  - rewrite <- rev_app_distr, <- Hs, rev_involutive. reflexivity.
  - apply Forall_rev. exact Hl.
Qed.

Lemma rtrim_last s t x : rtrim s = t ++ [x] -> isspace x = false.
Proof.
  unfold rtrim. intros H.
  apply (f_equal (@rev ascii)) in H. rewrite rev_involutive, rev_app_distr in H.
  simpl in H. exact (ltrim_head _ _ _ H).
Qed.

Lemma rtrim_keeps_head s y t :
  isspace y = false -> exists t', rtrim (y :: s ++ t) = y :: t'.
Proof.
  intros Hy. destruct (rtrim_split (y :: s ++ t)) as [trail [Hs Hl]].
  destruct (rtrim (y :: s ++ t)) as [|z r] eqn:E.
  - simpl in Hs. rewrite <- Hs in Hl. inversion Hl; subst. congruence.
  - inversion Hs; subst. eauto.
Qed.

Lemma trim_split s :
  exists lead trail,
    s = lead ++ trim s ++ trail /\
    Forall (fun c => isspace c = true) lead /\
    Forall (fun c => isspace c = true) trail.
Proof.
  unfold trim. destruct (ltrim_split s) as [lead [Hs Hl]].
  destruct (rtrim_split (ltrim s)) as [trail [Hr Ht]].
  exists lead, trail. split; [|split; assumption].
  rewrite <- Hr. exact Hs.
Qed.

Lemma trim_trimmed s : trimmed (trim s).
Proof.
  split.
  - intros y t' H. unfold trim in H.
    destruct (ltrim s) as [|z r] eqn:E.
    + unfold rtrim in H. simpl in H. discriminate.
    + pose proof (ltrim_head _ _ _ E) as Hz.
      destruct (rtrim_keeps_head r z [] Hz) as [t'' Ht].
      rewrite app_nil_r in Ht. rewrite Ht in H. inversion H; subst. exact Hz.
  - intros t' x H. exact (rtrim_last _ _ _ H).
Qed.

(** Trimming a trimmed string followed by white space gives it back. *)
Lemma trim_trimmed_spaces t trail :
  trimmed t -> Forall (fun c => isspace c = true) trail -> trim (t ++ trail) = t.
Proof.
  intros [Hhead Hlast] Hws. unfold trim.
  destruct t as [|y t].
  - simpl. rewrite <- (app_nil_r trail), ltrim_spaces by exact Hws. reflexivity.
  - cbn [app]. rewrite ltrim_stop by (eapply Hhead; reflexivity).
    unfold rtrim. change (y :: t ++ trail) with ((y :: t) ++ trail).
    rewrite rev_app_distr, ltrim_spaces by (apply Forall_rev; exact Hws).
    destruct (exists_last (l := y :: t)) as [t' [x Hx]]; [discriminate|].
    rewrite Hx, rev_app_distr. cbn [rev app].
    rewrite ltrim_stop by (eapply Hlast; exact Hx).
    change (x :: rev t') with (rev [x] ++ rev t').
    rewrite <- rev_app_distr, rev_involutive. reflexivity.
Qed.

(** A pattern that neither begins nor ends with white space survives
    trimming. *)
Lemma occurs_trim pat s y p' x :
  pat = y :: p' -> pat = removelast pat ++ [x] ->
  isspace y = false -> isspace x = false ->
  occurs pat s -> occurs pat (trim s).
Proof.
  intros Hy Hx Hys Hxs [a [b Hs]].
  destruct (trim_split s) as [lead [trail [Hd [Hl Ht]]]].
  set (T := trim s) in *. clearbody T. subst s.
  assert (Hno : forall l, Forall (fun c => isspace c = true) l -> ~ In y l /\ ~ In x l).
  { intros l Hf. rewrite Forall_forall in Hf.
    split; intros Hin; apply Hf in Hin; congruence. }
  (* a pattern followed by something that ends inside white space *)
  assert (Hend : forall u v w, u ++ pat = v ++ w -> w <> [] -> In x w).
  { intros u v w E Hw.
    destruct (exists_last Hw) as [w' [z Hz]]. subst w.
    rewrite Hx in E. rewrite !app_assoc in E.
    apply app_inj_tail in E. destruct E as [_ E]. subst z.
    apply in_or_app. right. left. reflexivity. }
  apply app_eq_app in Hd. destruct Hd as [l [[Ha Hrest]|[Hlead Hrest]]].
  - (* the pattern starts behind the leading white space *)
    symmetry in Hrest. rewrite app_assoc in Hrest.
    apply app_eq_app in Hrest. destruct Hrest as [l2 [[Hpat Htr]|[HT Hb]]].
    + destruct l2 as [|z l2].
      * exists l, []. rewrite app_nil_r in Hpat. rewrite <- Hpat, app_nil_r.
        reflexivity.
      * exfalso. assert (Hin : In x (z :: l2))
          by (apply (Hend l T (z :: l2) Hpat); discriminate).
        apply (proj2 (Hno trail Ht)). rewrite Htr. apply in_or_app. left. exact Hin.
    + exists l, l2. rewrite HT, <- app_assoc. reflexivity.
  - (* the pattern would start inside the leading white space *)
    destruct l as [|z l].
    + simpl in Hrest. apply app_eq_app in Hrest.
      destruct Hrest as [l2 [[Hpat Htr]|[HT Hb]]].
      * destruct l2 as [|z l2].
        -- exists [], []. rewrite app_nil_r in Hpat. rewrite <- Hpat, app_nil_r.
           reflexivity.
        -- exfalso. assert (Hin : In x (z :: l2))
             by (apply (Hend [] T (z :: l2) Hpat); discriminate).
           apply (proj2 (Hno trail Ht)). rewrite Htr. apply in_or_app. left.
           exact Hin.
      * exists [], l2. rewrite HT. reflexivity.
    + exfalso. rewrite Hy in Hrest. simpl in Hrest. inversion Hrest; subst z.
      apply (proj1 (Hno lead Hl)). rewrite Hlead. apply in_or_app. right.
      left. reflexivity.
Qed.

End SpirvLine.

(* ====================================================================== *)
(** * frameworks/rs/rsov/compiler/RSSPIRVWriter.cpp: FixVectorShuffles *)
(* ====================================================================== *)

Module VectorShuffle.

Import SpirvLine.
Local Open Scope nat_scope.

Definition UndefStr : str := lit " 4294967295 ".
Definition ZeroStr : str := lit " 0 ".
Definition OpVectorShuffle : str := lit "OpVectorShuffle".

(** [while (L.contains(UndefStr)) L.replaceStr(UndefStr, " 0 ");]  Every
    replacement shortens the line, so [fuel] equal to its length is never
    used up. *)
Fixpoint replace_undefs (fuel : nat) (s : str) : str :=
  match fuel with
  | O => s
  | S fuel' =>
      if contains s UndefStr
      then replace_undefs fuel' (fst (replaceStr s UndefStr ZeroStr))
      else s
  end.

(** The body of the loop of [FixVectorShuffles] for a line that contains
    [OpVectorShuffle]. *)
Definition fix_shuffle_line (s : str) : str :=
  let s := s ++ [" "%char] in
  trim (replace_undefs (length s) s).

(** One iteration of the loop over the lines of the block. *)
Definition fix_line (s : str) : str :=
  if negb (contains s OpVectorShuffle) then s else fix_shuffle_line s.

(** [FixVectorShuffles(MB)]: the lines of the block afterwards and the value
    returned. *)
Definition FixVectorShuffles (lines : list str) : list str * bool :=
  (map fix_line lines, true).

(** [Block::addLine(L, trim)]: the lines of the block afterwards. *)
Definition addLine (Lines : list str) (L : str) (do_trim : bool) : list str :=
  Lines ++ [if do_trim then trim L else L].

(** The lines of a block that received the lines [Ls] one by one; every
    call of [addLine] in the linker leaves [trim] at its default, [true]. *)
Definition lines_added (Ls : list str) : list str :=
  fold_left (fun Lines L => addLine Lines L true) Ls [].

(** The trailing white space of [s], if any, consists of blanks only: every
    other white-space character has a character that is not white space
    somewhere behind it. *)
Definition blank_tail (s : str) : Prop :=
  forall a w b,
    s = a ++ w :: b -> isspace w = true -> w <> " "%char ->
    exists c, In c b /\ isspace c = false.

(** ** Properties *)

Definition UndefHead : str := lit " 4294967295".

Lemma replace_undefs_keeps (P : str -> Prop) :
  (forall a b, P (a ++ UndefStr ++ b) -> P (a ++ ZeroStr ++ b)) ->
  forall fuel s, P s -> P (replace_undefs fuel s).
Proof.
  intros Hstep. induction fuel as [|fuel IH]; intros s Hs; [exact Hs|].
  cbn [replace_undefs]. destruct (contains s UndefStr) eqn:E; [|exact Hs].
  apply contains_occurs in E.
  destruct (replaceStr_occurs s UndefStr ZeroStr E) as [a [b [Hab Hrep]]].
  rewrite Hrep. cbn [fst]. apply IH, Hstep. rewrite <- Hab. exact Hs.
Qed.

Lemma replace_undefs_clean fuel :
  forall s, length s <= fuel -> ~ occurs UndefStr (replace_undefs fuel s).
Proof.
  induction fuel as [|fuel IH]; intros s Hlen.
  - destruct s; [|inversion Hlen]. simpl. intros [a [b H]].
    apply (f_equal (@length ascii)) in H. rewrite !length_app in H.
    simpl in H. lia.
  - cbn [replace_undefs]. destruct (contains s UndefStr) eqn:E.
    + apply contains_occurs in E.
      destruct (replaceStr_occurs s UndefStr ZeroStr E) as [a [b [Hab Hrep]]].
      rewrite Hrep. cbn [fst]. apply IH.
      rewrite Hab in Hlen. rewrite !length_app in *. simpl in *. lia.
    + apply contains_not_occurs. exact E.
Qed.

Lemma replace_undefs_nothing fuel s :
  ~ occurs UndefStr s -> replace_undefs fuel s = s.
Proof.
  intros H. apply contains_not_occurs in H.
  destruct fuel; [reflexivity|]. cbn [replace_undefs]. rewrite H. reflexivity.
Qed.

(** The line keeps ending with the blank that was appended. *)
Lemma step_keeps_final_blank a b :
  (exists s', a ++ UndefStr ++ b = s' ++ [" "%char]) ->
  exists s', a ++ ZeroStr ++ b = s' ++ [" "%char].
Proof.
  intros [s' H]. destruct (list_eq_dec ascii_dec b []) as [->|Hb].
  - exists (a ++ lit " 0"). rewrite <- app_assoc. reflexivity.
  - destruct (exists_last Hb) as [b' [z Hz]]. subst b.
    rewrite !app_assoc in H. apply app_inj_tail in H. destruct H as [_ ->].
    exists (a ++ ZeroStr ++ b'). rewrite <- !app_assoc. reflexivity.
Qed.

Lemma step_keeps_blank_tail a b :
  blank_tail (a ++ UndefStr ++ b) -> blank_tail (a ++ ZeroStr ++ b).
Proof.
  intros Q x w y Hs Hw Hns.
  apply app_eq_app in Hs. destruct Hs as [l [[Ha Hrest]|[Hx Hrest]]].
  - (* w lies in a, or it is the first character of the replacement *)
    destruct l as [|c l].
    + simpl in Hrest. inversion Hrest; subst. contradiction.
    + inversion Hrest; subst. exists "0"%char. split; [|reflexivity].
      apply in_or_app. right. right. left. reflexivity.
  - (* w lies behind the start of the replacement *)
    destruct l as [|c0 [|c1 [|c2 l]]]; simpl in Hrest; inversion Hrest; subst.
    + contradiction.
    + discriminate.
    + contradiction.
    + (* w lies in b *)
      apply (Q (a ++ UndefStr ++ l) w y); [|exact Hw|exact Hns].
      rewrite <- !app_assoc. reflexivity.
Qed.

Lemma blank_tail_append_blank s : blank_tail s -> blank_tail (s ++ [" "%char]).
Proof.
  intros Q a w b Hs Hw Hns.
  destruct (list_eq_dec ascii_dec b []) as [->|Hb].
  - apply app_inj_tail in Hs. destruct Hs as [_ Hs]. subst w. contradiction.
  - destruct (exists_last Hb) as [b' [z Hz]]. subst b.
    change (a ++ w :: b' ++ [z]) with (a ++ (w :: b') ++ [z]) in Hs.
    rewrite app_assoc in Hs. apply app_inj_tail in Hs. destruct Hs as [Hs _].
    destruct (Q a w b' Hs Hw Hns) as [c [Hin Hc]].
    exists c. split; [apply in_or_app; left; exact Hin | exact Hc].
Qed.

(** The sentinel and the opcode name have no character in common, so a
    replacement cannot cut through an occurrence of the opcode name. *)
Lemma step_keeps_opcode a b :
  occurs OpVectorShuffle (a ++ UndefStr ++ b) ->
  occurs OpVectorShuffle (a ++ ZeroStr ++ b).
Proof.
  assert (Hdisj : forall c, In c OpVectorShuffle -> In c UndefStr -> False).
  { intros c H1 H2. simpl in H1, H2.
    repeat (destruct H1 as [H1|H1]; [subst c; intuition discriminate|]).
    exact H1. }
  intros [x [y H]].
  apply app_eq_app in H. destruct H as [l [[Ha Hrest]|[Hx Hrest]]].
  - (* the occurrence starts in a *)
    symmetry in Hrest.
    apply app_eq_app in Hrest. destruct Hrest as [l2 [[Hl Hy]|[Hop Hub]]].
    + exists x, (l2 ++ ZeroStr ++ b). rewrite Ha, Hl, <- !app_assoc. reflexivity.
    + (* Hop : OpVectorShuffle = l ++ l2, Hub : UndefStr ++ b = l2 ++ y *)
      destruct l2 as [|c l2].
      * rewrite app_nil_r in Hop. subst l.
        exists x, (ZeroStr ++ b). rewrite Ha, <- app_assoc. reflexivity.
      * exfalso. apply (Hdisj c).
        -- rewrite Hop. apply in_or_app. right. left. reflexivity.
        -- simpl in Hub. inversion Hub; subst. left. reflexivity.
  - (* the occurrence starts at or after the sentinel *)
    apply app_eq_app in Hrest. destruct Hrest as [l2 [[Hu Hoy]|[Hl Hb]]].
    + (* Hu : UndefStr = l ++ l2, Hoy : OpVectorShuffle ++ y = l2 ++ b *)
      destruct l2 as [|c l2].
      * simpl in Hoy. exists (a ++ ZeroStr), y.
        rewrite <- Hoy, <- app_assoc. reflexivity.
      * exfalso. apply (Hdisj c).
        -- simpl in Hoy. inversion Hoy; subst. left. reflexivity.
        -- rewrite Hu. apply in_or_app. right. left. reflexivity.
    + exists (a ++ ZeroStr ++ l2), y. rewrite Hb, <- !app_assoc. reflexivity.
Qed.

(** After the loop and the trim, appending the blank again creates no new
    occurrence of the sentinel. *)
Lemma fixed_line_stays_clean s :
  blank_tail s -> ~ occurs UndefStr (fix_shuffle_line s ++ [" "%char]).
Proof.
  intros Q. unfold fix_shuffle_line.
  set (r := replace_undefs (length (s ++ [" "%char])) (s ++ [" "%char])).
  assert (Hclean : ~ occurs UndefStr r) by (apply replace_undefs_clean, Nat.le_refl).
  assert (Hblank : exists r', r = r' ++ [" "%char]).
  { apply (replace_undefs_keeps (fun u => exists u', u = u' ++ [" "%char])).
    - exact step_keeps_final_blank.
    - exists s. reflexivity. }
  assert (Htail : blank_tail r).
  { apply (replace_undefs_keeps blank_tail).
    - exact step_keeps_blank_tail.
    - apply blank_tail_append_blank, Q. }
  destruct (trim_split r) as [lead [trail [Hr [Hl Ht]]]].
  set (t := trim r) in *. clearbody t. clearbody r.
  intros [a [b Hocc]].
  destruct (list_eq_dec ascii_dec b []) as [->|Hb].
  - (* the occurrence ends with the appended blank *)
    change UndefStr with (UndefHead ++ [" "%char]) in Hocc.
    rewrite app_nil_r, app_assoc in Hocc.
    apply app_inj_tail in Hocc. destruct Hocc as [Ht' _].
    destruct trail as [|w trail].
    + destruct Hblank as [r' Hr'].
      rewrite Hr, Ht', app_nil_r in Hr'.
      change UndefHead with (lit " 429496729" ++ ["5"%char]) in Hr'.
      rewrite !app_assoc in Hr'. apply app_inj_tail in Hr'.
      destruct Hr' as [_ Hr']. discriminate.
    + inversion Ht as [|? ? Hw Ht'']; subst.
      destruct (ascii_dec w " "%char) as [->|Hns].
      * apply Hclean. exists (lead ++ a), trail.
        change UndefStr with (UndefHead ++ [" "%char]).
        rewrite <- !app_assoc. reflexivity.
      * destruct (Htail (lead ++ a ++ UndefHead) w trail) as [c [Hin Hc]];
          [rewrite <- !app_assoc; reflexivity | exact Hw | exact Hns |].
        rewrite Forall_forall in Ht''. rewrite (Ht'' c Hin) in Hc. discriminate.
  - (* the occurrence lies inside the trimmed line *)
    destruct (exists_last Hb) as [b' [z Hz]]. subst b.
    rewrite !app_assoc in Hocc. apply app_inj_tail in Hocc.
    destruct Hocc as [Ht' _].
    apply Hclean. exists (lead ++ a), (b' ++ trail).
    rewrite Hr, Ht', <- !app_assoc. reflexivity.
Qed.

Lemma fix_shuffle_line_idempotent s :
  blank_tail s -> fix_shuffle_line (fix_shuffle_line s) = fix_shuffle_line s.
Proof.
  intros Q. pose proof (fixed_line_stays_clean s Q) as Hclean.
  unfold fix_shuffle_line at 1.
  rewrite replace_undefs_nothing by exact Hclean.
  apply trim_trimmed_spaces.
  - unfold fix_shuffle_line. apply trim_trimmed.
  - repeat constructor.
Qed.

Lemma fix_shuffle_line_keeps_opcode s :
  occurs OpVectorShuffle s -> occurs OpVectorShuffle (fix_shuffle_line s).
Proof.
  intros Hocc. unfold fix_shuffle_line.
  apply (occurs_trim OpVectorShuffle _ "O"%char (lit "pVectorShuffle") "e"%char);
    try reflexivity.
  apply (replace_undefs_keeps (occurs OpVectorShuffle)).
  - exact step_keeps_opcode.
  - destruct Hocc as [a [b ->]]. exists a, (b ++ [" "%char]).
    rewrite <- !app_assoc. reflexivity.
Qed.

(** A line as [Block::addLine] stores it (trimmed) has a blank tail. *)
Lemma trimmed_blank_tail s : trimmed s -> blank_tail s.
Proof.
  intros [_ Hlast] a w b Hs Hw Hns.
  destruct (list_eq_dec ascii_dec b []) as [->|Hb].
  - rewrite (Hlast a w Hs) in Hw. discriminate.
  - destruct (exists_last Hb) as [b' [z Hz]]. subst b.
    exists z. split; [apply in_or_app; right; left; reflexivity|].
    apply (Hlast (a ++ w :: b')). rewrite Hs, <- app_assoc. reflexivity.
Qed.

(** So has a line whose only white-space characters are blanks. *)
Lemma only_blanks_blank_tail s :
  forallb (fun c => negb (isspace c) || Ascii.eqb c " "%char) s = true ->
  blank_tail s.
Proof.
  intros H a w b Hs Hw Hns. exfalso.
  rewrite forallb_forall in H.
  assert (Hin : In w s) by (rewrite Hs; apply in_or_app; right; left; reflexivity).
  specialize (H w Hin). rewrite Hw in H. simpl in H.
  apply Ascii.eqb_eq in H. contradiction.
Qed.

Lemma lines_added_trimmed Ls : lines_added Ls = map trim Ls.
Proof.
  unfold lines_added.
  assert (H : forall acc,
             fold_left (fun Lines L => addLine Lines L true) Ls acc
             = acc ++ map trim Ls).
  { induction Ls as [|L Ls IH]; intros acc; cbn [fold_left map].
    - rewrite app_nil_r. reflexivity.
    - rewrite IH. unfold addLine. rewrite <- app_assoc. reflexivity. }
  apply H.
Qed.

(** C9.  A block holds its lines as [Block::addLine] stored them, trimmed.
    On the lines of every such block the rewrite of [FixVectorShuffles] is
    idempotent: applied twice it yields the same lines as applied once.
    Line by line this holds for every line whose trailing white space, if
    any, consists of blanks, which every trimmed line satisfies. *)
Theorem C9_fix_vector_shuffles_idempotent :
  (forall Ls,
      fst (FixVectorShuffles (fst (FixVectorShuffles (lines_added Ls))))
      = fst (FixVectorShuffles (lines_added Ls))) /\
  (forall s, fix_line (fix_line (trim s)) = fix_line (trim s)) /\
  (forall s, blank_tail s -> fix_line (fix_line s) = fix_line s).
Proof.
  assert (Hline : forall s, blank_tail s -> fix_line (fix_line s) = fix_line s).
  { intros s Q.
    assert (Hs : fix_line s = if contains s OpVectorShuffle
                              then fix_shuffle_line s else s)
      by (unfold fix_line; destruct (contains s OpVectorShuffle); reflexivity).
    destruct (contains s OpVectorShuffle) eqn:E; rewrite Hs.
    - unfold fix_line.
      assert (E' : contains (fix_shuffle_line s) OpVectorShuffle = true).
      { apply contains_occurs, fix_shuffle_line_keeps_opcode.
        apply contains_occurs, E. }
      rewrite E'. cbn [negb]. apply fix_shuffle_line_idempotent, Q.
    - unfold fix_line. rewrite E. reflexivity. }
  assert (Hstored : forall s, fix_line (fix_line (trim s)) = fix_line (trim s)).
  { intros s. apply Hline, trimmed_blank_tail, trim_trimmed. }
  split; [|split; [exact Hstored | exact Hline]].
  intros Ls. rewrite lines_added_trimmed. unfold FixVectorShuffles. cbn [fst].
  rewrite !map_map. apply map_ext. intros s. apply Hstored.
Qed.

Definition shuffle_example : str :=
  lit "%r = OpVectorShuffle %v4uchar %a %b 0 4294967295 3 4294967295".

(** The theorem at the second example of the source's comment. *)
Lemma C9_fix_vector_shuffles_idempotent_witness :
  blank_tail shuffle_example /\
  fix_line (fix_line shuffle_example) = fix_line shuffle_example /\
  fix_line shuffle_example = lit "%r = OpVectorShuffle %v4uchar %a %b 0 0 3 0".
Proof.
  assert (Q : blank_tail shuffle_example)
    by (apply only_blanks_blank_tail; reflexivity).
  split; [exact Q|]. split.
  - exact (proj2 (proj2 C9_fix_vector_shuffles_idempotent) shuffle_example Q).
  - reflexivity.
Defined.

End VectorShuffle.

(* ====================================================================== *)
(** * frameworks/rs/rsov/compiler/RSSPIRVWriter.cpp: FuseTypesAndConstants *)
(* ====================================================================== *)

Module Fusion.

Import SpirvLine.
Local Open Scope nat_scope.
Local Open Scope outcome_scope.

Definition NUL : ascii := Ascii.zero.

(** Equality of strings, as [StringMap] and [std::string] compare them. *)
Fixpoint str_eqb (s t : str) : bool :=
  match s, t with
  | [], [] => true
  | c :: s', d :: t' => Ascii.eqb c d && str_eqb s' t'
  | _, _ => false
  end.

(** The characters of [s] up to its end or the first character for which
    [stop] holds. *)
Fixpoint take_until (stop : ascii -> bool) (s : str) : str :=
  match s with
  | [] => []
  | c :: s' => if stop c then [] else c :: take_until stop s'
  end.

(** [GetFirstId(S, StartPos, EndPos)]: the identifier and [EndPos]. *)
Definition GetFirstId (s : str) (startPos : nat) : option (str * nat) :=
  match find ["%"%char] s startPos with
  | None => None
  | Some posB =>
      let name := take_until isspace (skipn (S posB) s) in
      Some ("%"%char :: name, S posB + length name)
  end.

(** The loop [while ((Res = GetFirstId(S, Pos, Pos)))] that collects the
    identifiers found.
    [Pos] grows with every identifier found, so [fuel] above the length of
    the string is never used up. *)
Fixpoint identifiers_loop (fuel : nat) (s : str) (pos : nat) : list str :=
  match fuel with
  | O => []
  | S fuel' =>
      match GetFirstId s pos with
      | None => []
      | Some (id, endPos) => id :: identifiers_loop fuel' s endPos
      end
  end.

(** [SPIRVLine::getIdentifiers]. *)
Definition getIdentifiers (line : str) (startPos : nat) : list str :=
  identifiers_loop (S (length line)) line startPos.

(** [SPIRVLine::getLHSIdentifier]. *)
Definition getLHSIdentifier (line : str) : option str :=
  match GetFirstId line 0 with
  | None => None
  | Some (id, _) => if contains line ["="%char] then Some id else None
  end.

(** [SPIRVLine::getRHS]: [StringRef(Line.c_str() + EqPos + 1).trim()]; the
    C string ends at the first NUL. *)
Definition getRHS (line : str) : option str :=
  match find ["="%char] line 0 with
  | None => None
  | Some eqPos =>
      Some (trim (take_until (fun c => Ascii.eqb c NUL) (skipn (S eqPos) line)))
  end.

(** [SPIRVLine::getRHSIdentifiers]. *)
Definition getRHSIdentifiers (line : str) : list str :=
  match getRHS line with
  | None => []
  | Some rhs => identifiers_loop (S (length rhs)) rhs 0
  end.

(** A [StringMap<std::string>], newest entry first. *)
Definition StringMap := list (str * str).

Fixpoint lookup (m : StringMap) (key : str) : option str :=
  match m with
  | [] => None
  | (k, v) :: m' => if str_eqb k key then Some v else lookup m' key
  end.

(** [StringMap::insert]: an existing entry is kept. *)
Definition insert (m : StringMap) (key value : str) : StringMap :=
  match lookup m key with
  | Some _ => m
  | None => (key, value) :: m
  end.

Definition OpType : str := lit "OpType".
Definition OpConstant : str := lit "OpConstant".

(** The inner loop [for (auto &Id : Ids) if (NameReps.count(Id) != 0) ...];
    a failed [assert(Res)] stops the run. *)
Fixpoint replace_ids (NameReps : StringMap) (Ids : list str) (line : str)
  : outcome str :=
  match Ids with
  | [] => Done line
  | Id :: Ids' =>
      match lookup NameReps Id with
      | None => replace_ids NameReps Ids' line
      | Some new =>
          let '(line', Res) := replaceId line Id new in
          if Res then replace_ids NameReps Ids' line' else CheckFailed
      end
  end.

Record maps := {
  TypesAndConstDefs : StringMap;
  NameReps : StringMap
}.

(** The body of the loop of [FuseTypesAndConstants] for one line. *)
Definition fuse_line (m : maps) (line : str) : outcome (maps * str) :=
  if negb (contains line ["="%char]) then Done (m, line)
  else
    let Ids := getRHSIdentifiers line in
    line <- replace_ids (NameReps m) Ids line ;;
    if contains line OpType || contains line OpConstant then
      match getLHSIdentifier line, getRHS line with
      | Some LHS, Some RHS =>
          match lookup (TypesAndConstDefs m) RHS with
          | Some canonical =>
              Done ({| TypesAndConstDefs := TypesAndConstDefs m;
                       NameReps := insert (NameReps m) LHS canonical |},
                    empty_marker)
          | None =>
              Done ({| TypesAndConstDefs := insert (TypesAndConstDefs m) RHS LHS;
                       NameReps := NameReps m |},
                    line)
          end
      | _, _ => CheckFailed            (* assert(LHS); assert(RHS); *)
      end
    else Done (m, line).

Fixpoint fuse_lines (m : maps) (lines : list str) : outcome (maps * list str) :=
  match lines with
  | [] => Done (m, [])
  | l :: lines' =>
      r <- fuse_line m l ;;
      r' <- fuse_lines (fst r) lines' ;;
      Done (fst r', snd r :: snd r')
  end.

(** [Block::BlockKind]. *)
Inductive BlockKind :=
| BK_Header | BK_Decor | BK_TypeAndConst | BK_Var
| BK_FunDecl | BK_Function | BK_MainFun.

Record Block := {
  Kind : BlockKind;
  Lines : list str
}.

Definition LinkerModule := list Block.

(** The walk over [LM.lines()]: the lines of all blocks in order. *)
Fixpoint fuse_blocks (m : maps) (blocks : LinkerModule)
  : outcome (maps * LinkerModule) :=
  match blocks with
  | [] => Done (m, [])
  | b :: blocks' =>
      r <- fuse_lines m (Lines b) ;;
      r' <- fuse_blocks (fst r) blocks' ;;
      Done (fst r', {| Kind := Kind b; Lines := snd r |} :: snd r')
  end.

Definition isHeader (b : Block) : bool :=
  match Kind b with BK_Header => true | _ => false end.

(** [Block::removeNonCodeLines] and [Block::hasCode]. *)
Definition removeNonCodeLines (b : Block) : Block :=
  {| Kind := Kind b; Lines := filter hasCode (Lines b) |}.

Definition Block_hasCode (b : Block) : bool := existsb hasCode (Lines b).

(** [LinkerModule::removeNonCode]. *)
Definition removeNonCode (blocks : LinkerModule) : LinkerModule :=
  filter Block_hasCode
         (map (fun b => if isHeader b then b else removeNonCodeLines b) blocks).

Definition no_maps : maps := {| TypesAndConstDefs := []; NameReps := [] |}.

(** [FuseTypesAndConstants(LM)]: the module afterwards and the value
    returned. *)
Definition FuseTypesAndConstants (LM : LinkerModule)
  : outcome (LinkerModule * bool) :=
  r <- fuse_blocks no_maps LM ;;
  Done (removeNonCode (snd r), true).

(** All lines of a module. *)
Definition module_lines (LM : LinkerModule) : list str :=
  concat (map Lines LM).

(** [id] is referred to somewhere in the module. *)
Definition refers_to (LM : LinkerModule) (id : str) : Prop :=
  exists line, In line (module_lines LM) /\ In id (getIdentifiers line 0).

(** ** Lines built from blank-separated tokens *)

(** A token of a line: an identifier [%name] or any other word. *)
Inductive token := Ident (name : str) | Word (w : str).

Definition render (t : token) : str :=
  match t with
  | Ident name => "%"%char :: name
  | Word w => w
  end.

(** The tokens [ts] as they follow a first token: each preceded by one
    blank. *)
Definition tail_str (ts : list token) : str :=
  concat (map (fun t => " "%char :: render t) ts).

(** A character that may occur in a name or word: no white space, no [%],
    no [=], no NUL. *)
Definition plain (c : ascii) : bool :=
  negb (isspace c) && negb (Ascii.eqb c "%"%char)
  && negb (Ascii.eqb c "="%char) && negb (Ascii.eqb c NUL).

Definition token_ok (t : token) : bool :=
  match t with
  | Ident name => forallb plain name
  | Word w => negb (str_eqb w []) && forallb plain w
  end.

Definition is_id (t : token) : bool :=
  match t with Ident _ => true | Word _ => false end.

(** The identifiers among the tokens, as text. *)
Definition ids_of (ts : list token) : list str := map render (filter is_id ts).

(** An assignment-form line [%lhs = op args]. *)
Record assignment := {
  lhs : str;
  op : str;
  args : list token
}.

Definition rhs_text (l : assignment) : str := op l ++ tail_str (args l).

Definition render_line (l : assignment) : str :=
  "%"%char :: lhs l ++ lit " = " ++ rhs_text l.

(** The line is a type or constant declaration for [FuseTypesAndConstants]. *)
Definition is_declaration (line : str) : bool :=
  contains line OpType || contains line OpConstant.

(** [old] is not the beginning of another identifier [name]. *)
Definition apart (old name : str) : bool :=
  str_eqb name old || negb (prefixb old name).

(** ** Modules read as tokens *)

(** A line of a module: an assignment-form line built of tokens, or any
    other text. *)
Inductive pline := Assign (l : assignment) | Other (s : str).

Definition render_pline (p : pline) : str :=
  match p with
  | Assign l => render_line l
  | Other s => s
  end.

Record pblock := {
  pKind : BlockKind;
  pLines : list pline
}.

Definition render_module (pm : list pblock) : LinkerModule :=
  map (fun b => {| Kind := pKind b; Lines := map render_pline (pLines b) |}) pm.

(** All lines of the module, in the order [LM.lines()] walks them. *)
Definition plines (pm : list pblock) : list pline := concat (map pLines pm).

(** Renaming by a map from identifier names to identifier names. *)
Definition rename (R : StringMap) (t : token) : token :=
  match t with
  | Ident n => match lookup R n with
               | Some k => Ident k
               | None => Ident n
               end
  | Word w => Word w
  end.

Definition rename_line (R : StringMap) (l : assignment) : assignment :=
  {| lhs := lhs l; op := op l; args := map (rename R) (args l) |}.

(** The two maps of [FuseTypesAndConstants] with identifiers as names:
    [defs] sends the text of a right-hand side to the name kept for it,
    [reps] a discarded name to the name kept in its place. *)
Record tmaps := {
  defs : StringMap;
  reps : StringMap
}.

Definition no_tmaps : tmaps := {| defs := []; reps := [] |}.

(** What one line does to the two maps. *)
Definition tfuse_line (st : tmaps) (p : pline) : tmaps :=
  match p with
  | Other _ => st
  | Assign l =>
      let l' := rename_line (reps st) l in
      if is_declaration (render_line l') then
        match lookup (defs st) (rhs_text l') with
        | Some k => {| defs := defs st; reps := insert (reps st) (lhs l) k |}
        | None => {| defs := insert (defs st) (rhs_text l') (lhs l);
                     reps := reps st |}
        end
      else st
  end.

Definition trun (st : tmaps) (ps : list pline) : tmaps :=
  fold_left tfuse_line ps st.

(** The names the pass discards, each with the name kept in its place. *)
Definition canon (pm : list pblock) : StringMap :=
  reps (trun no_tmaps (plines pm)).

(** A line after the pass: the declaration of a discarded name is blanked,
    every other assignment-form line has its discarded names replaced, any
    other line is left as it is. *)
Definition fused_line (R : StringMap) (p : pline) : str :=
  match p with
  | Other s => s
  | Assign l =>
      match lookup R (lhs l) with
      | Some _ => empty_marker
      | None => render_line (rename_line R l)
      end
  end.

Definition fused_blocks (R : StringMap) (pm : list pblock) : LinkerModule :=
  map (fun b => {| Kind := pKind b; Lines := map (fused_line R) (pLines b) |}) pm.

Definition fused (pm : list pblock) : LinkerModule :=
  fused_blocks (canon pm) pm.

(** An assignment-form line is made of plain names and words; any other line
    contains no [=]. *)
Definition wf_line (p : pline) : bool :=
  match p with
  | Assign l =>
      forallb plain (lhs l) && negb (str_eqb (op l) [])
      && forallb plain (op l) && forallb token_ok (args l)
  | Other s => negb (contains s ["="%char])
  end.

(** The names the assignment-form lines define, and the names a line
    uses. *)
Definition lhss (ps : list pline) : list str :=
  flat_map (fun p => match p with Assign l => [lhs l] | Other _ => [] end) ps.

Definition arg_names (l : assignment) : list str :=
  flat_map (fun t => match t with Ident n => [n] | Word _ => [] end) (args l).

Definition mem (x : str) (xs : list str) : bool := existsb (str_eqb x) xs.

(** Every name is defined by at most one line. *)
Fixpoint defined_once (xs : list str) : bool :=
  match xs with
  | [] => true
  | x :: xs' => negb (mem x xs') && defined_once xs'
  end.

(** No line uses a name of [R] that it or a later line defines. *)
Fixpoint defined_before_use (R : StringMap) (ps : list pline) : bool :=
  match ps with
  | [] => true
  | p :: ps' =>
      match p with
      | Assign l =>
          forallb (fun n => match lookup R n with
                            | Some _ => negb (mem n (lhss (p :: ps')))
                            | None => true
                            end) (arg_names l)
      | Other _ => true
      end && defined_before_use R ps'
  end.

(** All names of the assignment-form lines. *)
Definition all_names (ps : list pline) : list str :=
  flat_map (fun p => match p with
                     | Assign l => lhs l :: arg_names l
                     | Other _ => []
                     end) ps.

(** No name of the module begins with a discarded name and goes on. *)
Definition none_extends (R : StringMap) (ps : list pline) : bool :=
  forallb (fun dk => forallb (apart (fst dk)) (all_names ps)) R.

(** The modules the theorem is about: lines made of tokens, every name
    defined at most once, every discarded name used only behind the line that
    defines it, and no name that goes on from a discarded one. *)
Definition module_ok (pm : list pblock) : bool :=
  forallb wf_line (plines pm) && defined_once (lhss (plines pm))
  && defined_before_use (canon pm) (plines pm)
  && none_extends (canon pm) (plines pm).

(** The line declares a type or a constant: its opcode contains [OpType] or
    [OpConstant]. *)
Definition declares (l : assignment) : bool :=
  contains (op l) OpType || contains (op l) OpConstant.

(** The maps of the pass as the code holds them, identifiers with their
    [%]. *)
Definition percent (n : str) : str := "%"%char :: n.

Definition enc_defs (D : StringMap) : StringMap :=
  map (fun kv => (fst kv, percent (snd kv))) D.

Definition enc_reps (R : StringMap) : StringMap :=
  map (fun kv => (percent (fst kv), percent (snd kv))) R.

Definition enc (st : tmaps) : maps :=
  {| TypesAndConstDefs := enc_defs (defs st); NameReps := enc_reps (reps st) |}.

(** ** Facts about tokens and searching *)

Lemma str_eqb_eq s : forall t, str_eqb s t = true <-> s = t.
Proof.
  induction s as [|c s IH]; intros [|d t]; simpl; split; intros H;
    try reflexivity; try discriminate.
  - apply andb_true_iff in H. destruct H as [Hc Hs].
    apply Ascii.eqb_eq in Hc. apply IH in Hs. subst. reflexivity.
  - inversion H; subst. rewrite Ascii.eqb_refl. apply IH. reflexivity.
Qed.

Lemma str_eqb_refl s : str_eqb s s = true.
Proof. apply str_eqb_eq. reflexivity. Qed.

Lemma str_eqb_neq s t : str_eqb s t = false <-> s <> t.
Proof.
  split.
  - intros H E. apply str_eqb_eq in E. congruence.
  - intros H. destruct (str_eqb s t) eqn:E; [|reflexivity].
    apply str_eqb_eq in E. contradiction.
Qed.

Lemma plain_facts c :
  plain c = true ->
  isspace c = false /\ c <> "%"%char /\ c <> "="%char /\ c <> NUL.
Proof.
  unfold plain. intros H.
  repeat (apply andb_true_iff in H; destruct H as [H ?]).
  repeat match goal with
         | X : negb _ = true |- _ => apply negb_true_iff in X
         end.
  repeat split; try assumption; intros ->; discriminate.
Qed.

Lemma option_map_add (o : option nat) n m :
  option_map (Nat.add n) (option_map (Nat.add m) o) = option_map (Nat.add (n + m)) o.
Proof. destruct o; simpl; [f_equal; lia | reflexivity]. Qed.

Lemma find0_here pat y : find0 pat (pat ++ y) = Some 0.
Proof.
  destruct (pat ++ y) eqn:E; cbn [find0].
  - apply app_eq_nil in E. destruct E as [-> ->]. reflexivity.
  - rewrite <- E, prefixb_app. reflexivity.
Qed.

Lemma find0_skip_char p pat c y :
  c <> p -> find0 (p :: pat) (c :: y) = option_map S (find0 (p :: pat) y).
Proof.
  intros H. cbn [find0 prefixb].
  destruct (Ascii.eqb_spec p c); [congruence | reflexivity].
Qed.

Lemma find0_skip_chars p pat u y :
  Forall (fun c => c <> p) u ->
  find0 (p :: pat) (u ++ y) = option_map (Nat.add (length u)) (find0 (p :: pat) y).
Proof.
  induction 1 as [|c u Hc _ IH].
  - simpl. destruct (find0 (p :: pat) y); reflexivity.
  - cbn [app length]. rewrite find0_skip_char by exact Hc. rewrite IH.
    destruct (find0 (p :: pat) y); reflexivity.
Qed.

(** What follows a token: nothing, or a blank. *)
Definition gap (y : str) : Prop := y = [] \/ exists y', y = " "%char :: y'.

Lemma gap_tail_str ts : gap (tail_str ts).
Proof. destruct ts; [left; reflexivity | right; eexists; reflexivity]. Qed.

(** A plain name cannot reach over the end of a token. *)
Lemma prefixb_within b :
  forall n y, forallb plain b = true -> gap y ->
              prefixb b (n ++ y) = true -> prefixb b n = true.
Proof.
  induction b as [|c b IH]; intros n y Hb Hy H; [reflexivity|].
  simpl in Hb. apply andb_true_iff in Hb. destruct Hb as [Hc Hb].
  apply plain_facts in Hc. destruct Hc as [Hsp _].
  destruct n as [|d n].
  - exfalso. destruct Hy as [->|[y' ->]]; simpl in H; [discriminate|].
    apply andb_true_iff in H. destruct H as [H _].
    apply Ascii.eqb_eq in H. subst c. discriminate.
  - simpl in H |- *. apply andb_true_iff in H. destruct H as [Hcd H].
    rewrite Hcd. simpl. exact (IH n y Hb Hy H).
Qed.

(** A token in which [%b] cannot be found: a word, or an identifier that
    does not begin with [b]. *)
Definition clean (b : str) (t : token) : bool :=
  match t with
  | Ident name => forallb plain name && negb (prefixb b name)
  | Word w => forallb (fun c => negb (Ascii.eqb c "%"%char)) w
  end.

Lemma no_percent_of_forallb (f : ascii -> bool) w :
  (forall c, f c = true -> c <> "%"%char) ->
  forallb f w = true -> Forall (fun c => c <> "%"%char) w.
Proof.
  intros Hf H. rewrite forallb_forall in H. apply Forall_forall.
  intros c Hc. apply Hf, H, Hc.
Qed.

Lemma plain_no_percent w :
  forallb plain w = true -> Forall (fun c => c <> "%"%char) w.
Proof.
  apply no_percent_of_forallb. intros c Hc. apply plain_facts in Hc. tauto.
Qed.

(** The search for [%b] runs over a clean token. *)
Lemma find0_skip_token b t y :
  forallb plain b = true -> clean b t = true -> gap y ->
  find0 ("%"%char :: b) (render t ++ y)
  = option_map (Nat.add (length (render t))) (find0 ("%"%char :: b) y).
Proof.
  intros Hb Ht Hy. destruct t as [name|w]; cbn [render clean] in *.
  - apply andb_true_iff in Ht. destruct Ht as [Hn Hp].
    apply negb_true_iff in Hp.
    cbn [app find0 prefixb]. rewrite Ascii.eqb_refl. cbn [andb].
    destruct (prefixb b (name ++ y)) eqn:E.
    + rewrite (prefixb_within b name y Hb Hy E) in Hp. discriminate.
    + rewrite find0_skip_chars by (apply plain_no_percent, Hn).
      destruct (find0 ("%"%char :: b) y); reflexivity.
  - apply find0_skip_chars.
    apply (no_percent_of_forallb _ w) in Ht; [exact Ht|].
    intros c Hc. apply negb_true_iff in Hc. intros ->. discriminate.
Qed.

Lemma gap_app_tail t ts y : gap y -> gap (tail_str (t :: ts) ++ y).
Proof. intros _. right. eexists. reflexivity. Qed.

Lemma tail_str_cons t ts :
  tail_str (t :: ts) = " "%char :: render t ++ tail_str ts.
Proof. reflexivity. Qed.

Lemma tail_str_app ts1 ts2 : tail_str (ts1 ++ ts2) = tail_str ts1 ++ tail_str ts2.
Proof. unfold tail_str. rewrite map_app, concat_app. reflexivity. Qed.

(** The search for [%b] runs over clean tokens. *)
Lemma find0_skip_tokens b ts :
  forall y,
    forallb plain b = true -> forallb (clean b) ts = true -> gap y ->
    find0 ("%"%char :: b) (tail_str ts ++ y)
    = option_map (Nat.add (length (tail_str ts))) (find0 ("%"%char :: b) y).
Proof.
  induction ts as [|t ts IH]; intros y Hb Hts Hy.
  - simpl. destruct (find0 ("%"%char :: b) y); reflexivity.
  - simpl in Hts. apply andb_true_iff in Hts. destruct Hts as [Ht Hts].
    rewrite tail_str_cons. cbn [app].
    rewrite find0_skip_char by discriminate.
    rewrite <- app_assoc.
    rewrite find0_skip_token; [|exact Hb|exact Ht|].
    2:{ destruct ts; [exact Hy | right; eexists; reflexivity]. }
    rewrite IH by assumption.
    destruct (find0 ("%"%char :: b) y); simpl; [|reflexivity].
    rewrite length_app. f_equal. lia.
Qed.

(** [%b] is found where it first stands as a token of its own. *)
Lemma find0_first_token b t0 pre y :
  forallb plain b = true -> clean b t0 = true ->
  forallb (clean b) pre = true ->
  find0 ("%"%char :: b)
        ((render t0 ++ tail_str pre ++ [" "%char]) ++ ("%"%char :: b) ++ y)
  = Some (length (render t0 ++ tail_str pre ++ [" "%char])).
Proof.
  intros Hb Ht0 Hpre.
  assert (G : gap (" "%char :: ("%"%char :: b) ++ y))
    by (right; eexists; reflexivity).
  replace ((render t0 ++ tail_str pre ++ [" "%char]) ++ ("%"%char :: b) ++ y)
    with (render t0 ++ tail_str pre ++ " "%char :: ("%"%char :: b) ++ y)
    by (rewrite <- !app_assoc; reflexivity).
  rewrite find0_skip_token; [|exact Hb|exact Ht0|].
  2:{ destruct pre; [exact G | right; eexists; reflexivity]. }
  rewrite find0_skip_tokens by assumption.
  rewrite find0_skip_char by discriminate.
  rewrite find0_here. simpl. rewrite !length_app. simpl. f_equal; lia.
Qed.

(** [replaceId] at a first occurrence that is followed by a blank or by the
    end of the line replaces that occurrence. *)
Lemma replaceId_at X pat new y :
  find0 pat (X ++ pat ++ y) = Some (length X) -> gap y ->
  replaceId (X ++ pat ++ y) pat new = (X ++ new ++ y, true).
Proof.
  intros Hf Hy. unfold replaceId. rewrite find_from_0, Hf. cbv zeta.
  assert (R : replace_at (X ++ pat ++ y) (length X) (length pat) new
              = X ++ new ++ y).
  { unfold replace_at. rewrite firstn_exact.
    rewrite (app_assoc X pat y), <- length_app, skipn_exact. reflexivity. }
  destruct Hy as [->|[y' ->]].
  - replace (length X + length pat <? length (X ++ pat ++ []))
      with false.
    + cbn [andb]. rewrite R. reflexivity.
    + symmetry. apply Nat.ltb_ge. rewrite !length_app. simpl. lia.
  - replace (nth (length X + length pat) (X ++ pat ++ " "%char :: y') Ascii.zero)
      with " "%char.
    + rewrite andb_false_r. rewrite R. reflexivity.
    + rewrite (app_assoc X pat), <- length_app. symmetry. apply nth_middle.
Qed.

(** What the replacement loop needs of an argument. *)
Definition arg_ok (b : str) (t : token) : bool :=
  token_ok t && match t with Ident n => apart b n | Word _ => true end.

Lemma arg_ok_clean b n :
  arg_ok b (Ident n) = true -> str_eqb n b = false -> clean b (Ident n) = true.
Proof.
  unfold arg_ok, apart, clean, token_ok. intros H E. rewrite E in H.
  exact H.
Qed.

Lemma arg_ok_word_clean b w : arg_ok b (Word w) = true -> clean b (Word w) = true.
Proof.
  unfold arg_ok, clean, token_ok. intros H.
  apply andb_true_iff in H. destruct H as [H _].
  apply andb_true_iff in H. destruct H as [_ H].
  rewrite forallb_forall in H |- *. intros c Hc.
  specialize (H c Hc). apply plain_facts in H.
  apply negb_true_iff. destruct (Ascii.eqb_spec c "%"%char); [tauto | reflexivity].
Qed.

Lemma lookup_enc_reps R n :
  lookup (enc_reps R) (percent n) = option_map percent (lookup R n).
Proof.
  induction R as [|[d k] R IH]; [reflexivity|].
  cbn [enc_reps map lookup fst snd percent str_eqb].
  rewrite Ascii.eqb_refl. cbn [andb].
  destruct (str_eqb d n); [reflexivity | exact IH].
Qed.

Lemma lookup_enc_defs D key :
  lookup (enc_defs D) key = option_map percent (lookup D key).
Proof.
  induction D as [|[t k] D IH]; [reflexivity|].
  cbn [enc_defs map lookup fst snd].
  destruct (str_eqb t key); [reflexivity | exact IH].
Qed.

Lemma insert_enc_reps R d k :
  insert (enc_reps R) (percent d) (percent k) = enc_reps (insert R d k).
Proof.
  unfold insert. rewrite lookup_enc_reps.
  destruct (lookup R d); reflexivity.
Qed.

Lemma insert_enc_defs D key k :
  insert (enc_defs D) key (percent k) = enc_defs (insert D key k).
Proof.
  unfold insert. rewrite lookup_enc_defs.
  destruct (lookup D key); reflexivity.
Qed.

(** The replacement loop over the identifiers of the arguments renames
    exactly the tokens that stand for a discarded name, provided the search
    for a discarded name cannot stop inside another token. *)
Lemma replace_ids_rename R t0 :
  (forall d k, lookup R d = Some k ->
               forallb plain d = true /\ clean d t0 = true) ->
  (forall d k d' k', lookup R d = Some k -> lookup R d' = Some k' ->
                     clean d (Ident k') = true) ->
  forall rest pre,
    (forall d k, lookup R d = Some k -> forallb (clean d) pre = true) ->
    (forall d k, lookup R d = Some k -> forallb (arg_ok d) rest = true) ->
    replace_ids (enc_reps R) (ids_of rest)
                (render t0 ++ tail_str (pre ++ rest))
    = Done (render t0 ++ tail_str (pre ++ map (rename R) rest)).
Proof.
  intros Hdom Hran.
  induction rest as [|t rest IH]; intros pre Hpre Hrest; [reflexivity|].
  assert (Hrest' : forall d k, lookup R d = Some k ->
                               forallb (arg_ok d) rest = true).
  { intros d k Hd. specialize (Hrest d k Hd). cbn [forallb] in Hrest.
    apply andb_true_iff in Hrest. tauto. }
  assert (Ht : forall d k, lookup R d = Some k -> arg_ok d t = true).
  { intros d k Hd. specialize (Hrest d k Hd). cbn [forallb] in Hrest.
    apply andb_true_iff in Hrest. tauto. }
  assert (Step : forall t',
            (forall d k, lookup R d = Some k -> clean d t' = true) ->
            replace_ids (enc_reps R) (ids_of rest)
                        (render t0 ++ tail_str (pre ++ t' :: rest))
            = Done (render t0
                    ++ tail_str (pre ++ t' :: map (rename R) rest))).
  { intros t' Ht'.
    replace (pre ++ t' :: rest) with ((pre ++ [t']) ++ rest)
      by (rewrite <- app_assoc; reflexivity).
    replace (pre ++ t' :: map (rename R) rest)
      with ((pre ++ [t']) ++ map (rename R) rest)
      by (rewrite <- app_assoc; reflexivity).
    apply IH; [|exact Hrest'].
    intros d k Hd. rewrite forallb_app, (Hpre d k Hd). simpl.
    rewrite (Ht' d k Hd). reflexivity. }
  destruct t as [n|w].
  - unfold ids_of. cbn [filter is_id map render replace_ids].
    change ("%"%char :: n) with (percent n). rewrite lookup_enc_reps.
    cbn [rename]. destruct (lookup R n) as [k|] eqn:En; cbn [option_map].
    + destruct (Hdom n k En) as [Hn Hn0].
      replace (render t0 ++ tail_str (pre ++ Ident n :: rest))
        with ((render t0 ++ tail_str pre ++ [" "%char])
              ++ percent n ++ tail_str rest).
      2:{ rewrite tail_str_app, tail_str_cons. cbn [render]. unfold percent.
          rewrite <- !app_assoc. reflexivity. }
      rewrite replaceId_at;
        [| apply find0_first_token; [exact Hn | exact Hn0 | exact (Hpre n k En)]
         | apply gap_tail_str].
      replace ((render t0 ++ tail_str pre ++ [" "%char])
               ++ percent k ++ tail_str rest)
        with (render t0 ++ tail_str (pre ++ Ident k :: rest)).
      2:{ rewrite tail_str_app, tail_str_cons. cbn [render]. unfold percent.
          rewrite <- !app_assoc. reflexivity. }
      apply Step. intros d k' Hd. exact (Hran d k' n k Hd En).
    + apply Step. intros d k Hd. apply arg_ok_clean; [exact (Ht d k Hd)|].
      apply str_eqb_neq. intros ->. congruence.
  - unfold ids_of. cbn [filter is_id rename].
    apply Step. intros d k Hd. apply arg_ok_word_clean. exact (Ht d k Hd).
Qed.

(** ** Reading the identifiers of a line *)

Lemma find_after X pat z :
  find pat (X ++ z) (length X)
  = option_map (fun n => length X + n) (find0 pat z).
Proof.
  unfold find. rewrite skipn_exact.
  replace (length (X ++ z) <? length X) with false; [reflexivity|].
  symmetry. apply Nat.ltb_ge. rewrite length_app. lia.
Qed.

Lemma take_until_token stop n y :
  Forall (fun c => stop c = false) n ->
  (y = [] \/ exists c y', y = c :: y' /\ stop c = true) ->
  take_until stop (n ++ y) = n.
Proof.
  intros Hn Hy. induction Hn as [|c n Hc _ IH].
  - destruct Hy as [->|[c [y' [-> Hc]]]]; simpl; [reflexivity|].
    rewrite Hc. reflexivity.
  - simpl. rewrite Hc, IH. reflexivity.
Qed.

Lemma plain_no_space n :
  forallb plain n = true -> Forall (fun c => isspace c = false) n.
Proof.
  intros H. rewrite forallb_forall in H. apply Forall_forall.
  intros c Hc. apply H, plain_facts in Hc. tauto.
Qed.

Lemma gap_stops y :
  gap y -> y = [] \/ exists c y', y = c :: y' /\ isspace c = true.
Proof.
  intros [->|[y' ->]]; [left; reflexivity | right].
  eexists _, _. split; reflexivity.
Qed.

(** [GetFirstId] just before the next identifier token. *)
Lemma GetFirstId_token X u n y :
  Forall (fun c => c <> "%"%char) u -> forallb plain n = true -> gap y ->
  GetFirstId (X ++ u ++ ("%"%char :: n) ++ y) (length X)
  = Some ("%"%char :: n, length (X ++ u ++ "%"%char :: n)).
Proof.
  intros Hu Hn Hy. unfold GetFirstId.
  rewrite find_after, find0_skip_chars by exact Hu.
  replace (find0 ["%"%char] (("%"%char :: n) ++ y)) with (Some 0)
    by reflexivity.
  cbn [option_map]. cbv zeta.
  replace (skipn (S (length X + (length u + 0))) (X ++ u ++ ("%"%char :: n) ++ y))
    with (n ++ y).
  2:{ replace (S (length X + (length u + 0)))
        with (length (X ++ u ++ ["%"%char]))
        by (rewrite !length_app; simpl; lia).
      replace (X ++ u ++ ("%"%char :: n) ++ y)
        with ((X ++ u ++ ["%"%char]) ++ n ++ y)
        by (rewrite <- !app_assoc; reflexivity).
      rewrite skipn_exact. reflexivity. }
  rewrite take_until_token;
    [|apply plain_no_space, Hn | apply gap_stops, Hy].
  do 2 f_equal. rewrite !length_app. simpl. lia.
Qed.

(** The loop of [getIdentifiers] finds the identifier tokens in order. *)
Lemma identifiers_loop_tokens :
  forall ts fuel X u,
    Forall (fun c => c <> "%"%char) u -> forallb token_ok ts = true ->
    length ts < fuel ->
    identifiers_loop fuel (X ++ u ++ tail_str ts) (length X) = ids_of ts.
Proof.
  induction ts as [|t ts IH]; intros fuel X u Hu Hts Hfuel.
  - destruct fuel as [|fuel]; [simpl in Hfuel; lia|].
    cbn [identifiers_loop]. unfold GetFirstId.
    rewrite find_after. cbn [tail_str map concat]. rewrite app_nil_r.
    rewrite <- (app_nil_r u), find0_skip_chars by exact Hu.
    reflexivity.
  - cbn [forallb] in Hts. apply andb_true_iff in Hts. destruct Hts as [Ht Hts].
    destruct t as [n|w].
    + destruct fuel as [|fuel]; [simpl in Hfuel; lia|].
      cbn [identifiers_loop]. rewrite tail_str_cons. cbn [render].
      replace (X ++ u ++ " "%char :: ("%"%char :: n) ++ tail_str ts)
        with (X ++ (u ++ [" "%char]) ++ ("%"%char :: n) ++ tail_str ts)
        by (rewrite <- !app_assoc; reflexivity).
      rewrite GetFirstId_token;
        [| apply Forall_app; split; [exact Hu | repeat constructor; discriminate]
         | exact Ht | apply gap_tail_str].
      unfold ids_of. cbn [filter is_id map render]. f_equal.
      replace (X ++ (u ++ [" "%char]) ++ ("%"%char :: n) ++ tail_str ts)
        with ((X ++ (u ++ [" "%char]) ++ "%"%char :: n) ++ [] ++ tail_str ts)
        by (rewrite <- !app_assoc; reflexivity).
      apply IH; [constructor | exact Hts | simpl in Hfuel; lia].
    + rewrite tail_str_cons. cbn [render].
      replace (X ++ u ++ " "%char :: w ++ tail_str ts)
        with (X ++ (u ++ " "%char :: w) ++ tail_str ts)
        by (rewrite <- !app_assoc; reflexivity).
      unfold ids_of. cbn [filter is_id].
      apply IH; [| exact Hts | simpl in Hfuel; lia].
      apply Forall_app. split; [exact Hu|]. constructor; [discriminate|].
      cbn [token_ok] in Ht. apply andb_true_iff in Ht.
      apply plain_no_percent, Ht.
Qed.

(** ** Reading an assignment-form line *)

Lemma render_line_tokens l :
  render_line l
  = render (Ident (lhs l))
    ++ tail_str ([Word ["="%char]; Word (op l)] ++ args l).
Proof.
  unfold render_line, rhs_text. rewrite tail_str_app.
  cbn [render tail_str map concat app lit list_ascii_of_string].
  rewrite <- !app_assoc. reflexivity.
Qed.

(** Every character of a token list is a blank, a [%] or plain. *)
Lemma tail_str_chars (P : ascii -> Prop) ts :
  P " "%char -> P "%"%char -> (forall c, plain c = true -> P c) ->
  forallb token_ok ts = true -> Forall P (tail_str ts).
Proof.
  intros Hsp Hpc Hpl. induction ts as [|t ts IH]; intros Hts; [constructor|].
  cbn [forallb] in Hts. apply andb_true_iff in Hts. destruct Hts as [Ht Hts].
  rewrite tail_str_cons. constructor; [exact Hsp|].
  apply Forall_app. split; [|exact (IH Hts)].
  assert (Hw : forall w, forallb plain w = true -> Forall P w).
  { intros w Hw. rewrite forallb_forall in Hw. apply Forall_forall.
    intros c Hc. apply Hpl, Hw, Hc. }
  destruct t as [n|w]; cbn [render token_ok] in *.
  - constructor; [exact Hpc | apply Hw, Ht].
  - apply andb_true_iff in Ht. apply Hw, Ht.
Qed.

Lemma rhs_chars (P : ascii -> Prop) l :
  P " "%char -> P "%"%char -> (forall c, plain c = true -> P c) ->
  forallb plain (op l) = true -> forallb token_ok (args l) = true ->
  Forall P (rhs_text l).
Proof.
  intros Hsp Hpc Hpl Hop Hargs. unfold rhs_text. apply Forall_app. split.
  - rewrite forallb_forall in Hop. apply Forall_forall.
    intros c Hc. apply Hpl, Hop, Hc.
  - apply tail_str_chars; assumption.
Qed.

Lemma tail_str_length ts : length ts <= length (tail_str ts).
Proof.
  induction ts as [|t ts IH]; [simpl; lia|].
  rewrite tail_str_cons. cbn [length]. rewrite length_app. simpl in *. lia.
Qed.

(** The right-hand side text has no white space at either end. *)
Lemma words_trimmed o ts :
  str_eqb o [] = false -> forallb plain o = true ->
  forallb token_ok ts = true -> trimmed (o ++ tail_str ts).
Proof.
  intros Hne Hop Hargs. split.
  - intros y t' E. destruct o as [|c o]; [discriminate|].
    cbn [app] in E. inversion E; subst y.
    cbn [forallb] in Hop. apply andb_true_iff in Hop.
    destruct Hop as [Hc _]. apply plain_facts in Hc. tauto.
  - intros t' x E.
    assert (Hlast : forall w r, Forall (fun c => isspace c = false) w ->
                                w <> [] -> r ++ w = t' ++ [x] ->
                                isspace x = false).
    { intros w r Hw Hn Ew. destruct (exists_last Hn) as [w' [z ->]].
      rewrite app_assoc in Ew. apply app_inj_tail in Ew. destruct Ew as [_ <-].
      apply Forall_app in Hw. destruct Hw as [_ Hz]. inversion Hz; assumption. }
    destruct ts as [|t0 ts0 _] using rev_ind.
    + cbn [tail_str map concat] in E. rewrite app_nil_r in E.
      apply (Hlast o []); [apply plain_no_space, Hop | | exact E].
      intros Eo. rewrite Eo in Hne. discriminate.
    + rewrite forallb_app in Hargs.
      apply andb_true_iff in Hargs. destruct Hargs as [_ Ht].
      cbn [forallb] in Ht. rewrite andb_true_r in Ht.
      rewrite tail_str_app, tail_str_cons in E.
      cbn [tail_str map concat] in E. rewrite app_nil_r in E.
      apply (Hlast (render t0) (o ++ tail_str ts0 ++ [" "%char])).
      * destruct t0 as [n|w]; cbn [render token_ok] in *.
        -- constructor; [reflexivity | apply plain_no_space, Ht].
        -- apply andb_true_iff in Ht. apply plain_no_space, Ht.
      * destruct t0 as [n|w]; cbn [render token_ok] in *; [discriminate|].
        apply andb_true_iff in Ht. destruct Ht as [Ht _].
        intros Ew. rewrite Ew in Ht. discriminate.
      * rewrite <- E. rewrite <- !app_assoc. reflexivity.
Qed.

Section Line.

Variable l : assignment.
Hypothesis lhs_plain : forallb plain (lhs l) = true.
Hypothesis op_nonempty : str_eqb (op l) [] = false.
Hypothesis op_plain : forallb plain (op l) = true.
Hypothesis args_ok : forallb token_ok (args l) = true.

Lemma line_contains_eq : contains (render_line l) ["="%char] = true.
Proof.
  apply contains_occurs.
  exists ("%"%char :: lhs l ++ [" "%char]), (" "%char :: rhs_text l).
  unfold render_line. cbn. rewrite <- !app_assoc. reflexivity.
Qed.

Lemma line_contains_rhs pat :
  contains (rhs_text l) pat = true -> contains (render_line l) pat = true.
Proof.
  rewrite !contains_occurs. intros [x [y E]].
  exists (("%"%char :: lhs l ++ lit " = ") ++ x), y.
  unfold render_line. rewrite E. cbn. rewrite <- !app_assoc. reflexivity.
Qed.

Lemma line_getRHS : getRHS (render_line l) = Some (rhs_text l).
Proof.
  unfold getRHS. rewrite find_from_0.
  replace (render_line l)
    with (("%"%char :: lhs l ++ [" "%char]) ++ "="%char :: " "%char :: rhs_text l)
    by (unfold render_line; cbn; rewrite <- !app_assoc; reflexivity).
  rewrite find0_skip_chars.
  2:{ constructor; [discriminate|]. apply Forall_app. split.
      - pose proof lhs_plain as H. rewrite forallb_forall in H.
        apply Forall_forall. intros c Hc. apply H, plain_facts in Hc. tauto.
      - repeat constructor. discriminate. }
  replace (find0 ["="%char] ("="%char :: " "%char :: rhs_text l)) with (Some 0)
    by reflexivity.
  cbn [option_map]. rewrite Nat.add_0_r.
  replace (S (length ("%"%char :: lhs l ++ [" "%char])))
    with (length (("%"%char :: lhs l ++ [" "%char]) ++ ["="%char]))
    by (rewrite length_app; simpl; lia).
  replace (("%"%char :: lhs l ++ [" "%char]) ++ "="%char :: " "%char :: rhs_text l)
    with ((("%"%char :: lhs l ++ [" "%char]) ++ ["="%char])
          ++ " "%char :: rhs_text l)
    by (rewrite <- !app_assoc; reflexivity).
  rewrite skipn_exact.
  rewrite <- (app_nil_r (" "%char :: rhs_text l)).
  rewrite take_until_token; [| |left; reflexivity].
  2:{ constructor; [reflexivity|].
      apply rhs_chars; try assumption; try reflexivity.
      intros c Hc. apply plain_facts in Hc.
      destruct (Ascii.eqb_spec c NUL); [tauto | reflexivity]. }
  f_equal. unfold trim. cbn [ltrim].
  replace (isspace " "%char) with true by reflexivity.
  change (rtrim (ltrim (rhs_text l))) with (trim (rhs_text l)).
  rewrite <- (app_nil_r (rhs_text l)) at 1.
  apply trim_trimmed_spaces; [|constructor].
  apply words_trimmed; assumption.
Qed.

Lemma line_getRHSIdentifiers :
  getRHSIdentifiers (render_line l) = ids_of (args l).
Proof.
  unfold getRHSIdentifiers. rewrite line_getRHS.
  apply (identifiers_loop_tokens (args l) _ [] (op l)).
  - apply plain_no_percent, op_plain.
  - exact args_ok.
  - unfold rhs_text. rewrite length_app.
    pose proof (tail_str_length (args l)). lia.
Qed.

Lemma line_getLHSIdentifier :
  getLHSIdentifier (render_line l) = Some ("%"%char :: lhs l).
Proof.
  unfold getLHSIdentifier. rewrite line_contains_eq.
  pose proof (GetFirstId_token [] [] (lhs l) (lit " = " ++ rhs_text l)) as H.
  cbn [app length] in H. unfold render_line.
  rewrite H; [reflexivity | constructor | exact lhs_plain |].
  right. eexists. reflexivity.
Qed.

Lemma line_getIdentifiers :
  getIdentifiers (render_line l) 0 = ("%"%char :: lhs l) :: ids_of (args l).
Proof.
  unfold getIdentifiers. cbn [identifiers_loop].
  pose proof (GetFirstId_token [] [] (lhs l) (lit " = " ++ rhs_text l)) as H.
  cbn [app length] in H. unfold render_line at 1.
  rewrite H; [| constructor | exact lhs_plain | right; eexists; reflexivity].
  f_equal.
  replace (render_line l)
    with (("%"%char :: lhs l) ++ (lit " = " ++ op l) ++ tail_str (args l))
    by (unfold render_line, rhs_text; cbn; rewrite <- ?app_assoc; reflexivity).
  apply identifiers_loop_tokens.
  - apply Forall_app. split; [repeat constructor; discriminate|].
    apply plain_no_percent, op_plain.
  - exact args_ok.
  - rewrite !length_app. pose proof (tail_str_length (args l)). simpl. lia.
Qed.

Lemma line_hasCode : hasCode (render_line l) = true.
Proof.
  unfold hasCode, trim, render_line. rewrite ltrim_stop by reflexivity.
  destruct (rtrim_keeps_head (lhs l ++ lit " = " ++ rhs_text l) "%"%char [])
    as [t' E]; [reflexivity|].
  rewrite app_nil_r in E. rewrite E. reflexivity.
Qed.

End Line.

(** ** The pass on a module read as tokens *)

(** A module whose discarded identifier is used by a line without [=]. *)
Definition stored_use : LinkerModule :=
  [ {| Kind := BK_TypeAndConst;
       Lines := [lit "%c1 = OpConstant %uint 0"; lit "%c2 = OpConstant %uint 0"] |};
    {| Kind := BK_Function; Lines := [lit "OpStore %p %c2"] |} ].

Lemma replace_ids_nil ids line : replace_ids [] ids line = Done line.
Proof. induction ids as [|i ids IH]; [reflexivity | exact IH]. Qed.

(** ** The two maps along a run *)

Lemma lookup_insert m k v k' :
  lookup (insert m k v) k'
  = match lookup m k with
    | Some _ => lookup m k'
    | None => if str_eqb k k' then Some v else lookup m k'
    end.
Proof. unfold insert. destruct (lookup m k); reflexivity. Qed.

Lemma lookup_In m k v : lookup m k = Some v -> In (k, v) m.
Proof.
  induction m as [|[k0 v0] m IH]; [discriminate|].
  cbn [lookup]. destruct (str_eqb k0 k) eqn:E.
  - intros H. inversion H; subst. apply str_eqb_eq in E. subst. left. reflexivity.
  - intros H. right. exact (IH H).
Qed.

Lemma mem_In x xs : mem x xs = true <-> In x xs.
Proof.
  unfold mem. rewrite existsb_exists. split.
  - intros [y [Hy E]]. apply str_eqb_eq in E. subst. exact Hy.
  - intros H. exists x. split; [exact H | apply str_eqb_refl].
Qed.

Lemma defined_once_NoDup xs : defined_once xs = true -> NoDup xs.
Proof.
  induction xs as [|x xs IH]; [constructor|].
  cbn [defined_once]. intros H. apply andb_true_iff in H. destruct H as [Hx Hxs].
  constructor; [|exact (IH Hxs)].
  intros Hin. apply mem_In in Hin. rewrite Hin in Hx. discriminate.
Qed.

Lemma lhss_app ps qs : lhss (ps ++ qs) = lhss ps ++ lhss qs.
Proof. unfold lhss. apply flat_map_app. Qed.

Lemma all_names_app ps qs : all_names (ps ++ qs) = all_names ps ++ all_names qs.
Proof. unfold all_names. apply flat_map_app. Qed.

Lemma trun_app st ps qs : trun st (ps ++ qs) = trun (trun st ps) qs.
Proof. unfold trun. apply fold_left_app. Qed.

Lemma reps_step_mono st p d k :
  lookup (reps st) d = Some k -> lookup (reps (tfuse_line st p)) d = Some k.
Proof.
  intros H. destruct p as [l|s]; [|exact H]. cbn [tfuse_line].
  destruct (is_declaration _); [|exact H].
  destruct (lookup (defs st) _) as [k0|]; [|exact H].
  cbn [reps]. rewrite lookup_insert.
  destruct (lookup (reps st) (lhs l)) eqn:E; [exact H|].
  destruct (str_eqb (lhs l) d) eqn:Ed; [|exact H].
  apply str_eqb_eq in Ed. subst d. congruence.
Qed.

Lemma defs_step_mono st p key k :
  lookup (defs st) key = Some k -> lookup (defs (tfuse_line st p)) key = Some k.
Proof.
  intros H. destruct p as [l|s]; [|exact H]. cbn [tfuse_line].
  destruct (is_declaration _); [|exact H].
  destruct (lookup (defs st) (rhs_text _)) as [k0|] eqn:E; [exact H|].
  cbn [defs]. rewrite lookup_insert, E.
  destruct (str_eqb _ key) eqn:Ed; [|exact H].
  apply str_eqb_eq in Ed. subst key. congruence.
Qed.

Lemma reps_mono ps : forall st d k,
  lookup (reps st) d = Some k -> lookup (reps (trun st ps)) d = Some k.
Proof.
  induction ps as [|p ps IH]; intros st d k H; [exact H|].
  cbn [trun fold_left]. apply IH, reps_step_mono, H.
Qed.

Lemma defs_mono ps : forall st key k,
  lookup (defs st) key = Some k -> lookup (defs (trun st ps)) key = Some k.
Proof.
  induction ps as [|p ps IH]; intros st key k H; [exact H|].
  cbn [trun fold_left]. apply IH, defs_step_mono, H.
Qed.

(** A name enters [reps] only as the left-hand side of the line at hand. *)
Lemma reps_step_dom st p d k :
  lookup (reps (tfuse_line st p)) d = Some k ->
  lookup (reps st) d = Some k \/ In d (lhss [p]).
Proof.
  destruct p as [l|s]; [|left; assumption]. cbn [tfuse_line].
  destruct (is_declaration _); [|left; assumption].
  destruct (lookup (defs st) _) as [k0|]; [|left; assumption].
  cbn [reps]. rewrite lookup_insert.
  destruct (lookup (reps st) (lhs l)) eqn:E; [left; assumption|].
  destruct (str_eqb (lhs l) d) eqn:Ed; [|left; assumption].
  apply str_eqb_eq in Ed. subst d. intros _. right. left. reflexivity.
Qed.

Lemma reps_dom ps : forall st d k,
  lookup (reps (trun st ps)) d = Some k ->
  lookup (reps st) d = Some k \/ In d (lhss ps).
Proof.
  induction ps as [|p ps IH]; intros st d k H; [left; exact H|].
  cbn [trun fold_left] in H. apply IH in H. destruct H as [H|H].
  - apply reps_step_dom in H. destruct H as [H|H]; [left; exact H|].
    right. change (p :: ps) with ([p] ++ ps). rewrite lhss_app.
    apply in_or_app. left. exact H.
  - right. change (p :: ps) with ([p] ++ ps). rewrite lhss_app.
    apply in_or_app. right. exact H.
Qed.

(** Discarded and kept names are names the lines seen so far define, and no
    kept name is discarded. *)
Definition separate (st : tmaps) (seen : list str) : Prop :=
  (forall d k, lookup (reps st) d = Some k ->
               In d seen /\ In k seen /\ lookup (reps st) k = None) /\
  (forall key k, lookup (defs st) key = Some k ->
                 In k seen /\ lookup (reps st) k = None).

Lemma separate_step st seen p :
  separate st seen ->
  (forall x, In x (lhss [p]) -> ~ In x seen) ->
  separate (tfuse_line st p) (seen ++ lhss [p]).
Proof.
  intros [Hr Hd] Hnew.
  assert (Weak : separate st (seen ++ lhss [p])).
  { split.
    - intros d k H. destruct (Hr d k H) as [H1 [H2 H3]].
      repeat split; try assumption; apply in_or_app; left; assumption.
    - intros key k H. destruct (Hd key k H) as [H1 H2].
      split; [apply in_or_app; left|]; assumption. }
  destruct p as [l|s]; [|exact Weak]. cbn [tfuse_line].
  destruct (is_declaration _); [|exact Weak].
  assert (Hl : ~ In (lhs l) seen) by (apply Hnew; left; reflexivity).
  assert (Hfresh : lookup (reps st) (lhs l) = None).
  { destruct (lookup (reps st) (lhs l)) as [k|] eqn:E; [|reflexivity].
    exfalso. apply Hl. exact (proj1 (Hr _ _ E)). }
  destruct (lookup (defs st) (rhs_text _)) as [k0|] eqn:E.
  - destruct (Hd _ _ E) as [Hk0 Hk0'].
    assert (Hne : forall k, In k seen -> str_eqb (lhs l) k = false).
    { intros k Hk. apply str_eqb_neq. intros <-. contradiction. }
    split; cbn [reps defs].
    + intros d k. rewrite !lookup_insert, Hfresh.
      destruct (str_eqb (lhs l) d) eqn:Ed.
      * intros H. inversion H; subst k. apply str_eqb_eq in Ed. subst d.
        rewrite (Hne k0 Hk0).
        repeat split; try assumption.
        -- apply in_or_app. right. left. reflexivity.
        -- apply in_or_app. left. exact Hk0.
      * intros H. destruct (Hr d k H) as [H1 [H2 H3]].
        rewrite (Hne k H2).
        repeat split; try assumption; apply in_or_app; left; assumption.
    + intros key k H. destruct (Hd key k H) as [H1 H2].
      rewrite lookup_insert, Hfresh, (Hne k H1).
      split; [apply in_or_app; left|]; assumption.
  - split; cbn [reps defs].
    + exact (proj1 Weak).
    + intros key k. rewrite lookup_insert, E.
      destruct (str_eqb _ key).
      * intros H. inversion H; subst k. split; [|exact Hfresh].
        apply in_or_app. right. left. reflexivity.
      * exact (proj2 Weak key k).
Qed.

Lemma separate_run ps : forall st seen,
  separate st seen -> NoDup (seen ++ lhss ps) ->
  separate (trun st ps) (seen ++ lhss ps).
Proof.
  induction ps as [|p ps IH]; intros st seen Hs Hnd.
  - cbn [lhss flat_map]. rewrite app_nil_r. exact Hs.
  - change (p :: ps) with ([p] ++ ps) in *. rewrite lhss_app in *.
    rewrite app_assoc in *. cbn [trun fold_left app].
    apply IH; [|exact Hnd].
    apply separate_step; [exact Hs|].
    intros x Hx Hin. apply NoDup_app_remove_r in Hnd.
    clear -Hnd Hx Hin. induction seen as [|y seen IHs]; [destruct Hin|].
    cbn [app] in Hnd. inversion Hnd; subst.
    destruct Hin as [->|Hin].
    + apply H1. apply in_or_app. right. exact Hx.
    + exact (IHs H2 Hin).
Qed.

Lemma separate_start : separate no_tmaps [].
Proof. split; intros ? ? H; discriminate. Qed.

(** ** One line of the pass *)

Lemma rename_token_ok R ts :
  (forall d k, lookup R d = Some k -> forallb plain k = true) ->
  forallb token_ok ts = true ->
  forallb token_ok (map (rename R) ts) = true.
Proof.
  intros HR. induction ts as [|t ts IH]; [reflexivity|].
  cbn [forallb map]. intros H. apply andb_true_iff in H. destruct H as [Ht Hts].
  rewrite (IH Hts), andb_true_r.
  destruct t as [n|w]; cbn [rename]; [|exact Ht].
  destruct (lookup R n) as [k|] eqn:E; [exact (HR n k E) | exact Ht].
Qed.

Lemma wf_assign l :
  wf_line (Assign l) = true ->
  forallb plain (lhs l) = true /\ str_eqb (op l) [] = false /\
  forallb plain (op l) = true /\ forallb token_ok (args l) = true.
Proof.
  cbn [wf_line]. intros H.
  repeat (apply andb_true_iff in H; destruct H as [H ?]).
  repeat match goal with
         | X : negb _ = true |- _ => apply negb_true_iff in X
         end.
  repeat split; assumption.
Qed.

(** What [fuse_line] makes of an assignment-form line. *)
Definition out_line (st : tmaps) (l : assignment) : str :=
  let l' := rename_line (reps st) l in
  if is_declaration (render_line l') then
    match lookup (defs st) (rhs_text l') with
    | Some _ => empty_marker
    | None => render_line l'
    end
  else render_line l'.

Lemma fuse_line_assign st l :
  wf_line (Assign l) = true ->
  (forall d k, lookup (reps st) d = Some k ->
               forallb plain d = true /\ forallb plain k = true /\
               prefixb d (lhs l) = false /\
               forallb (arg_ok d) (args l) = true) ->
  (forall d k d' k', lookup (reps st) d = Some k ->
                     lookup (reps st) d' = Some k' -> prefixb d k' = false) ->
  fuse_line (enc st) (render_line l)
  = Done (enc (tfuse_line st (Assign l)), out_line st l).
Proof.
  intros Hwf Hdom Hran.
  destruct (wf_assign l Hwf) as (Hl & Hne & Hop & Hargs).
  unfold fuse_line. rewrite line_contains_eq. cbn [negb].
  rewrite line_getRHSIdentifiers by assumption.
  cbn [enc NameReps TypesAndConstDefs]. rewrite render_line_tokens.
  rewrite replace_ids_rename.
  - rewrite bind_Done.
    change (render (Ident (lhs l))
            ++ tail_str ([Word ["="%char]; Word (op l)]
                         ++ map (rename (reps st)) (args l)))
      with (render (Ident (lhs (rename_line (reps st) l)))
            ++ tail_str ([Word ["="%char]; Word (op (rename_line (reps st) l))]
                         ++ args (rename_line (reps st) l))).
    rewrite <- render_line_tokens.
    unfold out_line. cbv zeta. cbn [tfuse_line].
    change (contains (render_line (rename_line (reps st) l)) OpType
            || contains (render_line (rename_line (reps st) l)) OpConstant)
      with (is_declaration (render_line (rename_line (reps st) l))).
    destruct (is_declaration (render_line (rename_line (reps st) l)));
      [|reflexivity].
    assert (Hargs' : forallb token_ok (args (rename_line (reps st) l)) = true).
    { cbn [rename_line args]. apply rename_token_ok; [|exact Hargs].
      intros d k Hd. exact (proj1 (proj2 (Hdom d k Hd))). }
    rewrite line_getLHSIdentifier by assumption.
    rewrite line_getRHS by assumption.
    rewrite lookup_enc_defs.
    destruct (lookup (defs st) (rhs_text (rename_line (reps st) l))) as [k|];
      cbn [option_map].
    + cbn [lhs rename_line]. change ("%"%char :: lhs l) with (percent (lhs l)).
      rewrite insert_enc_reps. reflexivity.
    + cbn [lhs rename_line]. change ("%"%char :: lhs l) with (percent (lhs l)).
      rewrite insert_enc_defs. reflexivity.
  - intros d k Hd. destruct (Hdom d k Hd) as (Hpd & _ & Hpre & _).
    split; [exact Hpd|]. cbn [clean]. rewrite Hl, Hpre. reflexivity.
  - intros d k d' k' Hd Hd'. cbn [clean].
    rewrite (proj1 (proj2 (Hdom d' k' Hd'))), (Hran d k d' k' Hd Hd').
    reflexivity.
  - intros d k Hd. cbn [forallb clean]. rewrite !andb_true_r.
    replace (negb (Ascii.eqb "="%char "%"%char)) with true by reflexivity.
    cbn [andb].
    pose proof (plain_no_percent _ Hop) as Hp.
    apply forallb_forall. intros c Hc. rewrite Forall_forall in Hp.
    apply negb_true_iff. destruct (Ascii.eqb_spec c "%"%char); [|reflexivity].
    exfalso. exact (Hp c Hc e).
  - intros d k Hd. exact (proj2 (proj2 (proj2 (Hdom d k Hd)))).
Qed.

Lemma fuse_line_other st s :
  wf_line (Other s) = true ->
  fuse_line (enc st) s = Done (enc (tfuse_line st (Other s)), s).
Proof.
  cbn [wf_line tfuse_line]. intros H. unfold fuse_line. rewrite H. reflexivity.
Qed.

(** ** The pass on the lines of a module *)

Definition final_reps (ps : list pline) : StringMap := reps (trun no_tmaps ps).

Lemma In_lhss l ps : In (Assign l) ps -> In (lhs l) (lhss ps).
Proof.
  intros H. unfold lhss. apply in_flat_map. exists (Assign l).
  split; [exact H | left; reflexivity].
Qed.

Lemma lhss_In x ps : In x (lhss ps) -> exists l, In (Assign l) ps /\ lhs l = x.
Proof.
  unfold lhss. intros H. apply in_flat_map in H. destruct H as [p [Hp Hx]].
  destruct p as [l|s]; [|destruct Hx].
  destruct Hx as [<-|[]]. exists l. split; [exact Hp | reflexivity].
Qed.

Lemma In_arg_names n l : In (Ident n) (args l) <-> In n (arg_names l).
Proof.
  unfold arg_names. rewrite in_flat_map. split.
  - intros H. exists (Ident n). split; [exact H | left; reflexivity].
  - intros [t [Ht Hn]]. destruct t as [m|w]; [|destruct Hn].
    destruct Hn as [<-|[]]. exact Ht.
Qed.

Lemma In_all_names l ps :
  In (Assign l) ps ->
  In (lhs l) (all_names ps) /\
  forall n, In n (arg_names l) -> In n (all_names ps).
Proof.
  intros H. unfold all_names. split.
  - apply in_flat_map. exists (Assign l). split; [exact H | left; reflexivity].
  - intros n Hn. apply in_flat_map. exists (Assign l).
    split; [exact H | right; exact Hn].
Qed.

Lemma defined_before_use_at R before : forall l after,
  defined_before_use R (before ++ Assign l :: after) = true ->
  forall n k, In n (arg_names l) -> lookup R n = Some k ->
              ~ In n (lhss (Assign l :: after)).
Proof.
  induction before as [|p before IH]; intros l after H n k Hn Hk.
  - cbn [app defined_before_use] in H. apply andb_true_iff in H.
    destruct H as [H _]. rewrite forallb_forall in H. specialize (H n Hn).
    rewrite Hk in H.
    apply negb_true_iff in H. intros Hin. apply mem_In in Hin. congruence.
  - cbn [app defined_before_use] in H. apply andb_true_iff in H.
    destruct H as [_ H]. exact (IH l after H n k Hn Hk).
Qed.

Lemma trun_snoc st ps p : trun st (ps ++ [p]) = tfuse_line (trun st ps) p.
Proof. rewrite trun_app. reflexivity. Qed.

Section Run.

Variable all : list pline.
Hypothesis all_wf : forallb wf_line all = true.
Hypothesis all_once : NoDup (lhss all).
Hypothesis all_before_use : defined_before_use (final_reps all) all = true.
Hypothesis all_apart : none_extends (final_reps all) all = true.

Lemma line_wf p : In p all -> wf_line p = true.
Proof. intros H. rewrite forallb_forall in all_wf. exact (all_wf p H). Qed.

Lemma defined_plain x : In x (lhss all) -> forallb plain x = true.
Proof.
  intros H. apply lhss_In in H. destruct H as [l [Hl <-]].
  exact (proj1 (wf_assign l (line_wf _ Hl))).
Qed.

Lemma final_apart d k n :
  lookup (final_reps all) d = Some k -> In n (all_names all) ->
  apart d n = true.
Proof.
  intros Hd Hn. unfold none_extends in all_apart.
  rewrite forallb_forall in all_apart.
  specialize (all_apart (d, k) (lookup_In _ _ _ Hd)). cbn [fst] in all_apart.
  rewrite forallb_forall in all_apart. exact (all_apart n Hn).
Qed.

Lemma before_separate before rest :
  all = before ++ rest -> separate (trun no_tmaps before) (lhss before).
Proof.
  intros E. apply (separate_run before no_tmaps []); [exact separate_start|].
  cbn [app]. rewrite E, lhss_app in all_once.
  exact (NoDup_app_remove_r _ _ all_once).
Qed.

Lemma before_final before rest d k :
  all = before ++ rest ->
  lookup (reps (trun no_tmaps before)) d = Some k ->
  lookup (final_reps all) d = Some k.
Proof.
  intros E H. unfold final_reps. rewrite E, trun_app. apply reps_mono, H.
Qed.

Lemma line_fresh before l after :
  all = before ++ Assign l :: after ->
  ~ In (lhs l) (lhss before) /\ ~ In (lhs l) (lhss after).
Proof.
  intros E. rewrite E in all_once.
  change (Assign l :: after) with ([Assign l] ++ after) in all_once.
  rewrite !lhss_app in all_once. cbn [lhss flat_map app] in all_once.
  apply NoDup_remove_2 in all_once.
  split; intros H; apply all_once, in_or_app; [left | right]; exact H.
Qed.

(** The names a line uses are renamed as the finished pass renames them. *)
Lemma line_lookup before l after n :
  all = before ++ Assign l :: after -> In n (arg_names l) ->
  lookup (reps (trun no_tmaps before)) n = lookup (final_reps all) n.
Proof.
  intros E Hn.
  destruct (lookup (final_reps all) n) as [k|] eqn:Ef.
  - assert (Hlater : ~ In n (lhss (Assign l :: after))).
    { apply (defined_before_use_at (final_reps all) before l after) with (k := k);
        [|exact Hn | exact Ef].
      rewrite <- E. exact all_before_use. }
    unfold final_reps in Ef. rewrite E, trun_app in Ef.
    apply reps_dom in Ef. destruct Ef as [Ef|Ef]; [exact Ef | contradiction].
  - destruct (lookup (reps (trun no_tmaps before)) n) as [k|] eqn:Eb;
      [|reflexivity].
    rewrite (before_final before _ n k E Eb) in Ef. discriminate.
Qed.

Lemma line_rename before l after :
  all = before ++ Assign l :: after ->
  rename_line (reps (trun no_tmaps before)) l = rename_line (final_reps all) l.
Proof.
  intros E. unfold rename_line. f_equal. apply map_ext_in.
  intros t Ht. destruct t as [n|w]; [|reflexivity]. cbn [rename].
  rewrite (line_lookup before l after n E); [reflexivity|].
  apply In_arg_names. exact Ht.
Qed.

(** One step of the code on a line of the module. *)
Lemma step_line before p after :
  all = before ++ p :: after ->
  fuse_line (enc (trun no_tmaps before)) (render_pline p)
  = Done (enc (trun no_tmaps (before ++ [p])), fused_line (final_reps all) p).
Proof.
  intros E. rewrite trun_snoc.
  assert (Hp : In p all) by (rewrite E; apply in_or_app; right; left; reflexivity).
  pose proof (line_wf p Hp) as Hwf.
  destruct p as [l|s]; [|exact (fuse_line_other _ s Hwf)].
  cbn [render_pline fused_line].
  pose proof (before_separate before _ E) as [Sr Sd].
  destruct (line_fresh before l after E) as [Fb Fa].
  destruct (In_all_names l all Hp) as [Nl Na].
  set (st := trun no_tmaps before) in *.
  assert (Hfresh : lookup (reps st) (lhs l) = None).
  { destruct (lookup (reps st) (lhs l)) as [k|] eqn:Ek; [|reflexivity].
    exfalso. apply Fb. exact (proj1 (Sr _ _ Ek)). }
  assert (Hsub : forall x, In x (lhss before) -> In x (all_names all)).
  { intros x Hx. apply lhss_In in Hx. destruct Hx as [z [Hz <-]].
    apply In_all_names. rewrite E. apply in_or_app. left. exact Hz. }
  assert (Hdef : forall x, In x (lhss before) -> forallb plain x = true).
  { intros x Hx. apply defined_plain. rewrite E, lhss_app.
    apply in_or_app. left. exact Hx. }
  assert (HR : rename_line (reps st) l = rename_line (final_reps all) l)
    by exact (line_rename before l after E).
  rewrite fuse_line_assign; [| exact Hwf | |].
  - f_equal. f_equal. unfold out_line. cbv zeta. rewrite HR.
    destruct (is_declaration (render_line (rename_line (final_reps all) l)))
      eqn:Ed.
    + destruct (lookup (defs st) (rhs_text (rename_line (final_reps all) l)))
        as [k0|] eqn:Ek.
      * (* blanked: the name is discarded from here on *)
        assert (Hin : lookup (final_reps all) (lhs l) = Some k0).
        { unfold final_reps. rewrite E.
          change (before ++ Assign l :: after)
            with (before ++ [Assign l] ++ after).
          rewrite app_assoc, trun_app. apply reps_mono.
          rewrite trun_snoc. fold st. cbn [tfuse_line].
          rewrite HR, Ed, Ek. cbn [reps].
          rewrite lookup_insert, Hfresh, str_eqb_refl. reflexivity. }
        rewrite Hin. reflexivity.
      * assert (Hout : lookup (final_reps all) (lhs l) = None).
        { destruct (lookup (final_reps all) (lhs l)) as [k|] eqn:Ef;
            [|reflexivity].
          exfalso. unfold final_reps in Ef. rewrite E in Ef.
          change (before ++ Assign l :: after)
            with (before ++ [Assign l] ++ after) in Ef.
          rewrite app_assoc, trun_app in Ef. apply reps_dom in Ef.
          destruct Ef as [Ef|Ef]; [|contradiction].
          rewrite trun_snoc in Ef. fold st in Ef. cbn [tfuse_line] in Ef.
          rewrite HR, Ed, Ek in Ef.
          cbn [reps] in Ef. congruence. }
        rewrite Hout. reflexivity.
    + assert (Hout : lookup (final_reps all) (lhs l) = None).
      { destruct (lookup (final_reps all) (lhs l)) as [k|] eqn:Ef;
          [|reflexivity].
        exfalso. unfold final_reps in Ef. rewrite E in Ef.
        change (before ++ Assign l :: after)
          with (before ++ [Assign l] ++ after) in Ef.
        rewrite app_assoc, trun_app in Ef. apply reps_dom in Ef.
        destruct Ef as [Ef|Ef]; [|contradiction].
        rewrite trun_snoc in Ef. fold st in Ef. cbn [tfuse_line] in Ef.
        rewrite HR, Ed in Ef. congruence. }
      rewrite Hout. reflexivity.
  - intros d k Hd. destruct (Sr d k Hd) as (Hdb & Hkb & _).
    pose proof (before_final before _ d k E Hd) as Hf.
    split; [exact (Hdef d Hdb)|]. split; [exact (Hdef k Hkb)|]. split.
    + pose proof (final_apart d k (lhs l) Hf Nl) as Ha. unfold apart in Ha.
      apply orb_true_iff in Ha. destruct Ha as [Ha|Ha].
      * apply str_eqb_eq in Ha. exfalso. apply Fb. rewrite Ha. exact Hdb.
      * apply negb_true_iff in Ha. exact Ha.
    + apply forallb_forall. intros t Ht. unfold arg_ok.
      destruct (wf_assign l Hwf) as (_ & _ & _ & Hargs).
      rewrite forallb_forall in Hargs. rewrite (Hargs t Ht). cbn [andb].
      destruct t as [n|w]; [|reflexivity].
      apply (final_apart d k n Hf). apply Na, In_arg_names, Ht.
  - intros d k d' k' Hd Hd'.
    destruct (Sr d k Hd) as (Hdb & _ & _).
    destruct (Sr d' k' Hd') as (_ & Hkb & Hk').
    pose proof (before_final before _ d k E Hd) as Hf.
    pose proof (final_apart d k k' Hf (Hsub k' Hkb)) as Ha. unfold apart in Ha.
    apply orb_true_iff in Ha. destruct Ha as [Ha|Ha].
    + apply str_eqb_eq in Ha. subst k'. congruence.
    + apply negb_true_iff in Ha. exact Ha.
Qed.

Lemma run_lines seg : forall before after,
  all = before ++ seg ++ after ->
  fuse_lines (enc (trun no_tmaps before)) (map render_pline seg)
  = Done (enc (trun no_tmaps (before ++ seg)),
          map (fused_line (final_reps all)) seg).
Proof.
  induction seg as [|p seg IH]; intros before after E.
  - rewrite app_nil_r. reflexivity.
  - cbn [map fuse_lines].
    rewrite (step_line before p (seg ++ after) E), bind_Done. cbn [fst snd].
    rewrite (IH (before ++ [p]) after), bind_Done.
    + cbn [fst snd]. rewrite <- app_assoc. reflexivity.
    + rewrite E, <- app_assoc. reflexivity.
Qed.

Lemma run_blocks blocks : forall before,
  all = before ++ plines blocks ->
  fuse_blocks (enc (trun no_tmaps before)) (render_module blocks)
  = Done (enc (trun no_tmaps all), fused_blocks (final_reps all) blocks).
Proof.
  induction blocks as [|b blocks IH]; intros before E.
  - cbn [plines map concat] in E. rewrite app_nil_r in E. subst before.
    reflexivity.
  - cbn [render_module map fuse_blocks Lines Kind].
    change (plines (b :: blocks)) with (pLines b ++ plines blocks) in E.
    rewrite (run_lines (pLines b) before (plines blocks) E), bind_Done.
    cbn [fst snd].
    change (map (fun b0 => {| Kind := pKind b0;
                              Lines := map render_pline (pLines b0) |}) blocks)
      with (render_module blocks).
    rewrite (IH (before ++ pLines b)), bind_Done.
    + reflexivity.
    + rewrite E, <- app_assoc. reflexivity.
Qed.


(** The finished pass has kept discarded and kept names separate. *)
Lemma final_separate : separate (trun no_tmaps all) (lhss all).
Proof. apply (before_separate all []). rewrite app_nil_r. reflexivity. Qed.

Lemma final_kept key k :
  lookup (defs (trun no_tmaps all)) key = Some k ->
  lookup (final_reps all) k = None.
Proof. intros H. exact (proj2 (proj2 final_separate key k H)). Qed.

Lemma final_plain d k :
  lookup (final_reps all) d = Some k -> forallb plain k = true.
Proof.
  intros H. apply defined_plain. exact (proj1 (proj2 (proj1 final_separate d k H))).
Qed.

(** Every recorded right-hand side is that of a line seen, as the finished
    pass renames it, and is recorded for the name that line defines. *)
Lemma defs_origin before : forall rest,
  all = before ++ rest ->
  forall key k,
    lookup (defs (trun no_tmaps before)) key = Some k ->
    exists Z, In (Assign Z) before /\ lhs Z = k /\
              key = rhs_text (rename_line (final_reps all) Z).
Proof.
  induction before as [|p before IH] using rev_ind; intros rest E key k H.
  - discriminate.
  - rewrite <- app_assoc in E. cbn [app] in E.
    assert (Old : lookup (defs (trun no_tmaps before)) key = Some k ->
                  exists Z, In (Assign Z) (before ++ [p]) /\ lhs Z = k /\
                            key = rhs_text (rename_line (final_reps all) Z)).
    { intros Hk. destruct (IH _ E key k Hk) as [Z [HZ HZ']].
      exists Z. split; [apply in_or_app; left; exact HZ | exact HZ']. }
    rewrite trun_snoc in H. destruct p as [l|s]; [|exact (Old H)].
    cbn [tfuse_line] in H. rewrite (line_rename before l rest E) in H.
    destruct (is_declaration _); [|exact (Old H)].
    destruct (lookup (defs (trun no_tmaps before))
                     (rhs_text (rename_line (final_reps all) l))) eqn:Ek;
      [exact (Old H)|].
    cbn [defs] in H. rewrite lookup_insert, Ek in H.
    destruct (str_eqb _ key) eqn:Ekey; [|exact (Old H)].
    apply str_eqb_eq in Ekey. inversion H; subst k.
    exists l. split; [apply in_or_app; right; left; reflexivity|].
    split; [reflexivity | symmetry; exact Ekey].
Qed.

(** Two declarations that the finished pass renames to the same right-hand
    side: the later one is discarded for the name kept for that right-hand
    side, which is the earlier one's unless that was itself discarded for an
    earlier line. *)
Lemma pair_fused pre A mid B post :
  all = pre ++ Assign A :: mid ++ Assign B :: post ->
  rhs_text (rename_line (final_reps all) B)
  = rhs_text (rename_line (final_reps all) A) ->
  is_declaration (render_line (rename_line (final_reps all) A)) = true ->
  is_declaration (render_line (rename_line (final_reps all) B)) = true ->
  exists Z,
    In (Assign Z) (pre ++ [Assign A]) /\
    lookup (final_reps all) (lhs Z) = None /\
    rhs_text (rename_line (final_reps all) Z)
    = rhs_text (rename_line (final_reps all) A) /\
    (Z = A \/ lookup (final_reps all) (lhs A) = Some (lhs Z)) /\
    ((forall Y, In (Assign Y) pre ->
                rhs_text (rename_line (final_reps all) Y)
                <> rhs_text (rename_line (final_reps all) A)) -> Z = A) /\
    lookup (final_reps all) (lhs B) = Some (lhs Z).
Proof.
  intros E HAB DA DB.
  set (key := rhs_text (rename_line (final_reps all) A)) in *.
  set (sA := trun no_tmaps pre).
  assert (RA : rename_line (reps sA) A = rename_line (final_reps all) A)
    by exact (line_rename pre A _ E).
  assert (E' : all = (pre ++ Assign A :: mid) ++ Assign B :: post)
    by (rewrite E, <- app_assoc; reflexivity).
  set (sB := trun no_tmaps (pre ++ Assign A :: mid)).
  assert (RB : rename_line (reps sB) B = rename_line (final_reps all) B)
    by exact (line_rename _ B _ E').
  assert (SA1 : trun no_tmaps (pre ++ [Assign A]) = tfuse_line sA (Assign A))
    by apply trun_snoc.
  assert (SBA : sB = trun (trun no_tmaps (pre ++ [Assign A])) mid).
  { unfold sB. change (Assign A :: mid) with ([Assign A] ++ mid).
    rewrite app_assoc, trun_app. reflexivity. }
  (* the second line is discarded for whatever name is recorded *)
  assert (Second : forall z,
             lookup (defs (trun no_tmaps (pre ++ [Assign A]))) key = Some z ->
             lookup (final_reps all) (lhs B) = Some z).
  { intros z Hz.
    assert (HzB : lookup (defs sB) key = Some z)
      by (rewrite SBA; apply defs_mono, Hz).
    destruct (line_fresh _ B post E') as [Fb _].
    pose proof (before_separate _ _ E') as [Sr _]. fold sB in Sr.
    assert (Hfresh : lookup (reps sB) (lhs B) = None).
    { destruct (lookup (reps sB) (lhs B)) as [k|] eqn:Ek; [|reflexivity].
      exfalso. apply Fb. exact (proj1 (Sr _ _ Ek)). }
    unfold final_reps. rewrite E'.
    change (Assign B :: post) with ([Assign B] ++ post).
    rewrite app_assoc, trun_app. apply reps_mono.
    rewrite trun_snoc. fold sB. cbn [tfuse_line].
    rewrite RB, DB, HAB, HzB. cbn [reps].
    rewrite lookup_insert, Hfresh, str_eqb_refl. reflexivity. }
  assert (Kept : forall z,
             lookup (defs (trun no_tmaps (pre ++ [Assign A]))) key = Some z ->
             lookup (final_reps all) z = None).
  { intros z Hz. apply (final_kept key).
    rewrite E. change (Assign A :: mid ++ Assign B :: post)
      with ([Assign A] ++ mid ++ Assign B :: post).
    rewrite app_assoc, trun_app. apply defs_mono, Hz. }
  destruct (lookup (defs sA) key) as [k0|] eqn:Ek.
  - (* the first line duplicates an earlier one *)
    destruct (defs_origin pre _ E key k0 Ek) as [Y [HY [HYk HYr]]].
    assert (H1 : lookup (defs (trun no_tmaps (pre ++ [Assign A]))) key = Some k0).
    { rewrite SA1. cbn [tfuse_line]. rewrite RA, DA. fold key. rewrite Ek.
      exact Ek. }
    destruct (line_fresh pre A _ E) as [Fb _].
    pose proof (before_separate pre _ E) as [Sr _]. fold sA in Sr.
    assert (Hfresh : lookup (reps sA) (lhs A) = None).
    { destruct (lookup (reps sA) (lhs A)) as [k|] eqn:Ek'; [|reflexivity].
      exfalso. apply Fb. exact (proj1 (Sr _ _ Ek')). }
    assert (HA : lookup (final_reps all) (lhs A) = Some k0).
    { unfold final_reps. rewrite E.
      change (Assign A :: mid ++ Assign B :: post)
        with ([Assign A] ++ mid ++ Assign B :: post).
      rewrite app_assoc, trun_app. apply reps_mono.
      rewrite SA1. cbn [tfuse_line]. rewrite RA, DA. fold key. rewrite Ek.
      cbn [reps]. rewrite lookup_insert, Hfresh, str_eqb_refl. reflexivity. }
    exists Y. subst k0.
    split; [apply in_or_app; left; exact HY|].
    split; [exact (Kept _ H1)|].
    split; [symmetry; exact HYr|].
    split; [right; exact HA|].
    split; [|exact (Second _ H1)].
    intros Hfirst. exfalso. apply (Hfirst Y HY). symmetry. exact HYr.
  - (* the first line is kept *)
    assert (H1 : lookup (defs (trun no_tmaps (pre ++ [Assign A]))) key
                 = Some (lhs A)).
    { rewrite SA1. cbn [tfuse_line]. rewrite RA, DA. fold key. rewrite Ek.
      cbn [defs]. rewrite lookup_insert, Ek, str_eqb_refl. reflexivity. }
    exists A.
    split; [apply in_or_app; right; left; reflexivity|].
    split; [exact (Kept _ H1)|].
    split; [reflexivity|].
    split; [left; reflexivity|].
    split; [intros _; reflexivity | exact (Second _ H1)].
Qed.

(** No assignment-form line of the result mentions a discarded name. *)
Lemma discarded_unmentioned b z p :
  lookup (final_reps all) b = Some z -> In p all ->
  contains (fused_line (final_reps all) p) ["="%char] = true ->
  ~ In (percent b) (getIdentifiers (fused_line (final_reps all) p) 0).
Proof.
  intros Hb Hp Heq. pose proof (line_wf p Hp) as Hwf.
  destruct p as [l|s]; cbn [fused_line] in *.
  2:{ cbn [wf_line] in Hwf. rewrite Heq in Hwf. discriminate. }
  destruct (lookup (final_reps all) (lhs l)) as [k|] eqn:El;
    [discriminate Heq|].
  destruct (wf_assign l Hwf) as (Hl & Hne & Hop & Hargs).
  rewrite line_getIdentifiers;
    [| exact Hl | exact Hop
     | cbn [rename_line args]; apply rename_token_ok;
       [exact final_plain | exact Hargs] ].
  cbn [lhs rename_line args]. intros [Hin|Hin].
  - inversion Hin; subst. congruence.
  - unfold ids_of in Hin. apply in_map_iff in Hin.
    destruct Hin as [t [Ht Hin]]. apply filter_In in Hin.
    destruct Hin as [Hin Hid]. apply in_map_iff in Hin.
    destruct Hin as [t0 [Hr _]]. subst t.
    destruct t0 as [n|w]; cbn [rename] in Ht, Hid; [|discriminate Hid].
    destruct (lookup (final_reps all) n) as [k|] eqn:En;
      cbn [render] in Ht; inversion Ht; subst.
    + pose proof (proj2 (proj2 (proj1 final_separate n b En))) as Hk.
      unfold final_reps in Hb. congruence.
    + congruence.
Qed.

End Run.

(** ** Right-hand sides as text *)

Lemma split_at_gap (u1 u2 y1 y2 : str) :
  Forall (fun c => isspace c = false) u1 ->
  Forall (fun c => isspace c = false) u2 ->
  gap y1 -> gap y2 -> u1 ++ y1 = u2 ++ y2 -> u1 = u2 /\ y1 = y2.
Proof.
  intros H1 H2 G1 G2 E.
  assert (Eu : u1 = u2).
  { rewrite <- (take_until_token isspace u1 y1 H1 (gap_stops y1 G1)).
    rewrite <- (take_until_token isspace u2 y2 H2 (gap_stops y2 G2)).
    rewrite E. reflexivity. }
  subst u2. split; [reflexivity|]. exact (app_inv_head _ _ _ E).
Qed.

Lemma render_no_blank t :
  token_ok t = true -> Forall (fun c => isspace c = false) (render t).
Proof.
  destruct t as [n|w]; cbn [token_ok render]; intros H.
  - constructor; [reflexivity | apply plain_no_space, H].
  - apply andb_true_iff in H. apply plain_no_space, H.
Qed.

Lemma render_inj t1 t2 :
  token_ok t1 = true -> token_ok t2 = true -> render t1 = render t2 -> t1 = t2.
Proof.
  assert (Hw : forall n w, token_ok (Word w) = true -> "%"%char :: n <> w).
  { intros n w H E. subst w. cbn [token_ok forallb] in H.
    rewrite andb_true_iff in H. destruct H as [_ H]. discriminate H. }
  destruct t1 as [n1|w1], t2 as [n2|w2]; cbn [render]; intros H1 H2 E.
  - inversion E. reflexivity.
  - exfalso. exact (Hw n1 w2 H2 E).
  - exfalso. exact (Hw n2 w1 H1 (eq_sym E)).
  - subst. reflexivity.
Qed.

Lemma tail_str_inj ts1 : forall ts2,
  forallb token_ok ts1 = true -> forallb token_ok ts2 = true ->
  tail_str ts1 = tail_str ts2 -> ts1 = ts2.
Proof.
  induction ts1 as [|t1 ts1 IH]; intros [|t2 ts2] H1 H2 E;
    try reflexivity; try discriminate.
  cbn [forallb] in H1, H2.
  apply andb_true_iff in H1. apply andb_true_iff in H2.
  destruct H1 as [Ht1 H1], H2 as [Ht2 H2].
  rewrite !tail_str_cons in E. inversion E as [E'].
  destruct (split_at_gap _ _ _ _ (render_no_blank t1 Ht1)
                         (render_no_blank t2 Ht2)
                         (gap_tail_str ts1) (gap_tail_str ts2) E')
    as [Er Et].
  f_equal; [exact (render_inj t1 t2 Ht1 Ht2 Er) | exact (IH ts2 H1 H2 Et)].
Qed.

(** Lines with the same right-hand side text have the same opcode and the
    same arguments. *)
Lemma rhs_text_inj A B :
  wf_line (Assign A) = true -> wf_line (Assign B) = true ->
  rhs_text A = rhs_text B -> op A = op B /\ args A = args B.
Proof.
  intros HA HB E.
  destruct (wf_assign A HA) as (_ & _ & HopA & HargsA).
  destruct (wf_assign B HB) as (_ & _ & HopB & HargsB).
  unfold rhs_text in E.
  destruct (split_at_gap _ _ _ _ (plain_no_space _ HopA) (plain_no_space _ HopB)
                         (gap_tail_str _) (gap_tail_str _) E) as [Eo Et].
  split; [exact Eo | exact (tail_str_inj _ _ HargsA HargsB Et)].
Qed.

(** A line with a declaring opcode is taken for a declaration, however its
    arguments are renamed. *)
Lemma declares_line R l :
  declares l = true -> is_declaration (render_line (rename_line R l)) = true.
Proof.
  assert (H : forall pat, contains (op l) pat = true ->
                          contains (render_line (rename_line R l)) pat = true).
  { intros pat Hc. apply contains_occurs in Hc. destruct Hc as [a [b E]].
    apply contains_occurs.
    exists (("%"%char :: lhs l ++ lit " = ") ++ a),
           (b ++ tail_str (map (rename R) (args l))).
    unfold render_line, rhs_text. cbn [lhs op args rename_line].
    rewrite E. cbn. rewrite <- !app_assoc. reflexivity. }
  unfold declares, is_declaration. intros Hd.
  apply orb_true_iff in Hd. apply orb_true_iff.
  destruct Hd as [Hd|Hd]; [left | right]; exact (H _ Hd).
Qed.

(** ** The lines of the result *)

Lemma module_lines_cons b LM :
  module_lines (b :: LM) = Lines b ++ module_lines LM.
Proof. reflexivity. Qed.

Lemma fused_lines_of R pm :
  module_lines (fused_blocks R pm) = map (fused_line R) (plines pm).
Proof.
  induction pm as [|b pm IH]; [reflexivity|].
  cbn [fused_blocks map]. rewrite module_lines_cons. cbn [Lines].
  change (plines (b :: pm)) with (pLines b ++ plines pm).
  rewrite map_app. f_equal. exact IH.
Qed.

Lemma removeNonCode_sub LM line :
  In line (module_lines (removeNonCode LM)) -> In line (module_lines LM).
Proof.
  unfold removeNonCode. induction LM as [|b LM IH]; [intros []|].
  cbn [map filter]. rewrite module_lines_cons.
  destruct (Block_hasCode _).
  - rewrite module_lines_cons. intros H. apply in_app_or in H.
    apply in_or_app. destruct H as [H|H]; [left | right; exact (IH H)].
    destruct (isHeader b); [exact H|].
    cbn [removeNonCodeLines Lines] in H. apply filter_In in H. tauto.
  - intros H. apply in_or_app. right. exact (IH H).
Qed.

Lemma removeNonCode_keeps LM line :
  In line (module_lines LM) -> hasCode line = true ->
  In line (module_lines (removeNonCode LM)).
Proof.
  intros Hin Hcode. unfold removeNonCode.
  induction LM as [|b LM IH]; [destruct Hin|].
  rewrite module_lines_cons in Hin. cbn [map filter].
  apply in_app_or in Hin. destruct Hin as [Hin|Hin].
  - assert (Hb : In line (Lines (if isHeader b then b else removeNonCodeLines b))).
    { destruct (isHeader b); [exact Hin|].
      cbn [removeNonCodeLines Lines]. apply filter_In. tauto. }
    assert (Hc : Block_hasCode (if isHeader b then b else removeNonCodeLines b)
                 = true).
    { unfold Block_hasCode. apply existsb_exists. exists line. tauto. }
    rewrite Hc, module_lines_cons. apply in_or_app. left. exact Hb.
  - destruct (Block_hasCode _); [rewrite module_lines_cons; apply in_or_app; right|];
      exact (IH Hin).
Qed.

Lemma module_ok_facts pm :
  module_ok pm = true ->
  forallb wf_line (plines pm) = true /\ NoDup (lhss (plines pm)) /\
  defined_before_use (final_reps (plines pm)) (plines pm) = true /\
  none_extends (final_reps (plines pm)) (plines pm) = true.
Proof.
  unfold module_ok. intros H.
  repeat (apply andb_true_iff in H; destruct H as [H ?]).
  repeat split; try assumption. apply defined_once_NoDup. assumption.
Qed.



(** A module that declares the integer type twice and a pointer type for
    each of the two, and uses the second of each. *)
Definition uint_decl : assignment :=
  {| lhs := lit "uint"; op := lit "OpTypeInt";
     args := [Word (lit "32"); Word (lit "0")] |}.

Definition rs_uint_decl : assignment :=
  {| lhs := lit "rs_uint"; op := lit "OpTypeInt";
     args := [Word (lit "32"); Word (lit "0")] |}.

Definition ptr_decl : assignment :=
  {| lhs := lit "ptr"; op := lit "OpTypePointer";
     args := [Word (lit "Function"); Ident (lit "uint")] |}.

Definition rs_ptr_decl : assignment :=
  {| lhs := lit "rs_ptr"; op := lit "OpTypePointer";
     args := [Word (lit "Function"); Ident (lit "rs_uint")] |}.

Definition var_use : assignment :=
  {| lhs := lit "v"; op := lit "OpVariable";
     args := [Ident (lit "rs_ptr"); Word (lit "Function")] |}.

Definition int_use : assignment :=
  {| lhs := lit "x"; op := lit "OpIAdd";
     args := [Ident (lit "rs_uint"); Ident (lit "p"); Ident (lit "q")] |}.

Definition two_uints : list pblock :=
  [ {| pKind := BK_TypeAndConst;
       pLines := [Assign uint_decl; Assign rs_uint_decl;
                  Assign ptr_decl; Assign rs_ptr_decl] |};
    {| pKind := BK_Function;
       pLines := [Assign var_use; Assign int_use; Other (lit "OpReturn")] |} ].


(** Why the theorem asks that no name goes on from a discarded one:
    [replaceId] looks only once past an occurrence that is followed by more
    characters.  Here [%c2] is discarded; in the later line the search for it
    passes [%c21], rewrites the beginning of [%c22] and leaves [%c2]
    itself. *)
Remark extended_name_is_rewritten_instead :
  FuseTypesAndConstants
    [ {| Kind := BK_TypeAndConst;
         Lines := [lit "%c1 = OpConstant %uint 0";
                   lit "%c2 = OpConstant %uint 0"] |};
      {| Kind := BK_Function; Lines := [lit "%x = OpIAdd %c21 %c22 %c2"] |} ]
  = Done ([ {| Kind := BK_TypeAndConst;
               Lines := [lit "%c1 = OpConstant %uint 0"] |};
            {| Kind := BK_Function;
               Lines := [lit "%x = OpIAdd %c21 %c12 %c2"] |} ],
          true).
Proof. vm_compute. reflexivity. Qed.

(** Why it asks that a name is used only after the line that defines it: a
    use in an earlier line has been passed when the name is discarded. *)
Remark earlier_use_is_not_rewritten :
  FuseTypesAndConstants
    [ {| Kind := BK_TypeAndConst;
         Lines := [lit "%p = OpTypePointer Function %c2";
                   lit "%c1 = OpTypeInt 32 0";
                   lit "%c2 = OpTypeInt 32 0"] |} ]
  = Done ([ {| Kind := BK_TypeAndConst;
               Lines := [lit "%p = OpTypePointer Function %c2";
                         lit "%c1 = OpTypeInt 32 0"] |} ],
          true).
Proof. vm_compute. reflexivity. Qed.

End Fusion.

(* ====================================================================== *)
(** * frameworks/rs/rsov/compiler/LinkerModule.cpp: editing and reading
      lines *)
(* ====================================================================== *)

Module LineEdits.

Import SpirvLine Fusion.
Local Open Scope nat_scope.

(** [find0] returns the position of the first occurrence. *)
Lemma find0_first pat :
  forall s n, find0 pat s = Some n ->
              forall a b, s = a ++ pat ++ b -> n <= length a.
Proof.
  induction s as [|c s IH]; intros n H a b Hs.
  - simpl in H. destruct (prefixb pat []); inversion H. lia.
  - cbn [find0] in H. destruct (prefixb pat (c :: s)) eqn:E.
    + inversion H. lia.
    + destruct (find0 pat s) as [m|] eqn:Em; [|discriminate].
      inversion H; subst n. destruct a as [|d a].
      * simpl in Hs. rewrite Hs, prefixb_app in E. discriminate.
      * inversion Hs; subst. simpl.
        pose proof (IH m eq_refl a b eq_refl). lia.
Qed.

(** [find] from a position inside the string. *)
Lemma find_Some pat s from p :
  find pat s from = Some p ->
  exists a b, s = a ++ pat ++ b /\ length a = p /\ from <= p.
Proof.
  unfold find. destruct (Nat.ltb_spec (length s) from) as [|Hle]; [discriminate|].
  destruct (find0 pat (skipn from s)) as [n|] eqn:E; [|discriminate].
  intros H. inversion H; subst p.
  destruct (find0_Some _ _ _ E) as [a [b [Hs Hl]]].
  exists (firstn from s ++ a), b. split; [|split].
  - rewrite <- app_assoc, <- Hs. symmetry. apply firstn_skipn.
  - rewrite length_app, length_firstn. lia.
  - lia.
Qed.

(** [SPIRVLine::replaceStr] either finds no occurrence of [original],
    returns [false] and leaves the line as it is, or returns [true] having
    replaced the first occurrence and nothing else. *)
Theorem replaceStr_replaces_first_occurrence s original new :
  match replaceStr s original new with
  | (s', true) =>
      exists a b, s = a ++ original ++ b /\ s' = a ++ new ++ b /\
                  forall a' b', s = a' ++ original ++ b' -> length a <= length a'
  | (s', false) => s' = s /\ ~ occurs original s
  end.
Proof.
  unfold replaceStr. rewrite find_from_0.
  destruct (find0 original s) as [n|] eqn:E.
  - destruct (find0_Some _ _ _ E) as [a [b [Hs Hl]]].
    exists a, b. split; [exact Hs|]. split.
    + unfold replace_at. subst n. rewrite Hs.
      rewrite firstn_exact, (app_assoc a original b), <- length_app, skipn_exact.
      reflexivity.
    + intros a' b' Hs'. rewrite Hl. exact (find0_first _ _ _ E a' b' Hs').
  - split; [reflexivity | exact (find0_None _ _ E)].
Qed.

Lemma replace_at_occurrence a pat b new :
  replace_at (a ++ pat ++ b) (length a) (length pat) new = a ++ new ++ b.
Proof.
  unfold replace_at.
  rewrite firstn_exact, (app_assoc a pat b), <- length_app, skipn_exact.
  reflexivity.
Qed.

(** [SPIRVLine::replaceId] either returns [false] and leaves the line as it
    is, or returns [true] having replaced exactly one occurrence of
    [original]; in particular it returns [false] whenever [original] does
    not occur. *)
Theorem replaceId_replaces_one_occurrence s original new :
  match replaceId s original new with
  | (s', true) => exists a b, s = a ++ original ++ b /\ s' = a ++ new ++ b
  | (s', false) => s' = s
  end
  /\ (~ occurs original s -> replaceId s original new = (s, false)).
Proof.
  split.
  - unfold replaceId.
    destruct (find original s 0) as [pos|] eqn:E; [|reflexivity]. cbv zeta.
    destruct ((pos + length original <? length s)
              && negb (isspace (nth (pos + length original) s Ascii.zero))).
    + destruct (find original s (pos + length original)) as [pos'|] eqn:E';
        [|reflexivity].
      destruct (find_Some _ _ _ _ E') as [a [b [Hs [Hl _]]]].
      exists a, b. split; [exact Hs|]. subst pos'. rewrite Hs at 1.
      apply replace_at_occurrence.
    + destruct (find_Some _ _ _ _ E) as [a [b [Hs [Hl _]]]].
      exists a, b. split; [exact Hs|]. subst pos. rewrite Hs at 1.
      apply replace_at_occurrence.
  - intros Hno. unfold replaceId. rewrite find_from_0.
    destruct (find0 original s) as [n|] eqn:E; [|reflexivity].
    exfalso. destruct (find0_Some _ _ _ E) as [a [b [Hs _]]].
    apply Hno. exists a, b. exact Hs.
Qed.

(** Leading white space does not change what [trim] returns, nor does
    trailing white space. *)
Lemma trim_lead lead s :
  Forall (fun c => isspace c = true) lead -> trim (lead ++ s) = trim s.
Proof. intros H. unfold trim. rewrite ltrim_spaces by exact H. reflexivity. Qed.

Lemma trim_trail s trail :
  Forall (fun c => isspace c = true) trail -> trim (s ++ trail) = trim s.
Proof.
  intros H. destruct (trim_split s) as [l0 [t0 [Hs [Hl Ht]]]].
  pose proof (trim_trimmed s) as Htr.
  set (T := trim s) in *. clearbody T. subst s.
  rewrite <- !app_assoc, !trim_lead by exact Hl.
  rewrite !trim_trimmed_spaces; try assumption; [reflexivity|].
  apply Forall_app. split; assumption.
Qed.

(** [SPIRVLine::hasCode] holds exactly of the lines whose first character
    that is not white space exists and is not [;]. *)
Theorem hasCode_first_visible_character s :
  hasCode s = true <->
  exists lead c rest,
    s = lead ++ c :: rest /\ Forall (fun x => isspace x = true) lead /\
    isspace c = false /\ c <> ";"%char.
Proof.
  unfold hasCode. split.
  - destruct (trim s) as [|c t] eqn:E; [discriminate|]. intros H.
    destruct (trim_split s) as [lead [trail [Hs [Hl _]]]].
    exists lead, c, (t ++ trail). rewrite E in Hs.
    split; [exact Hs|].
    split; [exact Hl|]. split.
    + pose proof (trim_trimmed s) as [Hh _]. exact (Hh c t E).
    + apply negb_true_iff in H. intros ->. discriminate.
  - intros [lead [c [rest [Hs [Hl [Hc Hsemi]]]]]]. subst s.
    rewrite trim_lead by exact Hl. unfold trim.
    rewrite ltrim_stop by exact Hc.
    destruct (rtrim_keeps_head rest c [] Hc) as [t' E].
    rewrite app_nil_r in E. rewrite E. apply negb_true_iff.
    destruct (Ascii.eqb_spec c ";"%char); [contradiction | reflexivity].
Qed.

(** ** [Block::removeNonCodeLines], [LinkerModule::removeNonCode] *)

Lemma filter_all_true {A} (f : A -> bool) xs :
  Forall (fun x => f x = true) xs -> filter f xs = xs.
Proof.
  induction 1 as [|x xs Hx _ IH]; [reflexivity|].
  simpl. rewrite Hx, IH. reflexivity.
Qed.

Lemma filter_passes {A} (f : A -> bool) xs :
  Forall (fun x => f x = true) (filter f xs).
Proof.
  apply Forall_forall. intros x Hx. apply filter_In in Hx. tauto.
Qed.

(** The pass each block goes through in [removeNonCode]. *)
Definition strip (b : Block) : Block :=
  if isHeader b then b else removeNonCodeLines b.

Lemma strip_idempotent b : strip (strip b) = strip b.
Proof.
  unfold strip. destruct (isHeader b) eqn:E; [rewrite E; reflexivity|].
  unfold isHeader, removeNonCodeLines in *. cbn [Kind Lines]. rewrite E.
  rewrite filter_all_true by apply filter_passes. reflexivity.
Qed.

(** After [LinkerModule::removeNonCode] every block has code, and outside
    the header block every line has code. *)
Theorem removeNonCode_leaves_code_only LM :
  Forall (fun b =>
            Block_hasCode b = true /\
            (isHeader b = false ->
             Forall (fun l => hasCode l = true) (Lines b)))
         (removeNonCode LM).
Proof.
  apply Forall_forall. intros b Hb. unfold removeNonCode in Hb.
  apply filter_In in Hb. destruct Hb as [Hin Hcode].
  split; [exact Hcode|]. intros Hh.
  apply in_map_iff in Hin. destruct Hin as [b0 [Hb0 _]]. subst b.
  destruct (isHeader b0) eqn:E.
  - rewrite E in Hh. discriminate.
  - unfold removeNonCodeLines. cbn [Lines]. apply filter_passes.
Qed.

(** [LinkerModule::removeNonCode] is idempotent. *)
Theorem removeNonCode_idempotent LM :
  removeNonCode (removeNonCode LM) = removeNonCode LM.
Proof.
  unfold removeNonCode. fold strip.
  induction LM as [|b LM IH]; [reflexivity|].
  cbn [map filter]. destruct (Block_hasCode (strip b)) eqn:E.
  - cbn [map filter]. rewrite strip_idempotent, E. f_equal. exact IH.
  - exact IH.
Qed.

End LineEdits.

(* ====================================================================== *)
(** * frameworks/rs/rsov/compiler: identifiers of a line, fusion of modules
      without declarations *)
(* ====================================================================== *)

Module LineReading.

Import SpirvLine Fusion.
Local Open Scope nat_scope.
Local Open Scope outcome_scope.

(** [SPIRVLine::getLHSIdentifier] returns the first identifier found anywhere
    in the line, provided the line contains [=] somewhere, and nothing
    otherwise: it is the head of what [getIdentifiers] collects. *)
Theorem getLHSIdentifier_is_first_identifier line :
  getLHSIdentifier line
  = if contains line ["="%char] then hd_error (getIdentifiers line 0) else None.
Proof.
  unfold getLHSIdentifier, getIdentifiers. cbn [identifiers_loop].
  destruct (GetFirstId line 0) as [[id endPos]|].
  - destruct (contains line ["="%char]); reflexivity.
  - destruct (contains line ["="%char]); reflexivity.
Qed.

(** On an assignment-form line [%lhs = op args] made of blank-separated
    tokens, [getLHSIdentifier] is [%lhs], [getRHS] is the text behind the
    [=], and [getIdentifiers] is [%lhs] followed by what [getRHSIdentifiers]
    returns, the identifier tokens among the arguments in their order. *)
Theorem assignment_line_identifiers (l : assignment) :
  forallb plain (lhs l) = true ->
  str_eqb (op l) [] = false -> forallb plain (op l) = true ->
  forallb token_ok (args l) = true ->
  getLHSIdentifier (render_line l) = Some ("%"%char :: lhs l) /\
  getRHS (render_line l) = Some (rhs_text l) /\
  getRHSIdentifiers (render_line l) = ids_of (args l) /\
  getIdentifiers (render_line l) 0
  = ("%"%char :: lhs l) :: getRHSIdentifiers (render_line l).
Proof.
  intros Hl Hne Hop Hargs.
  rewrite line_getRHSIdentifiers by assumption.
  repeat split.
  - apply line_getLHSIdentifier. exact Hl.
  - apply line_getRHS; assumption.
  - apply line_getIdentifiers; assumption.
Qed.

(** The line [%x = OpTypeStruct %float %uint] of the unit tests. *)
Definition struct_line : assignment :=
  {| lhs := lit "x"; op := lit "OpTypeStruct";
     args := [Ident (lit "float"); Ident (lit "uint")] |}.

Lemma assignment_line_identifiers_witness :
  getLHSIdentifier (lit "%x = OpTypeStruct %float %uint") = Some (lit "%x") /\
  getRHS (lit "%x = OpTypeStruct %float %uint")
  = Some (lit "OpTypeStruct %float %uint") /\
  getRHSIdentifiers (lit "%x = OpTypeStruct %float %uint")
  = [lit "%float"; lit "%uint"] /\
  getIdentifiers (lit "%x = OpTypeStruct %float %uint") 0
  = lit "%x" :: getRHSIdentifiers (lit "%x = OpTypeStruct %float %uint").
Proof.
  apply (assignment_line_identifiers struct_line); reflexivity.
Defined.

(** ** Fusion of a module without type or constant declarations *)

Lemma fuse_line_no_declaration m line :
  NameReps m = [] -> is_declaration line = false ->
  fuse_line m line = Done (m, line).
Proof.
  intros Hm Hd. unfold fuse_line.
  destruct (contains line ["="%char]); [|reflexivity]. cbn [negb].
  rewrite Hm, replace_ids_nil, bind_Done.
  unfold is_declaration in Hd. rewrite Hd. reflexivity.
Qed.

Lemma fuse_lines_no_declaration m lines :
  NameReps m = [] ->
  forallb (fun l => negb (is_declaration l)) lines = true ->
  fuse_lines m lines = Done (m, lines).
Proof.
  intros Hm. induction lines as [|l lines IH]; [reflexivity|].
  cbn [forallb fuse_lines]. intros H.
  apply andb_true_iff in H. destruct H as [Hl Hrest].
  apply negb_true_iff in Hl.
  rewrite (fuse_line_no_declaration m l Hm Hl), bind_Done. cbn [fst snd].
  rewrite (IH Hrest), bind_Done. reflexivity.
Qed.

Lemma fuse_blocks_no_declaration m LM :
  NameReps m = [] ->
  forallb (fun l => negb (is_declaration l)) (module_lines LM) = true ->
  fuse_blocks m LM = Done (m, LM).
Proof.
  intros Hm. induction LM as [|b LM IH]; [reflexivity|].
  unfold module_lines. cbn [map concat fuse_blocks]. rewrite forallb_app.
  intros H. apply andb_true_iff in H. destruct H as [Hb Hrest].
  rewrite (fuse_lines_no_declaration m (Lines b) Hm Hb), bind_Done.
  cbn [fst snd]. rewrite (IH Hrest), bind_Done. cbn [fst snd].
  destruct b. reflexivity.
Qed.

(** On a module none of whose lines contains [OpType] or [OpConstant],
    [FuseTypesAndConstants] rewrites no line: it returns [true] and the
    module is what [removeNonCode] alone makes of it. *)
Theorem FuseTypesAndConstants_without_declarations LM :
  forallb (fun l => negb (is_declaration l)) (module_lines LM) = true ->
  FuseTypesAndConstants LM = Done (removeNonCode LM, true).
Proof.
  intros H. unfold FuseTypesAndConstants.
  rewrite (fuse_blocks_no_declaration no_maps LM eq_refl H), bind_Done.
  reflexivity.
Qed.

(** A function block with a comment line and a blank line. *)
Definition commented_function : LinkerModule :=
  [ {| Kind := BK_Function;
       Lines := [lit "%f = OpFunction %void None %fn"; lit "; a comment";
                 lit "%r = OpIAdd %uint %a %b"; lit "  ";
                 lit "OpReturn"; lit "OpFunctionEnd"] |} ].

Lemma FuseTypesAndConstants_without_declarations_witness :
  FuseTypesAndConstants commented_function
  = Done ([ {| Kind := BK_Function;
               Lines := [lit "%f = OpFunction %void None %fn";
                         lit "%r = OpIAdd %uint %a %b";
                         lit "OpReturn"; lit "OpFunctionEnd"] |} ], true).
Proof.
  apply (FuseTypesAndConstants_without_declarations commented_function).
  vm_compute. reflexivity.
Defined.

End LineReading.

(* ====================================================================== *)
(** * frameworks/rs/rsov/compiler/RSSPIRVWriter.cpp: renaming the kernel
      module in [Link], [FixModuleStorageClass] *)
(* ====================================================================== *)

Module KernelRenaming.

Import SpirvLine Fusion.
Local Open Scope nat_scope.

(** [const char *const Prefix = "%rs_linker_";] *)
Definition Prefix : str := lit "%rs_linker_".

(** The loop of [Link] over one line of the kernel module,
    [while ((Pos = L.str().find("%", Pos)) != npos)
       { L.str().replace(Pos, 1, Prefix); Pos += strlen(Prefix); }].
    Every iteration consumes one [%] of the original line, so [fuel] above
    its length is never used up. *)
Fixpoint prefix_loop (fuel : nat) (line : str) (Pos : nat) : str :=
  match fuel with
  | O => line
  | S fuel' =>
      match find ["%"%char] line Pos with
      | None => line
      | Some p => prefix_loop fuel' (replace_at line p 1 Prefix) (p + length Prefix)
      end
  end.

Definition prefix_line (line : str) : str :=
  prefix_loop (S (length line)) line 0.

(** The renaming over all lines of the kernel module. *)
Definition prefix_module (LM : LinkerModule) : LinkerModule :=
  map (fun b => {| Kind := Kind b; Lines := map prefix_line (Lines b) |}) LM.

(** What the renaming is meant to do to one character. *)
Definition prefixed (c : ascii) : str :=
  if Ascii.eqb c "%"%char then Prefix else [c].

(** ** Properties *)

Lemma find0_char c :
  forall s,
    match find0 [c] s with
    | Some k => exists u v, s = u ++ c :: v /\ length u = k /\
                            Forall (fun x => x <> c) u
    | None => Forall (fun x => x <> c) s
    end.
Proof.
  induction s as [|x s IH]; [constructor|].
  cbn [find0 prefixb]. destruct (Ascii.eqb_spec c x) as [E|Hne].
  - subst x. cbn [andb]. exists [], s. repeat split. constructor.
  - cbn [andb]. destruct (find0 [c] s) as [k|].
    + destruct IH as [u [v [Hs [Hl Hu]]]]. cbn [option_map].
      exists (x :: u), v. split; [rewrite Hs; reflexivity|].
      split; [simpl; lia|]. constructor; [congruence | exact Hu].
    + cbn [option_map]. constructor; [congruence | exact IH].
Qed.

Lemma flat_map_unprefixed u :
  Forall (fun x => x <> "%"%char) u -> flat_map prefixed u = u.
Proof.
  induction 1 as [|x u Hx _ IH]; [reflexivity|].
  cbn [flat_map]. unfold prefixed at 1.
  destruct (Ascii.eqb_spec x "%"%char); [contradiction|].
  cbn [app]. rewrite IH. reflexivity.
Qed.

Lemma prefix_loop_spec fuel :
  forall done rest,
    length rest < fuel ->
    prefix_loop fuel (done ++ rest) (length done) = done ++ flat_map prefixed rest.
Proof.
  induction fuel as [|fuel IH]; intros done rest Hfuel; [lia|].
  cbn [prefix_loop]. rewrite find_after.
  pose proof (find0_char "%"%char rest) as Hf.
  destruct (find0 ["%"%char] rest) as [k|]; cbn [option_map].
  - destruct Hf as [u [v [Hs [Hl Hu]]]]. subst rest k.
    replace (done ++ u ++ "%"%char :: v) with ((done ++ u) ++ ["%"%char] ++ v)
      by (rewrite <- app_assoc; reflexivity).
    rewrite <- length_app.
    change 1 with (length ["%"%char]) at 1.
    rewrite LineEdits.replace_at_occurrence.
    replace ((done ++ u) ++ Prefix ++ v) with (((done ++ u) ++ Prefix) ++ v)
      by (rewrite <- !app_assoc; reflexivity).
    rewrite <- length_app.
    rewrite IH by (rewrite length_app in Hfuel; simpl in Hfuel; lia).
    rewrite flat_map_app, (flat_map_unprefixed u Hu).
    cbn [flat_map]. unfold prefixed at 2. cbn [Ascii.eqb Bool.eqb].
    rewrite <- !app_assoc. reflexivity.
  - rewrite flat_map_unprefixed by exact Hf. reflexivity.
Qed.

(** The renaming loop of [Link] ends, and puts [%rs_linker_] in the place of
    every [%] of the line, leaving every other character where it was. *)
Theorem prefix_line_renames_every_identifier line :
  prefix_line line = flat_map prefixed line.
Proof.
  unfold prefix_line.
  exact (prefix_loop_spec (S (length line)) [] line (Nat.lt_succ_diag_r _)).
Qed.

(** ** [FixModuleStorageClass] *)

(** [while (L.contains(pat)) L.replaceStr(pat, new);] *)
Fixpoint replace_all (fuel : nat) (pat new s : str) : str :=
  match fuel with
  | O => s
  | S fuel' =>
      if contains s pat
      then replace_all fuel' pat new (fst (replaceStr s pat new))
      else s
  end.

(** The two loops of [FixModuleStorageClass] for one line.  Each replacement
    makes the line one character shorter, so [fuel] equal to its length is
    never used up. *)
Definition fix_storage_class (s : str) : str :=
  let s := replace_all (length s) (lit " Function") (lit " Uniform") s in
  replace_all (length s) (lit "_Function_") (lit "_Uniform_") s.

Definition FixModuleStorageClass (LM : LinkerModule) : LinkerModule :=
  map (fun b => {| Kind := Kind b; Lines := map fix_storage_class (Lines b) |}) LM.

Lemma replace_all_keeps (P : str -> Prop) pat new :
  (forall a b, P (a ++ pat ++ b) -> P (a ++ new ++ b)) ->
  forall fuel s, P s -> P (replace_all fuel pat new s).
Proof.
  intros Hstep. induction fuel as [|fuel IH]; intros s Hs; [exact Hs|].
  cbn [replace_all]. destruct (contains s pat) eqn:E; [|exact Hs].
  apply contains_occurs in E.
  destruct (replaceStr_occurs s pat new E) as [a [b [Hab Hrep]]].
  rewrite Hrep. cbn [fst]. apply IH, Hstep. rewrite <- Hab. exact Hs.
Qed.

(** With a replacement shorter than the pattern the loop ends with no
    occurrence left. *)
Lemma replace_all_clean pat new :
  length new < length pat ->
  forall fuel s, length s <= fuel -> ~ occurs pat (replace_all fuel pat new s).
Proof.
  intros Hshort. induction fuel as [|fuel IH]; intros s Hlen.
  - destruct s; [|inversion Hlen]. simpl. intros [a [b H]].
    apply (f_equal (@length ascii)) in H. rewrite !length_app in H.
    simpl in H. lia.
  - cbn [replace_all]. destruct (contains s pat) eqn:E.
    + apply contains_occurs in E.
      destruct (replaceStr_occurs s pat new E) as [a [b [Hab Hrep]]].
      rewrite Hrep. cbn [fst]. apply IH.
      rewrite Hab in Hlen. rewrite !length_app in *. lia.
    + apply contains_not_occurs. exact E.
Qed.

(** Putting [new] in the place of some text cannot create an occurrence of
    [p] when the first character of [p] is not in [new] and the first
    character of [new] is not in [p]. *)
Lemma replacement_creates_no_occurrence p0 p' n0 n' a old b :
  ~ In p0 (n0 :: n') -> ~ In n0 (p0 :: p') ->
  ~ occurs (p0 :: p') (a ++ old ++ b) ->
  ~ occurs (p0 :: p') (a ++ (n0 :: n') ++ b).
Proof.
  intros Hp Hn Hno [x [y H]]. apply Hno. clear Hno.
  apply app_eq_app in H. destruct H as [l [[Ha Hr]|[Hx Hr]]].
  - (* the occurrence starts inside [a] *)
    apply app_eq_app in Hr. destruct Hr as [l2 [[Hpl Hnb]|[Hl Hy]]].
    + destruct l2 as [|c l2].
      * rewrite app_nil_r in Hpl. subst.
        exists x, (old ++ b). rewrite <- !app_assoc. reflexivity.
      * exfalso. apply Hn. rewrite Hpl. apply in_or_app. right.
        inversion Hnb. left. reflexivity.
    + subst. exists x, (l2 ++ old ++ b). rewrite <- !app_assoc. reflexivity.
  - (* the occurrence starts behind [a] *)
    apply app_eq_app in Hr. destruct Hr as [l3 [[Hnl Hpy]|[Hl Hb]]].
    + destruct l3 as [|c l3].
      * simpl in Hpy. subst b.
        exists (a ++ old), y. rewrite <- !app_assoc. reflexivity.
      * exfalso. apply Hp. rewrite Hnl. apply in_or_app. right.
        inversion Hpy. left. reflexivity.
    + subst. exists (a ++ old ++ l3), y. rewrite <- !app_assoc. reflexivity.
Qed.

(** After [FixModuleStorageClass] no line of the module contains
    [" Function"] or ["_Function_"]. *)
Theorem FixModuleStorageClass_removes_Function LM :
  Forall (fun l => contains l (lit " Function") = false /\
                   contains l (lit "_Function_") = false)
         (module_lines (FixModuleStorageClass LM)).
Proof.
  assert (Hline : forall s,
             contains (fix_storage_class s) (lit " Function") = false /\
             contains (fix_storage_class s) (lit "_Function_") = false).
  { intros s. unfold fix_storage_class. split; apply contains_not_occurs.
    - apply (replace_all_keeps (fun t => ~ occurs (lit " Function") t)).
      + intros a b. apply replacement_creates_no_occurrence.
        * simpl. intuition discriminate.
        * simpl. intuition discriminate.
      + apply replace_all_clean; [simpl; lia | apply Nat.le_refl].
    - apply replace_all_clean; [simpl; lia | apply Nat.le_refl]. }
  apply Forall_forall. intros l Hl. unfold module_lines in Hl.
  apply in_concat in Hl. destruct Hl as [ls [Hls Hl]].
  apply in_map_iff in Hls. destruct Hls as [b [<- Hb]].
  unfold FixModuleStorageClass in Hb.
  apply in_map_iff in Hb. destruct Hb as [b0 [<- _]].
  cbn [Lines] in Hl. apply in_map_iff in Hl. destruct Hl as [s [<- _]].
  apply Hline.
Qed.

End KernelRenaming.

(* ====================================================================== *)
(** * frameworks/rs/rsov/compiler/RSSPIRVWriter.cpp:
      [TranslateInBoundsPtrAccessToAccess] *)
(* ====================================================================== *)

Module AccessChain.

Import SpirvLine Fusion.
Local Open Scope nat_scope.
Local Open Scope outcome_scope.

Definition OpInBoundsPtrAccessChain : str := lit "OpInBoundsPtrAccessChain".
Definition OpAccessChain : str := lit "OpAccessChain".

(** [SS >> word] on a [std::istringstream]: white space is skipped, then the
    characters up to the next white space are taken; the result is the word
    and what is left of the stream.  At the end of the stream the word is
    empty, as the strings of the source are when an extraction fails. *)
Definition next_word (s : str) : str * str :=
  let s' := ltrim s in
  let w := take_until isspace s' in
  (w, skipn (length w) s').

Definition ElementArgPosition : nat := 2.

(** [for (i = 0; i != e; ++i) if (i != ElementArgPosition)
      NewLine << Ids[i].str() << " ";] from index [i] on. *)
Fixpoint emit_ids (i : nat) (Ids : list str) : str :=
  match Ids with
  | [] => []
  | id :: rest =>
      (if i =? ElementArgPosition then [] else id ++ [" "%char])
      ++ emit_ids (S i) rest
  end.

(** [TranslateInBoundsPtrAccessToAccess(L)]: the line afterwards and the
    value returned. *)
Definition TranslateInBoundsPtrAccessToAccess (line : str) : outcome (str * bool) :=
  if negb (contains line (lit " OpInBoundsPtrAccessChain ")) then CheckFailed
  else
    let Ids := getRHSIdentifiers line in
    if length Ids <? 4 then Done (line, false)
    else
      let '(LHS, r) := next_word line in
      let '(Eq_, r) := next_word r in
      let '(Op, _) := next_word r in
      if str_eqb LHS [] || negb (str_eqb Eq_ (lit "="))
         || negb (str_eqb Op OpInBoundsPtrAccessChain)
      then Done (line, false)
      else
        Done (trim (LHS ++ lit " " ++ Eq_ ++ lit " OpAccessChain "
                    ++ emit_ids 0 Ids),
              true).

(** ** Properties *)

Lemma next_word_token w y :
  w <> [] -> Forall (fun c => isspace c = false) w -> gap y ->
  next_word (w ++ y) = (w, y).
Proof.
  intros Hne Hw Hy. unfold next_word.
  destruct w as [|c w]; [contradiction|].
  inversion Hw as [|? ? Hc Hw']; subst.
  cbn [app]. rewrite ltrim_stop by exact Hc.
  change (c :: w ++ y) with ((c :: w) ++ y).
  rewrite take_until_token; [| exact Hw | apply gap_stops, Hy].
  rewrite skipn_exact. reflexivity.
Qed.

Lemma next_word_blank s : next_word (" "%char :: s) = next_word s.
Proof. reflexivity. Qed.

Lemma emit_ids_behind i Ids :
  ElementArgPosition < i ->
  emit_ids i Ids = concat (map (fun id => id ++ [" "%char]) Ids).
Proof.
  revert i. induction Ids as [|id Ids IH]; intros i Hi; [reflexivity|].
  cbn [emit_ids map concat].
  destruct (Nat.eqb_spec i ElementArgPosition); [lia|].
  rewrite IH by lia. reflexivity.
Qed.

(** Blanks behind the words are blanks before them, moved by one word. *)
Lemma blanks_shift ts :
  " "%char :: concat (map (fun id => id ++ [" "%char]) (map render ts))
  = tail_str ts ++ [" "%char].
Proof.
  induction ts as [|t ts IH]; [reflexivity|].
  rewrite tail_str_cons. cbn [map concat app].
  rewrite <- !app_assoc. cbn [app]. rewrite IH. reflexivity.
Qed.

Lemma render_no_space t :
  token_ok t = true ->
  render t <> [] /\ Forall (fun c => isspace c = false) (render t).
Proof.
  destruct t as [n|w]; cbn [token_ok render]; intros H.
  - split; [discriminate|]. constructor; [reflexivity|].
    apply plain_no_space, H.
  - apply andb_true_iff in H. destruct H as [Hne Hw]. split.
    + intros ->. discriminate.
    + apply plain_no_space, Hw.
Qed.

(** A rendered assignment has no white space at either end. *)
Lemma render_line_trimmed l :
  str_eqb (op l) [] = false -> forallb plain (op l) = true ->
  forallb token_ok (args l) = true -> trimmed (render_line l).
Proof.
  intros Hne Hop Hargs.
  destruct (words_trimmed (op l) (args l) Hne Hop Hargs) as [_ Hlast].
  fold (rhs_text l) in Hlast. unfold render_line. split.
  - intros y t' E. inversion E. reflexivity.
  - intros t' x E.
    assert (Hrhs : rhs_text l <> []).
    { unfold rhs_text. destruct (op l); [discriminate|]. discriminate. }
    destruct (exists_last Hrhs) as [r' [z Hz]].
    apply (Hlast r' x). rewrite Hz in E |- *.
    change ("%"%char :: lhs l ++ lit " = " ++ r' ++ [z])
      with (("%"%char :: lhs l) ++ lit " = " ++ r' ++ [z]) in E.
    rewrite !app_assoc in E. apply app_inj_tail in E.
    destruct E as [_ ->]. reflexivity.
Qed.

Lemma filter_is_id_ok ts :
  forallb token_ok ts = true -> forallb token_ok (filter is_id ts) = true.
Proof.
  intros H. apply forallb_forall. intros t Ht.
  apply filter_In in Ht. rewrite forallb_forall in H. apply H, Ht.
Qed.

(** On a line [%lhs = OpInBoundsPtrAccessChain args] with at least four
    identifiers among its arguments, the translation returns [true] and the
    line becomes [%lhs = OpAccessChain] followed by those identifiers except
    the third, the element operand; arguments that are not identifiers are
    dropped. *)
Theorem TranslateInBoundsPtrAccessToAccess_drops_element
        (l : assignment) (t0 t1 t2 t3 : token) (more : list token) :
  forallb plain (lhs l) = true ->
  op l = OpInBoundsPtrAccessChain ->
  forallb token_ok (args l) = true ->
  filter is_id (args l) = t0 :: t1 :: t2 :: t3 :: more ->
  TranslateInBoundsPtrAccessToAccess (render_line l)
  = Done (render_line {| lhs := lhs l; op := OpAccessChain;
                         args := t0 :: t1 :: t3 :: more |},
          true).
Proof.
  intros Hl Hop Hargs Hids.
  assert (Hne : str_eqb (op l) [] = false) by (rewrite Hop; reflexivity).
  assert (Hpl : forallb plain (op l) = true) by (rewrite Hop; reflexivity).
  pose proof (filter_is_id_ok _ Hargs) as Hok. rewrite Hids in Hok.
  cbn [forallb] in Hok.
  apply andb_true_iff in Hok. destruct Hok as [Hk0 Hok].
  apply andb_true_iff in Hok. destruct Hok as [Hk1 Hok].
  apply andb_true_iff in Hok. destruct Hok as [_ Hok].
  unfold TranslateInBoundsPtrAccessToAccess.
  (* the assertion *)
  replace (contains (render_line l) (lit " OpInBoundsPtrAccessChain ")) with true.
  2:{ symmetry. apply contains_occurs.
      destruct (args l) as [|t ts] eqn:Ea; [discriminate|].
      exists ("%"%char :: lhs l ++ lit " ="), (render t ++ tail_str ts).
      unfold render_line, rhs_text. rewrite Hop, Ea, tail_str_cons.
      cbn. rewrite <- !app_assoc. reflexivity. }
  cbn [negb].
  rewrite line_getRHSIdentifiers by assumption.
  unfold ids_of. rewrite Hids. cbn [map length Nat.ltb Nat.leb].
  (* the three words *)
  assert (Hw1 : next_word (render_line l)
                = ("%"%char :: lhs l, lit " = " ++ rhs_text l)).
  { unfold render_line.
    change ("%"%char :: lhs l ++ lit " = " ++ rhs_text l)
      with (("%"%char :: lhs l) ++ lit " = " ++ rhs_text l).
    apply next_word_token; [discriminate | | right; eexists; reflexivity].
    constructor; [reflexivity | apply plain_no_space, Hl]. }
  assert (Hw2 : next_word (lit " = " ++ rhs_text l)
                = (lit "=", " "%char :: rhs_text l)).
  { change (lit " = " ++ rhs_text l)
      with (" "%char :: lit "=" ++ " "%char :: rhs_text l).
    rewrite next_word_blank.
    apply next_word_token; [discriminate | | right; eexists; reflexivity].
    repeat constructor. }
  assert (Hw3 : next_word (" "%char :: rhs_text l)
                = (OpInBoundsPtrAccessChain, tail_str (args l))).
  { rewrite next_word_blank. unfold rhs_text. rewrite Hop.
    apply next_word_token; [discriminate | | apply gap_tail_str].
    apply plain_no_space. reflexivity. }
  rewrite Hw1, Hw2, Hw3.
  replace (str_eqb ("%"%char :: lhs l) []) with false by reflexivity.
  replace (str_eqb (lit "=") (lit "=")) with true by reflexivity.
  rewrite str_eqb_refl. cbn [negb orb].
  (* the new line *)
  f_equal. f_equal.
  set (l' := {| lhs := lhs l; op := OpAccessChain;
                args := t0 :: t1 :: t3 :: more |}).
  assert (Hnew : ("%"%char :: lhs l) ++ lit " " ++ lit "=" ++ lit " OpAccessChain "
                 ++ emit_ids 0 (render t0 :: render t1 :: render t2
                                :: render t3 :: map render more)
                 = render_line l' ++ [" "%char]).
  { cbn [emit_ids Nat.eqb ElementArgPosition app].
    rewrite emit_ids_behind by (unfold ElementArgPosition; lia).
    unfold render_line, rhs_text, l'. cbn [lhs op args].
    rewrite !tail_str_cons.
    pose proof (blanks_shift more) as Hs.
    cbn. rewrite <- !app_assoc. cbn. f_equal. f_equal.
    repeat (rewrite <- ?app_assoc; cbn [app]; f_equal).
    rewrite <- Hs. reflexivity. }
  rewrite Hnew. apply trim_trimmed_spaces; [|repeat constructor].
  apply render_line_trimmed; try reflexivity.
  unfold l'. cbn [args forallb]. rewrite Hk0, Hk1. exact Hok.
Qed.

(** The translation of [%gep = OpInBoundsPtrAccessChain %ptr %G %zero %i]. *)
Definition gep_line : assignment :=
  {| lhs := lit "gep"; op := OpInBoundsPtrAccessChain;
     args := [Ident (lit "ptr"); Ident (lit "G"); Ident (lit "zero");
              Ident (lit "i")] |}.

Lemma TranslateInBoundsPtrAccessToAccess_drops_element_witness :
  TranslateInBoundsPtrAccessToAccess
    (lit "%gep = OpInBoundsPtrAccessChain %ptr %G %zero %i")
  = Done (lit "%gep = OpAccessChain %ptr %G %i", true).
Proof.
  apply (TranslateInBoundsPtrAccessToAccess_drops_element gep_line
           (Ident (lit "ptr")) (Ident (lit "G")) (Ident (lit "zero"))
           (Ident (lit "i")) []); reflexivity.
Defined.

End AccessChain.

(* ====================================================================== *)
(** * frameworks/rs/rsov/compiler/LinkerModule.cpp: function blocks *)
(* ====================================================================== *)

Module FunctionBlocks.

Import SpirvLine Fusion.
Local Open Scope nat_scope.
Local Open Scope outcome_scope.

Definition OpFunction : str := lit "OpFunction".
Definition OpFunctionParameter : str := lit "OpFunctionParameter".
Definition OpFunctionCall : str := lit "OpFunctionCall".
Definition OpLabel : str := lit "OpLabel".
Definition OpReturn : str := lit "OpReturn".

(** [FunctionBlock::getArity]. *)
Fixpoint getArity (lines : list str) : nat :=
  match lines with
  | [] => 0
  | l :: rest =>
      (if contains l OpFunctionParameter then 1 else 0) + getArity rest
  end.

(** [FunctionBlock::getArgNames]; [assert(Id)] stops the run. *)
Fixpoint getArgNames (lines : list str) : outcome (list str) :=
  match lines with
  | [] => Done []
  | l :: rest =>
      if contains l OpFunctionParameter then
        match getLHSIdentifier l with
        | None => CheckFailed
        | Some id => names <- getArgNames rest ;; Done (id :: names)
        end
      else getArgNames rest
  end.

(** The first loop of [FunctionBlock::body] and the [++It] behind it: the
    lines after the first one that contains [pat]. *)
Fixpoint after_first (pat : str) (lines : list str) : option (list str) :=
  match lines with
  | [] => None
  | l :: rest => if contains l pat then Some rest else after_first pat rest
  end.

(** The second loop: the lines before the first one that contains [pat]. *)
Fixpoint up_to (pat : str) (lines : list str) : option (list str) :=
  match lines with
  | [] => None
  | l :: rest =>
      if contains l pat then Some []
      else match up_to pat rest with
           | None => None
           | Some b => Some (l :: b)
           end
  end.

(** [FunctionBlock::body]; each [assert(It != End)] stops the run. *)
Definition body (lines : list str) : outcome (list str) :=
  match after_first OpLabel lines with
  | None => CheckFailed
  | Some rest =>
      match up_to OpReturn rest with
      | None => CheckFailed
      | Some b => Done b
      end
  end.

(** [FunctionBlock::getFunctionName]. *)
Definition getFunctionName (b : Block) : outcome str :=
  match Lines b with
  | [] => CheckFailed
  | l :: _ =>
      if contains l OpFunction then
        match getLHSIdentifier l with
        | None => CheckFailed
        | Some name => Done name
        end
      else CheckFailed
  end.

(** The loop of [removeUnusedFunctions] over the lines of the main block
    (and [FunctionBlock::getCalledFunctions]): [Ids[1]] of every line that
    contains [OpFunctionCall]. *)
Fixpoint getCalledFunctions (lines : list str) : outcome (list str) :=
  match lines with
  | [] => Done []
  | l :: rest =>
      if contains l OpFunctionCall then
        match getRHSIdentifiers l with
        | _ :: FName :: _ =>
            names <- getCalledFunctions rest ;; Done (FName :: names)
        | _ => CheckFailed
        end
      else getCalledFunctions rest
  end.

Definition isFunctionBlock (b : Block) : bool :=
  match Kind b with BK_Function | BK_MainFun => true | _ => false end.

Definition isMainFunBlock (b : Block) : bool :=
  match Kind b with BK_MainFun => true | _ => false end.

(** The predicate handed to [removeBlocksIf]. *)
Definition unused (UsedFunctions : list str) (B : Block) : outcome bool :=
  if negb (isFunctionBlock B) then Done false
  else if isMainFunBlock B then Done false
  else
    FName <- getFunctionName B ;;
    Done (negb (existsb (str_eqb FName) UsedFunctions)).

(** [removeBlocksIf]: the predicate is tried on every block in order. *)
Fixpoint removeBlocksIf (P : Block -> outcome bool) (blocks : LinkerModule)
  : outcome LinkerModule :=
  match blocks with
  | [] => Done []
  | B :: rest =>
      drop <- P B ;;
      rest' <- removeBlocksIf P rest ;;
      Done (if drop then rest' else B :: rest')
  end.

(** [LinkerModule::removeUnusedFunctions]; the last block has to be the main
    function block. *)
Definition removeUnusedFunctions (LM : LinkerModule) : outcome LinkerModule :=
  match rev LM with
  | [] => CheckFailed
  | MB :: _ =>
      if negb (isMainFunBlock MB) then CheckFailed
      else
        UsedFunctions <- getCalledFunctions (Lines MB) ;;
        removeBlocksIf (unused UsedFunctions) LM
  end.

(** ** Properties *)

(** Whenever [getArgNames] completes it returns as many names as
    [getArity] counts: after the arity test of [InlineFunctionCalls] its
    test of the parameter count cannot fail. *)
Theorem getArgNames_length_is_arity lines :
  forall names, getArgNames lines = Done names -> length names = getArity lines.
Proof.
  induction lines as [|l rest IH]; intros names H.
  - inversion H. reflexivity.
  - cbn [getArgNames getArity] in *.
    destruct (contains l OpFunctionParameter).
    + destruct (getLHSIdentifier l); [|discriminate].
      destruct (getArgNames rest) as [ns| |]; try discriminate.
      rewrite bind_Done in H. inversion H. simpl. rewrite (IH ns eq_refl).
      reflexivity.
    + apply IH. exact H.
Qed.

(** A function of two parameters. *)
Definition add_function : list str :=
  [ lit "%add = OpFunction %uint None %fn";
    lit "%a = OpFunctionParameter %uint";
    lit "%b = OpFunctionParameter %uint";
    lit "%entry = OpLabel";
    lit "%r = OpIAdd %uint %a %b";
    lit "OpReturnValue %r";
    lit "OpFunctionEnd" ].

Lemma getArgNames_length_is_arity_witness :
  getArgNames add_function = Done [lit "%a"; lit "%b"] /\
  length [lit "%a"; lit "%b"] = getArity add_function.
Proof.
  split; [reflexivity|].
  apply (getArgNames_length_is_arity add_function). reflexivity.
Defined.

Lemma after_first_spec pat lines rest :
  after_first pat lines = Some rest ->
  exists pre l,
    lines = pre ++ l :: rest /\ contains l pat = true /\
    Forall (fun x => contains x pat = false) pre.
Proof.
  revert rest. induction lines as [|x lines IH]; intros rest H; [discriminate|].
  cbn [after_first] in H. destruct (contains x pat) eqn:E.
  - inversion H; subst. exists [], x. repeat split; [exact E | constructor].
  - destruct (IH rest H) as [pre [l [Hl [Hc Hp]]]].
    exists (x :: pre), l. split; [rewrite Hl; reflexivity|].
    split; [exact Hc | constructor; assumption].
Qed.

Lemma up_to_spec pat lines b :
  up_to pat lines = Some b ->
  exists l post,
    lines = b ++ l :: post /\ contains l pat = true /\
    Forall (fun x => contains x pat = false) b.
Proof.
  revert b. induction lines as [|x lines IH]; intros b H; [discriminate|].
  cbn [up_to] in H. destruct (contains x pat) eqn:E.
  - inversion H; subst. exists x, lines. repeat split; [exact E | constructor].
  - destruct (up_to pat lines) as [b'|]; [|discriminate].
    inversion H; subst. destruct (IH b' eq_refl) as [l [post [Hl [Hc Hb]]]].
    exists l, post. split; [rewrite Hl; reflexivity|].
    split; [exact Hc | constructor; assumption].
Qed.

(** When [FunctionBlock::body] completes, the lines it returns are those
    strictly between the first line that contains [OpLabel] and the first
    line behind it that contains [OpReturn]; none of them contains
    [OpReturn]. *)
Theorem body_between_label_and_return lines b :
  body lines = Done b ->
  exists pre label ret post,
    lines = pre ++ label :: b ++ ret :: post /\
    Forall (fun x => contains x OpLabel = false) pre /\
    contains label OpLabel = true /\
    Forall (fun x => contains x OpReturn = false) b /\
    contains ret OpReturn = true.
Proof.
  unfold body. intros H.
  destruct (after_first OpLabel lines) as [rest|] eqn:E1; [|discriminate].
  destruct (up_to OpReturn rest) as [b'|] eqn:E2; [|discriminate].
  inversion H; subst b'.
  destruct (after_first_spec _ _ _ E1) as [pre [label [Hl [Hc Hp]]]].
  destruct (up_to_spec _ _ _ E2) as [ret [post [Hr [Hcr Hb]]]].
  exists pre, label, ret, post. subst. repeat split; assumption.
Qed.

Lemma body_between_label_and_return_witness :
  exists pre label ret post,
    add_function = pre ++ label :: [lit "%r = OpIAdd %uint %a %b"] ++ ret :: post /\
    Forall (fun x => contains x OpLabel = false) pre /\
    contains label OpLabel = true /\
    Forall (fun x => contains x OpReturn = false) [lit "%r = OpIAdd %uint %a %b"] /\
    contains ret OpReturn = true.
Proof.
  apply (body_between_label_and_return add_function). reflexivity.
Defined.

(** A block [removeUnusedFunctions] keeps: anything but a plain function
    block, and a plain function block whose name is among the functions
    called. *)
Definition kept (UsedFunctions : list str) (B : Block) : bool :=
  negb (isFunctionBlock B) || isMainFunBlock B
  || match getFunctionName B with
     | Done FName => existsb (str_eqb FName) UsedFunctions
     | _ => false
     end.

Lemma removeBlocksIf_unused used LM :
  forall LM', removeBlocksIf (unused used) LM = Done LM' ->
              LM' = filter (kept used) LM.
Proof.
  induction LM as [|B LM IH]; intros LM' H.
  - inversion H. reflexivity.
  - cbn [removeBlocksIf filter] in *. unfold unused at 1 in H. unfold kept at 1.
    destruct (isFunctionBlock B); cbn [negb orb] in *.
    + destruct (isMainFunBlock B); cbn [orb] in *.
      * rewrite bind_Done in H.
        destruct (removeBlocksIf (unused used) LM) as [r| |]; try discriminate.
        rewrite bind_Done in H. inversion H. f_equal. apply IH. reflexivity.
      * destruct (getFunctionName B) as [name| |]; try discriminate.
        rewrite !bind_Done in H.
        destruct (removeBlocksIf (unused used) LM) as [r| |]; try discriminate.
        rewrite bind_Done in H. inversion H.
        destruct (existsb (str_eqb name) used); cbn [negb].
        -- f_equal. apply IH. reflexivity.
        -- apply IH. reflexivity.
    + rewrite bind_Done in H.
      destruct (removeBlocksIf (unused used) LM) as [r| |]; try discriminate.
      rewrite bind_Done in H. inversion H. f_equal. apply IH. reflexivity.
Qed.

(** When [removeUnusedFunctions] completes, the last block of the module is
    the main function block, it is still the last block afterwards, and the
    blocks removed are exactly the plain function blocks whose name is not
    the callee of an [OpFunctionCall] line of the main block; functions
    called only from other functions are removed as well. *)
Theorem removeUnusedFunctions_keeps_called_only LM LM' :
  removeUnusedFunctions LM = Done LM' ->
  exists front MB UsedFunctions,
    LM = front ++ [MB] /\ isMainFunBlock MB = true /\
    getCalledFunctions (Lines MB) = Done UsedFunctions /\
    LM' = filter (kept UsedFunctions) front ++ [MB].
Proof.
  unfold removeUnusedFunctions. intros H.
  destruct (rev LM) as [|MB front'] eqn:E; [discriminate|].
  assert (HLM : LM = rev front' ++ [MB]).
  { rewrite <- (rev_involutive LM), E. reflexivity. }
  destruct (isMainFunBlock MB) eqn:Em; [|discriminate]. cbn [negb] in H.
  destruct (getCalledFunctions (Lines MB)) as [used| |] eqn:Eu; try discriminate.
  rewrite bind_Done in H. apply removeBlocksIf_unused in H.
  exists (rev front'), MB, used. split; [exact HLM|].
  split; [exact Em|]. split; [exact Eu|].
  rewrite H, HLM, filter_app. cbn [filter]. unfold kept at 2.
  rewrite Em, orb_true_r. reflexivity.
Qed.

(** A module in which main calls [%f] and not [%g]. *)
Definition two_helpers : LinkerModule :=
  [ {| Kind := BK_Function;
       Lines := [lit "%f = OpFunction %void None %fn"; lit "OpFunctionEnd"] |};
    {| Kind := BK_Function;
       Lines := [lit "%g = OpFunction %void None %fn"; lit "OpFunctionEnd"] |};
    {| Kind := BK_MainFun;
       Lines := [lit "%main = OpFunction %void None %fn";
                 lit "%r = OpFunctionCall %void %f";
                 lit "OpFunctionEnd"] |} ].

Lemma removeUnusedFunctions_keeps_called_only_witness :
  exists front MB UsedFunctions,
    two_helpers = front ++ [MB] /\ isMainFunBlock MB = true /\
    getCalledFunctions (Lines MB) = Done UsedFunctions /\
    [ {| Kind := BK_Function;
         Lines := [lit "%f = OpFunction %void None %fn"; lit "OpFunctionEnd"] |};
      {| Kind := BK_MainFun;
         Lines := [lit "%main = OpFunction %void None %fn";
                   lit "%r = OpFunctionCall %void %f";
                   lit "OpFunctionEnd"] |} ]
    = filter (kept UsedFunctions) front ++ [MB].
Proof.
  apply (removeUnusedFunctions_keeps_called_only two_helpers). reflexivity.
Defined.

End FunctionBlocks.

(* ====================================================================== *)
(** * frameworks/av/media/libstagefright/matroska/MatroskaExtractor.cpp:
      the size fields of the descriptor *)
(* ====================================================================== *)

Module EsdsSizes.

Import ESDS.
Local Open Scope Z_scope.
Local Open Scope outcome_scope.

(** The number a size field stands for: its bytes, first to last, taken as
    digits in base 128, the top bit of each left aside. *)
Definition decode_size (bytes : list Z) : Z :=
  fold_left (fun acc b => acc * 128 + Z.land b 0x7f) bytes 0.

(** The same for digits given last byte first. *)
Fixpoint digits_value (digits : list Z) : Z :=
  match digits with
  | [] => 0
  | d :: rest => Z.land d 0x7f + 128 * digits_value rest
  end.

(** ** Properties *)

(** [bytesForSize] returns the least number of 7-bit groups that hold
    [size]. *)
Theorem bytesForSize_is_least_width size n :
  0 <= size -> bytesForSize size = Done n ->
  size < 2 ^ (7 * n) /\ (1 < n -> 2 ^ (7 * (n - 1)) <= size).
Proof.
  intros H0. unfold bytesForSize.
  destruct (Z.leb_spec size 0xfffffff); cbn [negb]; [|discriminate].
  destruct (Z.gtb_spec size 0x1fffff);
    [intros E; inversion E; subst; simpl; lia|].
  destruct (Z.gtb_spec size 0x3fff);
    [intros E; inversion E; subst; simpl; lia|].
  destruct (Z.gtb_spec size 0x7f);
    intros E; inversion E; subst; simpl; lia.
Qed.

Lemma bytesForSize_is_least_width_witness :
  300 < 2 ^ (7 * 2) /\ (1 < 2 -> 2 ^ (7 * (2 - 1)) <= 300).
Proof.
  apply (bytesForSize_is_least_width 300 2); [lia | reflexivity].
Defined.

Lemma land_lor_low x next :
  next = 0 \/ next = 0x80 ->
  Z.land (Z.lor (Z.land x 0x7f) next) 0x7f = x mod 128.
Proof.
  intros Hn. rewrite Z.land_lor_distr_l.
  replace (Z.land next 0x7f) with 0 by (destruct Hn; subst; reflexivity).
  rewrite Z.lor_0_r, <- Z.land_assoc. change (Z.land 0x7f 0x7f) with (Z.ones 7).
  rewrite Z.land_ones by lia. reflexivity.
Qed.

Lemma land_lor_high x next :
  next = 0 \/ next = 0x80 ->
  Z.land (Z.lor (Z.land x 0x7f) next) 0x80 = next.
Proof.
  intros Hn. rewrite Z.land_lor_distr_l, <- Z.land_assoc.
  change (Z.land 0x7f 0x80) with 0. rewrite Z.land_0_r.
  destruct Hn; subst; reflexivity.
Qed.

Lemma digits_value_size_digits n :
  forall size next,
    0 <= size -> next = 0 \/ next = 0x80 ->
    digits_value (size_digits n size next) = size mod 2 ^ (7 * Z.of_nat n).
Proof.
  induction n as [|n IH]; intros size next H0 Hn.
  - cbn [size_digits digits_value]. change (2 ^ (7 * Z.of_nat 0)) with 1.
    rewrite Z.mod_1_r. reflexivity.
  - cbn [size_digits digits_value].
    rewrite land_lor_low by exact Hn.
    rewrite IH; [| apply Z.shiftr_nonneg; exact H0 | right; reflexivity].
    rewrite Z.shiftr_div_pow2 by lia. change (2 ^ 7) with 128.
    replace (7 * Z.of_nat (S n)) with (7 + 7 * Z.of_nat n) by lia.
    rewrite Z.pow_add_r by lia. change (2 ^ 7) with 128.
    rewrite (Z.rem_mul_r size 128 (2 ^ (7 * Z.of_nat n))) by lia.
    reflexivity.
Qed.

Lemma decode_size_acc bytes :
  forall acc,
    fold_left (fun a b => a * 128 + Z.land b 0x7f) bytes acc
    = acc * 128 ^ Z.of_nat (length bytes) + decode_size bytes.
Proof.
  unfold decode_size.
  induction bytes as [|b bytes IH]; intros acc.
  - simpl. lia.
  - cbn [fold_left length]. rewrite IH, (IH (0 * 128 + Z.land b 127)).
    rewrite Nat2Z.inj_succ, Z.pow_succ_r by lia. ring.
Qed.

Lemma decode_size_rev digits : decode_size (rev digits) = digits_value digits.
Proof.
  induction digits as [|d digits IH]; [reflexivity|].
  cbn [rev digits_value]. unfold decode_size in *.
  rewrite fold_left_app, IH. cbn [fold_left]. lia.
Qed.

(** All digits but the first produced carry the continuation bit. *)
Lemma size_digits_marks n :
  forall size,
    Forall (fun b => Z.land b 0x80 = 0x80) (size_digits n size 0x80).
Proof.
  induction n as [|n IH]; intros size; [constructor|].
  cbn [size_digits]. constructor; [|apply IH].
  apply land_lor_high. right. reflexivity.
Qed.

(** [storeSize] is lossless: the bytes it writes for a size that
    [bytesForSize] accepts, read as base-128 digits without their top bits,
    give the size back; all of them but the last carry the continuation bit
    0x80, and the last does not. *)
Theorem storeSize_round_trip (pre mid post : buffer) size n :
  0 <= size -> bytesForSize size = Done n -> length mid = Z.to_nat n ->
  exists front last,
    storeSize (pre ++ mid ++ post, Zlength' pre) size
    = Done (pre ++ map Some (front ++ [last]) ++ post, Zlength' pre + n) /\
    decode_size (front ++ [last]) = size /\
    Forall (fun b => Z.land b 0x80 = 0x80) front /\
    Z.land last 0x80 = 0.
Proof.
  intros H0 Hn Hlen.
  pose proof (bytesForSize_range _ _ Hn) as Hr.
  destruct (bytesForSize_is_least_width _ _ H0 Hn) as [Hlt _].
  destruct (Z.to_nat n) as [|k] eqn:Ek; [lia|].
  exists (rev (size_digits k (Z.shiftr size 7) 0x80)),
         (Z.lor (Z.land size 0x7f) 0).
  assert (Hfield : size_field n size
                   = rev (size_digits k (Z.shiftr size 7) 0x80)
                     ++ [Z.lor (Z.land size 0x7f) 0]).
  { unfold size_field. rewrite Ek. reflexivity. }
  rewrite <- Hfield. split; [|split; [|split]].
  - apply storeSize_frame; [exact Hn | rewrite Ek; exact Hlen].
  - unfold size_field. rewrite decode_size_rev.
    rewrite digits_value_size_digits; [| exact H0 | left; reflexivity].
    rewrite Z2Nat.id by lia. apply Z.mod_small. lia.
  - apply Forall_rev, size_digits_marks.
  - apply land_lor_high. left. reflexivity.
Qed.

Lemma storeSize_round_trip_witness :
  exists front last,
    storeSize ([Some 3] ++ [None; None] ++ [None], Zlength' [Some 3]) 300
    = Done ([Some 3] ++ map Some (front ++ [last]) ++ [None],
            Zlength' [Some 3] + 2) /\
    decode_size (front ++ [last]) = 300 /\
    Forall (fun b => Z.land b 0x80 = 0x80) front /\
    Z.land last 0x80 = 0.
Proof.
  apply (storeSize_round_trip [Some 3] [None; None] [None] 300 2);
    [lia | reflexivity | reflexivity].
Defined.

(** For every payload it accepts, [addESDSFromCodecPrivate] produces tag
    0x03, a size field, the bytes 00 00 00 and tag 0x04, a size field, the
    object type (0x40 for audio, 0x20 for video), twelve zero bytes, tag
    0x05, a size field and the payload unchanged; and each of the three size
    fields holds the number of bytes that follow it up to the end of the
    descriptor. *)
Theorem addESDSFromCodecPrivate_nested_sizes isAudio priv :
  Zlength' priv <= max_priv_size ->
  exists r f1 f2 f0,
    addESDSFromCodecPrivate isAudio priv = Done r /\
    esds r
    = map Some ([0x03] ++ f1 ++ [0x00; 0x00; 0x00; 0x04] ++ f2
                ++ [if isAudio then 0x40 else 0x20] ++ repeat 0 12
                ++ [0x05] ++ f0 ++ priv) /\
    decode_size f0 = Zlength' priv /\
    decode_size f2
    = Zlength' ([if isAudio then 0x40 else 0x20] ++ repeat 0 12
                ++ [0x05] ++ f0 ++ priv) /\
    decode_size f1
    = Zlength' ([0x00; 0x00; 0x00; 0x04] ++ f2
                ++ [if isAudio then 0x40 else 0x20] ++ repeat 0 12
                ++ [0x05] ++ f0 ++ priv).
Proof.
  intros Hmax.
  pose proof (addESDSFromCodecPrivate_completes isAudio priv Hmax) as H.
  cbv zeta in H. unfold max_priv_size in Hmax.
  set (privSize := Zlength' priv) in *.
  set (b0 := field_width privSize) in *.
  set (esdsSize2 := 14 + b0 + privSize) in *.
  set (b2 := field_width esdsSize2) in *.
  set (esdsSize1 := 4 + b2 + esdsSize2) in *.
  set (b1 := field_width esdsSize1) in *.
  assert (Hp0 : 0 <= privSize) by (unfold privSize, Zlength'; lia).
  assert (Hb0 : 1 <= b0 <= 4) by (apply field_width_range; lia).
  assert (Hb2 : 1 <= b2 <= 4) by (apply field_width_range; unfold esdsSize2; lia).
  assert (Hb1 : 1 <= b1 <= 4)
    by (apply field_width_range; unfold esdsSize1, esdsSize2; lia).
  assert (Hdec : forall size,
             0 <= size <= 0xfffffff ->
             decode_size (size_field (field_width size) size) = size).
  { intros size Hs.
    pose proof (bytesForSize_accepts size (proj2 Hs)) as Ha.
    pose proof (bytesForSize_range _ _ Ha) as Hw.
    destruct (bytesForSize_is_least_width _ _ (proj1 Hs) Ha) as [Hlt _].
    unfold size_field. rewrite decode_size_rev.
    rewrite digits_value_size_digits; [| lia | left; reflexivity].
    rewrite Z2Nat.id by lia. apply Z.mod_small. lia. }
  eexists. exists (size_field b1 esdsSize1), (size_field b2 esdsSize2),
                  (size_field b0 privSize).
  split; [exact H|]. cbn [esds].
  split; [reflexivity|].
  split; [apply Hdec; lia|].
  split.
  - unfold b2. rewrite Hdec by (unfold esdsSize2; lia).
    rewrite !Zlength'_app, size_field_length by lia.
    unfold Zlength' at 1 2 3. cbn [length repeat]. unfold esdsSize2.
    fold privSize. lia.
  - unfold b1. rewrite Hdec by (unfold esdsSize1, esdsSize2; lia).
    fold b1. rewrite !Zlength'_app, !size_field_length by lia.
    unfold Zlength' at 1 2 3 4. cbn [length repeat].
    unfold esdsSize1, esdsSize2. fold privSize. lia.
Qed.

Lemma addESDSFromCodecPrivate_nested_sizes_witness :
  exists r f1 f2 f0,
    addESDSFromCodecPrivate true [0x12; 0x10] = Done r /\
    esds r
    = map Some ([0x03] ++ f1 ++ [0x00; 0x00; 0x00; 0x04] ++ f2
                ++ [0x40] ++ repeat 0 12 ++ [0x05] ++ f0 ++ [0x12; 0x10]) /\
    decode_size f0 = Zlength' [0x12; 0x10] /\
    decode_size f2
    = Zlength' ([0x40] ++ repeat 0 12 ++ [0x05] ++ f0 ++ [0x12; 0x10]) /\
    decode_size f1
    = Zlength' ([0x00; 0x00; 0x00; 0x04] ++ f2
                ++ [0x40] ++ repeat 0 12 ++ [0x05] ++ f0 ++ [0x12; 0x10]).
Proof.
  apply (addESDSFromCodecPrivate_nested_sizes true [0x12; 0x10]).
  vm_compute. discriminate.
Defined.

End EsdsSizes.

(* ====================================================================== *)
(** * frameworks/av/media/libstagefright/matroska/MatroskaExtractor.cpp:
      what [addVorbisCodecInfo] accepts *)
(* ====================================================================== *)

Module VorbisHeaders.

Import Vorbis.
Local Open Scope Z_scope.
Local Open Scope outcome_scope.

Definition byte (b : Z) : Prop := 0 <= b < 256.

Lemma load_Done (buf : list Z) i x :
  load buf i = Done x ->
  0 <= i /\ exists tl, skipn (Z.to_nat i) buf = x :: tl.
Proof.
  unfold load. destruct (Z.ltb_spec i 0); [discriminate|].
  destruct (nth_error buf (Z.to_nat i)) as [y|] eqn:E; [|discriminate].
  intros Hd. inversion Hd; subst y. split; [assumption|].
  apply nth_error_split in E. destruct E as [l1 [l2 [Hb Hl]]].
  exists l2. rewrite Hb, <- Hl. apply skipn_exact.
Qed.

Lemma load_byte (buf : list Z) i x :
  Forall byte buf -> load buf i = Done x -> byte x.
Proof.
  intros Hb H. unfold load in H. destruct (i <? 0); [discriminate|].
  destruct (nth_error buf (Z.to_nat i)) as [y|] eqn:E; [|discriminate].
  inversion H; subst y. rewrite Forall_forall in Hb.
  apply Hb. eapply nth_error_In. exact E.
Qed.

Section Lacing.

Variable SIZE_MAX : Z.

Lemma lacing_loop_bounds rest :
  forall offset len o l,
    lacing_loop SIZE_MAX rest offset len = Stopped o l ->
    offset <= o /\ len <= l.
Proof.
  induction rest as [|b rest IH]; intros offset len o l H.
  - inversion H. lia.
  - cbn [lacing_loop] in H. destruct (b =? 255).
    + destruct (len >? SIZE_MAX - 255); [discriminate|].
      apply IH in H. lia.
    + inversion H. lia.
Qed.

Lemma read_lacing_bounds cp offset offset' len :
  Forall byte cp ->
  read_lacing SIZE_MAX cp offset = Done (Some (offset', len)) ->
  offset < offset' /\ 0 <= len.
Proof.
  intros Hb. unfold read_lacing.
  destruct (lacing_loop SIZE_MAX (skipn (Z.to_nat offset) cp) offset 0)
    as [|o l] eqn:E; [discriminate|].
  apply lacing_loop_bounds in E.
  destruct (o >=? Zlength' cp); [discriminate|].
  destruct (load cp o) as [b| |] eqn:El; try discriminate.
  rewrite bind_Done. destruct (l >? SIZE_MAX - b); [discriminate|].
  intros H. inversion H; subst.
  pose proof (load_byte _ _ _ Hb El) as Hbyte. unfold byte in Hbyte. lia.
Qed.

(** Where a lacing loop stops it has run over [k] bytes 0xff and stands at
    the end or before another byte. *)
Lemma lacing_loop_run_inv rest :
  forall offset len o l,
    lacing_loop SIZE_MAX rest offset len = Stopped o l ->
    exists k rest',
      o = offset + Z.of_nat k /\ l = len + 255 * Z.of_nat k /\
      rest = repeat 255 k ++ rest' /\
      (rest' = [] \/ exists b r, rest' = b :: r /\ b <> 255).
Proof.
  induction rest as [|b rest IH]; intros offset len o l H.
  - inversion H; subst. exists O, []. repeat split; try lia. left. reflexivity.
  - cbn [lacing_loop] in H. destruct (Z.eqb_spec b 255) as [->|Hb].
    + destruct (len >? SIZE_MAX - 255); [discriminate|].
      apply IH in H. destruct H as [k [rest' [Ho [Hl [Hr Ht]]]]].
      exists (S k), rest'. cbn [repeat app]. rewrite Hr.
      repeat split; try lia. exact Ht.
    + inversion H; subst. exists O, (b :: rest).
      repeat split; try lia. right. exists b, rest. split; [reflexivity | exact Hb].
Qed.

(** A length that [read_lacing] accepts is laced as Xiph lacing laces it. *)
Lemma read_lacing_decode cp offset offset' len :
  Forall byte cp -> 0 <= offset ->
  read_lacing SIZE_MAX cp offset = Done (Some (offset', len)) ->
  0 <= len /\ offset < offset' /\
  skipn (Z.to_nat offset) cp
  = xiph_lacing (Z.to_nat len) ++ skipn (Z.to_nat offset') cp.
Proof.
  intros Hb Hoff. unfold read_lacing.
  destruct (lacing_loop SIZE_MAX (skipn (Z.to_nat offset) cp) offset 0)
    as [|o l] eqn:E; [discriminate|].
  apply lacing_loop_run_inv in E.
  destruct E as [k [rest' [Ho [Hl [Hr Ht]]]]].
  destruct (o >=? Zlength' cp); [discriminate|].
  destruct (load cp o) as [b| |] eqn:El; try discriminate.
  rewrite bind_Done. destruct (l >? SIZE_MAX - b); [discriminate|].
  intros H. inversion H; subst offset' len. clear H.
  pose proof (load_byte _ _ _ Hb El) as Hbyte. unfold byte in Hbyte.
  destruct (load_Done _ _ _ El) as [_ [tl So]].
  assert (Sk : skipn (Z.to_nat o) cp = rest').
  { replace (Z.to_nat o) with (k + Z.to_nat offset)%nat by lia.
    rewrite <- skipn_skipn, Hr.
    rewrite <- (repeat_length 255 k) at 1. apply skipn_exact. }
  rewrite Sk in So. subst rest'.
  destruct Ht as [Ht|[b' [r [Ht Hne]]]]; [discriminate|].
  inversion Ht; subst b' r. clear Ht.
  assert (Hdiv : (Z.to_nat (l + b) / 255 = k)%nat).
  { apply Nat2Z.inj. rewrite Nat2Z.inj_div, Z2Nat.id by lia.
    change (Z.of_nat 255) with 255.
    replace (l + b) with (b + Z.of_nat k * 255) by lia.
    rewrite Z.div_add by lia. rewrite Z.div_small by lia. lia. }
  assert (Hmod : Z.of_nat (Z.to_nat (l + b) mod 255) = b).
  { rewrite Nat2Z.inj_mod, Z2Nat.id by lia.
    change (Z.of_nat 255) with 255.
    replace (l + b) with (b + Z.of_nat k * 255) by lia.
    rewrite Z.mod_add by lia. apply Z.mod_small. lia. }
  split; [lia|]. split; [lia|].
  rewrite Hr. unfold xiph_lacing. rewrite Hdiv, Hmod.
  rewrite <- app_assoc. f_equal. cbn [app]. f_equal.
  replace (Z.to_nat (o + 1)) with (S k + Z.to_nat offset)%nat by lia.
  rewrite <- skipn_skipn, Hr.
  replace (S k) with (length (repeat 255 k ++ [b]))
    by (rewrite length_app, repeat_length; simpl; lia).
  replace (repeat 255 k ++ b :: tl) with ((repeat 255 k ++ [b]) ++ tl)
    by (rewrite <- app_assoc; reflexivity).
  symmetry. apply skipn_exact.
Qed.


End Lacing.


(** The accepted layout at an identification header of 30 bytes, a comment
    header of 2 and a setup header of 3. *)
Lemma addVorbisCodecInfo_accepts_layout_witness :
  addVorbisCodecInfo SIZE_MAX_64 no_meta
    (vorbis_private (0x01 :: repeat 0 29) (0x03 :: [0x07]) (0x05 :: [0x08; 0x09]))
  = Done (OK, {| kKeyVorbisInfo := Some (0x01 :: repeat 0 29);
                 kKeyVorbisBooks := Some (0x05 :: [0x08; 0x09]) |}).
Proof.
  apply (addVorbisCodecInfo_accepts_layout SIZE_MAX_64 no_meta
           (repeat 0 29) [0x07] [0x08; 0x09]).
  vm_compute. discriminate.
Defined.

End VorbisHeaders.

(* ====================================================================== *)
(** * frameworks/av/media/libstagefright/matroska/MatroskaExtractor.cpp:
      [MatroskaSource::setWebmBlockCryptoInfo] *)
(* ====================================================================== *)

Module WebmCrypto.

Import AvcRead.
Local Open Scope Z_scope.
Local Open Scope outcome_scope.

Definition INT32_MAX : Z := 0x7fffffff.

(** The entries of the buffer's [MetaData] that the function sets. *)
Record crypto_info := {
  kKeyCryptoKey : option (list Z);
  kKeyCryptoIV : option (list Z);
  kKeyPlainSizes : option (list Z);       (* an array of [int32_t] *)
  kKeyEncryptedSizes : option (list Z)
}.

Definition no_info : crypto_info :=
  {| kKeyCryptoKey := None; kKeyCryptoIV := None;
     kKeyPlainSizes := None; kKeyEncryptedSizes := None |}.

(** [mbuf->set_range(offset, length)] stores the two values. *)
Definition set_range (mbuf : MediaBuffer) (offset length : Z) : MediaBuffer :=
  {| data := data mbuf; range_offset := offset; range_length := length |}.

(** [setWebmBlockCryptoInfo(mbuf)]: the status, the buffer and its metadata
    afterwards.  [trackKey] is what [trackMeta->findData(kKeyCryptoKey, ...)]
    finds in the track's metadata. *)
Definition setWebmBlockCryptoInfo (trackKey : option (list Z))
           (mbuf : MediaBuffer) (meta : crypto_info)
  : outcome (status_t * MediaBuffer * crypto_info) :=
  if (range_length mbuf <? 1) || (range_length mbuf - 1 >? INT32_MAX)
  then Done (ERROR_MALFORMED, mbuf, meta)
  else
    signal <- load (data mbuf) (range_offset mbuf) ;;
    let blockEncrypted := negb (Z.land signal 0x1 =? 0) in
    if blockEncrypted && (range_length mbuf <? 9)
    then Done (ERROR_MALFORMED, mbuf, meta)
    else if blockEncrypted then
      match trackKey with
      | None => CheckFailed
      | Some keyId =>
          iv <- load_bytes (data mbuf) (range_offset mbuf + 1) 8 ;;
          Done (OK,
                set_range mbuf 9 (range_length mbuf - 9),
                {| kKeyCryptoKey := Some keyId;
                   kKeyCryptoIV := Some (iv ++ repeat 0 8);
                   kKeyPlainSizes := Some [0];
                   kKeyEncryptedSizes := Some [range_length mbuf - 9] |})
      end
    else
      Done (OK,
            set_range mbuf 1 (range_length mbuf - 1),
            {| kKeyCryptoKey := kKeyCryptoKey meta;
               kKeyCryptoIV := kKeyCryptoIV meta;
               kKeyPlainSizes := Some [range_length mbuf - 1];
               kKeyEncryptedSizes := Some [0] |}).

(** ** Properties *)

Lemma load_bytes_at mid :
  forall (pre post : list Z),
    load_bytes (pre ++ mid ++ post) (Zlength' pre) (length mid) = Done mid.
Proof.
  induction mid as [|x mid IH]; intros pre post; [reflexivity|].
  cbn [length load_bytes app]. rewrite load_at, bind_Done.
  replace (pre ++ x :: mid ++ post) with ((pre ++ [x]) ++ mid ++ post)
    by (rewrite <- app_assoc; reflexivity).
  replace (Zlength' pre + 1) with (Zlength' (pre ++ [x]))
    by (rewrite Zlength'_app; reflexivity).
  rewrite IH, bind_Done. reflexivity.
Qed.

Lemma visible_suffix (pre rest : list Z) :
  visible {| data := pre ++ rest; range_offset := Zlength' pre;
             range_length := Zlength' rest |} = rest.
Proof.
  unfold visible, Zlength'. cbn [data range_offset range_length].
  rewrite !Nat2Z.id, skipn_exact. apply firstn_all.
Qed.

(** On a frame as [readBlock] hands it over, whose first byte is the signal
    byte: with bit 0 of the signal byte clear the frame loses the signal
    byte and all of the rest is recorded as plain; with bit 0 set and at
    least eight more bytes, the frame loses the signal byte and the eight
    bytes behind it, those eight followed by eight zero bytes become the IV,
    the track's key is attached and all of the rest is recorded as
    encrypted; a frame that is empty, or encrypted with fewer than eight
    bytes behind the signal byte, is refused with [ERROR_MALFORMED] and left
    as it was. *)
Theorem setWebmBlockCryptoInfo_splits_frame :
  (forall trackKey meta signal payload,
      Z.land signal 1 = 0 -> Zlength' payload <= INT32_MAX ->
      exists mbuf',
        setWebmBlockCryptoInfo trackKey (frame_of (signal :: payload)) meta
        = Done (OK, mbuf',
                {| kKeyCryptoKey := kKeyCryptoKey meta;
                   kKeyCryptoIV := kKeyCryptoIV meta;
                   kKeyPlainSizes := Some [Zlength' payload];
                   kKeyEncryptedSizes := Some [0] |})
        /\ visible mbuf' = payload) /\
  (forall keyId meta signal iv payload,
      Z.land signal 1 = 1 -> length iv = 8%nat ->
      Zlength' (iv ++ payload) <= INT32_MAX ->
      exists mbuf',
        setWebmBlockCryptoInfo (Some keyId)
                               (frame_of (signal :: iv ++ payload)) meta
        = Done (OK, mbuf',
                {| kKeyCryptoKey := Some keyId;
                   kKeyCryptoIV := Some (iv ++ repeat 0 8);
                   kKeyPlainSizes := Some [0];
                   kKeyEncryptedSizes := Some [Zlength' payload] |})
        /\ visible mbuf' = payload) /\
  (forall trackKey meta,
      setWebmBlockCryptoInfo trackKey (frame_of []) meta
      = Done (ERROR_MALFORMED, frame_of [], meta)) /\
  (forall trackKey meta signal rest,
      Z.land signal 1 = 1 -> (length rest < 8)%nat ->
      setWebmBlockCryptoInfo trackKey (frame_of (signal :: rest)) meta
      = Done (ERROR_MALFORMED, frame_of (signal :: rest), meta)).
Proof.
  split; [|split; [|split]].
  - intros trackKey meta signal payload Hbit Hmax.
    pose proof (Zlength'_nonneg payload) as Hp.
    unfold setWebmBlockCryptoInfo, frame_of.
    cbn [data range_offset range_length]. rewrite Zlength'_cons.
    destruct (Z.ltb_spec (1 + Zlength' payload) 1); [lia|].
    destruct (Z.gtb_spec (1 + Zlength' payload - 1) INT32_MAX); [lia|].
    cbn [orb]. change (load (signal :: payload) 0) with (Done signal).
    rewrite bind_Done, Hbit. cbn [Z.eqb negb andb].
    eexists. split.
    + replace (1 + Zlength' payload - 1) with (Zlength' payload) by lia.
      reflexivity.
    + unfold set_range. cbn [data].
      exact (visible_suffix [signal] payload).
  - intros keyId meta signal iv payload Hbit Hiv Hmax.
    pose proof (Zlength'_nonneg payload) as Hp.
    assert (Hlen : Zlength' (iv ++ payload) = 8 + Zlength' payload).
    { rewrite Zlength'_app. unfold Zlength' at 1. rewrite Hiv. reflexivity. }
    unfold setWebmBlockCryptoInfo, frame_of.
    cbn [data range_offset range_length]. rewrite Zlength'_cons, Hlen in *.
    destruct (Z.ltb_spec (1 + (8 + Zlength' payload)) 1); [lia|].
    destruct (Z.gtb_spec (1 + (8 + Zlength' payload) - 1) INT32_MAX); [lia|].
    cbn [orb]. change (load (signal :: iv ++ payload) 0) with (Done signal).
    rewrite bind_Done, Hbit. cbn [Z.eqb negb andb].
    destruct (Z.ltb_spec (1 + (8 + Zlength' payload)) 9); [lia|].
    pose proof (load_bytes_at iv [signal] payload) as Hl.
    rewrite Hiv in Hl. cbn [app] in Hl. change (Zlength' [signal]) with 1 in Hl.
    change (0 + 1) with 1. rewrite Hl, bind_Done.
    eexists. split.
    + replace (1 + (8 + Zlength' payload) - 9) with (Zlength' payload) by lia.
      reflexivity.
    + unfold set_range. cbn [data].
      replace 9 with (Zlength' (signal :: iv))
        by (rewrite Zlength'_cons; unfold Zlength'; rewrite Hiv; reflexivity).
      exact (visible_suffix (signal :: iv) payload).
  - intros trackKey meta. reflexivity.
  - intros trackKey meta signal rest Hbit Hshort.
    unfold setWebmBlockCryptoInfo, frame_of.
    cbn [data range_offset range_length]. rewrite Zlength'_cons.
    pose proof (Zlength'_nonneg rest) as Hp.
    assert (Hr : Zlength' rest < 8) by (unfold Zlength'; lia).
    destruct (Z.ltb_spec (1 + Zlength' rest) 1); [lia|].
    destruct (Z.gtb_spec (1 + Zlength' rest - 1) INT32_MAX);
      [unfold INT32_MAX in *; lia|].
    cbn [orb]. change (load (signal :: rest) 0) with (Done signal).
    rewrite bind_Done, Hbit. cbn [Z.eqb negb andb].
    destruct (Z.ltb_spec (1 + Zlength' rest) 9); [reflexivity | lia].
Qed.

(** A clear frame [00 aa bb] and an encrypted frame with the IV 1..8. *)
Lemma setWebmBlockCryptoInfo_splits_frame_witness :
  (exists mbuf',
      setWebmBlockCryptoInfo None (frame_of [0x00; 0xaa; 0xbb]) no_info
      = Done (OK, mbuf',
              {| kKeyCryptoKey := None; kKeyCryptoIV := None;
                 kKeyPlainSizes := Some [2]; kKeyEncryptedSizes := Some [0] |})
      /\ visible mbuf' = [0xaa; 0xbb]) /\
  (exists mbuf',
      setWebmBlockCryptoInfo (Some [0x99])
        (frame_of (0x01 :: [1; 2; 3; 4; 5; 6; 7; 8] ++ [0xcc])) no_info
      = Done (OK, mbuf',
              {| kKeyCryptoKey := Some [0x99];
                 kKeyCryptoIV := Some ([1; 2; 3; 4; 5; 6; 7; 8] ++ repeat 0 8);
                 kKeyPlainSizes := Some [0];
                 kKeyEncryptedSizes := Some [1] |})
      /\ visible mbuf' = [0xcc]).
Proof.
  destruct setWebmBlockCryptoInfo_splits_frame as [Hclear [Henc _]].
  split.
  - apply (Hclear None no_info 0x00 [0xaa; 0xbb]); [reflexivity|].
    vm_compute. discriminate.
  - apply (Henc [0x99] no_info 0x01 [1; 2; 3; 4; 5; 6; 7; 8] [0xcc]);
      [reflexivity | reflexivity |]. vm_compute. discriminate.
Defined.

End WebmCrypto.

(* ====================================================================== *)
(** * frameworks/opt/net/wifi/libwifi_system: the files and the polling of
      [supplicant_manager.cpp], [ensure_entropy_file_exists] of [wifi.cpp] *)
(* ====================================================================== *)

Module SupplicantRuns.

Import Supplicant.
Local Open Scope string_scope.
Local Open Scope list_scope.
Local Open Scope Z_scope.

(** The system calls [ensure_config_file_exists] makes, with the results
    that matter afterwards. *)
Inductive call :=
| Access
| ChmodExisting
| OpenTemplate (ret : Z)
| OpenDest (ret : Z)
| Read (ret : Z)
| Write (nread : Z)
| Close (fd : Z)
| ChmodCreated
| Unlink.

(** The copy loop with the calls it makes; on a read error the function
    returns from inside the loop. *)
Fixpoint copy_run (srcfd destfd : Z) (reads : list Z) : bool * list call :=
  match reads with
  | [] => (true, [Read 0])
  | nread :: rest =>
      if nread =? 0 then (true, [Read 0])
      else if nread <? 0 then
        (false, [Read nread; Close srcfd; Close destfd; Unlink])
      else
        let '(ok, tr) := copy_run srcfd destfd rest in
        (ok, Read nread :: Write nread :: tr)
  end.

(** [ensure_config_file_exists] with the calls it makes, in order. *)
Definition ensure_config_file_exists_run (sc : file_syscalls) : Z * list call :=
  let ret := access_ret sc in
  if (ret =? 0) || (match access_errno sc with EACCES => true | _ => false end) then
    if negb (ret =? 0) then
      if negb (chmod_existing_ret sc =? 0) then (c_false, [Access; ChmodExisting])
      else (c_true, [Access; ChmodExisting])
    else (c_true, [Access])
  else if (match access_errno sc with ENOENT => false | _ => true end) then
    (c_false, [Access])
  else
    let srcfd := open_template_ret sc in
    if srcfd <? 0 then (c_false, [Access; OpenTemplate srcfd])
    else
      let destfd := open_dest_ret sc in
      if destfd <? 0 then
        (c_false, [Access; OpenTemplate srcfd; OpenDest destfd; Close srcfd])
      else
        let '(ok, tr) := copy_run srcfd destfd (read_rets sc) in
        let tr := Access :: OpenTemplate srcfd :: OpenDest destfd :: tr in
        if negb ok then (c_false, tr)
        else if chmod_created_ret sc <? 0 then
          (c_false, tr ++ [Close destfd; Close srcfd; ChmodCreated; Unlink])
        else
          (c_true, tr ++ [Close destfd; Close srcfd; ChmodCreated]).

(** The descriptors a run obtained and the descriptors it closed. *)
Fixpoint opened (tr : list call) : list Z :=
  match tr with
  | [] => []
  | OpenTemplate fd :: tr' | OpenDest fd :: tr' =>
      if fd <? 0 then opened tr' else fd :: opened tr'
  | _ :: tr' => opened tr'
  end.

Fixpoint closed (tr : list call) : list Z :=
  match tr with
  | [] => []
  | Close fd :: tr' => fd :: closed tr'
  | _ :: tr' => closed tr'
  end.

Definition unlinks (tr : list call) : bool :=
  existsb (fun c => match c with Unlink => true | _ => false end) tr.

Definition creates_dest (tr : list call) : bool :=
  existsb (fun c => match c with OpenDest fd => 0 <=? fd | _ => false end) tr.

(** The calls [ensure_entropy_file_exists] makes. *)
Inductive entropy_call :=
| EAccess
| EChmodExisting (ret : Z)
| EOpen (ret : Z)
| EWrite (ret : Z)
| EClose (fd : Z)
| EChmodCreated (ret : Z)
| EUnlink.

Record entropy_syscalls := {
  e_access_ret : Z;
  e_access_EACCES : bool;         (* errno == EACCES after access *)
  e_chmod_existing_ret : Z;
  e_open_ret : Z;
  e_write_ret : Z;                (* write(destfd, dummy_key, 21) *)
  e_chmod_created_ret : Z
}.

Definition sizeof_dummy_key : Z := 21.

(** [ensure_entropy_file_exists] with the calls it makes. *)
Definition ensure_entropy_file_exists (sc : entropy_syscalls)
  : Z * list entropy_call :=
  let ret := e_access_ret sc in
  if (ret =? 0) || e_access_EACCES sc then
    if negb (ret =? 0) then
      if negb (e_chmod_existing_ret sc =? 0)
      then (-1, [EAccess; EChmodExisting (e_chmod_existing_ret sc)])
      else (0, [EAccess; EChmodExisting (e_chmod_existing_ret sc)])
    else (0, [EAccess])
  else
    let destfd := e_open_ret sc in
    if destfd <? 0 then (-1, [EAccess; EOpen destfd])
    else if negb (e_write_ret sc =? sizeof_dummy_key) then
      (-1, [EAccess; EOpen destfd; EWrite (e_write_ret sc); EClose destfd])
    else if e_chmod_created_ret sc <? 0 then
      (-1, [EAccess; EOpen destfd; EWrite (e_write_ret sc); EClose destfd;
            EChmodCreated (e_chmod_created_ret sc); EUnlink])
    else
      (0, [EAccess; EOpen destfd; EWrite (e_write_ret sc); EClose destfd;
           EChmodCreated (e_chmod_created_ret sc)]).

(** What [StopSupplicant] does besides reading the property. *)
Inductive stop_action := CtlStop | Usleep.

(** The loop [while (count-- > 0)] of [StopSupplicant]; [polls i] is the
    value of the init property at the [i]-th poll, empty if it cannot be
    read. *)
Fixpoint stop_loop (count i : nat) (polls : nat -> string)
  : bool * list stop_action :=
  match count with
  | O => (false, [])
  | S count' =>
      if negb (String.length (polls i) =? 0)%nat
         && String.eqb (polls i) "stopped"
      then (true, [])
      else let '(r, tr) := stop_loop count' (S i) polls in (r, Usleep :: tr)
  end.

(** [SupplicantManager::StopSupplicant]; [status] is the property on
    entry. *)
Definition StopSupplicant (status : string) (polls : nat -> string)
  : bool * list stop_action :=
  if negb (String.length status =? 0)%nat && String.eqb status "stopped"
  then (true, [])
  else let '(r, tr) := stop_loop 50 0 polls in (r, CtlStop :: tr).

(** ** Properties *)

Lemma ensure_config_file_exists_run_result sc :
  fst (ensure_config_file_exists_run sc) = ensure_config_file_exists sc.
Proof.
  unfold ensure_config_file_exists_run, ensure_config_file_exists.
  assert (Hcopy : forall s d reads,
             fst (copy_run s d reads) = copy_loop reads).
  { intros s d reads. induction reads as [|n rest IH]; [reflexivity|].
    cbn [copy_run copy_loop]. destruct (n =? 0); [reflexivity|].
    destruct (n <? 0); [reflexivity|].
    destruct (copy_run s d rest). exact IH. }
  destruct ((access_ret sc =? 0)
            || match access_errno sc with EACCES => true | _ => false end).
  - destruct (access_ret sc =? 0); cbn [negb andb]; [reflexivity|].
    destruct (chmod_existing_ret sc =? 0); reflexivity.
  - destruct (match access_errno sc with ENOENT => false | _ => true end);
      [reflexivity|].
    destruct (open_template_ret sc <? 0); [reflexivity|].
    destruct (open_dest_ret sc <? 0); [reflexivity|].
    rewrite <- (Hcopy (open_template_ret sc) (open_dest_ret sc)).
    destruct (copy_run (open_template_ret sc) (open_dest_ret sc) (read_rets sc))
      as [ok tr].
    cbn [fst]. destruct ok; cbn [negb]; [|reflexivity].
    destruct (chmod_created_ret sc <? 0); reflexivity.
Qed.

Lemma closed_app tr1 tr2 : closed (tr1 ++ tr2) = closed tr1 ++ closed tr2.
Proof.
  induction tr1 as [|c tr1 IH]; [reflexivity|].
  destruct c; cbn [app closed]; rewrite ?IH; reflexivity.
Qed.

Lemma opened_app tr1 tr2 : opened (tr1 ++ tr2) = opened tr1 ++ opened tr2.
Proof.
  induction tr1 as [|c tr1 IH]; [reflexivity|].
  destruct c; cbn [app opened]; rewrite ?IH; try reflexivity;
    destruct (ret <? 0); reflexivity.
Qed.

Lemma copy_run_calls s d reads :
  opened (snd (copy_run s d reads)) = [] /\
  (if fst (copy_run s d reads)
   then closed (snd (copy_run s d reads)) = [] /\
        unlinks (snd (copy_run s d reads)) = false
   else closed (snd (copy_run s d reads)) = [s; d] /\
        unlinks (snd (copy_run s d reads)) = true).
Proof.
  induction reads as [|n rest IH]; [repeat split|].
  cbn [copy_run]. destruct (n =? 0); [repeat split|].
  destruct (n <? 0); [repeat split|].
  destruct (copy_run s d rest) as [ok tr]. exact IH.
Qed.

(** Every run of [ensure_config_file_exists] closes each descriptor it
    obtained exactly once and closes nothing else, and it removes the
    destination file exactly when it had created it and returns failure. *)
Theorem ensure_config_file_exists_cleans_up sc :
  let '(ret, tr) := ensure_config_file_exists_run sc in
  (closed tr = opened tr \/ closed tr = rev (opened tr)) /\
  unlinks tr = creates_dest tr && (ret =? c_false).
Proof.
  unfold ensure_config_file_exists_run.
  destruct ((access_ret sc =? 0)
            || match access_errno sc with EACCES => true | _ => false end).
  - destruct (access_ret sc =? 0); cbn [negb];
      [|destruct (chmod_existing_ret sc =? 0)]; split; auto.
  - destruct (match access_errno sc with ENOENT => false | _ => true end);
      [split; auto|].
    destruct (Z.ltb_spec (open_template_ret sc) 0) as [Hs|Hs].
    + cbn [closed opened unlinks creates_dest existsb].
      destruct (Z.ltb_spec (open_template_ret sc) 0); [|lia]. split; auto.
    + destruct (Z.ltb_spec (open_dest_ret sc) 0) as [Hd|Hd].
      * cbn [closed opened unlinks creates_dest existsb].
        destruct (Z.ltb_spec (open_template_ret sc) 0); [lia|].
        destruct (Z.ltb_spec (open_dest_ret sc) 0); [|lia].
        destruct (Z.leb_spec 0 (open_dest_ret sc)); [lia|]. split; auto.
      * pose proof (copy_run_calls (open_template_ret sc) (open_dest_ret sc)
                                   (read_rets sc)) as [Ho Hc].
        destruct (copy_run (open_template_ret sc) (open_dest_ret sc)
                           (read_rets sc)) as [ok tr].
        cbn [fst snd] in Ho, Hc.
        assert (Hopen : opened (Access :: OpenTemplate (open_template_ret sc)
                                :: OpenDest (open_dest_ret sc) :: tr)
                        = [open_template_ret sc; open_dest_ret sc]).
        { cbn [opened].
          destruct (Z.ltb_spec (open_template_ret sc) 0); [lia|].
          destruct (Z.ltb_spec (open_dest_ret sc) 0); [lia|].
          rewrite Ho. reflexivity. }
        assert (Hcreate : forall tl,
                   creates_dest (Access :: OpenTemplate (open_template_ret sc)
                                 :: OpenDest (open_dest_ret sc) :: tl) = true).
        { intros tl. cbn [creates_dest existsb].
          destruct (Z.leb_spec 0 (open_dest_ret sc)); [reflexivity | lia]. }
        destruct ok; cbn [negb]; destruct Hc as [Hc Hu].
        -- destruct (chmod_created_ret sc <? 0).
           ++ change (Access :: OpenTemplate (open_template_ret sc)
                      :: OpenDest (open_dest_ret sc) :: tr)
                with ([Access; OpenTemplate (open_template_ret sc);
                       OpenDest (open_dest_ret sc)] ++ tr).
              rewrite <- app_assoc. split.
              ** right. rewrite !closed_app, !opened_app, Hc, Ho.
                 cbn [closed opened app].
                 destruct (Z.ltb_spec (open_template_ret sc) 0); [lia|].
                 destruct (Z.ltb_spec (open_dest_ret sc) 0); [lia|].
                 reflexivity.
              ** cbn [app]. rewrite Hcreate. unfold unlinks.
                 cbn [existsb]. rewrite existsb_app. cbn [existsb].
                 rewrite !orb_true_r. reflexivity.
           ++ change (Access :: OpenTemplate (open_template_ret sc)
                      :: OpenDest (open_dest_ret sc) :: tr)
                with ([Access; OpenTemplate (open_template_ret sc);
                       OpenDest (open_dest_ret sc)] ++ tr).
              rewrite <- app_assoc. split.
              ** right. rewrite !closed_app, !opened_app, Hc, Ho.
                 cbn [closed opened app].
                 destruct (Z.ltb_spec (open_template_ret sc) 0); [lia|].
                 destruct (Z.ltb_spec (open_dest_ret sc) 0); [lia|].
                 reflexivity.
              ** cbn [app]. rewrite Hcreate. unfold unlinks in *.
                 cbn [existsb]. rewrite existsb_app, Hu. reflexivity.
        -- split.
           ++ left. rewrite Hopen. cbn [closed]. exact Hc.
           ++ rewrite Hcreate. unfold unlinks in *. cbn [existsb].
              rewrite Hu. reflexivity.
Qed.

Fixpoint e_opened (tr : list entropy_call) : list Z :=
  match tr with
  | [] => []
  | EOpen fd :: tr' => if fd <? 0 then e_opened tr' else fd :: e_opened tr'
  | _ :: tr' => e_opened tr'
  end.

Fixpoint e_closed (tr : list entropy_call) : list Z :=
  match tr with
  | [] => []
  | EClose fd :: tr' => fd :: e_closed tr'
  | _ :: tr' => e_closed tr'
  end.

Definition e_unlinks (tr : list entropy_call) : bool :=
  existsb (fun c => match c with EUnlink => true | _ => false end) tr.

(** The key was written completely; the write failed or was short. *)
Definition complete_write (tr : list entropy_call) : bool :=
  existsb (fun c => match c with
                    | EWrite w => w =? sizeof_dummy_key
                    | _ => false
                    end) tr.

Definition incomplete_write (tr : list entropy_call) : bool :=
  existsb (fun c => match c with
                    | EWrite w => negb (w =? sizeof_dummy_key)
                    | _ => false
                    end) tr.

(** The mode of the created file was changed; that [chmod] failed. *)
Definition chmod_created (tr : list entropy_call) : bool :=
  existsb (fun c => match c with EChmodCreated _ => true | _ => false end) tr.

Definition chmod_created_failed (tr : list entropy_call) : bool :=
  existsb (fun c => match c with EChmodCreated r => r <? 0 | _ => false end) tr.

(** The call failed, by the test the function applies to its result. *)
Definition call_failed (c : entropy_call) : bool :=
  match c with
  | EChmodExisting r => negb (r =? 0)
  | EOpen fd => fd <? 0
  | EWrite w => negb (w =? sizeof_dummy_key)
  | EChmodCreated r => r <? 0
  | EAccess | EClose _ | EUnlink => false
  end.

(** Every run of [ensure_entropy_file_exists] returns 0 or -1, and -1
    exactly when one of its [chmod], [open] or [write] calls failed; it
    closes the descriptor it obtained, if any, exactly once and nothing
    else; it changes the mode of the file it created exactly after a complete
    write, and removes the file exactly when that [chmod] fails; after a
    failed or short write it returns -1 and leaves the file it created in
    place. *)
Theorem ensure_entropy_file_exists_cleans_up sc :
  let '(ret, tr) := ensure_entropy_file_exists sc in
  (ret = 0 \/ ret = -1) /\
  (ret =? -1) = existsb call_failed tr /\
  e_closed tr = e_opened tr /\
  chmod_created tr = complete_write tr /\
  e_unlinks tr = chmod_created_failed tr /\
  (incomplete_write tr = true -> ret = -1 /\ e_unlinks tr = false).
Proof.
  unfold ensure_entropy_file_exists.
  destruct (e_access_ret sc =? 0) eqn:Ea, (e_access_EACCES sc);
    cbn [orb negb];
    destruct (e_chmod_existing_ret sc =? 0) eqn:Ece; cbn [negb];
    destruct (e_open_ret sc <? 0) eqn:Eo;
    destruct (e_write_ret sc =? sizeof_dummy_key) eqn:Ew; cbn [negb];
    destruct (e_chmod_created_ret sc <? 0) eqn:Ecc;
    unfold e_unlinks, complete_write, incomplete_write, chmod_created,
      chmod_created_failed, call_failed;
    cbn [existsb e_closed e_opened];
    rewrite ?Ece, ?Eo, ?Ew, ?Ecc; cbn [negb orb andb];
    repeat split; auto; try discriminate;
    intros; discriminate.
Qed.

End SupplicantRuns.

Module SupplicantPolling.

Import Supplicant SupplicantRuns.
Local Open Scope string_scope.
Local Open Scope list_scope.
Local Open Scope Z_scope.

(** How often a run of [StopSupplicant] sleeps for 100 ms. *)
Definition sleeps (tr : list stop_action) : nat :=
  length (filter (fun a => match a with Usleep => true | _ => false end) tr).

Lemma stop_loop_spec polls count :
  forall i,
    let '(r, tr) := stop_loop count i polls in
    (r = true <-> exists j, (i <= j < i + count)%nat /\ polls j = "stopped") /\
    (length tr <= count)%nat /\ ~ In CtlStop tr.
Proof.
  induction count as [|count IH]; intros i.
  - cbn [stop_loop]. split; [|split; [apply Nat.le_refl | intros []]].
    split; [discriminate | intros [j [Hj _]]; lia].
  - cbn [stop_loop].
    destruct (String.eqb_spec (polls i) "stopped") as [E|E].
    + rewrite E. cbn [String.length Nat.eqb negb andb].
      split; [|split; [simpl; lia | intros []]].
      split; [|reflexivity]. intros _. exists i. split; [lia | exact E].
    + rewrite andb_false_r. specialize (IH (S i)).
      destruct (stop_loop count (S i) polls) as [r tr].
      destruct IH as [Hr [Hl Hn]]. split; [|split].
      * rewrite Hr. split; intros [j [Hj Hp]]; exists j; split; try exact Hp.
        -- lia.
        -- destruct (Nat.eq_dec j i) as [->|]; [contradiction | lia].
      * simpl. lia.
      * intros [H|H]; [discriminate | exact (Hn H)].
Qed.

(** [StopSupplicant] returns [true] exactly when the service was already
    reported stopped or one of at most 50 polls finds it stopped; it asks
    init to stop the service exactly when it was not already reported
    stopped, and sleeps at most 50 times. *)
Theorem StopSupplicant_waits_for_stopped status polls :
  let '(r, tr) := StopSupplicant status polls in
  (r = true <->
   status = "stopped" \/ exists j, (j < 50)%nat /\ polls j = "stopped") /\
  (In CtlStop tr <-> status <> "stopped") /\
  (sleeps tr <= 50)%nat.
Proof.
  unfold StopSupplicant.
  destruct (String.eqb_spec status "stopped") as [E|E].
  - rewrite E. cbn [String.length Nat.eqb negb andb].
    split; [|split; [|unfold sleeps; simpl; lia]].
    + split; auto.
    + split; [intros [] | intros H; contradiction].
  - rewrite andb_false_r.
    pose proof (stop_loop_spec polls 50 0%nat) as H.
    destruct (stop_loop 50 0 polls) as [r tr].
    destruct H as [Hr [Hl Hn]]. split; [|split].
    + rewrite Hr. split.
      * intros [j [Hj Hp]]. right. exists j. split; [lia | exact Hp].
      * intros [H|[j [Hj Hp]]]; [contradiction|].
        exists j. split; [lia | exact Hp].
    + split; [intros _; exact E | intros _; left; reflexivity].
    + unfold sleeps. cbn [filter].
      pose proof (filter_length_le
                    (fun a => match a with Usleep => true | _ => false end) tr).
      lia.
Qed.

Lemma poll_loop_true polls serial count :
  forall i have_pi,
    poll_loop count i have_pi serial polls = true ->
    exists j, (i <= j < i + count)%nat /\
              pi_value (polls j) = "running" /\
              pi_serial (polls j) <> serial.
Proof.
  induction count as [|count IH]; intros i have_pi H; [discriminate|].
  cbn [poll_loop] in H.
  assert (Hrec : forall h, poll_loop count (S i) h serial polls = true ->
                           exists j, (i <= j < i + S count)%nat /\
                                     pi_value (polls j) = "running" /\
                                     pi_serial (polls j) <> serial).
  { intros h Hh. destruct (IH _ _ Hh) as [j [Hj Hv]].
    exists j. split; [lia | exact Hv]. }
  destruct (have_pi || pi_found (polls i)); [|exact (Hrec _ H)].
  destruct (Z.eqb_spec (pi_serial (polls i)) serial) as [Es|Es];
    cbn [negb] in H; [exact (Hrec _ H)|].
  destruct (String.eqb_spec (pi_value (polls i)) "running") as [Er|Er].
  - exists i. split; [lia|]. split; assumption.
  - destruct (String.eqb (pi_value (polls i)) "stopped"); [discriminate|].
    exact (Hrec _ H).
Qed.

(** [StartSupplicant] returns [true] only if the service was already
    reported running, or if one of at most 200 polls read the value
    [running] from the init property at a serial number different from the
    one taken before the start request. *)
Theorem StartSupplicant_true_only_when_running w :
  fst (StartSupplicant w) = true ->
  supp_status w = "running" \/
  exists j, (j < 200)%nat /\
            pi_value (polls w j) = "running" /\
            pi_serial (polls w j)
            <> (if pi_found (initial_obs w) then pi_serial (initial_obs w) else 0).
Proof.
  unfold StartSupplicant.
  destruct (negb (property_get w =? 0) && String.eqb (supp_status w) "running")
    eqn:E.
  - intros _. left. apply andb_true_iff in E. destruct E as [_ E].
    apply String.eqb_eq. exact E.
  - destruct (ensure_config_file_exists (primary_conf w) <? 0);
      [discriminate|].
    cbn [fst]. intros H. right.
    destruct (poll_loop_true _ _ _ _ _ H) as [j [Hj Hv]].
    exists j. split; [lia | exact Hv].
Qed.

Lemma StartSupplicant_true_only_when_running_witness :
  supp_status world_no_template = "running" \/
  exists j, (j < 200)%nat /\
            pi_value (polls world_no_template j) = "running" /\
            pi_serial (polls world_no_template j)
            <> (if pi_found (initial_obs world_no_template)
                then pi_serial (initial_obs world_no_template) else 0).
Proof.
  apply (StartSupplicant_true_only_when_running world_no_template).
  reflexivity.
Defined.

End SupplicantPolling.

(* ====================================================================== *)
(** * frameworks/opt/net/wifi/libwifi_system/wifi.cpp: events without an
      interface name, fabricated events *)
(* ====================================================================== *)

Module MonitorEvents.

Import WifiEvent.
Local Open Scope outcome_scope.
Local Open Scope nat_scope.

(** What [snprintf] leaves in a non-empty array, read as a string: the
    message cut to the room there is. *)
Lemma snprintf_c_str (buf : list ascii) (s : cstring) :
  buf <> [] -> no_NUL s ->
  c_str (fst (snprintf buf s)) = firstn (length buf - 1) s.
Proof.
  intros Hne Hs. unfold snprintf. destruct buf as [|x buf]; [contradiction|].
  cbn [length fst].
  replace (S (length buf) - 1) with (length buf) by lia.
  apply c_str_terminated.
  unfold no_NUL in *. intros Hin. apply Hs.
  rewrite <- (firstn_skipn (length buf) s). apply in_or_app. left. exact Hin.
Qed.

Lemma no_NUL_terminating iface suffix :
  no_NUL iface -> no_NUL suffix -> no_NUL (terminating iface suffix).
Proof.
  intros Hi Hs. unfold terminating.
  repeat apply no_NUL_app; try assumption;
    intros Hin; simpl in Hin; repeat destruct Hin as [Hin|Hin];
      try discriminate; try contradiction.
Qed.

Lemma no_NUL_chars_closed : no_NUL (chars " - connection closed").
Proof.
  intros Hin. simpl in Hin. repeat destruct Hin as [Hin|Hin];
    try discriminate; try contradiction.
Qed.

Lemma no_NUL_chars_error : no_NUL (chars " - recv error").
Proof.
  intros Hin. simpl in Hin. repeat destruct Hin as [Hin|Hin];
    try discriminate; try contradiction.
Qed.

(** Without a monitor connection, or when [wifi_ctrl_recv] returns -2,
    [wifi_wait_for_event] delivers the fabricated event
    [IFNAME=<iface> CTRL-EVENT-TERMINATING  - connection closed], and for any
    other negative result the same with [- recv error]; the array receives
    as much of the message as fits before the terminating NUL, while the
    count returned is the length of the whole message, whatever the size of
    the array. *)
Theorem wifi_wait_for_event_fabricates_terminating primary_iface rx buf :
  buf <> [] -> no_NUL primary_iface ->
  (forall monitor_open,
      monitor_open = false \/ rx_result rx = (-2)%Z ->
      delivered (wifi_wait_for_event monitor_open primary_iface rx buf)
      = Done (firstn (length buf - 1)
                     (terminating primary_iface (chars " - connection closed")),
              Z.of_nat (length (terminating primary_iface
                                            (chars " - connection closed"))))) /\
  ((rx_result rx < 0)%Z -> rx_result rx <> (-2)%Z ->
   delivered (wifi_wait_for_event true primary_iface rx buf)
   = Done (firstn (length buf - 1)
                  (terminating primary_iface (chars " - recv error")),
           Z.of_nat (length (terminating primary_iface (chars " - recv error"))))).
Proof.
  intros Hne Hi.
  assert (Hclosed :
            delivered (Done (snprintf buf (terminating primary_iface
                                             (chars " - connection closed"))))
            = Done (firstn (length buf - 1)
                           (terminating primary_iface (chars " - connection closed")),
                    Z.of_nat (length (terminating primary_iface
                                                  (chars " - connection closed"))))).
  { unfold delivered. rewrite bind_Done.
    rewrite snprintf_c_str;
      [reflexivity | exact Hne
       | apply no_NUL_terminating; [exact Hi | exact no_NUL_chars_closed]]. }
  split.
  - intros monitor_open Hcase.
    unfold wifi_wait_for_event, wifi_wait_on_socket.
    destruct monitor_open; cbn [negb]; [|exact Hclosed].
    destruct Hcase as [Hc|Hc]; [discriminate|]. rewrite Hc.
    change ((-2 =? -2)%Z) with true. cbv iota. exact Hclosed.
  - intros Hneg Hn2.
    unfold wifi_wait_for_event, wifi_wait_on_socket. cbn [negb].
    destruct (Z.eqb_spec (rx_result rx) (-2)); [contradiction|].
    destruct (Z.ltb_spec (rx_result rx) 0); [|lia].
    unfold delivered. rewrite bind_Done.
    rewrite snprintf_c_str;
      [reflexivity | exact Hne
       | apply no_NUL_terminating; [exact Hi | exact no_NUL_chars_error]].
Qed.

(** The fabricated event received into an array of 16 bytes: 15 characters
    are stored and 56 is returned. *)
Lemma wifi_wait_for_event_fabricates_terminating_witness :
  delivered (wifi_wait_for_event false (chars "wlan0") (received [])
                                 (repeat NUL 16))
  = Done (chars "IFNAME=wlan0 CT", 56%Z).
Proof.
  destruct (wifi_wait_for_event_fabricates_terminating
              (chars "wlan0") (received []) (repeat NUL 16)) as [H _].
  - discriminate.
  - unfold no_NUL. simpl. intuition discriminate.
  - exact (H false (or_introl eq_refl)).
Defined.

(** For every received event [<tag>rest], without interface name, that
    leaves at least one byte of the caller's array unused, the event
    delivered by [wifi_wait_for_event] is [rest]: the bracketed level tag is
    removed; the returned count is the length of [rest]. *)
Theorem event_without_interface_loses_tag primary_iface tag rest buf :
  no_NUL tag -> ~ In ">"%char tag -> no_NUL rest ->
  length (chars "<" ++ tag ++ chars ">" ++ rest) + 1 <= length buf ->
  delivered (wifi_wait_for_event true primary_iface
               (received (chars "<" ++ tag ++ chars ">" ++ rest)) buf)
  = Done (rest, Z.of_nat (length rest)).
Proof.
  intros Ht Htgt Hr Hlen.
  set (ev := chars "<" ++ tag ++ chars ">" ++ rest) in *.
  assert (Hev : ev = "<"%char :: tag ++ ">"%char :: rest) by reflexivity.
  assert (Hevlen : length ev = 1 + length tag + 1 + length rest).
  { rewrite Hev. cbn [length]. rewrite length_app. cbn [length]. lia. }
  clearbody ev.
  unfold wifi_wait_for_event, wifi_wait_on_socket, received.
  cbn [negb rx_result rx_data].
  change ((0 =? -2)%Z) with false. change ((0 <? 0)%Z) with false. cbv iota.
  replace (length buf - 1 <? length ev) with false
    by (symmetry; apply Nat.ltb_ge; lia).
  assert (Hsk : exists a tl, skipn (length ev) buf = a :: tl).
  { pose proof (length_skipn (length ev) buf) as Hl.
    destruct (skipn (length ev) buf) as [|a tl]; [simpl in Hl; lia | eauto]. }
  destruct Hsk as [a [tl Hsk]].
  rewrite Hsk, store_at_end, bind_Done.
  replace ((0 =? 0)%Z && (length ev =? 0)) with false
    by (symmetry; apply andb_false_iff; right; apply Nat.eqb_neq; lia).
  set (buf1 := ev ++ NUL :: tl).
  assert (Hb1 : buf1 = "<"%char :: tag ++ ">"%char :: rest ++ NUL :: tl).
  { unfold buf1. rewrite Hev. cbn [app]. rewrite <- app_assoc. reflexivity. }
  assert (Hpre : strncmp_eq buf1 IFNAME IFNAMELEN = false)
    by (rewrite Hb1; reflexivity).
  rewrite Hpre.
  assert (Hc : load buf1 0 = Done "<"%char) by (rewrite Hb1; reflexivity).
  rewrite Hc, bind_Done. change (Ascii.eqb "<" "<") with true. cbv iota.
  assert (Hm : strchr buf1 0 ">" = Done (Some (1 + length tag))).
  { unfold strchr. cbn [skipn]. rewrite Hb1.
    change ("<"%char :: tag ++ ">"%char :: rest ++ NUL :: tl)
      with (("<"%char :: tag) ++ ">"%char :: rest ++ NUL :: tl).
    rewrite strchr_from_skip, strchr_from_hit; [reflexivity|].
    constructor; [split; discriminate | apply Forall_avoid; assumption]. }
  rewrite Hm, bind_Done.
  replace (length ev - (1 + length tag + 1 - 0)) with (length rest) by lia.
  assert (Hmv : exists junk,
             memmove buf1 0 (1 + length tag + 1) (length rest + 1)
             = Done ((rest ++ [NUL]) ++ junk)).
  { unfold memmove.
    assert (Hl1 : length buf1 = length ev + S (length tl))
      by (unfold buf1; rewrite length_app; reflexivity).
    replace ((1 + length tag + 1 + (length rest + 1) <=? length buf1) &&
             (0 + (length rest + 1) <=? length buf1)) with true
      by (symmetry; apply andb_true_iff; split; apply Nat.leb_le; lia).
    eexists. cbn [firstn app]. f_equal. f_equal.
    rewrite Hb1.
    replace ("<"%char :: tag ++ ">"%char :: rest ++ NUL :: tl)
      with ((("<"%char :: tag) ++ [">"%char]) ++ (rest ++ [NUL]) ++ tl)
      by (cbn [app]; rewrite <- !app_assoc; reflexivity).
    replace (1 + length tag + 1) with (length (("<"%char :: tag) ++ [">"%char]))
      by (rewrite length_app; simpl; lia).
    rewrite skipn_exact.
    replace (length rest + 1) with (length (rest ++ [NUL]))
      by (rewrite length_app; reflexivity).
    apply firstn_exact. }
  destruct Hmv as [junk Hmv]. rewrite Hmv, bind_Done.
  unfold delivered. rewrite bind_Done. cbn [fst snd].
  rewrite <- app_assoc. cbn [app]. rewrite c_str_terminated by exact Hr.
  reflexivity.
Qed.

Lemma event_without_interface_loses_tag_witness :
  delivered (wifi_wait_for_event true (chars "wlan0")
               (received (chars "<3>CTRL-EVENT-CONNECTED - foo"))
               (repeat NUL 2048))
  = Done (chars "CTRL-EVENT-CONNECTED - foo", 26%Z).
Proof.
  apply (event_without_interface_loses_tag (chars "wlan0") (chars "3")
           (chars "CTRL-EVENT-CONNECTED - foo") (repeat NUL 2048)).
  - unfold no_NUL. simpl. intuition discriminate.
  - simpl. intuition discriminate.
  - unfold no_NUL. simpl. intuition discriminate.
  - rewrite repeat_length. apply Nat.leb_le. vm_compute. reflexivity.
Defined.

End MonitorEvents.

(* ====================================================================== *)
(** * frameworks/av/media/libstagefright/SimpleDecodingSource.cpp: [stop],
      the life of an adapter, [Create] *)
(* ====================================================================== *)

Module DecodingLifecycle.

Import DecodingSource.
Local Open Scope Z_scope.

Arguments mReading {AMessage} p.
Arguments mFormat {AMessage} p.
Arguments mQueuedInputEOS {AMessage} p.
Arguments mGotOutputEOS {AMessage} p.

Section WithFormat.

Variable AMessage : Type.

(** Results of the two collaborators for one call of [stop]. *)
Record stop_env := {
  codec_stop : status_t;      (* mCodec->stop() *)
  source_stop : status_t      (* mSource->stop() *)
}.

(** The collaborator calls of [start] and [stop]. *)
Inductive event :=
| CodecStart_ | SourceStart_ | CodecStop | CodecRelease | SourceStop.

Definition event_of (c : call) : event :=
  match c with CodecStart => CodecStart_ | SourceStart => SourceStart_ end.

(** [SimpleDecodingSource::stop]: the returned status, the protected state
    afterwards and the collaborator calls made, in order.  With a read under
    way ([mReading]) the call waits on [mReadCondition] for the reader:
    [None]. *)
Definition stop (env : stop_env) (me : ProtectedState AMessage)
  : option (status_t * ProtectedState AMessage * list event) :=
  if negb (State_eqb (mState me) STARTED) then Some (- EINVAL, me, [])
  else if mReading me then None
  else
    let res1 := codec_stop env in
    let res2 := source_stop env in
    let calls :=
      if negb (res1 =? OK) then [CodecStop; CodecRelease; SourceStop]
      else [CodecStop; SourceStop] in
    Some (if negb (res1 =? OK) then res1 else res2,
          {| mReading := mReading me; mFormat := mFormat me;
             mState := if (res1 =? OK) && (res2 =? OK) then STOPPED else ERROR;
             mQueuedInputEOS := mQueuedInputEOS me;
             mGotOutputEOS := mGotOutputEOS me |},
          calls).

(** A call made on the adapter from outside. *)
Inductive operation :=
| Start (env : start_env)
| Stop (env : stop_env).

(** A sequence of calls on an adapter no read is made on: the state at the
    end and all collaborator calls made; [None] if one of the calls
    waits. *)
Fixpoint run (ops : list operation) (me : ProtectedState AMessage)
  : option (ProtectedState AMessage * list event) :=
  match ops with
  | [] => Some (me, [])
  | Start env :: ops' =>
      let '(_, me', calls) := start env me in
      match run ops' me' with
      | None => None
      | Some (me'', calls') => Some (me'', map event_of calls ++ calls')
      end
  | Stop env :: ops' =>
      match stop env me with
      | None => None
      | Some (_, me', calls) =>
          match run ops' me' with
          | None => None
          | Some (me'', calls') => Some (me'', calls ++ calls')
          end
      end
  end.

Definition is_event (e : event) (x : event) : bool :=
  match e, x with
  | CodecStart_, CodecStart_ | SourceStart_, SourceStart_
  | CodecStop, CodecStop | CodecRelease, CodecRelease
  | SourceStop, SourceStop => true
  | _, _ => false
  end.

(** How often [e] occurs among the calls. *)
Definition times (e : event) (calls : list event) : nat :=
  length (filter (is_event e) calls).

(** ** Properties *)

(** [stop] outside the state [STARTED] returns [-EINVAL], calls nothing and
    changes nothing.  From [STARTED], with no read under way, it stops the
    codec and then the source, the source also when the codec failed to
    stop, and releases the codec exactly when it failed to stop; the state
    becomes [STOPPED] if both succeeded and [ERROR] otherwise, and the
    status returned is the codec's if it failed and the source's
    otherwise. *)
Theorem stop_stops_codec_then_source :
  (forall env me,
      mState me <> STARTED -> stop env me = Some (- EINVAL, me, [])) /\
  (forall env me,
      mState me = STARTED -> mReading me = false ->
      exists res me' calls,
        stop env me = Some (res, me', calls) /\
        res = (if codec_stop env =? OK then source_stop env else codec_stop env) /\
        mState me' = (if res =? OK then STOPPED else ERROR) /\
        calls = (if codec_stop env =? OK
                 then [CodecStop; SourceStop]
                 else [CodecStop; CodecRelease; SourceStop])).
Proof.
  split.
  - intros env me H. unfold stop.
    destruct (State_eqb (mState me) STARTED) eqn:E; [|reflexivity].
    apply State_eqb_eq in E. contradiction.
  - intros env me Hs Hr. unfold stop. rewrite Hs, Hr.
    change (negb (State_eqb STARTED STARTED)) with false. cbv iota.
    eexists. eexists. eexists. split; [reflexivity|].
    destruct (Z.eqb_spec (codec_stop env) OK) as [E1|E1]; cbn [negb andb].
    + repeat split.
    + repeat split. cbn [mState].
      destruct (Z.eqb_spec (codec_stop env) OK); [contradiction | reflexivity].
Qed.

(** What has been called by the time the adapter is in a given state. *)
Definition calls_fit (st : State) (calls : list event) : Prop :=
  match st with
  | INIT => calls = []
  | STARTED => calls = [CodecStart_; SourceStart_]
  | STOPPING => False
  | STOPPED | ERROR =>
      times CodecStart_ calls <= 1 /\ times CodecStop calls <= 1
  end%nat.

Lemma run_invariant ops :
  forall me before,
    mReading me = false -> calls_fit (mState me) before ->
    exists me' calls,
      run ops me = Some (me', calls) /\
      mReading me' = false /\ calls_fit (mState me') (before ++ calls).
Proof.
  induction ops as [|op ops IH]; intros me before Hr Hfit.
  - exists me, []. rewrite app_nil_r. repeat split; assumption.
  - destruct op as [env|env]; cbn [run].
    + (* start *)
      destruct (State_eqb (mState me) INIT) eqn:E.
      * apply State_eqb_eq in E. rewrite E in Hfit. cbn [calls_fit] in Hfit.
        subst before. unfold start. rewrite E.
        change (negb (State_eqb INIT INIT)) with false. cbv iota.
        destruct (codec_start env =? DecodingSource.OK) eqn:Ec.
        -- destruct (source_start env =? DecodingSource.OK) eqn:Es.
           ++ destruct (IH {| mReading := mReading me; mFormat := mFormat me;
                              mState := STARTED; mQueuedInputEOS := false;
                              mGotOutputEOS := false |}
                           [CodecStart_; SourceStart_] Hr eq_refl)
                as [me' [calls [Hrun [Hr' Hf']]]].
              rewrite Hrun. exists me'. eexists. split; [reflexivity|].
              split; [exact Hr'|]. exact Hf'.
           ++ destruct (IH {| mReading := mReading me; mFormat := mFormat me;
                              mState := ERROR;
                              mQueuedInputEOS := mQueuedInputEOS me;
                              mGotOutputEOS := mGotOutputEOS me |}
                           [CodecStart_; SourceStart_] Hr)
                as [me' [calls [Hrun [Hr' Hf']]]];
                [cbn; lia|].
              rewrite Hrun. exists me'. eexists. split; [reflexivity|].
              split; [exact Hr'|]. exact Hf'.
        -- rewrite Ec.
           destruct (IH {| mReading := mReading me; mFormat := mFormat me;
                           mState := ERROR;
                           mQueuedInputEOS := mQueuedInputEOS me;
                           mGotOutputEOS := mGotOutputEOS me |}
                        [CodecStart_] Hr)
             as [me' [calls [Hrun [Hr' Hf']]]];
             [cbn; lia|].
           rewrite Hrun. exists me'. eexists. split; [reflexivity|].
           split; [exact Hr'|]. exact Hf'.
      * assert (Hne : mState me <> INIT).
        { intros Hi. apply State_eqb_eq in Hi. congruence. }
        rewrite (start_outside_INIT AMessage env me Hne).
        destruct (IH me before Hr Hfit) as [me' [calls [Hrun [Hr' Hf']]]].
        rewrite Hrun. exists me', calls. repeat split; assumption.
    + (* stop *)
      unfold stop. destruct (State_eqb (mState me) STARTED) eqn:E; cbn [negb].
      * apply State_eqb_eq in E. rewrite E in Hfit. cbn [calls_fit] in Hfit.
        subst before. rewrite Hr.
        match goal with
        | |- context [run ops ?m] =>
            destruct (IH m ([CodecStart_; SourceStart_]
                            ++ (if negb (codec_stop env =? OK)
                                then [CodecStop; CodecRelease; SourceStop]
                                else [CodecStop; SourceStop])) eq_refl)
              as [me' [calls [Hrun [Hr' Hf']]]]
        end.
        { cbn [mState].
          destruct ((codec_stop env =? OK) && (source_stop env =? OK));
            destruct (codec_stop env =? OK); cbn; lia. }
        rewrite Hrun. exists me'. eexists. split; [reflexivity|].
        split; [exact Hr'|]. rewrite app_assoc. exact Hf'.
      * destruct (IH me before Hr Hfit) as [me' [calls [Hrun [Hr' Hf']]]].
        rewrite Hrun. exists me', calls. repeat split; assumption.
Qed.

(** Whatever sequence of [start] and [stop] calls is made on a fresh
    adapter, and whatever the codec and the source answer, no call waits,
    the codec is started at most once and stopped at most once, and the
    adapter never returns to the state [INIT] once a call has started the
    codec. *)
Theorem adapter_is_started_and_stopped_at_most_once ops format :
  exists me' calls,
    run ops (ProtectedState_new format) = Some (me', calls) /\
    (times CodecStart_ calls <= 1)%nat /\ (times CodecStop calls <= 1)%nat /\
    (calls <> [] -> mState me' <> INIT).
Proof.
  destruct (run_invariant ops (ProtectedState_new format) [] eq_refl eq_refl)
    as [me' [calls [Hrun [_ Hfit]]]].
  exists me', calls. split; [exact Hrun|]. cbn [app] in Hfit.
  destruct (mState me') eqn:E; cbn [calls_fit] in Hfit.
  - subst calls. cbn. repeat split; try lia. intros H. contradiction.
  - subst calls. cbn. repeat split; try lia. discriminate.
  - contradiction.
  - destruct Hfit. repeat split; try assumption. discriminate.
  - destruct Hfit. repeat split; try assumption. discriminate.
Qed.

End WithFormat.

(** A started adapter whose codec fails to stop with -1 while the source
    stops: the codec is released, the source stopped, and -1 returned. *)
Definition started_adapter : ProtectedState unit :=
  {| mReading := false; mFormat := tt; mState := STARTED;
     mQueuedInputEOS := false; mGotOutputEOS := false |}.

Lemma stop_stops_codec_then_source_witness :
  exists me',
    stop unit {| codec_stop := -1; source_stop := OK |} started_adapter
    = Some (-1, me', [CodecStop; CodecRelease; SourceStop])
    /\ mState me' = ERROR.
Proof.
  destruct (proj2 (stop_stops_codec_then_source unit)
                  {| codec_stop := -1; source_stop := OK |} started_adapter
                  eq_refl eq_refl)
    as [res [me' [calls [Hs [Hr [Hm Hc]]]]]].
  exists me'. cbn in Hr, Hc. subst res calls. split; [exact Hs | exact Hm].
Defined.

End DecodingLifecycle.

Module DecodingCreate.

Import DecodingSource.
Local Open Scope string_scope.
Local Open Scope list_scope.
Local Open Scope Z_scope.

(** One entry of [matchingCodecs] with what the codec framework answers for
    it. *)
Record candidate := {
  componentName : string;
  allocated : bool;               (* CreateByComponentName(...) != NULL *)
  configure_result : status_t;    (* codec->configure(...) *)
  getOutputFormat_result : status_t
}.

Inductive create_call :=
| LooperStart
| CreateByComponentName (name : string) (ok : bool)
| Configure (name : string)
| GetOutputFormat (name : string)
| Release (name : string)
| LooperStop.

(** The loop of [SimpleDecodingSource::Create] over [matchingCodecs] and
    what follows it, for a source whose format names a MIME type (the CHECK
    before the loop passes): the component the adapter returned is built on,
    if any, and the calls made.  [desiredCodec] is [None] for [NULL]. *)
Fixpoint try_codecs (desiredCodec : option string) (cs : list candidate)
  : option string * list create_call :=
  match cs with
  | [] => (None, [LooperStop])
  | c :: rest =>
      let name := componentName c in
      if match desiredCodec with
         | Some d => negb (String.eqb name d)
         | None => false
         end
      then try_codecs desiredCodec rest
      else if allocated c then
        let err := configure_result c in
        let calls :=
          if err =? OK then [Configure name; GetOutputFormat name]
          else [Configure name] in
        let err := if err =? OK then getOutputFormat_result c else err in
        if err =? OK then
          (Some name, CreateByComponentName name true :: calls)
        else
          let '(r, tr) := try_codecs desiredCodec rest in
          (r, CreateByComponentName name true :: calls ++ Release name :: tr)
      else
        let '(r, tr) := try_codecs desiredCodec rest in
        (r, CreateByComponentName name false :: tr)
  end.

Definition Create (desiredCodec : option string) (cs : list candidate)
  : option string * list create_call :=
  let '(r, tr) := try_codecs desiredCodec cs in (r, LooperStart :: tr).

(** The codecs a run obtained, released, and whether it stopped the
    looper. *)
Fixpoint obtained (tr : list create_call) : list string :=
  match tr with
  | [] => []
  | CreateByComponentName name true :: tr' => name :: obtained tr'
  | _ :: tr' => obtained tr'
  end.

Fixpoint released (tr : list create_call) : list string :=
  match tr with
  | [] => []
  | Release name :: tr' => name :: released tr'
  | _ :: tr' => released tr'
  end.

Definition stops_looper (tr : list create_call) : bool :=
  existsb (fun c => match c with LooperStop => true | _ => false end) tr.

(** ** Properties *)

Lemma obtained_app tr1 tr2 : obtained (tr1 ++ tr2) = obtained tr1 ++ obtained tr2.
Proof.
  induction tr1 as [|c tr1 IH]; [reflexivity|].
  destruct c as [|n ok| | | |]; cbn [app obtained]; rewrite ?IH; try reflexivity.
  destruct ok; reflexivity.
Qed.

Lemma released_app tr1 tr2 : released (tr1 ++ tr2) = released tr1 ++ released tr2.
Proof.
  induction tr1 as [|c tr1 IH]; [reflexivity|].
  destruct c; cbn [app released]; rewrite ?IH; reflexivity.
Qed.

Lemma try_codecs_spec desiredCodec cs :
  let '(r, tr) := try_codecs desiredCodec cs in
  obtained tr = released tr ++ match r with Some n => [n] | None => [] end /\
  stops_looper tr = match r with Some _ => false | None => true end /\
  match r with
  | Some n =>
      exists c, In c cs /\ componentName c = n /\ allocated c = true /\
                configure_result c = OK /\ getOutputFormat_result c = OK /\
                match desiredCodec with Some d => n = d | None => True end
  | None => True
  end.
Proof.
  induction cs as [|c rest IH]; [repeat split|].
  cbn [try_codecs].
  destruct (match desiredCodec with
            | Some d => negb (String.eqb (componentName c) d)
            | None => false
            end) eqn:Ed.
  - destruct (try_codecs desiredCodec rest) as [r tr].
    destruct IH as [Ho [Hs Hr]]. split; [exact Ho|]. split; [exact Hs|].
    destruct r as [n|]; [|exact I].
    destruct Hr as [c' [Hin Hc']]. exists c'. split; [right; exact Hin | exact Hc'].
  - destruct (allocated c) eqn:Ea.
    + destruct (Z.eqb_spec (configure_result c) OK) as [Ec|Ec].
      * destruct (Z.eqb_spec (getOutputFormat_result c) OK) as [Eg|Eg].
        -- repeat split. exists c. split; [left; reflexivity|].
           repeat split; try assumption.
           destruct desiredCodec as [d|]; [|exact I].
           apply negb_false_iff in Ed. apply String.eqb_eq. exact Ed.
        -- destruct (try_codecs desiredCodec rest) as [r tr].
           destruct IH as [Ho [Hs Hr]]. cbn [obtained released app stops_looper existsb].
           split; [rewrite Ho; reflexivity|]. split; [exact Hs|].
           destruct r as [n|]; [|exact I].
           destruct Hr as [c' [Hin Hc']]. exists c'.
           split; [right; exact Hin | exact Hc'].
      * cbv iota. destruct (Z.eqb_spec (configure_result c) OK) as [Ec'|_]; [contradiction|].
        destruct (try_codecs desiredCodec rest) as [r tr].
        destruct IH as [Ho [Hs Hr]]. cbn [obtained released app stops_looper existsb].
        split; [rewrite Ho; reflexivity|]. split; [exact Hs|].
        destruct r as [n|]; [|exact I].
        destruct Hr as [c' [Hin Hc']]. exists c'.
        split; [right; exact Hin | exact Hc'].
    + destruct (try_codecs desiredCodec rest) as [r tr].
      destruct IH as [Ho [Hs Hr]]. cbn [obtained released stops_looper existsb].
      split; [exact Ho|]. split; [exact Hs|].
      destruct r as [n|]; [|exact I].
      destruct Hr as [c' [Hin Hc']]. exists c'.
      split; [right; exact Hin | exact Hc'].
Qed.

(** In every run of [SimpleDecodingSource::Create] each codec obtained is
    released again, in the order obtained, except the one the adapter
    returned is built on; that one was configured and gave its output format
    successfully, and has the desired name if one was given; the looper is
    stopped exactly when no adapter is returned. *)
Theorem Create_releases_rejected_codecs desiredCodec cs :
  let '(r, tr) := Create desiredCodec cs in
  obtained tr = released tr ++ match r with Some n => [n] | None => [] end /\
  stops_looper tr = match r with Some _ => false | None => true end /\
  match r with
  | Some n =>
      exists c, In c cs /\ componentName c = n /\ allocated c = true /\
                configure_result c = OK /\ getOutputFormat_result c = OK /\
                match desiredCodec with Some d => n = d | None => True end
  | None => True
  end.
Proof.
  unfold Create. pose proof (try_codecs_spec desiredCodec cs) as H.
  destruct (try_codecs desiredCodec cs) as [r tr]. exact H.
Qed.

End DecodingCreate.

Module WordBounds.

Import WordBreaker.
Local Open Scope list_scope.
Local Open Scope Z_scope.
Local Open Scope outcome_scope.

Section Words.

(** ICU's character properties and the values [wordStart] and [wordEnd]
    compare them with. *)
Variable u_getIntPropertyValue_LINE_BREAK : Z -> Z.
Variable U_LB_OPEN_PUNCTUATION U_LB_QUOTATION : Z.
Variable U_GET_GC_MASK : Z -> Z.
Variable U_GC_ZS_MASK U_GC_P_MASK : Z.
Variable mText : list Z.

(** The test of [wordStart]'s loop: leading punctuation, of class OP or
    QU. *)
Definition leading_punctuation (c : Z) : bool :=
  let lb := u_getIntPropertyValue_LINE_BREAK c in
  (lb =? U_LB_OPEN_PUNCTUATION) || (lb =? U_LB_QUOTATION).

(** The test of [wordEnd]'s loop: trailing space or punctuation. *)
Definition trailing_space_or_punctuation (c : Z) : bool :=
  negb (Z.land (U_GET_GC_MASK c) (Z.lor U_GC_ZS_MASK U_GC_P_MASK) =? 0).

(** [while (result < mCurrent)] of [wordStart], with at most [n] code units
    left before [mCurrent]. *)
Fixpoint wordStart_loop (n : nat) (w : state) (result : Z) : outcome Z :=
  match n with
  | O => Done result
  | S n' =>
      if result <? mCurrent w then
        p <- U16_NEXT mText result (mCurrent w) ;;
        let '(ix, c) := p in
        if negb (leading_punctuation c) then Done result
        else wordStart_loop n' w ix
      else Done result
  end.

Definition wordStart (w : state) : outcome Z :=
  if mInEmailOrUrl w then Done (mLast w)
  else wordStart_loop (Z.to_nat (mCurrent w - mLast w)) w (mLast w).

(** [while (result > mLast)] of [wordEnd], with at most [n] code units left
    behind [mLast]. *)
Fixpoint wordEnd_loop (n : nat) (w : state) (result : Z) : outcome Z :=
  match n with
  | O => Done result
  | S n' =>
      if result >? mLast w then
        p <- U16_PREV mText (mLast w) result ;;
        let '(ix, c) := p in
        if negb (trailing_space_or_punctuation c) then Done result
        else wordEnd_loop n' w ix
      else Done result
  end.

Definition wordEnd (w : state) : outcome Z :=
  if mInEmailOrUrl w then Done (mLast w)
  else wordEnd_loop (Z.to_nat (mCurrent w - mLast w)) w (mCurrent w).

Definition breakBadness (w : state) : Z :=
  if mInEmailOrUrl w && (mCurrent w <? mScanOffset w) then 1 else 0.

(** ** Properties *)

Lemma U16_NEXT_within s i len :
  0 <= i < len -> len <= Zlength' s ->
  exists ix c, U16_NEXT s i len = Done (ix, c) /\ i < ix <= len.
Proof.
  intros Hi Hl. unfold U16_NEXT.
  destruct (load_in_range s i) as [c ->]; [lia|]. rewrite bind_Done. cbv zeta.
  destruct (U16_IS_LEAD c); [|eexists _, _; split; [reflexivity | lia]].
  destruct (Z.eqb_spec (i + 1) len); cbn [negb];
    [eexists _, _; split; [reflexivity | lia]|].
  destruct (load_in_range s (i + 1)) as [c2 ->]; [lia|]. rewrite bind_Done.
  destruct (U16_IS_TRAIL c2); eexists _, _; (split; [reflexivity | lia]).
Qed.

Lemma wordStart_loop_spec n w : forall result,
  0 <= result <= mCurrent w -> mCurrent w <= Zlength' mText ->
  mCurrent w - result <= Z.of_nat n ->
  exists s, wordStart_loop n w result = Done s /\ result <= s <= mCurrent w /\
            (s = mCurrent w \/
             exists ix c, U16_NEXT mText s (mCurrent w) = Done (ix, c) /\
                          leading_punctuation c = false).
Proof.
  induction n as [|n IH]; intros result Hr Hc Hn.
  - exists result. split; [reflexivity|]. split; [lia|]. left. lia.
  - cbn [wordStart_loop]. destruct (Z.ltb_spec result (mCurrent w)) as [Hlt|Hge].
    + destruct (U16_NEXT_within mText result (mCurrent w)) as [ix [c [E Hix]]];
        [lia | exact Hc |].
      rewrite E, bind_Done. destruct (leading_punctuation c) eqn:El; cbn [negb].
      * destruct (IH ix) as [s [Es [Hs Hstop]]]; [lia | exact Hc | lia |].
        exists s. split; [exact Es|]. split; [lia | exact Hstop].
      * exists result. split; [reflexivity|]. split; [lia|].
        right. exists ix, c. split; assumption.
    + exists result. split; [reflexivity|]. split; [lia|]. left. lia.
Qed.

Lemma wordEnd_loop_spec n w : forall result,
  0 <= mLast w <= result -> result <= Zlength' mText ->
  result - mLast w <= Z.of_nat n ->
  exists e, wordEnd_loop n w result = Done e /\ mLast w <= e <= result /\
            (e = mLast w \/
             exists ix c, U16_PREV mText (mLast w) e = Done (ix, c) /\
                          trailing_space_or_punctuation c = false).
Proof.
  induction n as [|n IH]; intros result Hr Hc Hn.
  - exists result. split; [reflexivity|]. split; [lia|]. left. lia.
  - cbn [wordEnd_loop]. destruct (Z.gtb_spec result (mLast w)) as [Hgt|Hle].
    + destruct (U16_PREV_total mText (mLast w) result) as [[ix c] E]; [lia | lia |].
      pose proof (U16_PREV_offset mText (mLast w) result (ix, c)
                    (proj1 Hr) Hgt E) as Hix.
      cbn [fst] in Hix.
      rewrite E, bind_Done.
      destruct (trailing_space_or_punctuation c) eqn:Et; cbn [negb].
      * destruct (IH ix) as [e [Ee [He Hstop]]]; [lia | lia | lia |].
        exists e. split; [exact Ee|]. split; [lia | exact Hstop].
      * exists result. split; [reflexivity|]. split; [lia|].
        right. exists ix, c. split; assumption.
    + exists result. split; [reflexivity|]. split; [lia|]. left. lia.
Qed.

(** For a breaker whose last two boundaries lie in the text,
    [0 <= mLast <= mCurrent <= mTextSize], [wordStart()] and [wordEnd()]
    return and read inside the text only; both results lie between [mLast]
    and [mCurrent].  Outside an e-mail address or URL [wordStart()] stops at
    [mCurrent] or in front of a code point that is no leading punctuation,
    and [wordEnd()] stops at [mLast] or behind a code point that is neither
    space nor punctuation; inside one both return [mLast]. *)
Theorem wordStart_wordEnd_within_word (w : state) :
  0 <= mLast w -> mLast w <= mCurrent w -> mCurrent w <= mTextSize mText ->
  exists s e,
    wordStart w = Done s /\ wordEnd w = Done e /\
    mLast w <= s <= mCurrent w /\ mLast w <= e <= mCurrent w /\
    if mInEmailOrUrl w then s = mLast w /\ e = mLast w
    else
      (s = mCurrent w \/
       exists ix c, U16_NEXT mText s (mCurrent w) = Done (ix, c) /\
                    leading_punctuation c = false) /\
      (e = mLast w \/
       exists ix c, U16_PREV mText (mLast w) e = Done (ix, c) /\
                    trailing_space_or_punctuation c = false).
Proof.
  intros H0 Hlc Hc. unfold mTextSize in Hc. unfold wordStart, wordEnd.
  destruct (mInEmailOrUrl w).
  - exists (mLast w), (mLast w). repeat split; lia.
  - destruct (wordStart_loop_spec (Z.to_nat (mCurrent w - mLast w)) w (mLast w))
      as [s [Es [Hs Hss]]]; [lia | exact Hc | lia |].
    destruct (wordEnd_loop_spec (Z.to_nat (mCurrent w - mLast w)) w (mCurrent w))
      as [e [Ee [He Hes]]]; [lia | exact Hc | lia |].
    exists s, e. repeat split; try assumption; lia.
Qed.

End Words.

(** The text [("ab."] between the boundaries 0 and 5, with the quotation
    mark and the parenthesis as leading and the full stop as trailing
    punctuation: the word is [ab], from 2 to 4. *)
Definition quoted_word : state :=
  {| mLast := 0; mCurrent := 5; mIteratorWasReset := false; mScanOffset := 5;
     mInEmailOrUrl := false; ahead := [] |}.

Lemma wordStart_wordEnd_within_word_witness :
  wordStart (fun c => if (c =? 40) then 1 else if (c =? 34) then 2 else 0) 1 2
            [40; 34; 97; 98; 46] quoted_word = Done 2 /\
  wordEnd (fun c => if (c =? 46) then 4 else 0) 8 4
          [40; 34; 97; 98; 46] quoted_word = Done 4.
Proof.
  destruct (wordStart_wordEnd_within_word
              (fun c => if (c =? 40) then 1 else if (c =? 34) then 2 else 0) 1 2
              (fun c => if (c =? 46) then 4 else 0) 8 4
              [40; 34; 97; 98; 46] quoted_word)
    as [s [e [Hs [He _]]]].
  - vm_compute. discriminate.
  - vm_compute. discriminate.
  - vm_compute. discriminate.
  - split; reflexivity.
Defined.

End WordBounds.

Module UrlBreaks.

Import WordBreaker WordBounds.
Local Open Scope list_scope.
Local Open Scope Z_scope.
Local Open Scope outcome_scope.

Lemma scan_bound rest : forall i st,
  i <= fst (scan rest i st) <= i + Zlength' rest.
Proof.
  induction rest as [|c rest IH]; intros i st; cbn [scan].
  - cbn. lia.
  - unfold Zlength' in *. cbn [length]. rewrite Nat2Z.inj_succ.
    destruct (negb ((32 <? c) && (c <=? 126))); [cbn; lia|].
    match goal with |- _ <= fst (scan rest (i + 1) ?s) <= _ =>
      specialize (IH (i + 1) s) end.
    lia.
Qed.

Lemma following_bound bounds size offset :
  0 <= size -> Forall (fun b => b <= size) bounds ->
  fst (following bounds offset) <= size.
Proof.
  intros Hs Hb. unfold following, engine_next, after.
  destruct (filter (fun b => offset <? b) bounds) as [|b rest] eqn:E.
  - cbn. unfold DONE. lia.
  - cbn. assert (Hin : In b (filter (fun b => offset <? b) bounds))
      by (rewrite E; left; reflexivity).
    apply filter_In in Hin. rewrite Forall_forall in Hb. apply Hb, Hin.
Qed.

Lemma scan_step_offset mText bounds w :
  Forall (fun b => b <= mTextSize mText) bounds ->
  mScanOffset w <= mTextSize mText ->
  0 <= mCurrent w <= mTextSize mText ->
  mLast (scan_step mText bounds w) = mCurrent w /\
  mScanOffset (scan_step mText bounds w) <= mTextSize mText.
Proof.
  intros Hb Hs Hc. unfold scan_step.
  destruct (mCurrent w >=? mScanOffset w); [|split; [reflexivity | exact Hs]].
  destruct (Z.ltb_spec (mCurrent w) 0) as [Hn|_]; [lia|].
  pose proof (scan_bound (skipn (Z.to_nat (mCurrent w)) mText) (mCurrent w) START)
    as Hsc.
  assert (Hlen : Zlength' (skipn (Z.to_nat (mCurrent w)) mText)
                 = mTextSize mText - mCurrent w).
  { unfold mTextSize, Zlength' in *. rewrite length_skipn. lia. }
  rewrite Hlen in Hsc.
  destruct (scan (skipn (Z.to_nat (mCurrent w)) mText) (mCurrent w) START)
    as [i st]. cbn [fst] in Hsc.
  assert (Hurl :
    mLast (let '(isB, it) := isBoundary bounds i in
           let '(i0, it0) := if isB then (i, it) else following bounds i in
           {| mLast := mCurrent w; mCurrent := mCurrent w;
              mIteratorWasReset := true; mScanOffset := i0;
              mInEmailOrUrl := true; ahead := it0 |}) = mCurrent w /\
    mScanOffset (let '(isB, it) := isBoundary bounds i in
           let '(i0, it0) := if isB then (i, it) else following bounds i in
           {| mLast := mCurrent w; mCurrent := mCurrent w;
              mIteratorWasReset := true; mScanOffset := i0;
              mInEmailOrUrl := true; ahead := it0 |}) <= mTextSize mText).
  { destruct (isBoundary bounds i) as [isB it]. destruct isB.
    - split; [reflexivity | cbn; lia].
    - pose proof (following_bound bounds (mTextSize mText) i
                    ltac:(unfold mTextSize, Zlength'; lia) Hb) as Hf.
      destruct (following bounds i) as [i0 it0]. split; [reflexivity | exact Hf]. }
  destruct st; try exact Hurl; (split; [reflexivity | cbn; lia]).
Qed.

Lemma url_loop_spec mText w n : forall i lastChar,
  0 <= mLast w -> mLast w < i -> mScanOffset w <= Zlength' mText ->
  i + Z.of_nat n <= mScanOffset w \/ n = O ->
  exists r, url_loop mText n w i lastChar = Done r /\ i <= r <= i + Z.of_nat n.
Proof.
  induction n as [|n IH]; intros i lastChar H0 Hi Hs Hn.
  - exists i. split; [reflexivity | lia].
  - destruct Hn as [Hn|Hn]; [|discriminate]. rewrite Nat2Z.inj_succ in *.
    cbn [url_loop]. destruct (breakAfter lastChar); [exists i; split; [reflexivity | lia]|].
    assert (Hslash : exists b,
      (if (lastChar =? 47) && (i >=? mLast w + 2)
       then c <- load mText (i - 2) ;; Done (c =? 47)
       else Done false) = Done b).
    { destruct ((lastChar =? 47) && (i >=? mLast w + 2)) eqn:E; [|eauto].
      apply andb_prop in E. destruct E as [_ E]. apply Z.geb_le in E.
      destruct (load_in_range mText (i - 2)) as [c ->]; [lia|].
      rewrite bind_Done. eauto. }
    destruct Hslash as [b ->]. rewrite bind_Done.
    destruct b; [exists i; split; [reflexivity | lia]|].
    destruct (load_in_range mText i) as [thisChar ->]; [lia|]. rewrite bind_Done.
    assert (Hstop : exists b,
      (if negb (lastChar =? 45) then
         if breakBefore thisChar then Done true
         else if (thisChar =? 47) && negb (lastChar =? 47) then
           nextSlash <- (if i + 1 <? mScanOffset w
                         then c <- load mText (i + 1) ;; Done (c =? 47)
                         else Done false) ;;
           Done (negb nextSlash)
         else Done false
       else Done false) = Done b).
    { destruct (negb (lastChar =? 45)); [|eauto].
      destruct (breakBefore thisChar); [eauto|].
      destruct ((thisChar =? 47) && negb (lastChar =? 47)); [|eauto].
      destruct (Z.ltb_spec (i + 1) (mScanOffset w)); [|rewrite bind_Done; eauto].
      destruct (load_in_range mText (i + 1)) as [c ->]; [lia|].
      rewrite !bind_Done. eauto. }
    destruct Hstop as [b ->]. rewrite bind_Done.
    destruct b; [exists i; split; [reflexivity | lia]|].
    destruct (IH (i + 1) thisChar) as [r [Er Hr]]; [lia | lia | exact Hs | |].
    + destruct n; [right; reflexivity | left; lia].
    + exists r. split; [exact Er | lia].
Qed.

(** When the breaker stands inside the text, [0 <= mCurrent < mTextSize],
    its scan offset and the engine's boundaries do not exceed the text, and
    the look-ahead finds an e-mail address or URL, [next()] returns reading
    inside the text only.  The break returned lies strictly after the
    previous one and not after the scan offset (or one unit on, if the scan
    offset does not lie beyond that); [mLast] is the previous break, and
    [breakBadness()] is 1 exactly when the break lies before the scan
    offset. *)
Theorem next_in_url_advances
    (u_getIntPropertyValue_LINE_BREAK : Z -> Z)
    (U_LB_ALPHABETIC U_LB_HEBREW_LETTER : Z)
    (U_LB_PREFIX_NUMERIC U_LB_POSTFIX_NUMERIC : Z)
    (isEmoji isEmojiModifier isEmojiBase : Z -> bool)
    (mText bounds : list Z) (w : state) :
  0 <= mCurrent w < mTextSize mText ->
  mScanOffset w <= mTextSize mText ->
  Forall (fun b => b <= mTextSize mText) bounds ->
  mInEmailOrUrl (scan_step mText bounds w) = true ->
  exists r w',
    next u_getIntPropertyValue_LINE_BREAK U_LB_ALPHABETIC U_LB_HEBREW_LETTER
         U_LB_PREFIX_NUMERIC U_LB_POSTFIX_NUMERIC
         isEmoji isEmojiModifier isEmojiBase mText bounds w = Done (r, w') /\
    mLast w' = mCurrent w /\ mCurrent w' = r /\ mInEmailOrUrl w' = true /\
    mCurrent w < r <= Z.max (mCurrent w + 1) (mScanOffset w') /\
    breakBadness w' = (if r <? mScanOffset w' then 1 else 0).
Proof.
  intros Hc Hs Hb Hurl.
  destruct (scan_step_offset mText bounds w Hb Hs ltac:(lia)) as [Hl Ho].
  unfold next. cbv zeta. rewrite Hurl.
  set (s := scan_step mText bounds w) in *. rewrite Hl.
  destruct (load_in_range mText (mCurrent w)) as [lastChar ->];
    [exact Hc|]. rewrite bind_Done.
  destruct (url_loop_spec mText s
              (Z.to_nat (mScanOffset s - (mCurrent w + 1))) (mCurrent w + 1) lastChar)
    as [r [Er Hr]].
  - rewrite Hl. lia.
  - rewrite Hl. lia.
  - exact Ho.
  - destruct (Z.to_nat (mScanOffset s - (mCurrent w + 1))) eqn:En;
      [right; reflexivity | left; lia].
  - rewrite Er, bind_Done. eexists _, _. split; [reflexivity|].
    cbn [mLast mCurrent mInEmailOrUrl mScanOffset].
    repeat split; lia.
Qed.

(** The address [a@b.c] between the boundaries 0 and 5: the first break is
    before the full stop, at 3. *)
Lemma next_in_url_advances_witness :
  exists w', plain_next [97; 64; 98; 46; 99] [0; 5] (setText_state [0; 5])
             = Done (3, w') /\ breakBadness w' = 1.
Proof.
  destruct (next_in_url_advances
              (fun _ => 0) 2 38 25 24 (fun _ => false) (fun _ => false)
              (fun _ => false) [97; 64; 98; 46; 99] [0; 5] (setText_state [0; 5]))
    as [r [w' [Hn [_ [_ [_ [_ Hbad]]]]]]].
  - vm_compute. split; [discriminate | reflexivity].
  - vm_compute. discriminate.
  - repeat constructor; vm_compute; discriminate.
  - reflexivity.
  - exists w'. unfold plain_next. 
    assert (Er : r = 3) by (vm_compute in Hn; inversion Hn; reflexivity).
    subst r. split; [exact Hn|].
    rewrite Hbad. vm_compute in Hn. inversion Hn. reflexivity.
Defined.

End UrlBreaks.
